(** * glance: the CSV data engine, embedded and verified

    A shallow embedding of the data engine of the [glance] CSV explorer
    ([src/csv_reader.cpp], [src/delim.cpp], [src/type_inference.cpp],
    [src/filter.cpp], and the field writer of [src/tui.cpp]) and the
    properties its specification states.

    Conventions of the embedding.
    - The content of a [std::string] or [std::string_view] is a
      [list ascii]; the memory-mapped file is a [list ascii] too and
      [file_size_] is its length.
    - [size_t] offsets are [nat]: every offset the engine computes is bounded
      by the file size, so no unsigned wrap-around can occur on them.  The
      eight-bit lanes of the vectorized newline counter are [Z] with the
      wrap-around written out.
    - A [std::string_view] stored in the table is kept as the code keeps it,
      an (offset, length) pair into the backing store, or the
      default-constructed null view.
    - A [for (i = a; i < b; ++i)] loop is a recursion on its trip count;
      a [while] loop whose index advances irregularly is a recursion on fuel
      with the loop guard written out, and its caller passes the distance to
      the end of the range (adequacy of that fuel is proved in Part II).
    - [double] arithmetic is an interface, [DoubleOps]; the functions are
      run on the primitive binary64 floats and on exact rationals, and the
      facts of binary64 arithmetic that a proof uses are the class
      [DoubleLaws].
    - [throw] is a value in a sum type; [std::stod], which is not part of
      the repository, is a parameter that returns [None] where it throws. *)

From Stdlib Require Import QArith PrimFloat Uint63.
From Stdlib Require Import String Ascii Bool Arith ZArith Lia List.
From Stdlib Require Import Sorting.Sorted Sorting.Permutation.
Import ListNotations.
Close Scope Q_scope.

(* ===================================================================== *)
(** * Part I. The embedding                                               *)
(* ===================================================================== *)

(** ** Characters *)

Definition DQUOTE : ascii := Eval cbv in ascii_of_nat 34.
Definition NL : ascii := Eval cbv in ascii_of_nat 10.
Definition CR : ascii := Eval cbv in ascii_of_nat 13.
Definition TAB : ascii := Eval cbv in ascii_of_nat 9.
Definition SPACE : ascii := " "%char.
Definition COMMA : ascii := ","%char.
Definition PIPE : ascii := "|"%char.
Definition SEMI : ascii := ";"%char.
Definition DOLLAR : ascii := "$"%char.

(** A C string literal. *)
Definition str (s : string) : list ascii := list_ascii_of_string s.

(** [base[i]]; reads outside the buffer never happen in the code (each is
    guarded by a bound test), the default only makes the function total. *)
Definition at_ (base : list ascii) (i : nat) : ascii := nth i base zero.

(** Unsigned value of a [char], as [std::char_traits<char>] compares them. *)
Definition code (c : ascii) : nat := nat_of_ascii c.

(** [c >= lo && c <= hi] *)
Definition in_range (lo hi c : ascii) : bool :=
  (code lo <=? code c) && (code c <=? code hi).

Definition is_digit (c : ascii) : bool := in_range "0" "9" c.

(** ** csv_reader.cpp *)

(** *** unquote *)

(** The [for] loop of [unquote] over the stripped field: at a quote that is
    followed by a quote, one quote is emitted and both are consumed. *)
Fixpoint unescape (field : list ascii) : list ascii :=
  match field with
  | [] => []
  | c :: rest =>
      match rest with
      | c' :: rest' =>
          if (c =? DQUOTE)%char && (c' =? DQUOTE)%char
          then DQUOTE :: unescape rest'
          else c :: unescape rest
      | [] => [c]
      end
  end.

Definition front (s : list ascii) : ascii := hd zero s.
Definition back (s : list ascii) : ascii := last s zero.
Definition remove_prefix1 (s : list ascii) : list ascii := tl s.
Definition remove_suffix1 (s : list ascii) : list ascii := removelast s.

Definition unquote (field : list ascii) : list ascii :=
  if (2 <=? length field) && (front field =? DQUOTE)%char
     && (back field =? DQUOTE)%char
  then unescape (remove_suffix1 (remove_prefix1 field))
  else field.

(** Every quote doubled: the loop that [csv_escape] of [src/tui.cpp] runs
    over a value it quotes. *)
Fixpoint double_quotes (x : list ascii) : list ascii :=
  match x with
  | [] => []
  | c :: r => if (c =? DQUOTE)%char then DQUOTE :: DQUOTE :: double_quotes r
              else c :: double_quotes r
  end.

(** [quoteField], the quoting the round-trip property of [unquote] is
    stated with: the text wrapped in quotes, every embedded quote doubled. *)
Definition quoteField (x : list ascii) : list ascii :=
  DQUOTE :: double_quotes x ++ [DQUOTE].

(** [csv_escape] of [src/tui.cpp], the writer of the fields that the engine
    reads back: a value is quoted when it holds the delimiter, a quote, a
    newline or a carriage return. *)
Definition needs_quote (val : list ascii) (delim : ascii) : bool :=
  existsb (fun c => (c =? delim)%char || (c =? DQUOTE)%char
                    || (c =? NL)%char || (c =? CR)%char) val.

Definition csv_escape (val : list ascii) (delim : ascii) : list ascii :=
  if negb (needs_quote val delim) then val
  else DQUOTE :: double_quotes val ++ [DQUOTE].

(** *** count_newlines *)

(** NEON vectors of sixteen unsigned bytes, one [Z] in [0, 256) per lane. *)
Definition uint8x16_t := list Z.

Definition vdupq_n_u8 (x : Z) : uint8x16_t := repeat x 16.

(** [vld1q_u8(data + i)] *)
Definition vld1q_u8 (data : list ascii) (i : nat) : uint8x16_t :=
  map (fun k => Z.of_nat (code (at_ data (i + k)))) (seq 0 16).

Fixpoint lanewise (f : Z -> Z -> Z) (a b : uint8x16_t) : uint8x16_t :=
  match a, b with
  | x :: a', y :: b' => f x y :: lanewise f a' b'
  | _, _ => []
  end.

(** Lane is all ones where the operands are equal, zero elsewhere. *)
Definition vceqq_u8 : uint8x16_t -> uint8x16_t -> uint8x16_t :=
  lanewise (fun x y => if (x =? y)%Z then 255%Z else 0%Z).
Definition vandq_u8 : uint8x16_t -> uint8x16_t -> uint8x16_t :=
  lanewise Z.land.
(** Lane-wise addition, wrapping at eight bits. *)
Definition vaddq_u8 : uint8x16_t -> uint8x16_t -> uint8x16_t :=
  lanewise (fun x y => ((x + y) mod 256)%Z).
(** Add across the vector; the result is a [uint8_t], so it wraps too. *)
Definition vaddvq_u8 (a : uint8x16_t) : Z :=
  (fold_left Z.add a 0 mod 256)%Z.

(** The inner [for (j = 0; j < batch; ++j)] loop: returns the accumulator
    and the advanced index. *)
Fixpoint neon_batch (data : list ascii) (nl ones : uint8x16_t)
         (batch : nat) (acc : uint8x16_t) (i : nat) : uint8x16_t * nat :=
  match batch with
  | 0 => (acc, i)
  | S j =>
      let chunk := vld1q_u8 data i in
      neon_batch data nl ones j
                 (vaddq_u8 acc (vandq_u8 (vceqq_u8 chunk nl) ones)) (i + 16)
  end.

(** The outer [while (i + 16 <= len)] loop. *)
Fixpoint neon_loop (data : list ascii) (len : nat) (nl ones : uint8x16_t)
         (fuel : nat) (count i : nat) : nat * nat :=
  match fuel with
  | 0 => (count, i)
  | S fuel' =>
      if i + 16 <=? len then
        let acc := vdupq_n_u8 0 in
        let remaining := (len - i) / 16 in
        let batch := Nat.min remaining 255 in
        let '(acc, i) := neon_batch data nl ones batch acc i in
        neon_loop data len nl ones fuel' (count + Z.to_nat (vaddvq_u8 acc)) i
      else (count, i)
  end.

(** The scalar tail, [for (; i < len; ++i)], by its trip count. *)
Fixpoint scalar_loop (data : list ascii) (n : nat) (count i : nat) : nat :=
  match n with
  | 0 => count
  | S n' =>
      scalar_loop data n'
                  (if (at_ data i =? NL)%char then S count else count) (S i)
  end.

(** [arm_neon] says whether the translation unit is compiled with
    [__ARM_NEON] defined. *)
Definition count_newlines (arm_neon : bool) (data : list ascii) (len : nat)
  : nat :=
  let '(count, i) :=
    if arm_neon
    then neon_loop data len (vdupq_n_u8 (Z.of_nat (code NL))) (vdupq_n_u8 1)
                   len 0 0
    else (0, 0) in
  scalar_loop data (len - i) count i.

(** The number of newline bytes among [data[i]], ..., [data[i + n - 1]]. *)
Fixpoint count_nl (data : list ascii) (i n : nat) : nat :=
  match n with
  | 0 => 0
  | S n' => (if (at_ data i =? NL)%char then 1 else 0) + count_nl data (S i) n'
  end.

(** Sum of the lanes of a vector, without wrap-around. *)
Definition lane_sum (a : uint8x16_t) : Z := fold_right Z.add 0%Z a.

(** [vandq_u8(vceqq_u8(chunk, nl), ones)] for the chunk at [i]. *)
Definition newline_lanes (data : list ascii) (i : nat) : uint8x16_t :=
  vandq_u8 (vceqq_u8 (vld1q_u8 data i) (vdupq_n_u8 (Z.of_nat (code NL))))
           (vdupq_n_u8 1).

(** *** find_line_end *)

(** [memchr(base + start, c, n)], as an offset from [base]. *)
Fixpoint memchr (base : list ascii) (c : ascii) (start n : nat) : option nat :=
  match n with
  | 0 => None
  | S n' => if (at_ base start =? c)%char then Some start
            else memchr base c (S start) n'
  end.

(** The quote-aware scan, [n] iterations left. *)
Fixpoint line_end_slow (base : list ascii) (total : nat)
         (n i : nat) (in_quotes : bool) : nat :=
  match n with
  | 0 => total
  | S n' =>
      if (at_ base i =? DQUOTE)%char
      then line_end_slow base total n' (S i) (negb in_quotes)
      else if negb in_quotes && (at_ base i =? NL)%char then i
      else line_end_slow base total n' (S i) in_quotes
  end.

Definition find_line_end (base : list ascii) (total start : nat) : nat :=
  let nl_pos := match memchr base NL start (total - start) with
                | Some p => p
                | None => total
                end in
  match memchr base DQUOTE start (nl_pos - start) with
  | None => nl_pos
  | Some _ => line_end_slow base total (total - start) start false
  end.

(** *** Field scanning *)

Inductive string_view : Type :=
| View (off len : nat)     (* {base + off, len} *)
| NullView.                (* std::string_view() *)

Definition sv_size (v : string_view) : nat :=
  match v with View _ len => len | NullView => 0 end.

(** The characters a view denotes. *)
Definition sv_text (base : list ascii) (v : string_view) : list ascii :=
  match v with
  | View off len => firstn len (skipn off base)
  | NullView => []
  end.

(** Inner loop of a quoted field: runs to the closing quote (a quote not
    followed by a quote) or to [end_]. *)
Fixpoint skip_quoted (base : list ascii) (end_ : nat) (fuel i : nat) : nat :=
  match fuel with
  | 0 => i
  | S fuel' =>
      if i <? end_ then
        if (at_ base i =? DQUOTE)%char then
          if (i + 1 <? end_) && (at_ base (i + 1) =? DQUOTE)%char
          then skip_quoted base end_ fuel' (i + 2)
          else i
        else skip_quoted base end_ fuel' (i + 1)
      else i
  end.

(** [while (i < end && base[i] != delim) ++i;] *)
Fixpoint skip_unquoted (base : list ascii) (end_ : nat) (delim : ascii)
         (fuel i : nat) : nat :=
  match fuel with
  | 0 => i
  | S fuel' =>
      if (i <? end_) && negb (at_ base i =? delim)%char
      then skip_unquoted base end_ delim fuel' (S i)
      else i
  end.

(** One iteration of the field loop, entered with [i < end_]: the view that
    is emplaced and the index after the separator.  [parse_line_fields] and
    [append_row_fields] have this body verbatim. *)
Definition scan_field (base : list ascii) (end_ : nat) (delim : ascii)
           (i : nat) : string_view * nat :=
  if (at_ base i =? DQUOTE)%char then
    let fs := i in
    let i := skip_quoted base end_ (end_ - (i + 1)) (i + 1) in
    let i := if i <? end_ then i + 1 else i in
    let fld := View fs (i - fs) in
    let i := if (i <? end_) && (at_ base i =? delim)%char then i + 1 else i in
    (fld, i)
  else
    let fs := i in
    let i := skip_unquoted base end_ delim (end_ - i) i in
    let fld := View fs (i - fs) in
    let i := if i <? end_ then i + 1 else i in
    (fld, i).

(** [while (i < end)] of [parse_line_fields]. *)
Fixpoint line_fields_loop (base : list ascii) (end_ : nat) (delim : ascii)
         (fuel i : nat) (fields : list string_view) : list string_view :=
  match fuel with
  | 0 => fields
  | S fuel' =>
      if i <? end_ then
        let '(fld, i') := scan_field base end_ delim i in
        line_fields_loop base end_ delim fuel' i' (fields ++ [fld])
      else fields
  end.

Definition parse_line_fields (base : list ascii) (start end_ : nat)
           (delim : ascii) : list string_view :=
  if start =? end_ then []
  else
    let fields := line_fields_loop base end_ delim (end_ - start) start [] in
    if (start <? end_) && (at_ base (end_ - 1) =? delim)%char
    then fields ++ [View end_ 0]
    else fields.

(** *** The reader *)

(** The members of [class CsvReader] the engine works on.  [addr] holds the
    bytes of the backing store; [file_size_] is their number. *)
Record CsvReader : Type := mkReader {
  addr : list ascii;
  headers_ : list string_view;
  fields_ : list string_view;      (* flat row-major, stride = ncols_ *)
  ncols_ : nat;
  parsed_rows_ : nat;
  total_rows_ : nat
}.

Definition file_size_ (r : CsvReader) : nat := length (addr r).

(** The state of a reader right after construction on [bytes]. *)
Definition open (bytes : list ascii) : CsvReader :=
  mkReader bytes [] [] 0 0 0.

Definition row_count (r : CsvReader) : nat := parsed_rows_ r.
Definition total_rows (r : CsvReader) : nat := total_rows_ r.
Definition column_count (r : CsvReader) : nat := ncols_ r.
Definition headers (r : CsvReader) : list string_view := headers_ r.

(** [row(i)]: the span [{fields_.data() + i * ncols_, ncols_}]. *)
Definition row (r : CsvReader) (i : nat) : list string_view :=
  firstn (ncols_ r) (skipn (i * ncols_ r) (fields_ r)).

(** [pos = (line_end < total) ? line_end + 1 : total] *)
Definition next_pos (line_end total : nat) : nat :=
  if line_end <? total then line_end + 1 else total.

(** [parse_header]: the reader with [headers_] and [ncols_] set, and the
    offset of the first body line. *)
Definition parse_header (r : CsvReader) (delimiter : ascii)
  : CsvReader * nat :=
  if file_size_ r =? 0 then (r, 0)
  else
    let base := addr r in
    let line_end := find_line_end base (file_size_ r) 0 in
    let actual_end :=
      if (0 <? line_end) && (at_ base (line_end - 1) =? CR)%char
      then line_end - 1 else line_end in
    let hs := parse_line_fields base 0 actual_end delimiter in
    (mkReader (addr r) hs (fields_ r) (length hs)
              (parsed_rows_ r) (total_rows_ r),
     next_pos line_end (file_size_ r)).

(** The field loop of [append_row_fields]:
    [while (i < end && fields_added < ncols_)]. *)
Fixpoint append_loop (base : list ascii) (end_ : nat) (delim : ascii)
         (ncols : nat) (fuel i fields_added : nat)
         (fields : list string_view) : nat * list string_view :=
  match fuel with
  | 0 => (fields_added, fields)
  | S fuel' =>
      if (i <? end_) && (fields_added <? ncols) then
        let '(fld, i') := scan_field base end_ delim i in
        append_loop base end_ delim ncols fuel' i' (S fields_added)
                    (fields ++ [fld])
      else (fields_added, fields)
  end.

(** [while (fields_added < ncols_) { fields_.emplace_back(); ... }], by its
    trip count. *)
Fixpoint pad_loop (n : nat) (fields : list string_view) : list string_view :=
  match n with
  | 0 => fields
  | S n' => pad_loop n' (fields ++ [NullView])
  end.

(** [append_row_fields]: the new value of [fields_]. *)
Definition append_row_fields (base : list ascii) (start end_ : nat)
           (delim : ascii) (ncols : nat) (fields : list string_view)
  : list string_view :=
  let '(fields_added, fields) :=
    append_loop base end_ delim ncols (end_ - start) start 0 fields in
  let '(fields_added, fields) :=
    if (fields_added <? ncols) && (start <? end_)
       && (at_ base (end_ - 1) =? delim)%char
    then (S fields_added, fields ++ [NullView])
    else (fields_added, fields) in
  pad_loop (ncols - fields_added) fields.

(** The quote-aware count of [count_rows_from], [n] iterations left. *)
Fixpoint count_rows_slow (d : list ascii) (n i count : nat)
         (in_quotes : bool) : nat :=
  match n with
  | 0 => count
  | S n' =>
      if (at_ d i =? DQUOTE)%char
      then count_rows_slow d n' (S i) count (negb in_quotes)
      else if negb in_quotes && (at_ d i =? NL)%char
           then count_rows_slow d n' (S i) (S count) in_quotes
           else count_rows_slow d n' (S i) count in_quotes
  end.

Definition count_rows_from (arm_neon : bool) (r : CsvReader) (offset : nat)
  : nat :=
  if file_size_ r <=? offset then 0
  else
    let d := skipn offset (addr r) in
    let len := file_size_ r - offset in
    if len =? 0 then 0
    else
      match memchr d DQUOTE 0 len with
      | None =>
          let nl := count_newlines arm_neon d len in
          if negb (at_ d (len - 1) =? NL)%char then S nl else nl
      | Some _ =>
          let count := count_rows_slow d len 0 0 false in
          if (0 <? len) && negb (at_ d (len - 1) =? NL)%char
          then S count else count
      end.

(** The state the body loops of [parse] and [parse_head] work on. *)
Record body_state : Type := mkBody {
  b_pos : nat;
  b_fields : list string_view;
  b_rows : nat
}.

(** One iteration of the body loop (the two functions have it verbatim):
    find the line, trim a carriage return, skip a blank line or append the
    row, and advance. *)
Definition body_step (base : list ascii) (total : nat) (delimiter : ascii)
           (ncols : nat) (s : body_state) : body_state :=
  let pos := b_pos s in
  let line_end := find_line_end base total pos in
  let actual_end :=
    if (pos <? line_end) && (at_ base (line_end - 1) =? CR)%char
    then line_end - 1 else line_end in
  if actual_end =? pos
  then mkBody (next_pos line_end total) (b_fields s) (b_rows s)
  else mkBody (next_pos line_end total)
              (append_row_fields base pos actual_end delimiter ncols
                                 (b_fields s))
              (S (b_rows s)).

(** [while (pos < total)] of [parse]. *)
Fixpoint parse_loop (base : list ascii) (total : nat) (delimiter : ascii)
         (ncols : nat) (fuel : nat) (s : body_state) : body_state :=
  match fuel with
  | 0 => s
  | S fuel' =>
      if b_pos s <? total
      then parse_loop base total delimiter ncols fuel'
                      (body_step base total delimiter ncols s)
      else s
  end.

(** [while (pos < total && parsed_rows_ < max_rows)] of [parse_head]. *)
Fixpoint parse_head_loop (base : list ascii) (total : nat) (delimiter : ascii)
         (ncols max_rows : nat) (fuel : nat) (s : body_state) : body_state :=
  match fuel with
  | 0 => s
  | S fuel' =>
      if (b_pos s <? total) && (b_rows s <? max_rows)
      then parse_head_loop base total delimiter ncols max_rows fuel'
                           (body_step base total delimiter ncols s)
      else s
  end.

(** The non-blank lines of the body from offset [pos] on, in file order,
    each as the offsets [(start, end)] the body loop hands to
    [append_row_fields]. *)
Fixpoint body_lines (base : list ascii) (total : nat) (fuel pos : nat)
  : list (nat * nat) :=
  match fuel with
  | 0 => []
  | S fuel' =>
      if pos <? total then
        let line_end := find_line_end base total pos in
        let actual_end :=
          if (pos <? line_end) && (at_ base (line_end - 1) =? CR)%char
          then line_end - 1 else line_end in
        if actual_end =? pos
        then body_lines base total fuel' (next_pos line_end total)
        else (pos, actual_end)
               :: body_lines base total fuel' (next_pos line_end total)
      else []
  end.

(** The raw fields of a line cut at [ncols] and padded to [ncols], as
    texts. *)
Definition cut_and_pad (ncols : nat) (raw : list (list ascii))
  : list (list ascii) :=
  firstn ncols raw ++ repeat [] (ncols - length raw).

(** The cells one line contributes to the store. *)
Definition row_cells (base : list ascii) (delim : ascii) (ncols : nat)
           (line : nat * nat) : list string_view :=
  append_row_fields base (fst line) (snd line) delim ncols [].

(** The stride invariant of the flat store. *)
Definition stride_ok (ncols : nat) (s : body_state) : Prop :=
  length (b_fields s) = b_rows s * ncols.

(** The five assignments that open [parse] and [parse_head]. *)
Definition clear (r : CsvReader) : CsvReader :=
  mkReader (addr r) [] [] 0 0 0.

Definition parse (r : CsvReader) (delimiter : ascii) : CsvReader :=
  let '(r, pos) := parse_header (clear r) delimiter in
  if ncols_ r =? 0 then r
  else
    let base := addr r in
    let total := file_size_ r in
    let s := parse_loop base total delimiter (ncols_ r) (total - pos)
                        (mkBody pos (fields_ r) (parsed_rows_ r)) in
    mkReader (addr r) (headers_ r) (b_fields s) (ncols_ r)
             (b_rows s) (b_rows s).

Definition parse_head (arm_neon : bool) (r : CsvReader) (delimiter : ascii)
           (max_rows : nat) : CsvReader :=
  let '(r, pos) := parse_header (clear r) delimiter in
  if ncols_ r =? 0 then r
  else
    let base := addr r in
    let total := file_size_ r in
    let s := parse_head_loop base total delimiter (ncols_ r) max_rows
                             (total - pos)
                             (mkBody pos (fields_ r) (parsed_rows_ r)) in
    mkReader (addr r) (headers_ r) (b_fields s) (ncols_ r) (b_rows s)
             (b_rows s + count_rows_from arm_neon r (b_pos s)).

(** The non-blank data lines of the file a reader holds. *)
Definition data_lines (r : CsvReader) (delimiter : ascii)
  : list (nat * nat) :=
  let pos := snd (parse_header (clear r) delimiter) in
  body_lines (addr r) (file_size_ r) (file_size_ r - pos) pos.

(** ** Double-precision arithmetic

    [delim.cpp] scores candidates in [double] and [filter.cpp] compares
    cells as [double].  The operations are an interface: the functions below
    are written against it exactly as the source is written against the
    machine's arithmetic. *)

Class DoubleOps : Type := {
  double : Type;
  d_of_Z : Z -> double;        (* an integer literal or integer cast *)
  dadd : double -> double -> double;
  dsub : double -> double -> double;
  dmul : double -> double -> double;
  ddiv : double -> double -> double;
  dsqrt : double -> double;
  deqb : double -> double -> bool;   (* == *)
  dltb : double -> double -> bool;   (* <  *)
  dleb : double -> double -> bool    (* <= *)
}.

(** [static_cast<double>(n)] for a [size_t]. *)
Definition d_of_size `{DoubleOps} (n : nat) : double := d_of_Z (Z.of_nat n).

(** [x] is a number and [0 <= x] (an infinity included). *)
Definition d_nonneg `{DoubleOps} (x : double) : Prop :=
  dleb (d_of_Z 0) x = true.

(** [x] is neither an infinity nor a NaN: [x - x == 0]. *)
Definition d_finite `{DoubleOps} (x : double) : Prop :=
  deqb (dsub x x) (d_of_Z 0) = true.

(** The facts of IEEE-754 binary64 arithmetic (round to nearest) that the
    properties of the delimiter detector rest on.  Integers below [2^53] are
    represented exactly and their sums are exact; a quotient of two such
    integers is rounded monotonically, so it is below 2 exactly when the
    dividend is below twice the divisor; squares, sums, quotients by a
    positive count and square roots of non-negative numbers are
    non-negative numbers; a size below [2^64] and the quotient of two such
    sizes are finite. *)
Class DoubleLaws (D : DoubleOps) : Prop := {
  dltb_irrefl : forall x : double, dltb x x = false;
  dadd_exact : forall a b : nat,
    (Z.of_nat (a + b) < 2 ^ 53)%Z ->
    dadd (d_of_size a) (d_of_size b) = d_of_size (a + b);
  ddiv_below_two : forall s n : nat,
    0 < n -> (Z.of_nat s < 2 ^ 53)%Z -> (Z.of_nat n < 2 ^ 53)%Z ->
    dltb (ddiv (d_of_size s) (d_of_size n)) (d_of_Z 2) = (s <? 2 * n);
  d_of_size_finite : forall n : nat,
    (Z.of_nat n < 2 ^ 64)%Z -> d_finite (d_of_size n);
  d_of_size_nonneg : forall n : nat, d_nonneg (d_of_size n);
  ddiv_sizes_finite : forall s n : nat,
    0 < n -> (Z.of_nat s < 2 ^ 64)%Z -> (Z.of_nat n < 2 ^ 64)%Z ->
    d_finite (ddiv (d_of_size s) (d_of_size n));
  dsquare_nonneg : forall x y : double,
    d_finite x -> d_finite y -> d_nonneg (dmul (dsub x y) (dsub x y));
  dadd_nonneg : forall x y : double,
    d_nonneg x -> d_nonneg y -> d_nonneg (dadd x y);
  ddiv_size_nonneg : forall (x : double) (n : nat),
    d_nonneg x -> 0 < n -> (Z.of_nat n < 2 ^ 64)%Z ->
    d_nonneg (ddiv x (d_of_size n));
  dsqrt_nonneg : forall x : double, d_nonneg x -> d_nonneg (dsqrt x);
  ddiv_one_plus_nonneg : forall x y : double,
    d_finite x -> d_nonneg x -> d_nonneg y ->
    d_nonneg (ddiv x (dadd (d_of_Z 1) y));
  dltb_minus_one : forall x : double,
    d_nonneg x -> dltb (d_of_Z (-1)) x = true
}.

(** ** delim.cpp *)

(** The [for] loop of [count_fields], [n] iterations left. *)
Fixpoint count_fields_loop (line : list ascii) (delim : ascii)
         (n i count : nat) (in_quotes : bool) : nat :=
  match n with
  | 0 => count
  | S n' =>
      if (at_ line i =? DQUOTE)%char
      then count_fields_loop line delim n' (S i) count (negb in_quotes)
      else if negb in_quotes && (at_ line i =? delim)%char
           then count_fields_loop line delim n' (S i) (S count) in_quotes
           else count_fields_loop line delim n' (S i) count in_quotes
  end.

Definition count_fields (line : list ascii) (len : nat) (delim : ascii)
  : nat :=
  count_fields_loop line delim len 0 1 false.

Record LineSpan : Type := mkSpan { ls_start : nat; ls_len : nat }.

(** The inner [while (pos < size)] of the sampling loop: the offset of the
    first newline outside quotes, or [size]. *)
Fixpoint sample_line_end (data : list ascii) (n pos : nat) (in_quotes : bool)
  : nat :=
  match n with
  | 0 => pos
  | S n' =>
      if (at_ data pos =? DQUOTE)%char
      then sample_line_end data n' (S pos) (negb in_quotes)
      else if negb in_quotes && (at_ data pos =? NL)%char then pos
      else sample_line_end data n' (S pos) in_quotes
  end.

(** [while (pos < size && lines.size() < sample_lines)] *)
Fixpoint collect_lines (data : list ascii) (size sample_lines : nat)
         (fuel pos : nat) (lines : list LineSpan) : list LineSpan :=
  match fuel with
  | 0 => lines
  | S fuel' =>
      if (pos <? size) && (length lines <? sample_lines) then
        let start := pos in
        let pos := sample_line_end data (size - pos) pos false in
        let end_ := pos in
        let end_ := if (start <? end_) && (at_ data (end_ - 1) =? CR)%char
                    then end_ - 1 else end_ in
        let lines := if start <? end_
                     then lines ++ [mkSpan start (end_ - start)]
                     else lines in
        let pos := if pos <? size then S pos else pos in
        collect_lines data size sample_lines fuel' pos lines
      else lines
  end.

Definition candidates : list ascii := [COMMA; TAB; PIPE; SEMI].

Section Detect.
Context `{DoubleOps}.

Definition field_counts (data : list ascii) (lines : list LineSpan)
           (c : ascii) : list double :=
  map (fun l => d_of_size (count_fields (skipn (ls_start l) data)
                                        (ls_len l) c)) lines.

Definition mean_of (counts : list double) : double :=
  let sum := fold_left dadd counts (d_of_Z 0) in
  ddiv sum (d_of_size (length counts)).

Definition score_of (counts : list double) : double :=
  let mean := mean_of counts in
  let var := fold_left
               (fun var v => dadd var (dmul (dsub v mean) (dsub v mean)))
               counts (d_of_Z 0) in
  let stddev := dsqrt (ddiv var (d_of_size (length counts))) in
  ddiv mean (dadd (d_of_Z 1) stddev).

(** The body of [for (char c : candidates)] on the pair
    [(best, best_score)]. *)
Definition candidate_step (data : list ascii) (lines : list LineSpan)
           (st : ascii * double) (c : ascii) : ascii * double :=
  let '(best, best_score) := st in
  let counts := field_counts data lines c in
  if dltb (mean_of counts) (d_of_Z 2) then (best, best_score)
  else
    let score := score_of counts in
    if dltb best_score score then (c, score) else (best, best_score).

Definition detect_delimiter (data : list ascii) (size sample_lines : nat)
  : ascii :=
  if size =? 0 then COMMA
  else
    let lines := collect_lines data size sample_lines size 0 [] in
    match lines with
    | [] => COMMA
    | _ =>
        fst (fold_left (candidate_step data lines) candidates
                       (COMMA, d_of_Z (-1)))
    end.

(** The lines the detector samples. *)
Definition sampled_lines (data : list ascii) (size sample_lines : nat)
  : list LineSpan :=
  collect_lines data size sample_lines size 0 [].

(** The field count of a sampled line under candidate [c]. *)
Definition fields_on (data : list ascii) (c : ascii) (l : LineSpan) : nat :=
  count_fields (skipn (ls_start l) data) (ls_len l) c.

(** Candidate [c] is not disqualified: its mean field count is not below 2. *)
Definition qualifies (data : list ascii) (lines : list LineSpan) (c : ascii)
  : bool :=
  negb (dltb (mean_of (field_counts data lines c)) (d_of_Z 2)).

(** The score of candidate [c]. *)
Definition score (data : list ascii) (lines : list LineSpan) (c : ascii)
  : double :=
  score_of (field_counts data lines c).
End Detect.

(** Total length of sampled lines. *)
Definition total_len (lines : list LineSpan) : nat :=
  list_sum (map ls_len lines).

(** Sum of the field counts of the sampled lines under [c]. *)
Definition total_fields (data : list ascii) (lines : list LineSpan)
           (c : ascii) : nat :=
  list_sum (map (fields_on data c) lines).

(** ** type_inference.cpp *)

Inductive ColumnType : Type :=
| Int64 | Float64 | Date | Currency | Bool | Enum | Text.

Record ColumnSchema : Type := mkSchema {
  name : list ascii;
  type : ColumnType
}.

Definition is_sign (c : ascii) : bool :=
  (c =? "-")%char || (c =? "+")%char.

(** [if (s[0] == '-' || s[0] == '+') ++i;] : what is left from index [i]. *)
Definition skip_sign (s : list ascii) : list ascii :=
  match s with
  | c :: r => if is_sign c then r else s
  | [] => []
  end.

Definition is_int64 (s : list ascii) : bool :=
  match s with
  | [] => false
  | _ =>
      match skip_sign s with
      | [] => false
      | rest => forallb is_digit rest
      end
  end.

(** The exponent part of [is_float64], entered after the [e]. *)
Definition float_exponent (s : list ascii) : bool :=
  match skip_sign s with
  | [] => false
  | digits => forallb is_digit digits
  end.

(** The main loop of [is_float64] on what is left of the string. *)
Fixpoint float_mantissa (s : list ascii) (has_dot has_digit : bool) : bool :=
  match s with
  | [] => has_digit && has_dot
  | c :: r =>
      if (c =? ".")%char then
        if has_dot then false else float_mantissa r true has_digit
      else if is_digit c then float_mantissa r has_dot true
      else if (c =? "e")%char || (c =? "E")%char then
        if negb has_digit then false else float_exponent r
      else false
  end.

Definition is_float64 (s : list ascii) : bool :=
  match s with
  | [] => false
  | _ =>
      match skip_sign s with
      | [] => false
      | rest => float_mantissa rest false false
      end
  end.

Definition is_date_sep (c : ascii) : bool :=
  (c =? "-")%char || (c =? "/")%char.

Definition is_date (s : list ascii) : bool :=
  if (length s <? 8) || (10 <? length s) then false
  else if (length s =? 10) && is_date_sep (at_ s 4) && is_date_sep (at_ s 7)
  then forallb (fun i => is_digit (at_ s i)) [0; 1; 2; 3; 5; 6; 8; 9]
  else if (length s =? 10) && is_date_sep (at_ s 2) && is_date_sep (at_ s 5)
  then forallb (fun i => is_digit (at_ s i)) [0; 1; 3; 4; 6; 7; 8; 9]
  else false.

Definition xC2 : ascii := Eval cbv in ascii_of_nat 194.
Definition xA3 : ascii := Eval cbv in ascii_of_nat 163.
Definition xA5 : ascii := Eval cbv in ascii_of_nat 165.

(** The digit loop of [is_currency] on what is left of the string; the
    result is the value of [has_digit] at the end, or [None] for the early
    [return false]. *)
Fixpoint currency_digits (s : list ascii) (has_digit has_dot : bool)
  : option bool :=
  match s with
  | [] => Some has_digit
  | c :: r =>
      if is_digit c then currency_digits r true has_dot
      else if (c =? ",")%char then currency_digits r has_digit has_dot
      else if (c =? ".")%char then
        if has_dot then None else currency_digits r has_digit true
      else None
  end.

Definition is_currency (s : list ascii) : bool :=
  if length s <? 2 then false
  else
    let i := if (at_ s 0 =? DOLLAR)%char || (at_ s 0 =? xC2)%char
             then if (1 <? length s)
                     && ((at_ s 1 =? xA3)%char || (at_ s 1 =? xA5)%char)
                  then 2 else 1
             else 0 in
    if i =? length s then false
    else
      let i := if is_sign (at_ s i) then S i else i in
      match currency_digits (skipn i s) false false with
      | None => false
      | Some has_digit => has_digit && (at_ s 0 =? DOLLAR)%char
      end.

(** [c >= 'A' && c <= 'Z' ? c + 32 : c] *)
Definition lower_char (c : ascii) : ascii :=
  if in_range "A" "Z" c then ascii_of_nat (code c + 32) else c.

Definition to_lower (s : list ascii) : list ascii := map lower_char s.

Definition str_eqb (a b : list ascii) : bool :=
  if list_eq_dec ascii_dec a b then true else false.

Definition is_bool (s : list ascii) : bool :=
  if (length s <? 1) || (5 <? length s) then false
  else
    let lower := to_lower s in
    str_eqb lower (str "true") || str_eqb lower (str "false")
    || str_eqb lower (str "yes") || str_eqb lower (str "no")
    || str_eqb lower (str "1") || str_eqb lower (str "0").

(** *** infer_schema *)

(** The text a stored view denotes in the reader's backing store. *)
Definition text_of (r : CsvReader) (v : string_view) : list ascii :=
  sv_text (addr r) v.

Definition is_empty (s : list ascii) : bool :=
  match s with [] => true | _ => false end.

(** [std::set<std::string>::insert] *)
Definition set_insert (val : list ascii) (s : list (list ascii))
  : list (list ascii) :=
  if existsb (str_eqb val) s then s else s ++ [val].

(** [for (size_t r = 0; r < nrows; ++r)]: gathers the non-empty cells of
    column [col] and the set of their distinct unquoted values. *)
Fixpoint sample_loop (reader : CsvReader) (col : nat) (n r : nat)
         (values : list string_view) (unique_values : list (list ascii))
  : list string_view * list (list ascii) :=
  match n with
  | 0 => (values, unique_values)
  | S n' =>
      let rw := row reader r in
      if col <? ncols_ reader then              (* col < row.size() *)
        let val := unquote (text_of reader (nth col rw NullView)) in
        if negb (is_empty val)
        then sample_loop reader col n' (S r)
                         (values ++ [nth col rw NullView])
                         (set_insert val unique_values)
        else sample_loop reader col n' (S r) values unique_values
      else sample_loop reader col n' (S r) values unique_values
  end.

(** The lambda [all_match]. *)
Definition all_match (reader : CsvReader) (values : list string_view)
           (pred : list ascii -> bool) : bool :=
  forallb (fun v => pred (unquote (text_of reader v))) values.

(** The [if]/[else if] chain that picks [detected]. *)
Definition detect_type (reader : CsvReader) (values : list string_view)
           (unique_values : list (list ascii)) : ColumnType :=
  if all_match reader values is_bool then Bool
  else if all_match reader values is_currency then Currency
  else if all_match reader values is_date then Date
  else if all_match reader values is_int64 then Int64
  else if all_match reader values is_float64 then Float64
  else if length unique_values <? Nat.max 2 (length values / 10) then Enum
  else Text.

(** The body of [for (size_t col = 0; col < ncols; ++col)]. *)
Definition infer_column (reader : CsvReader) (nrows col : nat)
  : ColumnSchema :=
  let col_name :=
    unquote (text_of reader (nth col (headers reader) NullView)) in
  if nrows =? 0 then mkSchema col_name Text
  else
    let '(values, unique_values) := sample_loop reader col nrows 0 [] [] in
    match values with
    | [] => mkSchema col_name Text
    | _ => mkSchema col_name (detect_type reader values unique_values)
    end.

Definition infer_schema (reader : CsvReader) (sample_size : nat)
  : list ColumnSchema :=
  let ncols := column_count reader in
  let nrows := Nat.min (row_count reader) sample_size in
  map (infer_column reader nrows) (seq 0 ncols).

(** The default of [nth] on a schema. *)
Definition no_schema : ColumnSchema := mkSchema [] Text.

(** The sampled non-empty unquoted values of column [col], as
    [infer_schema] gathers them. *)
Definition sampled_values (reader : CsvReader) (sample_size col : nat)
  : list (list ascii) :=
  map (fun v => unquote (text_of reader v))
      (fst (sample_loop reader col
                        (Nat.min (row_count reader) sample_size) 0 [] [])).

(** *** The Float64 shape, in the words of the specification

    "Optional sign, digits with at most one decimal point and/or one
    exponent marker ([e]/[E], optional sign, digits), at least one digit
    before any exponent": a sign part, a mantissa and an exponent part. *)

Definition opt_sign (s : list ascii) : Prop :=
  s = [] \/ s = ["+"%char] \/ s = ["-"%char].

Definition digit_or_point (c : ascii) : Prop :=
  is_digit c = true \/ c = "."%char.

Definition all_digits (s : list ascii) : Prop :=
  Forall (fun c => is_digit c = true) s.

Definition spec_mantissa (m : list ascii) : Prop :=
  Forall digit_or_point m
  /\ count_occ ascii_dec m "."%char <= 1
  /\ Exists (fun c => is_digit c = true) m.

Definition spec_exponent (e : list ascii) : Prop :=
  exists marker sg ds,
    e = marker :: sg ++ ds
    /\ (marker = "e"%char \/ marker = "E"%char)
    /\ opt_sign sg /\ ds <> [] /\ all_digits ds.

Definition spec_float64 (s : list ascii) : Prop :=
  exists sg m e,
    s = sg ++ m ++ e
    /\ opt_sign sg /\ spec_mantissa m /\ (e = [] \/ spec_exponent e).

(** The text holds a decimal point or an exponent marker. *)
Definition has_point_or_exponent (s : list ascii) : Prop :=
  In "."%char s \/ In "e"%char s \/ In "E"%char s.

(** ** filter.cpp *)

Inductive FilterOp : Type :=
| Eq | Neq | Gt | Lt | Gte | Lte | Contains | StartsWith | EndsWith.

Record Filter : Type := mkFilter {
  column : list ascii;
  op : FilterOp;
  value : list ascii
}.

(** The [std::runtime_error]s of the query layer, by what they report:
    "Column '...' not found. Available columns: ..." carries the name and
    the unquoted headers; "No valid columns in --select" carries nothing. *)
Inductive exn : Type :=
| UnknownColumn (name : list ascii) (available : list (list ascii))
| NoColumnsSelected.

Definition result (A : Type) : Type := (exn + A)%type.

(** [a < b] on [std::string]: lexicographic on unsigned character codes. *)
Fixpoint str_ltb (a b : list ascii) : bool :=
  match a, b with
  | [], [] => false
  | [], _ :: _ => true
  | _ :: _, [] => false
  | x :: a', y :: b' =>
      if code x <? code y then true
      else if code y <? code x then false
      else str_ltb a' b'
  end.

(** [a.compare(pos, n, b) == 0] *)
Definition compare_at (a : list ascii) (pos n : nat) (b : list ascii) : bool :=
  str_eqb (firstn n (skipn pos a)) b.

(** [a.find(b) != npos]: [b] occurs in [a] at one of the first [n]
    offsets from [pos]. *)
Fixpoint find_from (a b : list ascii) (n pos : nat) : bool :=
  match n with
  | 0 => false
  | S n' => compare_at a pos (length b) b || find_from a b n' (S pos)
  end.

Definition str_contains (a b : list ascii) : bool :=
  if length a <? length b then false
  else find_from a b (length a - length b + 1) 0.

Definition compare_strings (cell : list ascii) (o : FilterOp)
           (v : list ascii) (ci : bool) : bool :=
  let a := if ci then to_lower cell else cell in
  let b := if ci then to_lower v else v in
  match o with
  | Eq => str_eqb a b
  | Neq => negb (str_eqb a b)
  | Gt => str_ltb b a
  | Lt => str_ltb a b
  | Gte => negb (str_ltb a b)
  | Lte => negb (str_ltb b a)
  | Contains => str_contains a b
  | StartsWith => (length b <=? length a) && compare_at a 0 (length b) b
  | EndsWith => (length b <=? length a)
                && compare_at a (length a - length b) (length b) b
  end.

Definition is_numeric_type (t : ColumnType) : bool :=
  match t with
  | Int64 | Float64 | Currency => true
  | _ => false
  end.

Definition is_text_op (o : FilterOp) : bool :=
  match o with
  | Contains | StartsWith | EndsWith => true
  | _ => false
  end.

Section Query.
Context `{DoubleOps}.

(** [std::stod]: the converted value, or [None] where it throws
    ([std::invalid_argument], [std::out_of_range]). *)
Variable stod : list ascii -> option double.

Definition parse_numeric (s : list ascii) : option double :=
  let cleaned :=
    filter (fun c => negb ((c =? DOLLAR)%char || (c =? COMMA)%char)) s in
  stod cleaned.

Definition compare_numeric (cell_val : double) (o : FilterOp)
           (filter_val : double) : bool :=
  match o with
  | Eq => deqb cell_val filter_val
  | Neq => negb (deqb cell_val filter_val)
  | Gt => dltb filter_val cell_val
  | Lt => dltb cell_val filter_val
  | Gte => dleb filter_val cell_val
  | Lte => dleb cell_val filter_val
  | Contains | StartsWith | EndsWith => false
  end.

(** The [try] block of [row_matches]: [Some] is its [return], [None] is
    control reaching the [catch (...)]. *)
Definition try_numeric (cell_str : list ascii) (f : Filter) : option bool :=
  match parse_numeric cell_str with
  | None => None
  | Some cell_val =>
      match parse_numeric (value f) with
      | None => None
      | Some filter_val => Some (compare_numeric cell_val (op f) filter_val)
      end
  end.

Definition row_matches (base : list ascii) (rw : list string_view)
           (ncols : nat) (f : Filter) (col_idx : nat)
           (col_type : ColumnType) (ci : bool) : bool :=
  if ncols <=? col_idx then false                (* col_idx >= row.size() *)
  else
    let cell_str := unquote (sv_text base (nth col_idx rw NullView)) in
    let numeric :=
      if is_numeric_type col_type && negb (is_text_op (op f))
      then try_numeric cell_str f
      else None in
    match numeric with
    | Some b => b
    | None => compare_strings cell_str (op f) (value f) ci
    end.

Record ResolvedFilter : Type := mkResolved {
  rf_filter : Filter;
  col_idx : nat;
  col_type : ColumnType
}.

(** The search [for (size_t i = 0; i < headers.size(); ++i)] that ends at
    the first header equal to the wanted name: its index. *)
Fixpoint find_header (names : list (list ascii)) (wanted : list ascii)
         (i : nat) : option nat :=
  match names with
  | [] => None
  | hdr_name :: rest =>
      if str_eqb hdr_name wanted then Some i
      else find_header rest wanted (S i)
  end.

Definition header_names (reader : CsvReader) : list (list ascii) :=
  map (fun h => unquote (text_of reader h)) (headers reader).

(** [for (auto &f : filters)], the resolution loop. *)
Fixpoint resolve_filters (reader : CsvReader) (schema : list ColumnSchema)
         (case_insensitive : bool) (filters : list Filter)
         (resolved : list ResolvedFilter) : result (list ResolvedFilter) :=
  match filters with
  | [] => inr resolved
  | f :: rest =>
      let f_col := if case_insensitive then to_lower (column f)
                   else column f in
      let names := if case_insensitive
                   then map to_lower (header_names reader)
                   else header_names reader in
      match find_header names f_col 0 with
      | Some i =>
          let ct := match nth_error schema i with
                    | Some cs => type cs
                    | None => Text
                    end in
          resolve_filters reader schema case_insensitive rest
                          (resolved ++ [mkResolved f i ct])
      | None => inl (UnknownColumn (column f) (header_names reader))
      end
  end.

(** The two inner loops over [resolved], each left at its [break]. *)
Fixpoint any_matches (reader : CsvReader) (rw : list string_view)
         (ci : bool) (resolved : list ResolvedFilter) : bool :=
  match resolved with
  | [] => false
  | rf :: rest =>
      if row_matches (addr reader) rw (ncols_ reader) (rf_filter rf)
                     (col_idx rf) (col_type rf) ci
      then true
      else any_matches reader rw ci rest
  end.

Fixpoint all_matches (reader : CsvReader) (rw : list string_view)
         (ci : bool) (resolved : list ResolvedFilter) : bool :=
  match resolved with
  | [] => true
  | rf :: rest =>
      if negb (row_matches (addr reader) rw (ncols_ reader) (rf_filter rf)
                           (col_idx rf) (col_type rf) ci)
      then false
      else all_matches reader rw ci rest
  end.

(** [for (size_t r = 0; r < reader.row_count(); ++r)], [n] rows left. *)
Fixpoint filter_rows (reader : CsvReader) (resolved : list ResolvedFilter)
         (ci or_logic : bool) (n r : nat) (res : list nat) : list nat :=
  match n with
  | 0 => res
  | S n' =>
      let rw := row reader r in
      let matched := if or_logic then any_matches reader rw ci resolved
                     else all_matches reader rw ci resolved in
      filter_rows reader resolved ci or_logic n' (S r)
                  (if matched then res ++ [r] else res)
  end.

(** Whether row [r] passes the resolved filters, as the loop body decides. *)
Definition row_passes (reader : CsvReader) (resolved : list ResolvedFilter)
           (ci or_logic : bool) (r : nat) : bool :=
  if or_logic then any_matches reader (row reader r) ci resolved
  else all_matches reader (row reader r) ci resolved.

Definition apply_filters (filters : list Filter) (reader : CsvReader)
           (schema : list ColumnSchema) (case_insensitive or_logic : bool)
  : result (list nat) :=
  match resolve_filters reader schema case_insensitive filters [] with
  | inl e => inl e
  | inr resolved =>
      inr (filter_rows reader resolved case_insensitive or_logic
                       (row_count reader) 0 [])
  end.

(** The name a filter is looked up by, and the names it is looked up in. *)
Definition lookup_key (ci : bool) (f : Filter) : list ascii :=
  if ci then to_lower (column f) else column f.

Definition lookup_names (ci : bool) (reader : CsvReader)
  : list (list ascii) :=
  if ci then map to_lower (header_names reader) else header_names reader.

End Query.

(** *** resolve_columns *)

(** [std::getline(ss, token, delim)] on a stream that is not at its end:
    the token, and what is left of the stream after the delimiter. *)
Fixpoint getline (ss : list ascii) (delim : ascii)
  : list ascii * list ascii :=
  match ss with
  | [] => ([], [])
  | c :: r =>
      if (c =? delim)%char then ([], r)
      else let '(token, r') := getline r delim in (c :: token, r')
  end.

(** [s.find_first_not_of(c)], scanning from index [i]; [None] is [npos]. *)
Fixpoint find_first_not_of (s : list ascii) (c : ascii) (i : nat)
  : option nat :=
  match s with
  | [] => None
  | x :: r => if (x =? c)%char then find_first_not_of r c (S i) else Some i
  end.

(** [s.find_last_not_of(c)]: the last index seen whose character differs. *)
Fixpoint find_last_not_of (s : list ascii) (c : ascii) (i : nat)
         (seen : option nat) : option nat :=
  match s with
  | [] => seen
  | x :: r =>
      find_last_not_of r c (S i) (if (x =? c)%char then seen else Some i)
  end.

Definition substr (s : list ascii) (pos n : nat) : list ascii :=
  firstn n (skipn pos s).

(** [while (std::getline(ss, token, ','))]; the extraction fails, and the
    loop ends, when the stream is at its end. *)
Fixpoint resolve_loop (names : list (list ascii)) (fuel : nat)
         (ss : list ascii) (indices : list nat) : result (list nat) :=
  match fuel with
  | 0 => inr indices
  | S fuel' =>
      match ss with
      | [] => inr indices
      | _ =>
          let '(token, ss') := getline ss COMMA in
          match find_first_not_of token SPACE 0 with
          | None => resolve_loop names fuel' ss' indices       (* continue *)
          | Some start =>
              let end_ := match find_last_not_of token SPACE 0 None with
                          | Some e => e
                          | None => 0
                          end in
              let token := substr token start (end_ - start + 1) in
              match find_header names token 0 with
              | Some i => resolve_loop names fuel' ss' (indices ++ [i])
              | None => inl (UnknownColumn token names)
              end
          end
      end
  end.

Definition resolve_columns (select_str : list ascii) (reader : CsvReader)
  : result (list nat) :=
  match resolve_loop (header_names reader) (length select_str)
                     select_str [] with
  | inl e => inl e
  | inr [] => inl NoColumnsSelected
  | inr indices => inr indices
  end.

(** The loop of [resolve_columns] on the rest of the stream. *)
Definition resolve_from (names : list (list ascii)) (ss : list ascii)
           (indices : list nat) : result (list nat) :=
  resolve_loop names (length ss) ss indices.

(** A token without characters other than spaces. *)
Definition blank (token : list ascii) : Prop := Forall (eq SPACE) token.

(** A column name as it can be written in a select expression: not empty,
    free of commas, and with no space at either end. *)
Definition plain_name (a : list ascii) : Prop :=
  a <> [] /\ ~ In COMMA a /\ hd SPACE a <> SPACE /\ last a SPACE <> SPACE.

(** *** parse_filter *)

(** The first [while] of [trim]: leading spaces removed. *)
Fixpoint drop_spaces (s : list ascii) : list ascii :=
  match s with
  | c :: r => if (c =? SPACE)%char then drop_spaces r else s
  | [] => []
  end.

(** [trim]: leading spaces removed, then trailing spaces. *)
Definition trim (s : list ascii) : list ascii :=
  rev (drop_spaces (rev (drop_spaces s))).

(** [s.find(pat)] scanning [n] offsets from [pos]: the first offset at
    which [pat] occurs; [None] is [npos]. *)
Fixpoint find_at (s pat : list ascii) (n pos : nat) : option nat :=
  match n with
  | 0 => None
  | S n' => if compare_at s pos (length pat) pat then Some pos
            else find_at s pat n' (S pos)
  end.

Definition str_find (s pat : list ascii) : option nat :=
  if length s <? length pat then None
  else find_at s pat (length s - length pat + 1) 0.

Definition BACKSLASH : ascii := Eval cbv in ascii_of_nat 92.

(** The characters a shell-escaping backslash is dropped in front of. *)
Definition is_escaped_op (c : ascii) : bool :=
  (c =? "!")%char || (c =? ">")%char || (c =? "<")%char || (c =? "=")%char.

(** The normalization loop of [parse_filter]. *)
Fixpoint normalize (expr : list ascii) : list ascii :=
  match expr with
  | [] => []
  | c :: rest =>
      match rest with
      | c' :: rest' =>
          if (c =? BACKSLASH)%char && is_escaped_op c'
          then c' :: normalize rest'
          else c :: normalize rest
      | [] => [c]
      end
  end.

(** [op_tokens] and [word_op_tokens], in the order of the source. *)
Definition op_tokens : list (list ascii * FilterOp) :=
  [(str ">=", Gte); (str "<=", Lte); (str "!=", Neq);
   (str "==", Eq); (str ">", Gt); (str "<", Lt)].

Definition word_op_tokens : list (list ascii * FilterOp) :=
  [(str "starts_with", StartsWith); (str "ends_with", EndsWith);
   (str "contains", Contains)].

(** The [std::runtime_error]s of [parse_filter]: "Empty filter expression",
    "Invalid filter: column and value required around '...'" with the
    operator token, and "No valid operator found in filter: '...'" with the
    normalized expression. *)
Inductive parse_error : Type :=
| EmptyExpression
| OperandMissing (token : list ascii)
| NoOperator (nexpr : list ascii).

(** One of the two search loops of [parse_filter]: [wrap] turns a token
    into the text searched for.  [None] is the loop running to its end. *)
Fixpoint search_ops (nexpr : list ascii)
         (wrap : list ascii -> list ascii)
         (tokens : list (list ascii * FilterOp))
  : option (parse_error + Filter) :=
  match tokens with
  | [] => None
  | (token, o) :: rest =>
      let search := wrap token in
      match str_find nexpr search with
      | Some pos =>
          let col := trim (firstn pos nexpr) in
          let val := trim (skipn (pos + length search) nexpr) in
          if is_empty col || is_empty val
          then Some (inl (OperandMissing token))
          else Some (inr (mkFilter col o val))
      | None => search_ops nexpr wrap rest
      end
  end.

Definition parse_filter (expr : list ascii) : parse_error + Filter :=
  let expr := trim expr in
  if is_empty expr then inl EmptyExpression
  else
    let nexpr := normalize expr in
    match search_ops nexpr (fun t => SPACE :: t ++ [SPACE])
                     word_op_tokens with
    | Some r => r
    | None =>
        match search_ops nexpr (fun t => t) op_tokens with
        | Some r => r
        | None => inl (NoOperator nexpr)
        end
    end.

(** *** sort_indices *)

Section Sort.
Context `{DoubleOps}.
Variable stod : list ascii -> option double.

(** [std::stable_sort], which is not part of the repository. *)
Variable stable_sort : (nat -> nat -> bool) -> list nat -> list nat.

(** The cell the comparator reads:
    [(col_idx < row.size()) ? unquote(row[col_idx]) : ""]. *)
Definition sort_key (reader : CsvReader) (col : nat) (r : nat)
  : list ascii :=
  if col <? ncols_ reader
  then unquote (text_of reader (nth col (row reader r) NullView))
  else [].

(** The comparator handed to [std::stable_sort]. *)
Definition sort_less (reader : CsvReader) (col : nat)
           (numeric descending : bool) (a b : nat) : bool :=
  let va := sort_key reader col a in
  let vb := sort_key reader col b in
  let by_number :=
    if numeric then
      match parse_numeric stod va with
      | None => None
      | Some da =>
          match parse_numeric stod vb with
          | None => None
          | Some db => Some (if descending then dltb db da else dltb da db)
          end
      end
    else None in
  match by_number with
  | Some res => res
  | None => if descending then str_ltb vb va else str_ltb va vb
  end.

Definition sort_indices (indices : list nat) (reader : CsvReader)
           (schema : list ColumnSchema) (col_name : list ascii)
           (descending : bool) : result (list nat) :=
  match find_header (header_names reader) col_name 0 with
  | None => inl (UnknownColumn col_name (header_names reader))
  | Some i =>
      let ty := match nth_error schema i with
                | Some cs => type cs
                | None => Text
                end in
      inr (stable_sort (sort_less reader i (is_numeric_type ty) descending)
                       indices)
  end.
End Sort.

(** ** tui.cpp *)

(** [truncate] ([truncate_str] of [pager.cpp] has the same body). *)
Definition truncate (s : list ascii) (max_w : nat) : list ascii :=
  if length s <=? max_w then s
  else if max_w <=? 3 then repeat "."%char max_w
  else firstn (max_w - 3) s ++ str "...".

(** One hexadecimal digit, lower case. *)
Definition hex_digit (d : nat) : ascii :=
  nth d (str "0123456789abcdef") "0"%char.

(** [snprintf(buf, sizeof(buf), "\\u%04x", c)] for an unsigned byte. *)
Definition unicode_escape (c : ascii) : list ascii :=
  [BACKSLASH; "u"%char;
   hex_digit (code c / 4096 mod 16); hex_digit (code c / 256 mod 16);
   hex_digit (code c / 16 mod 16); hex_digit (code c mod 16)].

(** The [switch] of [json_escape] on one character. *)
Definition json_escape_char (c : ascii) : list ascii :=
  if (c =? DQUOTE)%char then [BACKSLASH; DQUOTE]
  else if (c =? BACKSLASH)%char then [BACKSLASH; BACKSLASH]
  else if (c =? NL)%char then [BACKSLASH; "n"%char]
  else if (c =? CR)%char then [BACKSLASH; "r"%char]
  else if (c =? TAB)%char then [BACKSLASH; "t"%char]
  else if code c <? 32 then unicode_escape c
  else [c].

Definition json_escape (val : list ascii) : list ascii :=
  flat_map json_escape_char val.

(** The inner loop of [render_csv] for one line: the fields escaped, a
    delimiter in front of each but the first, and the newline. *)
Fixpoint render_fields (vals : list (list ascii)) (delimiter : ascii)
         (first : bool) : list ascii :=
  match vals with
  | [] => []
  | v :: rest =>
      (if first then [] else [delimiter])
      ++ csv_escape v delimiter ++ render_fields rest delimiter false
  end.

Definition render_line (vals : list (list ascii)) (delimiter : ascii)
  : list ascii :=
  render_fields vals delimiter true ++ [NL].

(** The columns [render_csv] writes: the selection, or all of them.
    [None] is a null pointer. *)
Definition csv_columns (reader : CsvReader) (col_indices : option (list nat))
  : list nat :=
  match col_indices with
  | Some c => c
  | None => seq 0 (column_count reader)
  end.

(** The values of the header line: [unquote(headers[cols[i]])]. *)
Definition csv_header (reader : CsvReader) (cols : list nat)
  : list (list ascii) :=
  map (fun c => unquote (text_of reader (nth c (headers reader) NullView)))
      cols.

(** [nrows = std::min(available, max_rows)] *)
Definition csv_row_count (reader : CsvReader)
           (row_indices : option (list nat)) (max_rows : nat) : nat :=
  let available := match row_indices with
                   | Some ri => length ri
                   | None => row_count reader
                   end in
  Nat.min available max_rows.

(** The values of the [r]-th line of the body:
    [(ac < row.size()) ? unquote(row[ac]) : ""] for each column. *)
Definition csv_row (reader : CsvReader) (row_indices : option (list nat))
           (cols : list nat) (r : nat) : list (list ascii) :=
  let actual := match row_indices with
                | Some ri => nth r ri 0
                | None => r
                end in
  let rw := row reader actual in
  map (fun ac => if ac <? ncols_ reader
                 then unquote (text_of reader (nth ac rw NullView))
                 else []) cols.

(** What [render_csv] writes to standard output. *)
Definition render_csv (reader : CsvReader) (row_indices : option (list nat))
           (col_indices : option (list nat)) (max_rows : nat)
           (delimiter : ascii) : list ascii :=
  let cols := csv_columns reader col_indices in
  render_line (csv_header reader cols) delimiter
  ++ concat (map (fun r => render_line (csv_row reader row_indices cols r)
                                       delimiter)
                 (seq 0 (csv_row_count reader row_indices max_rows))).

(** ** Vocabulary of further properties *)

(** The number of bytes equal to [c] among [data[i]], ...,
    [data[i + n - 1]]. *)
Fixpoint count_char (data : list ascii) (c : ascii) (i n : nat) : nat :=
  match n with
  | 0 => 0
  | S n' => (if (at_ data i =? c)%char then 1 else 0)
            + count_char data c (S i) n'
  end.

(** A reader that holds no table: no header, no column, no row. *)
Definition empty_table (t : CsvReader) : Prop :=
  headers t = [] /\ column_count t = 0 /\ row_count t = 0
  /\ total_rows t = 0.

(** Offset [j] lies inside a quoted stretch that opened at or after
    [start]: an odd number of quotes precedes it. *)
Definition inside_quotes (base : list ascii) (start j : nat) : bool :=
  Nat.odd (count_char base DQUOTE start (j - start)).

(** The pieces of [s] between the occurrences of [d]: one more piece than
    there are occurrences. *)
Fixpoint split_on (d : ascii) (s : list ascii) : list (list ascii) :=
  match s with
  | [] => [[]]
  | c :: r =>
      if (c =? d)%char then [] :: split_on d r
      else match split_on d r with
           | piece :: pieces => (c :: piece) :: pieces
           | [] => [[c]]
           end
  end.

(** The characters of [base] from offset [i] up to offset [j]. *)
Definition segment (base : list ascii) (i j : nat) : list ascii :=
  firstn (j - i) (skipn i base).

(** The span the detector records for a line the body loop delimits. *)
Definition span_of (line : nat * nat) : LineSpan :=
  mkSpan (fst line) (snd line - fst line).

(** *** The shapes of the typed values *)

(** A date separator. *)
Definition date_sep (c : ascii) : Prop := c = "-"%char \/ c = "/"%char.

(** Four digits, separator, two digits, separator, two digits. *)
Definition year_first_date (s : list ascii) : Prop :=
  exists y1 y2 y3 y4 p m1 m2 q d1 d2,
    s = [y1; y2; y3; y4; p; m1; m2; q; d1; d2]
    /\ all_digits [y1; y2; y3; y4; m1; m2; d1; d2]
    /\ date_sep p /\ date_sep q.

(** Two digits, separator, two digits, separator, four digits. *)
Definition year_last_date (s : list ascii) : Prop :=
  exists m1 m2 p d1 d2 q y1 y2 y3 y4,
    s = [m1; m2; p; d1; d2; q; y1; y2; y3; y4]
    /\ all_digits [m1; m2; d1; d2; y1; y2; y3; y4]
    /\ date_sep p /\ date_sep q.

(** A character of the number part of a currency amount. *)
Definition amount_char (c : ascii) : Prop :=
  is_digit c = true \/ c = ","%char \/ c = "."%char.

(** Digits, thousands separators and at most one decimal point, with a
    digit among them. *)
Definition amount (b : list ascii) : Prop :=
  Forall amount_char b
  /\ count_occ ascii_dec b "."%char <= 1
  /\ Exists (fun c => is_digit c = true) b.

(** A dollar sign, then optionally one of the bytes [0xA3] and [0xA5],
    an optional sign, and the amount. *)
Definition dollar_amount (s : list ascii) : Prop :=
  exists lead sg b,
    s = DOLLAR :: lead ++ sg ++ b
    /\ (lead = [] \/ lead = [xA3] \/ lead = [xA5])
    /\ opt_sign sg /\ amount b.

(** An optional sign and at least one digit. *)
Definition signed_digits (s : list ascii) : Prop :=
  exists sg ds, s = sg ++ ds /\ opt_sign sg /\ ds <> [] /\ all_digits ds.

(** The characters a number or an amount can begin with. *)
Definition number_start (c : ascii) : Prop :=
  is_sign c = true \/ c = "."%char \/ is_digit c = true \/ c = DOLLAR.

(** Index [i] is the first place of its name among [names]. *)
Definition first_of_its_name (names : list (list ascii)) (i : nat) : Prop :=
  i < length names
  /\ forall j, j < i -> nth j names [] <> nth i names [].

(** A text with no space at either end; the empty text is one. *)
Definition trimmed (s : list ascii) : Prop :=
  hd zero s <> SPACE /\ last s zero <> SPACE.

(** The token an operator is written with. *)
Definition token_of (o : FilterOp) : list ascii :=
  match o with
  | Eq => str "==" | Neq => str "!=" | Gt => str ">" | Lt => str "<"
  | Gte => str ">=" | Lte => str "<="
  | Contains => str "contains" | StartsWith => str "starts_with"
  | EndsWith => str "ends_with"
  end.

(** A character of a bare word of a filter expression: no space, no
    backslash, none of the operator characters. *)
Definition word_char (c : ascii) : Prop :=
  c <> SPACE /\ c <> BACKSLASH /\ is_escaped_op c = false.

(** A bare word: a column name or a literal that needs no care. *)
Definition word (s : list ascii) : Prop := s <> [] /\ Forall word_char s.

(** The pieces put together again, [d] between them. *)
Fixpoint join (d : ascii) (pieces : list (list ascii)) : list ascii :=
  match pieces with
  | [] => []
  | [x] => x
  | x :: rest => x ++ d :: join d rest
  end.

(** The state of the quote-aware line scan after the characters of [l],
    entered in state [q]. *)
Fixpoint quote_state (l : list ascii) (q : bool) : bool :=
  match l with
  | [] => q
  | c :: r => quote_state r (if (c =? DQUOTE)%char then negb q else q)
  end.

(** The scan meets no newline outside quotes among the characters of [l]. *)
Fixpoint newlines_quoted (l : list ascii) (q : bool) : bool :=
  match l with
  | [] => true
  | c :: r =>
      if (c =? DQUOTE)%char then newlines_quoted r (negb q)
      else if negb q && (c =? NL)%char then false
      else newlines_quoted r q
  end.

(** A line the body loop takes whole and as it is: not blank, its
    newlines inside quotes, its quotes closed, no carriage return at its
    end. *)
Definition whole_line (l : list ascii) : Prop :=
  l <> [] /\ quote_state l false = false /\ newlines_quoted l false = true
  /\ last l zero <> CR.

(** The offsets of lines laid out one after the other from [pos], a
    newline after each. *)
Fixpoint line_spans (pos : nat) (lines : list (list ascii))
  : list (nat * nat) :=
  match lines with
  | [] => []
  | l :: ls => (pos, pos + length l) :: line_spans (pos + length l + 1) ls
  end.

(** Lines of values written the way [render_csv] writes them. *)
Definition csv_lines (rows : list (list (list ascii))) (delimiter : ascii)
  : list ascii :=
  concat (map (fun vals => render_line vals delimiter) rows).

(** The blank lines of the body from offset [pos] on: the iterations of
    the body loop that take its [continue]. *)
Fixpoint blank_lines (base : list ascii) (total : nat) (fuel pos : nat)
  : nat :=
  match fuel with
  | 0 => 0
  | S fuel' =>
      if pos <? total then
        let line_end := find_line_end base total pos in
        let actual_end :=
          if (pos <? line_end) && (at_ base (line_end - 1) =? CR)%char
          then line_end - 1 else line_end in
        if actual_end =? pos
        then S (blank_lines base total fuel' (next_pos line_end total))
        else blank_lines base total fuel' (next_pos line_end total)
      else 0
  end.

(** The offset at which the body loop of [parse_head] stops. *)
Definition head_stop (r : CsvReader) (delimiter : ascii) (max_rows : nat)
  : nat :=
  let '(r, pos) := parse_header (clear r) delimiter in
  let base := addr r in
  let total := file_size_ r in
  b_pos (parse_head_loop base total delimiter (ncols_ r) max_rows
                         (total - pos)
                         (mkBody pos (fields_ r) (parsed_rows_ r))).

(** A hexadecimal digit. *)
Definition is_hex (c : ascii) : bool :=
  is_digit c || in_range "a" "f" c || in_range "A" "F" c.

(** The characters between the quotes of a JSON string (RFC 8259,
    section 7): unescaped characters from [0x20] on other than the quote
    and the backslash, the two-character escapes, and [\u] with four
    hexadecimal digits. *)
Inductive json_string_body : list ascii -> Prop :=
| body_end : json_string_body []
| body_char (c : ascii) (rest : list ascii) :
    32 <= code c -> c <> DQUOTE -> c <> BACKSLASH ->
    json_string_body rest -> json_string_body (c :: rest)
| body_escape (e : ascii) (rest : list ascii) :
    In e [DQUOTE; BACKSLASH; "/"; "b"; "f"; "n"; "r"; "t"]%char ->
    json_string_body rest -> json_string_body (BACKSLASH :: e :: rest)
| body_unicode (h1 h2 h3 h4 : ascii) (rest : list ascii) :
    is_hex h1 = true -> is_hex h2 = true -> is_hex h3 = true ->
    is_hex h4 = true -> json_string_body rest ->
    json_string_body (BACKSLASH :: "u"%char :: h1 :: h2 :: h3 :: h4 :: rest).

(** The value of a hexadecimal digit written in lower case. *)
Definition hex_value (c : ascii) : nat :=
  if is_digit c then code c - 48 else code c - 87.

(** A reader of the escapes [json_escape] writes. *)
Fixpoint json_unescape (l : list ascii) : list ascii :=
  match l with
  | [] => []
  | c :: r =>
      if (c =? BACKSLASH)%char then
        match r with
        | e :: r' =>
            if (e =? "u")%char then
              match r' with
              | _ :: _ :: h3 :: h4 :: r'' =>
                  ascii_of_nat (16 * hex_value h3 + hex_value h4)
                  :: json_unescape r''
              | _ => []
              end
            else
              (if (e =? "n")%char then NL
               else if (e =? "r")%char then CR
               else if (e =? "t")%char then TAB
               else e) :: json_unescape r'
        | [] => []
        end
      else c :: json_unescape r
  end.

(** Two readers that hold the same bytes, headers and column count, and
    the same first [m] rows. *)
Definition same_head (h t : CsvReader) (m : nat) : Prop :=
  addr h = addr t /\ headers_ h = headers_ t /\ ncols_ h = ncols_ t
  /\ Nat.min (row_count h) m = Nat.min (row_count t) m
  /\ forall i, i < Nat.min (row_count t) m -> row h i = row t i.

(** A view that stays below offset [hi] of the buffer; the null view
    denotes no byte at all. *)
Definition view_below (hi : nat) (v : string_view) : Prop :=
  match v with
  | View off len => off + len <= hi
  | NullView => True
  end.

(** ** What a filter asks of a row *)




(** The type the schema gives column [i]; Text where it has no entry. *)
Definition type_at (schema : list ColumnSchema) (i : nat) : ColumnType :=
  match nth_error schema i with
  | Some cs => type cs
  | None => Text
  end.

(** [i] is the first index at which [names] holds [wanted]. *)
Definition first_named (names : list (list ascii)) (wanted : list ascii)
           (i : nat) : Prop :=
  i < length names /\ nth i names [] = wanted
  /\ forall j, j < i -> nth j names [] <> wanted.


Section FilterMeaning.
Context `{DoubleOps}.
Variable stod : list ascii -> option double.

(** What an operator says of two numbers, the cell on the left, in the
    comparisons [==], [<] and [<=] of the arithmetic.  The three text
    operators say nothing of numbers. *)
Definition number_relation (o : FilterOp) (x y : double) : Prop :=
  match o with
  | Eq => deqb x y = true
  | Neq => deqb x y = false
  | Gt => dltb y x = true
  | Lt => dltb x y = true
  | Gte => dleb y x = true
  | Lte => dleb x y = true
  | Contains | StartsWith | EndsWith => False
  end.


End FilterMeaning.

(** ** Arithmetic to run the engine on

    Exact rational arithmetic as an implementation of the [double]
    interface, to evaluate the functions above on samples.  The square root
    is the integer square root of numerator times denominator over the
    denominator, exact on squares of rationals. *)

Definition q_sqrt (q : Q) : Q :=
  Qmake (Z.sqrt (Qnum q * Zpos (Qden q))) (Qden q).

#[export] Instance ExactOps : DoubleOps := {|
  double := Q;
  d_of_Z := inject_Z;
  dadd := Qplus;
  dsub := Qminus;
  dmul := Qmult;
  ddiv := Qdiv;
  dsqrt := q_sqrt;
  deqb := Qeq_bool;
  dltb := fun a b => negb (Qle_bool b a);
  dleb := Qle_bool
|}.

(** IEEE-754 binary64 itself, on the primitive floats: the arithmetic the
    compiled program runs on.  The integer conversion goes through 63-bit
    integers and is the exact cast for sizes below [2^63]. *)

Definition f64_of_Z (z : Z) : float :=
  match z with
  | Z0 => PrimFloat.of_uint63 0
  | Zpos _ => PrimFloat.of_uint63 (Uint63.of_Z z)
  | Zneg p => PrimFloat.opp (PrimFloat.of_uint63 (Uint63.of_Z (Zpos p)))
  end.

#[export] Instance Binary64Ops : DoubleOps := {|
  double := float;
  d_of_Z := f64_of_Z;
  dadd := PrimFloat.add;
  dsub := PrimFloat.sub;
  dmul := PrimFloat.mul;
  ddiv := PrimFloat.div;
  dsqrt := PrimFloat.sqrt;
  deqb := PrimFloat.eqb;
  dltb := PrimFloat.ltb;
  dleb := PrimFloat.leb
|}.

(** The value of the leading digits of [s], after [acc]. *)
Fixpoint leading_digits (s : list ascii) (acc : Z) : Z :=
  match s with
  | c :: r =>
      if is_digit c
      then leading_digits r (10 * acc + Z.of_nat (code c - code "0"%char))
      else acc
  | [] => acc
  end.

(** A conversion in the manner of [std::stod], restricted to integers: an
    optional sign and the leading digits are read and what follows them is
    ignored; it fails when no digit is there. *)
Definition stod_integral `{DoubleOps} (s : list ascii) : option double :=
  let '(negative, rest) :=
    match s with
    | c :: r => if (c =? "-")%char then (true, r)
                else if (c =? "+")%char then (false, r)
                else (false, s)
    | [] => (false, [])
    end in
  match rest with
  | c :: _ =>
      if is_digit c
      then Some (d_of_Z (if negative then - leading_digits rest 0
                         else leading_digits rest 0))
      else None
  | [] => None
  end.

(** ** Sample inputs *)

(** The unquoted texts of a list of views. *)
Definition texts (base : list ascii) (vs : list string_view)
  : list (list ascii) :=
  map (fun v => unquote (sv_text base v)) vs.

(** Lines of text joined into a file, each ended by a newline. *)
Definition file_of (lines : list string) : list ascii :=
  concat (map (fun l => str l ++ [NL]) lines).

(** Scenario 1 of the specification. *)
Definition people_csv : list ascii :=
  file_of ["name,age"; "Alice,30"; "Bob,25"]%string.

(** A ragged file: a short row and a long row under a two-column header. *)
Definition ragged_csv : list ascii :=
  file_of ["a,b"; "1"; "1,2,3"]%string.

(** A one-column file with a blank line between its two rows. *)
Definition blank_line_csv : list ascii :=
  file_of ["a"; "1"]%string ++ [NL] ++ file_of ["2"]%string.

(** A one-column file of a header, one row, and 256 more short rows. *)
Definition short_rows_csv : list ascii :=
  file_of ["a"; "1"]%string ++ concat (repeat (str "1" ++ [NL]) 256).

(** A column that mixes an integer and a decimal. *)
Definition mixed_numbers_csv : list ascii := file_of ["v"; "1"; "2.5"]%string.

(** An integer column with one value that is not a number. *)
Definition ages_csv : list ascii :=
  file_of ["name,age"; "Alice,30"; "Bob,n/a"; "Carol,35"]%string.

Definition ages_schema : list ColumnSchema :=
  [mkSchema (str "name") Text; mkSchema (str "age") Int64].

Definition age_over_30 : Filter := mkFilter (str "age") Gt (str "30").

(** A header that begins with a space. *)
Definition spaced_header_csv : list ascii :=
  file_of ["name, age"; "Alice, 30"]%string.

(** A filter on the text column and one on the number column. *)
Definition name_is_bob : Filter := mkFilter (str "name") Eq (str "Bob").
Definition age_under_31 : Filter := mkFilter (str "age") Lt (str "31").

(** A header that holds a comma, inside quotes. *)
Definition comma_header_csv : list ascii :=
  DQUOTE :: str "a,b" ++ DQUOTE :: str ",c" ++ [NL].

(** A header that is empty. *)
Definition empty_header_csv : list ascii := file_of [",x"; "1,2"]%string.

(** Two lines separated by pipes only. *)
Definition pipes_csv : list ascii := file_of ["a|b|c"; "1|2|3"]%string.

(** One line that a tab and a semicolon each split in two. *)
Definition tab_semi_csv : list ascii :=
  str "a" ++ [TAB] ++ str "b;c" ++ [NL].

(** Scenario 2 of the specification: pipes, with a quoted comma. *)
Definition quoted_pipes_csv : list ascii :=
  str "a|b|c" ++ [NL; DQUOTE] ++ str "x,y" ++ [DQUOTE] ++ str "|d|e" ++ [NL]
  ++ str "1|2|3" ++ [NL].

(** Scenario 3 of the specification: a header and ten rows. *)
Definition ten_rows_csv : list ascii :=
  file_of ["id,v"; "0,a"; "1,b"; "2,c"; "3,d"; "4,e";
           "5,f"; "6,g"; "7,h"; "8,i"; "9,j"]%string.

(** Scenarios 4 and 5 of the specification. *)
Definition three_ages_csv : list ascii :=
  file_of ["age"; "30"; "25"; "35"]%string.

Definition bools_csv : list ascii :=
  file_of ["val"; "true"; "false"; "YES"; "no"; "1"; "0"]%string.

(** Three tab-separated lines followed by comma-separated ones, from the
    tests of the repository. *)
Definition tabs_then_commas_csv : list ascii :=
  str "a" ++ [TAB] ++ str "b" ++ [TAB] ++ str "c" ++ [NL]
  ++ str "1" ++ [TAB] ++ str "2" ++ [TAB] ++ str "3" ++ [NL]
  ++ str "4" ++ [TAB] ++ str "5" ++ [TAB] ++ str "6" ++ [NL]
  ++ concat (repeat (str "x,y,z" ++ [NL]) 10).

(** Thirty rows alternating between two values. *)
Definition two_values_csv : list ascii :=
  file_of ["status"%string]
  ++ concat (repeat (file_of ["A"; "B"]%string) 15).

(** A column of decimals, one in exponent form. *)
Definition decimals_csv : list ascii := file_of ["v"; "1.5"; "2.5e3"]%string.

(** A record whose second field holds a newline inside quotes, and the
    line after it. *)
Definition quoted_newline_csv : list ascii :=
  str "a," ++ DQUOTE :: str "x" ++ NL :: str "y" ++ DQUOTE :: str ",b"
  ++ NL :: str "c".

(* ===================================================================== *)
(** * Part II. Properties                                                 *)
(* ===================================================================== *)

(** ** unquote *)

Lemma unescape_cons_plain (c : ascii) (l : list ascii) :
  c <> DQUOTE -> unescape (c :: l) = c :: unescape l.
Proof.
  intros Hc. simpl. destruct l as [|c' l']; [reflexivity|].
  apply Ascii.eqb_neq in Hc. rewrite Hc. reflexivity.
Qed.

Lemma unescape_double_quotes (x : list ascii) :
  unescape (double_quotes x) = x.
Proof.
  induction x as [|c r IH]; [reflexivity|].
  cbn [double_quotes]. destruct (Ascii.eqb_spec c DQUOTE) as [->|Hc].
  - cbn [unescape]. rewrite Ascii.eqb_refl. cbn. now rewrite IH.
  - rewrite unescape_cons_plain by assumption. now rewrite IH.
Qed.

Lemma bookended_shape (f : list ascii) :
  (2 <=? length f) && (front f =? DQUOTE)%char && (back f =? DQUOTE)%char
  = true ->
  exists mid, f = DQUOTE :: mid ++ [DQUOTE].
Proof.
  intros H. apply andb_prop in H as [H Hb]. apply andb_prop in H as [Hl Hf].
  apply Nat.leb_le in Hl. apply Ascii.eqb_eq in Hf, Hb.
  destruct f as [|a f']; [simpl in Hl; lia|].
  destruct f' as [|b f'']; [simpl in Hl; lia|].
  unfold front in Hf. simpl in Hf. subst a.
  assert (Hne : b :: f'' <> []) by discriminate.
  destruct (exists_last Hne) as (mid & z & Hz).
  exists mid. rewrite Hz. unfold back in Hb.
  change (last (DQUOTE :: b :: f'') zero) with (last (b :: f'') zero) in Hb.
  rewrite Hz, last_last in Hb. now subst z.
Qed.

Lemma unquote_quoteField (x : list ascii) : unquote (quoteField x) = x.
Proof.
  unfold unquote, quoteField.
  assert (Hlen : (2 <=? length (DQUOTE :: double_quotes x ++ [DQUOTE]))
                 = true).
  { apply Nat.leb_le. simpl. rewrite length_app. simpl. lia. }
  rewrite Hlen. unfold front, back. cbn [hd].
  change (last (DQUOTE :: double_quotes x ++ [DQUOTE]) zero)
    with (last ((DQUOTE :: double_quotes x) ++ [DQUOTE]) zero).
  rewrite last_last. rewrite Ascii.eqb_refl. cbn [andb].
  unfold remove_prefix1, remove_suffix1. cbn [tl].
  rewrite removelast_last. apply unescape_double_quotes.
Qed.

Lemma unquote_not_bookended (f : list ascii) :
  (forall mid, f <> DQUOTE :: mid ++ [DQUOTE]) -> unquote f = f.
Proof.
  intros Hf. unfold unquote.
  destruct ((2 <=? length f) && (front f =? DQUOTE)%char
            && (back f =? DQUOTE)%char) eqn:E; [|reflexivity].
  destruct (bookended_shape f E) as [mid Hmid]. now elim (Hf mid).
Qed.

(** What the engine reads back from a field written by [csv_escape] is the
    value that was written. *)
Lemma unquote_csv_escape (val : list ascii) (delim : ascii) :
  unquote (csv_escape val delim) = val.
Proof.
  unfold csv_escape. destruct (needs_quote val delim) eqn:E; cbn [negb].
  - apply unquote_quoteField.
  - apply unquote_not_bookended. intros mid ->.
    unfold needs_quote in E. cbn [existsb] in E.
    rewrite Ascii.eqb_refl, orb_true_r in E. discriminate E.
Qed.

(** C4. Unquoting a field produced by [quoteField] gives the text back, for
    every text (quotes, commas and newlines included); a value that is not
    an opening quote, a middle and a closing quote passes through [unquote]
    unchanged, and so does a single lone quote. *)
Theorem unquote_quoteField_roundtrip :
  (forall x : list ascii, unquote (quoteField x) = x) /\
  (forall f : list ascii,
      (forall mid, f <> DQUOTE :: mid ++ [DQUOTE]) -> unquote f = f) /\
  unquote [DQUOTE] = [DQUOTE].
Proof.
  split; [exact unquote_quoteField|].
  split; [exact unquote_not_bookended|reflexivity].
Qed.

Lemma unquote_quoteField_roundtrip_witness :
  (forall mid, str "hello" <> DQUOTE :: mid ++ [DQUOTE]) /\
  unquote (str "hello") = str "hello".
Proof.
  assert (H : forall mid, str "hello" <> DQUOTE :: mid ++ [DQUOTE])
    by (intros mid; discriminate).
  split; [exact H|].
  exact (proj1 (proj2 unquote_quoteField_roundtrip) (str "hello") H).
Defined.

(** ** The scanner: bounds, progress, and adequacy of the loop fuel *)

Lemma memchr_bounds (base : list ascii) (c : ascii) (n start p : nat) :
  memchr base c start n = Some p -> start <= p < start + n.
Proof.
  revert start. induction n as [|n IH]; intros start; simpl; [discriminate|].
  destruct (at_ base start =? c)%char.
  - intros [= <-]. lia.
  - intros Hm. apply IH in Hm. lia.
Qed.

Lemma line_end_slow_bounds (base : list ascii) (total n i : nat) (q : bool) :
  i + n = total ->
  i <= line_end_slow base total n i q <= total.
Proof.
  revert i q. induction n as [|n IH]; intros i q Hn; simpl; [lia|].
  destruct (at_ base i =? DQUOTE)%char.
  - specialize (IH (S i) (negb q)). lia.
  - destruct (negb q && (at_ base i =? NL)%char); [lia|].
    specialize (IH (S i) q). lia.
Qed.

Lemma find_line_end_bounds (base : list ascii) (total start : nat) :
  start <= total ->
  start <= find_line_end base total start <= total.
Proof.
  intros Hs. unfold find_line_end.
  destruct (memchr base NL start (total - start)) as [p|] eqn:Enl.
  - apply memchr_bounds in Enl.
    destruct (memchr base DQUOTE start (p - start)); [|lia].
    apply line_end_slow_bounds. lia.
  - destruct (memchr base DQUOTE start (total - start)); [|lia].
    apply line_end_slow_bounds. lia.
Qed.

Lemma next_pos_progress (line_end total pos : nat) :
  pos < total -> pos <= line_end <= total ->
  pos < next_pos line_end total <= total.
Proof.
  intros Hp Hl. unfold next_pos.
  destruct (Nat.ltb_spec line_end total); lia.
Qed.

Lemma skip_quoted_bounds (base : list ascii) (end_ fuel i : nat) :
  i <= end_ -> i <= skip_quoted base end_ fuel i <= end_.
Proof.
  revert i. induction fuel as [|fuel IH]; intros i Hi; simpl; [lia|].
  destruct (Nat.ltb_spec i end_); [|lia].
  destruct (at_ base i =? DQUOTE)%char.
  - destruct (Nat.ltb_spec (i + 1) end_); cbn [andb]; [|lia].
    destruct (at_ base (i + 1) =? DQUOTE)%char; [|lia].
    specialize (IH (i + 2)). lia.
  - specialize (IH (i + 1)). lia.
Qed.

Lemma skip_unquoted_bounds (base : list ascii) (end_ : nat) (delim : ascii)
      (fuel i : nat) :
  i <= end_ -> i <= skip_unquoted base end_ delim fuel i <= end_.
Proof.
  revert i. induction fuel as [|fuel IH]; intros i Hi; simpl; [lia|].
  destruct (Nat.ltb_spec i end_); cbn [andb]; [|lia].
  destruct (negb (at_ base i =? delim)%char); [|lia].
  specialize (IH (S i)). lia.
Qed.

(** Every iteration of a field loop consumes at least one character and
    stays inside the line. *)
Lemma scan_field_progress (base : list ascii) (end_ : nat) (delim : ascii)
      (i : nat) :
  i < end_ -> i < snd (scan_field base end_ delim i) <= end_.
Proof.
  intros Hi. unfold scan_field.
  destruct (at_ base i =? DQUOTE)%char; cbn [snd].
  - pose proof (skip_quoted_bounds base end_ (end_ - (i + 1)) (i + 1)) as Hq.
    set (j := skip_quoted base end_ (end_ - (i + 1)) (i + 1)) in *.
    destruct (Nat.ltb_spec j end_).
    + destruct (Nat.ltb_spec (j + 1) end_); cbn [andb]; [|lia].
      destruct (at_ base (j + 1) =? delim)%char; lia.
    + destruct (Nat.ltb_spec j end_); cbn [andb]; lia.
  - pose proof (skip_unquoted_bounds base end_ delim (end_ - i) i) as Hu.
    set (j := skip_unquoted base end_ delim (end_ - i) i) in *.
    destruct (Nat.ltb_spec j end_); lia.
Qed.

(** The inner loops are entered with enough fuel: what they return
    satisfies the exit condition of the source loop. *)
Lemma skip_quoted_exit (base : list ascii) (end_ fuel i : nat) :
  end_ - i <= fuel ->
  let j := skip_quoted base end_ fuel i in
  end_ <= j \/
  (at_ base j = DQUOTE /\
   ~ (j + 1 < end_ /\ at_ base (j + 1) = DQUOTE)).
Proof.
  revert i. induction fuel as [|fuel IH]; intros i Hf; simpl.
  - left. lia.
  - destruct (Nat.ltb_spec i end_); [|left; lia].
    destruct (Ascii.eqb_spec (at_ base i) DQUOTE) as [Hq|Hq].
    + destruct (Nat.ltb_spec (i + 1) end_); cbn [andb].
      * destruct (Ascii.eqb_spec (at_ base (i + 1)) DQUOTE) as [Hq'|Hq'].
        -- apply IH. lia.
        -- right. split; [assumption|]. intros [_ Hc]. contradiction.
      * right. split; [assumption|]. intros [Hc _]. lia.
    + apply IH. lia.
Qed.

Lemma skip_unquoted_exit (base : list ascii) (end_ : nat) (delim : ascii)
      (fuel i : nat) :
  end_ - i <= fuel ->
  let j := skip_unquoted base end_ delim fuel i in
  end_ <= j \/ at_ base j = delim.
Proof.
  revert i. induction fuel as [|fuel IH]; intros i Hf; simpl.
  - left. lia.
  - destruct (Nat.ltb_spec i end_); cbn [andb]; [|left; lia].
    destruct (Ascii.eqb_spec (at_ base i) delim) as [Hd|Hd]; cbn [negb].
    + right. assumption.
    + apply IH. lia.
Qed.

Lemma line_fields_loop_fuel (base : list ascii) (end_ : nat) (delim : ascii)
      (f1 f2 i : nat) (acc : list string_view) :
  end_ - i <= f1 -> end_ - i <= f2 ->
  line_fields_loop base end_ delim f1 i acc
  = line_fields_loop base end_ delim f2 i acc.
Proof.
  revert f2 i acc. induction f1 as [|f1 IH]; intros [|f2] i acc H1 H2; simpl;
    try reflexivity.
  - destruct (Nat.ltb_spec i end_); [lia|reflexivity].
  - destruct (Nat.ltb_spec i end_); [lia|reflexivity].
  - destruct (Nat.ltb_spec i end_) as [Hi|]; [|reflexivity].
    pose proof (scan_field_progress base end_ delim i Hi) as Hp.
    destruct (scan_field base end_ delim i) as [fld i']. cbn [snd] in Hp.
    apply IH; lia.
Qed.

Lemma append_loop_fuel (base : list ascii) (end_ : nat) (delim : ascii)
      (ncols f1 f2 i added : nat) (acc : list string_view) :
  end_ - i <= f1 -> end_ - i <= f2 ->
  append_loop base end_ delim ncols f1 i added acc
  = append_loop base end_ delim ncols f2 i added acc.
Proof.
  revert f2 i added acc.
  induction f1 as [|f1 IH]; intros [|f2] i added acc H1 H2; simpl;
    try reflexivity.
  - destruct (Nat.ltb_spec i end_); [lia|reflexivity].
  - destruct (Nat.ltb_spec i end_); [lia|reflexivity].
  - destruct (Nat.ltb_spec i end_) as [Hi|]; cbn [andb]; [|reflexivity].
    destruct (added <? ncols); [|reflexivity].
    pose proof (scan_field_progress base end_ delim i Hi) as Hp.
    destruct (scan_field base end_ delim i) as [fld i']. cbn [snd] in Hp.
    apply IH; lia.
Qed.

Lemma body_step_progress (base : list ascii) (total : nat) (d : ascii)
      (ncols : nat) (s : body_state) :
  b_pos s < total ->
  b_pos s < b_pos (body_step base total d ncols s) <= total.
Proof.
  intros Hp. unfold body_step.
  pose proof (@find_line_end_bounds base total (b_pos s)) as Hb.
  destruct (_ =? b_pos s); cbn [b_pos]; apply next_pos_progress; lia.
Qed.

Lemma parse_loop_fuel (base : list ascii) (total : nat) (d : ascii)
      (ncols f1 f2 : nat) (s : body_state) :
  total - b_pos s <= f1 -> total - b_pos s <= f2 ->
  parse_loop base total d ncols f1 s = parse_loop base total d ncols f2 s.
Proof.
  revert f2 s. induction f1 as [|f1 IH]; intros [|f2] s H1 H2; simpl;
    try reflexivity.
  - destruct (Nat.ltb_spec (b_pos s) total); [lia|reflexivity].
  - destruct (Nat.ltb_spec (b_pos s) total); [lia|reflexivity].
  - destruct (Nat.ltb_spec (b_pos s) total) as [Hp|]; [|reflexivity].
    pose proof (@body_step_progress base total d ncols s Hp).
    apply IH; lia.
Qed.

Lemma parse_head_loop_fuel (base : list ascii) (total : nat) (d : ascii)
      (ncols max_rows f1 f2 : nat) (s : body_state) :
  total - b_pos s <= f1 -> total - b_pos s <= f2 ->
  parse_head_loop base total d ncols max_rows f1 s
  = parse_head_loop base total d ncols max_rows f2 s.
Proof.
  revert f2 s. induction f1 as [|f1 IH]; intros [|f2] s H1 H2; simpl;
    try reflexivity.
  - destruct (Nat.ltb_spec (b_pos s) total); [lia|reflexivity].
  - destruct (Nat.ltb_spec (b_pos s) total); [lia|reflexivity].
  - destruct (Nat.ltb_spec (b_pos s) total) as [Hp|]; cbn [andb];
      [|reflexivity].
    destruct (b_rows s <? max_rows); [|reflexivity].
    pose proof (@body_step_progress base total d ncols s Hp).
    apply IH; lia.
Qed.

(** ** The table: every row has exactly [ncols_] fields *)

Lemma pad_loop_spec (n : nat) (fields : list string_view) :
  pad_loop n fields = fields ++ repeat NullView n.
Proof.
  revert fields. induction n as [|n IH]; intros fields; simpl.
  - now rewrite app_nil_r.
  - rewrite IH, <- app_assoc. reflexivity.
Qed.

Lemma line_fields_loop_acc (base : list ascii) (end_ : nat) (delim : ascii)
      (fuel i : nat) (acc : list string_view) :
  line_fields_loop base end_ delim fuel i acc
  = acc ++ line_fields_loop base end_ delim fuel i [].
Proof.
  revert i acc. induction fuel as [|fuel IH]; intros i acc; simpl.
  - now rewrite app_nil_r.
  - destruct (i <? end_); [|now rewrite app_nil_r].
    destruct (scan_field base end_ delim i) as [fld i'].
    rewrite (IH i' (acc ++ [fld])), (IH i' [fld]).
    now rewrite <- app_assoc.
Qed.

(** The field loop of [append_row_fields] emits the fields the loop of
    [parse_line_fields] emits, cut off once [ncols] are there. *)
Lemma append_loop_spec (base : list ascii) (end_ : nat) (delim : ascii)
      (ncols fuel i added : nat) (fields : list string_view) :
  added <= ncols ->
  let raw := line_fields_loop base end_ delim fuel i [] in
  append_loop base end_ delim ncols fuel i added fields
  = (added + Nat.min (length raw) (ncols - added),
     fields ++ firstn (ncols - added) raw).
Proof.
  revert i added fields. induction fuel as [|fuel IH];
    intros i added fields Ha; simpl.
  - rewrite firstn_nil, app_nil_r. f_equal. lia.
  - destruct (i <? end_); cbn [andb].
    2:{ rewrite firstn_nil, app_nil_r. f_equal. simpl. lia. }
    destruct (Nat.ltb_spec added ncols) as [Hlt|Hge].
    + destruct (scan_field base end_ delim i) as [fld i'].
      rewrite IH by lia. rewrite (line_fields_loop_acc _ _ _ _ _ [fld]).
      cbn [app length].
      replace (ncols - added) with (S (ncols - S added)) by lia.
      cbn [firstn]. rewrite <- app_assoc. cbn [app]. f_equal.
      set (rest := line_fields_loop base end_ delim fuel i' []).
      destruct (Nat.min_spec (length rest) (ncols - S added))
        as [[? ->]|[? ->]]; lia.
    + replace (ncols - added) with 0 by lia.
      rewrite firstn_O, app_nil_r. f_equal. lia.
Qed.

(** What [append_row_fields] adds to the store, against the raw fields of
    the line as [parse_line_fields] splits it. *)
Lemma append_row_fields_spec (base : list ascii) (start end_ : nat)
      (delim : ascii) (ncols : nat) (fields : list string_view) :
  exists cells,
    append_row_fields base start end_ delim ncols fields = fields ++ cells
    /\ length cells = ncols
    /\ map (sv_text base) cells
       = firstn ncols
           (map (sv_text base) (parse_line_fields base start end_ delim))
         ++ repeat []
              (ncols - length (parse_line_fields base start end_ delim)).
Proof.
  unfold append_row_fields, parse_line_fields.
  rewrite append_loop_spec by lia.
  set (raw := line_fields_loop base end_ delim (end_ - start) start []).
  rewrite Nat.sub_0_r. cbn [plus].
  destruct (Nat.eqb_spec start end_) as [->|Hne].
  - (* empty line *)
    subst raw. rewrite Nat.sub_diag. cbn [line_fields_loop length].
    rewrite Nat.min_0_l, firstn_nil, app_nil_r.
    rewrite Nat.ltb_irrefl, andb_false_r. cbn [andb].
    rewrite pad_loop_spec, !Nat.sub_0_r.
    exists (repeat NullView ncols). split; [reflexivity|]. split.
    + apply repeat_length.
    + cbn [map]. rewrite firstn_nil, map_repeat. reflexivity.
  - set (trailing := (start <? end_) && (at_ base (end_ - 1) =? delim)%char).
    destruct (Nat.ltb_spec (length raw) ncols) as [Hshort|Hlong].
    + (* fewer raw fields than columns: all kept, then padded *)
      rewrite Nat.min_l by lia. rewrite firstn_all2 by lia.
      assert (Hc : (length raw <? ncols) = true) by (apply Nat.ltb_lt; lia).
      rewrite Hc. cbn [andb]. fold trailing. destruct trailing.
      * rewrite pad_loop_spec, <- !app_assoc.
        exists (raw ++ [NullView] ++ repeat NullView (ncols - S (length raw))).
        split; [reflexivity|]. split.
        -- rewrite !length_app, repeat_length. simpl. lia.
        -- rewrite !map_app, map_repeat. cbn [map sv_text firstn].
           rewrite firstn_all2
             by (rewrite length_app, length_map; simpl; lia).
           rewrite length_app, <- app_assoc. cbn [length].
           replace (length raw + 1) with (S (length raw)) by lia.
           reflexivity.
      * rewrite pad_loop_spec, <- app_assoc.
        exists (raw ++ repeat NullView (ncols - length raw)).
        split; [reflexivity|]. split.
        -- rewrite length_app, repeat_length. lia.
        -- rewrite map_app, map_repeat.
           rewrite firstn_all2 by (rewrite length_map; lia).
           reflexivity.
    + (* at least as many raw fields as columns: cut at ncols *)
      rewrite Nat.min_r by lia.
      assert (Hc : (ncols <? ncols) = false) by apply Nat.ltb_irrefl.
      rewrite Hc. cbn [andb]. rewrite pad_loop_spec, Nat.sub_diag.
      cbn [repeat]. rewrite app_nil_r.
      exists (firstn ncols raw). split; [reflexivity|]. split.
      * rewrite length_firstn. lia.
      * assert (Hraw : forall extra,
                   firstn ncols (map (sv_text base) (raw ++ extra))
                   = map (sv_text base) (firstn ncols raw)).
        { intros extra. rewrite map_app, firstn_app, length_map.
          replace (ncols - length raw) with 0 by lia.
          rewrite firstn_O, app_nil_r. apply firstn_map. }
        destruct trailing.
        -- rewrite Hraw, length_app.
           replace (ncols - (length raw + length [View end_ 0])) with 0 by lia.
           cbn [repeat]. now rewrite app_nil_r.
        -- rewrite <- (app_nil_r raw) at 2 3. rewrite Hraw, app_nil_r.
           replace (ncols - length raw) with 0 by lia.
           cbn [repeat]. now rewrite app_nil_r.
Qed.

Lemma append_row_fields_length (base : list ascii) (start end_ : nat)
      (delim : ascii) (ncols : nat) (fields : list string_view) :
  length (append_row_fields base start end_ delim ncols fields)
  = length fields + ncols.
Proof.
  destruct (append_row_fields_spec base start end_ delim ncols fields)
    as (cells & -> & Hlen & _).
  rewrite length_app. lia.
Qed.

Lemma body_step_stride (base : list ascii) (total : nat) (d : ascii)
      (ncols : nat) (s : body_state) :
  stride_ok ncols s -> stride_ok ncols (body_step base total d ncols s).
Proof.
  unfold stride_ok, body_step. intros Hs.
  destruct (_ =? b_pos s); cbn [b_fields b_rows]; [assumption|].
  rewrite append_row_fields_length. lia.
Qed.

Lemma parse_loop_stride (base : list ascii) (total : nat) (d : ascii)
      (ncols fuel : nat) (s : body_state) :
  stride_ok ncols s -> stride_ok ncols (parse_loop base total d ncols fuel s).
Proof.
  revert s. induction fuel as [|fuel IH]; intros s Hs; simpl; [assumption|].
  destruct (b_pos s <? total); [|assumption].
  apply IH, body_step_stride, Hs.
Qed.

Lemma parse_head_loop_stride (base : list ascii) (total : nat) (d : ascii)
      (ncols max_rows fuel : nat) (s : body_state) :
  stride_ok ncols s ->
  stride_ok ncols (parse_head_loop base total d ncols max_rows fuel s).
Proof.
  revert s. induction fuel as [|fuel IH]; intros s Hs; simpl; [assumption|].
  destruct ((b_pos s <? total) && (b_rows s <? max_rows)); [|assumption].
  apply IH, body_step_stride, Hs.
Qed.

Lemma parse_header_clear (r : CsvReader) (d : ascii) :
  let r' := fst (parse_header (clear r) d) in
  fields_ r' = [] /\ parsed_rows_ r' = 0 /\ addr r' = addr r.
Proof.
  unfold parse_header. destruct (file_size_ (clear r) =? 0); cbn; auto.
Qed.

Lemma parse_stride (r : CsvReader) (d : ascii) :
  length (fields_ (parse r d)) = parsed_rows_ (parse r d) * ncols_ (parse r d).
Proof.
  unfold parse. pose proof (parse_header_clear r d) as (Hf & Hr & _).
  destruct (parse_header (clear r) d) as [r' pos]. cbn [fst] in Hf, Hr.
  destruct (ncols_ r' =? 0).
  - rewrite Hf, Hr. reflexivity.
  - cbn [fields_ parsed_rows_ ncols_].
    apply parse_loop_stride. unfold stride_ok. cbn. now rewrite Hf, Hr.
Qed.

Lemma parse_head_stride (neon : bool) (r : CsvReader) (d : ascii)
      (max_rows : nat) :
  length (fields_ (parse_head neon r d max_rows))
  = parsed_rows_ (parse_head neon r d max_rows)
    * ncols_ (parse_head neon r d max_rows).
Proof.
  unfold parse_head. pose proof (parse_header_clear r d) as (Hf & Hr & _).
  destruct (parse_header (clear r) d) as [r' pos]. cbn [fst] in Hf, Hr.
  destruct (ncols_ r' =? 0).
  - rewrite Hf, Hr. reflexivity.
  - cbn [fields_ parsed_rows_ ncols_].
    apply parse_head_loop_stride. unfold stride_ok. cbn. now rewrite Hf, Hr.
Qed.

Lemma row_length (r : CsvReader) (i : nat) :
  length (fields_ r) = parsed_rows_ r * ncols_ r ->
  i < parsed_rows_ r ->
  length (row r i) = ncols_ r.
Proof.
  intros Hs Hi. unfold row. rewrite length_firstn, length_skipn, Hs.
  apply Nat.min_l. nia.
Qed.

Lemma append_row_fields_acc (base : list ascii) (start end_ : nat)
      (delim : ascii) (ncols : nat) (fields : list string_view) :
  append_row_fields base start end_ delim ncols fields
  = fields ++ append_row_fields base start end_ delim ncols [].
Proof.
  unfold append_row_fields. rewrite !append_loop_spec by lia.
  destruct ((_ <? ncols) && (start <? end_)
            && (at_ base (end_ - 1) =? delim)%char);
    rewrite !pad_loop_spec; cbn [app]; rewrite <- ?app_assoc; reflexivity.
Qed.

Lemma parse_loop_lines (base : list ascii) (total : nat) (d : ascii)
      (ncols fuel : nat) (s : body_state) :
  let lines := body_lines base total fuel (b_pos s) in
  b_fields (parse_loop base total d ncols fuel s)
  = b_fields s ++ concat (map (row_cells base d ncols) lines)
  /\ b_rows (parse_loop base total d ncols fuel s)
     = b_rows s + length lines.
Proof.
  revert s. induction fuel as [|fuel IH]; intros s;
    cbn [parse_loop body_lines].
  - cbn. rewrite app_nil_r. split; [reflexivity|lia].
  - destruct (b_pos s <? total).
    2:{ cbn. rewrite app_nil_r. split; [reflexivity|lia]. }
    destruct (IH (body_step base total d ncols s)) as [Hf Hr].
    rewrite Hf, Hr. unfold body_step.
    destruct (_ =? b_pos s); cbn [b_pos b_fields b_rows].
    + split; reflexivity.
    + cbn [map concat length]. rewrite append_row_fields_acc.
      rewrite <- app_assoc. split; [reflexivity|lia].
Qed.

Lemma parse_head_loop_lines (base : list ascii) (total : nat) (d : ascii)
      (ncols max_rows fuel : nat) (s : body_state) :
  let lines := firstn (max_rows - b_rows s)
                      (body_lines base total fuel (b_pos s)) in
  b_fields (parse_head_loop base total d ncols max_rows fuel s)
  = b_fields s ++ concat (map (row_cells base d ncols) lines)
  /\ b_rows (parse_head_loop base total d ncols max_rows fuel s)
     = b_rows s + length lines.
Proof.
  revert s. induction fuel as [|fuel IH]; intros s;
    cbn [parse_head_loop body_lines].
  - rewrite firstn_nil. cbn. rewrite app_nil_r. split; [reflexivity|lia].
  - destruct (b_pos s <? total); cbn [andb].
    2:{ rewrite firstn_nil. cbn. rewrite app_nil_r.
        split; [reflexivity|lia]. }
    destruct (Nat.ltb_spec (b_rows s) max_rows) as [Hlt|Hge].
    + destruct (IH (body_step base total d ncols s)) as [Hf Hr].
      rewrite Hf, Hr. unfold body_step.
      destruct (_ =? b_pos s); cbn [b_pos b_fields b_rows].
      * split; reflexivity.
      * replace (max_rows - b_rows s) with (S (max_rows - S (b_rows s)))
          by lia.
        cbn [firstn map concat length]. rewrite append_row_fields_acc.
        rewrite <- app_assoc. split; [reflexivity|lia].
    + replace (max_rows - b_rows s) with 0 by lia.
      cbn. rewrite app_nil_r. split; [reflexivity|lia].
Qed.

(** Row [i] of a store made of blocks of [n] cells is block [i]. *)
Lemma block_of_concat (n : nat) (blocks : list (list string_view)) (i : nat) :
  Forall (fun b => length b = n) blocks ->
  i < length blocks ->
  firstn n (skipn (i * n) (concat blocks)) = nth i blocks [].
Proof.
  intros Hall. revert i. induction Hall as [|b blocks Hb _ IH]; intros i Hi.
  - cbn in Hi. lia.
  - destruct i as [|i]; cbn [concat nth].
    + cbn [Nat.mul skipn]. rewrite firstn_app, Hb, Nat.sub_diag, firstn_O.
      rewrite app_nil_r. apply firstn_all2. lia.
    + replace (S i * n) with (length b + i * n) by (cbn; lia).
      rewrite skipn_app, skipn_all2 by lia.
      replace (length b + i * n - length b) with (i * n) by lia.
      cbn [app]. apply IH. cbn in Hi. lia.
Qed.

Lemma row_cells_texts (base : list ascii) (d : ascii) (ncols : nat)
      (line : nat * nat) :
  length (row_cells base d ncols line) = ncols
  /\ map (sv_text base) (row_cells base d ncols line)
     = cut_and_pad ncols
         (map (sv_text base)
              (parse_line_fields base (fst line) (snd line) d)).
Proof.
  unfold row_cells, cut_and_pad.
  destruct (append_row_fields_spec base (fst line) (snd line) d ncols [])
    as (cells & -> & Hl & Ht).
  cbn [app]. rewrite length_map. split; assumption.
Qed.

(** Row [i] of the table is line [i] of [lines], cut and padded. *)
Lemma table_row_of_line (base : list ascii) (d : ascii) (ncols : nat)
      (lines : list (nat * nat)) (fields : list string_view) (i : nat) :
  fields = concat (map (row_cells base d ncols) lines) ->
  i < length lines ->
  exists line,
    nth_error lines i = Some line
    /\ map (sv_text base) (firstn ncols (skipn (i * ncols) fields))
       = cut_and_pad ncols
           (map (sv_text base)
                (parse_line_fields base (fst line) (snd line) d)).
Proof.
  intros -> Hi.
  destruct (nth_error lines i) as [line|] eqn:E;
    [|apply nth_error_None in E; lia].
  exists line. split; [reflexivity|].
  rewrite block_of_concat.
  - rewrite (nth_indep _ [] (row_cells base d ncols line))
      by (now rewrite length_map).
    rewrite map_nth. rewrite (nth_error_nth _ _ _ E).
    apply row_cells_texts.
  - apply Forall_forall. intros b Hb. apply in_map_iff in Hb as (l & <- & _).
    apply row_cells_texts.
  - now rewrite length_map.
Qed.

Lemma parse_table (r : CsvReader) (d : ascii) :
  let t := parse r d in
  addr t = addr r
  /\ (ncols_ t <> 0 ->
      fields_ t
      = concat (map (row_cells (addr r) d (ncols_ t)) (data_lines r d))
      /\ parsed_rows_ t = length (data_lines r d)).
Proof.
  unfold parse, data_lines.
  pose proof (parse_header_clear r d) as (Hf & Hr & Ha).
  destruct (parse_header (clear r) d) as [r' pos]. cbn [fst snd] in *.
  destruct (Nat.eqb_spec (ncols_ r') 0) as [E|E].
  - split; [exact Ha|]. intros Hn. contradiction.
  - cbn [addr fields_ parsed_rows_ ncols_]. split; [exact Ha|]. intros _.
    unfold file_size_. rewrite Ha.
    pose proof (parse_loop_lines (addr r) (length (addr r)) d (ncols_ r')
                  (length (addr r) - pos)
                  (mkBody pos (fields_ r') (parsed_rows_ r'))) as [H1 H2].
    cbn [b_pos b_fields b_rows] in H1, H2. rewrite H1, H2, Hf, Hr.
    split; reflexivity.
Qed.

Lemma parse_head_table (neon : bool) (r : CsvReader) (d : ascii)
      (max_rows : nat) :
  let t := parse_head neon r d max_rows in
  addr t = addr r
  /\ (ncols_ t <> 0 ->
      fields_ t
      = concat (map (row_cells (addr r) d (ncols_ t))
                    (firstn max_rows (data_lines r d)))
      /\ parsed_rows_ t = length (firstn max_rows (data_lines r d))).
Proof.
  unfold parse_head, data_lines.
  pose proof (parse_header_clear r d) as (Hf & Hr & Ha).
  destruct (parse_header (clear r) d) as [r' pos]. cbn [fst snd] in *.
  destruct (Nat.eqb_spec (ncols_ r') 0) as [E|E].
  - split; [exact Ha|]. intros Hn. contradiction.
  - cbn [addr fields_ parsed_rows_ ncols_]. split; [exact Ha|]. intros _.
    unfold file_size_. rewrite Ha.
    pose proof (parse_head_loop_lines (addr r) (length (addr r)) d
                  (ncols_ r') max_rows (length (addr r) - pos)
                  (mkBody pos (fields_ r') (parsed_rows_ r'))) as [H1 H2].
    cbn [b_pos b_fields b_rows] in H1, H2. rewrite H1, H2, Hf, Hr.
    rewrite Nat.sub_0_r. split; reflexivity.
Qed.

(** C3. After [parse] and after [parse_head] the flat store holds exactly
    [parsed_rows_ * ncols_] views and [row i] has [ncols_] fields for every
    parsed row; row [i] is the [i]-th non-blank data line of the file, its
    raw fields (as [parse_line_fields] splits the line) cut at [ncols_], so
    that the excess is dropped, and padded with empty fields up to
    [ncols_]. *)
Theorem table_stride_invariant :
  (forall (r : CsvReader) (delimiter : ascii),
      let t := parse r delimiter in
      length (fields_ t) = parsed_rows_ t * ncols_ t /\
      forall i, i < parsed_rows_ t ->
        length (row t i) = ncols_ t /\
        exists line,
          nth_error (data_lines r delimiter) i = Some line /\
          map (sv_text (addr r)) (row t i)
          = cut_and_pad (ncols_ t)
              (map (sv_text (addr r))
                   (parse_line_fields (addr r) (fst line) (snd line)
                                      delimiter))) /\
  (forall (arm_neon : bool) (r : CsvReader) (delimiter : ascii)
          (max_rows : nat),
      let t := parse_head arm_neon r delimiter max_rows in
      length (fields_ t) = parsed_rows_ t * ncols_ t /\
      forall i, i < parsed_rows_ t ->
        length (row t i) = ncols_ t /\
        exists line,
          nth_error (data_lines r delimiter) i = Some line /\
          map (sv_text (addr r)) (row t i)
          = cut_and_pad (ncols_ t)
              (map (sv_text (addr r))
                   (parse_line_fields (addr r) (fst line) (snd line)
                                      delimiter))).
Proof.
  split.
  - intros r d t. pose proof (parse_stride r d) as Hs. split; [exact Hs|].
    intros i Hi. split; [now apply row_length|].
    destruct (parse_table r d) as [Ha Ht]. fold t in Ha, Ht.
    destruct (Nat.eq_dec (ncols_ t) 0) as [E|E].
    { exfalso. unfold t, parse in Hi, E.
      pose proof (parse_header_clear r d) as (_ & Hr & _).
      destruct (parse_header (clear r) d) as [r' pos]. cbn [fst] in Hr.
      destruct (ncols_ r' =? 0) eqn:E0; [lia|].
      cbn [ncols_] in E. apply Nat.eqb_neq in E0. contradiction. }
    destruct (Ht E) as [Hf Hr]. unfold row.
    apply table_row_of_line; [exact Hf|lia].
  - intros neon r d m t. pose proof (parse_head_stride neon r d m) as Hs.
    split; [exact Hs|]. intros i Hi. split; [now apply row_length|].
    destruct (parse_head_table neon r d m) as [Ha Ht]. fold t in Ha, Ht.
    destruct (Nat.eq_dec (ncols_ t) 0) as [E|E].
    { exfalso. unfold t, parse_head in Hi, E.
      pose proof (parse_header_clear r d) as (_ & Hr & _).
      destruct (parse_header (clear r) d) as [r' pos]. cbn [fst] in Hr.
      destruct (ncols_ r' =? 0) eqn:E0; [lia|].
      cbn [ncols_] in E. apply Nat.eqb_neq in E0. contradiction. }
    destruct (Ht E) as [Hf Hr]. unfold row.
    destruct (table_row_of_line (addr r) d (ncols_ t)
                (firstn m (data_lines r d)) (fields_ t) i Hf)
      as (line & Hn & Hrow); [lia|].
    exists line. split; [|exact Hrow].
    rewrite nth_error_firstn in Hn.
    destruct (i <? m); [exact Hn|discriminate Hn].
Qed.

Lemma table_stride_invariant_witness :
  1 < parsed_rows_ (parse (open ragged_csv) ",")
  /\ length (row (parse (open ragged_csv) ",") 1) = 2.
Proof.
  assert (H : 1 < parsed_rows_ (parse (open ragged_csv) ","))
    by (vm_compute; lia).
  split; [exact H|].
  exact (proj1 (proj2 (proj1 table_stride_invariant (open ragged_csv)
                             ","%char) 1 H)).
Defined.

(** The two rows of the ragged sample: the short one padded, the long one
    cut. *)
Example ragged_rows :
  let t := parse (open ragged_csv) "," in
  map (sv_text ragged_csv) (row t 0) = [str "1"; []] /\
  map (sv_text ragged_csv) (row t 1) = [str "1"; str "2"].
Proof. vm_compute. split; reflexivity. Qed.

(** ** Head parse *)

Lemma body_step_rows (base : list ascii) (total : nat) (d : ascii)
      (ncols : nat) (s : body_state) :
  b_rows s <= b_rows (body_step base total d ncols s) <= S (b_rows s).
Proof.
  unfold body_step. destruct (_ =? b_pos s); cbn [b_rows]; lia.
Qed.

Lemma parse_loop_rows_mono (base : list ascii) (total : nat) (d : ascii)
      (ncols fuel : nat) (s : body_state) :
  b_rows s <= b_rows (parse_loop base total d ncols fuel s).
Proof.
  revert s. induction fuel as [|fuel IH]; intros s; simpl; [lia|].
  destruct (b_pos s <? total); [|lia].
  pose proof (body_step_rows base total d ncols s).
  specialize (IH (body_step base total d ncols s)). lia.
Qed.

Lemma parse_head_loop_rows (base : list ascii) (total : nat) (d : ascii)
      (ncols max_rows fuel : nat) (s : body_state) :
  b_rows s <= max_rows ->
  b_rows (parse_head_loop base total d ncols max_rows fuel s)
  = Nat.min max_rows (b_rows (parse_loop base total d ncols fuel s)).
Proof.
  revert s. induction fuel as [|fuel IH]; intros s Hs; simpl; [lia|].
  destruct (b_pos s <? total); cbn [andb]; [|lia].
  pose proof (body_step_rows base total d ncols s) as Hstep.
  destruct (Nat.ltb_spec (b_rows s) max_rows).
  - apply IH. lia.
  - pose proof (parse_loop_rows_mono base total d ncols fuel
                                     (body_step base total d ncols s)).
    lia.
Qed.

(** The head parse tokenizes [min(max_rows, rows of the full parse)] rows. *)
Lemma parse_head_row_count (arm_neon : bool) (r : CsvReader) (d : ascii)
      (max_rows : nat) :
  row_count (parse_head arm_neon r d max_rows)
  = Nat.min max_rows (row_count (parse r d)).
Proof.
  unfold row_count, parse_head, parse.
  pose proof (parse_header_clear r d) as (_ & Hr & _).
  destruct (parse_header (clear r) d) as [r' pos]. cbn [fst] in Hr.
  destruct (ncols_ r' =? 0).
  - rewrite Hr. lia.
  - cbn [parsed_rows_]. apply parse_head_loop_rows. cbn. lia.
Qed.

(** The rows of the head parse are the first rows of the full parse. *)
Lemma parse_head_rows_prefix (arm_neon : bool) (r : CsvReader) (d : ascii)
      (max_rows : nat) :
  let h := parse_head arm_neon r d max_rows in
  let t := parse r d in
  ncols_ h = ncols_ t
  /\ fields_ h = firstn (max_rows * ncols_ t) (fields_ t).
Proof.
  cbv zeta.
  assert (Hn : ncols_ (parse_head arm_neon r d max_rows) = ncols_ (parse r d)).
  { unfold parse_head, parse.
    destruct (parse_header (clear r) d) as [r' pos].
    destruct (ncols_ r' =? 0); reflexivity. }
  split; [exact Hn|].
  destruct (parse_head_table arm_neon r d max_rows) as [_ Hh].
  destruct (parse_table r d) as [_ Ht]. rewrite Hn in Hh.
  destruct (Nat.eq_dec (ncols_ (parse r d)) 0) as [E|E].
  - rewrite E, Nat.mul_0_r, firstn_O.
    pose proof (parse_head_stride arm_neon r d max_rows) as Hs.
    rewrite Hn, E, Nat.mul_0_r in Hs. now apply length_zero_iff_nil.
  - destruct (Hh E) as [-> _]. destruct (Ht E) as [-> _].
    set (n := ncols_ (parse r d)). set (f := row_cells (addr r) d n).
    assert (Hblocks : forall (ls : list (nat * nat)) (m : nat),
               concat (map f (firstn m ls))
               = firstn (m * n) (concat (map f ls))).
    { induction ls as [|l ls IH]; intros m.
      - cbn [map concat]. now rewrite !firstn_nil.
      - destruct m as [|m]; [reflexivity|].
        cbn [firstn map concat]. rewrite IH.
        replace (S m * n) with (length (f l) + m * n)
          by (unfold f; destruct (row_cells_texts (addr r) d n l) as [-> _];
              cbn; lia).
        rewrite firstn_app_2. reflexivity. }
    apply Hblocks.
Qed.

(** C1. The head parse tokenizes [min(max_rows, actual rows)] rows for
    every input; its total is not the number of rows on a file whose
    unparsed remainder holds a blank line: the full parse of
    [blank_line_csv] finds 2 rows, the head parse limited to 1 row reports
    a total of 3, with and without the vectorized counter. *)
Theorem parse_head_total_rows_blank_line :
  (forall (arm_neon : bool) (r : CsvReader) (delimiter : ascii)
          (max_rows : nat),
      row_count (parse_head arm_neon r delimiter max_rows)
      = Nat.min max_rows (row_count (parse r delimiter))) /\
  row_count (parse (open blank_line_csv) ",") = 2 /\
  total_rows (parse (open blank_line_csv) ",") = 2 /\
  forall arm_neon : bool,
    row_count (parse_head arm_neon (open blank_line_csv) "," 1) = 1 /\
    total_rows (parse_head arm_neon (open blank_line_csv) "," 1) = 3.
Proof.
  split; [exact parse_head_row_count|].
  split; [reflexivity|]. split; [reflexivity|].
  intros [|]; split; reflexivity.
Qed.

(** Without a blank line in the remainder the total is the number of rows,
    also when the last row has no newline. *)
Example head_total_without_trailing_newline (arm_neon : bool) :
  let bytes := file_of ["a"; "1"; "2"]%string ++ str "3" in
  row_count (parse (open bytes) ",") = 3
  /\ total_rows (parse_head arm_neon (open bytes) "," 1) = 3.
Proof. destruct arm_neon; vm_compute; split; reflexivity. Qed.

(** ** Newline counting *)

Lemma neon_batch_index (data : list ascii) (nl ones : uint8x16_t)
      (batch : nat) (acc : uint8x16_t) (i : nat) :
  snd (neon_batch data nl ones batch acc i) = i + 16 * batch.
Proof.
  revert acc i. induction batch as [|batch IH]; intros acc i;
    cbn [neon_batch].
  - cbn. lia.
  - rewrite IH. lia.
Qed.

(** The vectorized loop is entered with enough fuel: it leaves fewer than
    sixteen bytes to the scalar tail. *)
Lemma neon_loop_exit (data : list ascii) (len : nat) (nl ones : uint8x16_t)
      (fuel count i : nat) :
  len - i <= fuel ->
  let i' := snd (neon_loop data len nl ones fuel count i) in
  i <= i' <= Nat.max i len /\ len < i' + 16.
Proof.
  revert count i. induction fuel as [|fuel IH]; intros count i Hf;
    cbn [neon_loop].
  - cbn. lia.
  - destruct (Nat.leb_spec (i + 16) len) as [Hroom|]; [|cbn; lia].
    set (batch := Nat.min ((len - i) / 16) 255).
    assert (Hb : 16 * batch <= len - i).
    { pose proof (Nat.Div0.mul_div_le (len - i) 16). subst batch. lia. }
    assert (Hb1 : 1 <= batch).
    { assert (1 <= (len - i) / 16)
        by (apply Nat.div_le_lower_bound; lia).
      subst batch. lia. }
    pose proof (neon_batch_index data nl ones batch (vdupq_n_u8 0) i) as Hi.
    destruct (neon_batch data nl ones batch (vdupq_n_u8 0) i) as [acc' j].
    cbn [snd] in Hi. subst j.
    specialize (IH (count + Z.to_nat (vaddvq_u8 acc')) (i + 16 * batch)).
    cbv zeta in IH. destruct IH as (I1 & I2); [lia|]. lia.
Qed.

Lemma scalar_loop_counts (data : list ascii) (n count i : nat) :
  scalar_loop data n count i = count + count_nl data i n.
Proof.
  revert count i. induction n as [|n IH]; intros count i; cbn.
  - lia.
  - rewrite IH. destruct (at_ data i =? NL)%char; lia.
Qed.

Lemma count_nl_app (data : list ascii) (i n m : nat) :
  count_nl data i (n + m) = count_nl data i n + count_nl data (i + n) m.
Proof.
  revert i. induction n as [|n IH]; intros i; cbn.
  - now rewrite Nat.add_0_r.
  - rewrite IH. replace (S i + n) with (i + S n) by lia. lia.
Qed.

(** The scalar path counts the newline bytes of the range. *)
Lemma count_newlines_scalar (data : list ascii) (len : nat) :
  count_newlines false data len = count_nl data 0 len.
Proof.
  unfold count_newlines. rewrite scalar_loop_counts, Nat.sub_0_r.
  reflexivity.
Qed.

Lemma code_eqb (c d : ascii) :
  (Z.of_nat (code c) =? Z.of_nat (code d))%Z = (c =? d)%char.
Proof.
  destruct (Ascii.eqb_spec c d) as [->|Hne].
  - apply Z.eqb_refl.
  - apply Z.eqb_neq. intros E. apply Nat2Z.inj in E. apply Hne.
    unfold code in E.
    rewrite <- (ascii_nat_embedding c), <- (ascii_nat_embedding d).
    now rewrite E.
Qed.

(** The lanes compared and masked: one per newline byte of the chunk. *)
Lemma newline_lanes_spec (data : list ascii) (i : nat) :
  newline_lanes data i
  = map (fun k => if (at_ data (i + k) =? NL)%char then 1%Z else 0%Z)
        (seq 0 16).
Proof.
  unfold newline_lanes, vandq_u8, vceqq_u8, vld1q_u8, vdupq_n_u8.
  cbn [seq map repeat lanewise]. rewrite !code_eqb.
  repeat (f_equal; [destruct (_ =? NL)%char; reflexivity|]).
  f_equal. destruct (_ =? NL)%char; reflexivity.
Qed.

Lemma lane_sum_cons (x : Z) (a : uint8x16_t) :
  lane_sum (x :: a) = (x + lane_sum a)%Z.
Proof. reflexivity. Qed.

Lemma lane_sum_map_count (data : list ascii) (i j n : nat) :
  lane_sum (map (fun k => if (at_ data (i + k) =? NL)%char
                          then 1%Z else 0%Z) (seq j n))
  = Z.of_nat (count_nl data (i + j) n).
Proof.
  revert j. induction n as [|n IH]; intros j; [reflexivity|].
  cbn [seq map count_nl]. rewrite lane_sum_cons.
  rewrite IH. replace (i + S j) with (S (i + j)) by lia.
  destruct (at_ data (i + j) =? NL)%char; lia.
Qed.

Lemma newline_lanes_sum (data : list ascii) (i : nat) :
  lane_sum (newline_lanes data i) = Z.of_nat (count_nl data i 16)
  /\ length (newline_lanes data i) = 16
  /\ Forall (fun x => (0 <= x)%Z) (newline_lanes data i).
Proof.
  rewrite newline_lanes_spec. split; [|split].
  - rewrite lane_sum_map_count. now rewrite Nat.add_0_r.
  - now rewrite length_map, length_seq.
  - apply Forall_forall. intros x Hx. apply in_map_iff in Hx as (k & <- & _).
    destruct (_ =? NL)%char; lia.
Qed.

Lemma lane_sum_nonneg (a : uint8x16_t) :
  Forall (fun x => (0 <= x)%Z) a -> (0 <= lane_sum a)%Z.
Proof.
  induction 1 as [|x a Hx _ IH]; [reflexivity|].
  rewrite lane_sum_cons. lia.
Qed.

(** Lane-wise addition does not wrap while the two vectors together hold
    at most 255. *)
Lemma vaddq_u8_small (a b : uint8x16_t) :
  length a = length b ->
  Forall (fun x => (0 <= x)%Z) a -> Forall (fun x => (0 <= x)%Z) b ->
  (lane_sum a + lane_sum b <= 255)%Z ->
  lane_sum (vaddq_u8 a b) = (lane_sum a + lane_sum b)%Z
  /\ length (vaddq_u8 a b) = length a
  /\ Forall (fun x => (0 <= x)%Z) (vaddq_u8 a b).
Proof.
  unfold vaddq_u8. revert b.
  induction a as [|x a IH]; intros [|y b] Hl Ha Hb Hs;
    try discriminate Hl.
  - repeat split; constructor.
  - inversion Ha as [|? ? Hx Ha']; subst.
    inversion Hb as [|? ? Hy Hb']; subst.
    pose proof (lane_sum_nonneg a Ha') as Hsa.
    pose proof (lane_sum_nonneg b Hb') as Hsb.
    rewrite !lane_sum_cons in Hs. cbn [lanewise length].
    rewrite !lane_sum_cons.
    destruct (IH b) as (I1 & I2 & I3);
      [now injection Hl|assumption|assumption|lia|].
    rewrite I1, I2. rewrite Z.mod_small by lia.
    repeat split; [lia|constructor; [lia|assumption]].
Qed.

Lemma neon_batch_small (data : list ascii) (batch : nat) (acc : uint8x16_t)
      (i : nat) :
  length acc = 16 -> Forall (fun x => (0 <= x)%Z) acc ->
  (lane_sum acc + Z.of_nat (count_nl data i (16 * batch)) <= 255)%Z ->
  let '(acc', i') :=
    neon_batch data (vdupq_n_u8 (Z.of_nat (code NL))) (vdupq_n_u8 1)
               batch acc i in
  i' = i + 16 * batch
  /\ lane_sum acc'
     = (lane_sum acc + Z.of_nat (count_nl data i (16 * batch)))%Z.
Proof.
  revert acc i. induction batch as [|batch IH]; intros acc i Hl Ha Hs.
  - cbn. split; lia.
  - cbn [neon_batch]. fold (newline_lanes data i).
    replace (16 * S batch) with (16 + 16 * batch) in * by lia.
    rewrite count_nl_app in *.
    destruct (newline_lanes_sum data i) as (N1 & N2 & N3).
    destruct (vaddq_u8_small acc (newline_lanes data i)) as (V1 & V2 & V3);
      [lia|assumption|assumption|lia|].
    specialize (IH (vaddq_u8 acc (newline_lanes data i)) (i + 16)).
    destruct (neon_batch _ _ _ batch _ (i + 16)) as [acc' i'].
    destruct IH as [-> ->]; [lia|assumption|lia|]. split; lia.
Qed.

Lemma lane_sum_fold_left (a : uint8x16_t) (z : Z) :
  fold_left Z.add a z = (z + lane_sum a)%Z.
Proof.
  revert z. induction a as [|x a IH]; intros z; cbn [fold_left].
  - cbn. lia.
  - rewrite IH, lane_sum_cons. lia.
Qed.

Lemma count_nl_mono (data : list ascii) (i n m : nat) :
  count_nl data i n <= count_nl data i (n + m).
Proof. rewrite count_nl_app. lia. Qed.

Lemma neon_loop_small (data : list ascii) (len fuel count i : nat) :
  i <= len -> count_nl data i (len - i) <= 255 ->
  let '(count', i') :=
    neon_loop data len (vdupq_n_u8 (Z.of_nat (code NL))) (vdupq_n_u8 1)
              fuel count i in
  i <= i' <= len /\ count' = count + count_nl data i (i' - i).
Proof.
  revert count i. induction fuel as [|fuel IH]; intros count i Hi Hs.
  - cbn. rewrite Nat.sub_diag. cbn. lia.
  - cbn [neon_loop]. destruct (Nat.leb_spec (i + 16) len) as [Hroom|].
    2:{ rewrite Nat.sub_diag. cbn. lia. }
    set (batch := Nat.min ((len - i) / 16) 255).
    assert (Hb : 16 * batch <= len - i).
    { pose proof (Nat.Div0.mul_div_le (len - i) 16). subst batch. lia. }
    assert (Hsplit : len - i = 16 * batch + (len - i - 16 * batch)) by lia.
    assert (Hc : count_nl data i (16 * batch) <= 255).
    { pose proof (count_nl_mono data i (16 * batch) (len - i - 16 * batch)).
      rewrite <- Hsplit in H. lia. }
    pose proof (neon_batch_small data batch (vdupq_n_u8 0) i) as Hbatch.
    destruct (neon_batch _ _ _ batch (vdupq_n_u8 0) i) as [acc' i'].
    destruct Hbatch as [-> Hsum];
      [reflexivity
      |apply Forall_forall; intros x Hx; apply repeat_spec in Hx; lia
      |change (lane_sum (vdupq_n_u8 0)) with 0%Z; lia|].
    change (lane_sum (vdupq_n_u8 0)) with 0%Z in Hsum.
    assert (Hv : Z.to_nat (vaddvq_u8 acc') = count_nl data i (16 * batch)).
    { unfold vaddvq_u8. rewrite lane_sum_fold_left, Hsum.
      rewrite Z.mod_small by lia. lia. }
    rewrite Hv.
    specialize (IH (count + count_nl data i (16 * batch)) (i + 16 * batch)).
    destruct (neon_loop _ _ _ _ fuel _ (i + 16 * batch)) as [count' i''].
    destruct IH as [Hi'' ->]; [lia| |].
    + rewrite Hsplit, count_nl_app in Hs.
      replace (len - (i + 16 * batch)) with (len - i - 16 * batch) by lia.
      lia.
    + split; [lia|].
      replace (i'' - i) with (16 * batch + (i'' - (i + 16 * batch))) by lia.
      rewrite count_nl_app. lia.
Qed.

(** Below 256 newline bytes the vectorized path and the scalar scan
    agree. *)
Theorem count_newlines_neon_small (data : list ascii) (len : nat) :
  count_newlines false data len <= 255 ->
  count_newlines true data len = count_newlines false data len.
Proof.
  rewrite count_newlines_scalar. intros Hs. unfold count_newlines.
  pose proof (neon_loop_small data len len 0 0) as Hloop.
  destruct (neon_loop _ _ _ _ len 0 0) as [count' i'].
  destruct Hloop as [Hi ->]; [lia|now rewrite Nat.sub_0_r|].
  rewrite scalar_loop_counts, Nat.sub_0_r. cbn [plus].
  replace len with (i' + (len - i')) at 2 by lia.
  rewrite count_nl_app. reflexivity.
Qed.

(** C8. The vectorized counter and the scalar scan disagree on 256 newline
    bytes (the sum across the sixteen lanes is folded through an eight-bit
    result and wraps to 0), and so the total a head parse reports for
    [short_rows_csv] depends on whether the vectorized path is compiled in. *)
Theorem count_newlines_neon_wraps :
  count_newlines false (repeat NL 256) 256 = 256 /\
  count_newlines true (repeat NL 256) 256 = 0 /\
  total_rows (parse_head false (open short_rows_csv) "," 1) = 257 /\
  total_rows (parse_head true (open short_rows_csv) "," 1) = 1.
Proof. vm_compute. repeat split; reflexivity. Qed.

(** ** Type inference: the Float64 predicate *)

Lemma is_digit_plain (c : ascii) :
  is_digit c = true ->
  is_sign c = false /\ c <> "."%char /\ c <> "e"%char /\ c <> "E"%char.
Proof.
  destruct c as [[] [] [] [] [] [] [] []]; vm_compute; intros Hd;
    try discriminate Hd; repeat split; try reflexivity; discriminate.
Qed.

Lemma is_sign_cases (c : ascii) :
  is_sign c = true -> c = "+"%char \/ c = "-"%char.
Proof.
  unfold is_sign. intros Hs. apply orb_prop in Hs as [Hs|Hs];
    apply Ascii.eqb_eq in Hs; auto.
Qed.

Lemma opt_sign_no_digit_point (sg : list ascii) (c : ascii) :
  opt_sign sg -> In c sg -> is_sign c = true.
Proof.
  intros [->|[->| ->]] Hin; simpl in Hin; try contradiction;
    destruct Hin as [<-|[]]; reflexivity.
Qed.

Lemma digit_or_point_not_sign (c : ascii) :
  digit_or_point c -> is_sign c = false.
Proof.
  intros [Hd| ->]; [apply (is_digit_plain c Hd)|reflexivity].
Qed.

Lemma forallb_all_digits (s : list ascii) :
  forallb is_digit s = true <-> all_digits s.
Proof.
  unfold all_digits. rewrite forallb_forall, Forall_forall. reflexivity.
Qed.

(** The exponent part, code against words. *)
Lemma float_exponent_spec (r : list ascii) :
  float_exponent r = true <->
  exists sg ds, r = sg ++ ds /\ opt_sign sg /\ ds <> [] /\ all_digits ds.
Proof.
  unfold float_exponent, skip_sign. split.
  - destruct r as [|c r']; [discriminate|].
    destruct (is_sign c) eqn:Hs.
    + destruct r' as [|d r'']; [discriminate|]. intros Hd.
      exists [c], (d :: r''). split; [reflexivity|]. split.
      * destruct (is_sign_cases c Hs) as [->| ->]; unfold opt_sign; auto.
      * split; [discriminate|]. now apply forallb_all_digits.
    + intros Hd. exists [], (c :: r'). split; [reflexivity|].
      split; [left; reflexivity|]. split; [discriminate|].
      now apply forallb_all_digits.
  - intros (sg & ds & -> & Hsg & Hne & Hds).
    destruct ds as [|d ds']; [contradiction|].
    assert (Hd : is_digit d = true) by (inversion Hds; assumption).
    destruct Hsg as [->|[->| ->]]; cbn [app].
    + assert (Hns : is_sign d = false) by apply (is_digit_plain d Hd).
      rewrite Hns. exact (proj2 (forallb_all_digits (d :: ds')) Hds).
    + exact (proj2 (forallb_all_digits (d :: ds')) Hds).
    + exact (proj2 (forallb_all_digits (d :: ds')) Hds).
Qed.

(** The mantissa loop accepts: what it has read and what follows. *)
Lemma float_mantissa_true (l : list ascii) (has_dot has_digit : bool) :
  float_mantissa l has_dot has_digit = true ->
  exists m e,
    l = m ++ e
    /\ Forall digit_or_point m
    /\ count_occ ascii_dec m "."%char + (if has_dot then 1 else 0) <= 1
    /\ (has_digit = true \/ Exists (fun c => is_digit c = true) m)
    /\ ((e = [] /\ (has_dot = true \/ In "."%char m)) \/ spec_exponent e).
Proof.
  revert has_dot has_digit.
  induction l as [|c r IH]; intros has_dot has_digit; cbn [float_mantissa].
  - intros Hb. apply andb_prop in Hb as [-> ->]. exists [], [].
    repeat split; auto; simpl; lia.
  - destruct (Ascii.eqb_spec c ".") as [->|Hpt].
    + destruct has_dot; [discriminate|]. intros Hm.
      destruct (IH _ _ Hm) as (m & e & -> & Hall & Hcnt & Hdig & Hend).
      exists ("."%char :: m), e. split; [reflexivity|]. split.
      * constructor; [right; reflexivity|assumption].
      * split; [rewrite count_occ_cons_eq by reflexivity; lia|]. split.
        -- destruct Hdig as [Hd|Hd]; [left; exact Hd|right].
           now apply Exists_cons_tl.
        -- destruct Hend as [[-> _]|He]; [left|right; exact He].
           split; [reflexivity|right; left; reflexivity].
    + destruct (is_digit c) eqn:Hd.
      * intros Hm.
        destruct (IH _ _ Hm) as (m & e & -> & Hall & Hcnt & _ & Hend).
        exists (c :: m), e. split; [reflexivity|]. split.
        -- constructor; [left; exact Hd|assumption].
        -- split; [rewrite count_occ_cons_neq by congruence; exact Hcnt|].
           split; [right; now apply Exists_cons_hd|].
           destruct Hend as [[-> Hp]|He]; [left|right; exact He].
           split; [reflexivity|]. destruct Hp as [Hp|Hp]; [left; exact Hp|].
           right. right. exact Hp.
      * destruct ((c =? "e")%char || (c =? "E")%char) eqn:He;
          [|discriminate].
        destruct has_digit; [|discriminate]. cbn [negb]. intros Hx.
        apply float_exponent_spec in Hx as (sg & ds & -> & Hsg & Hne & Hds).
        exists [], (c :: sg ++ ds). split; [reflexivity|].
        split; [constructor|]. split; [destruct has_dot; simpl; lia|].
        split; [left; reflexivity|]. right.
        exists c, sg, ds. split; [reflexivity|]. split; [|auto].
        apply orb_prop in He as [He|He]; apply Ascii.eqb_eq in He; auto.
Qed.

(** The mantissa loop on a text of the specified shape. *)
Lemma float_mantissa_ok (m e : list ascii) (has_dot has_digit : bool) :
  Forall digit_or_point m ->
  count_occ ascii_dec m "."%char + (if has_dot then 1 else 0) <= 1 ->
  has_digit = true \/ Exists (fun c => is_digit c = true) m ->
  (e = [] /\ (has_dot = true \/ In "."%char m)) \/ spec_exponent e ->
  float_mantissa (m ++ e) has_dot has_digit = true.
Proof.
  revert has_dot has_digit.
  induction m as [|c m IH]; intros has_dot has_digit Hall Hcnt Hdig Hend.
  - cbn [app]. destruct Hdig as [->|Hx]; [|inversion Hx].
    destruct Hend as [[-> [->|[]]]|(mk & sg & ds & -> & Hmk & Hsg & Hne & Hds)].
    + reflexivity.
    + cbn [float_mantissa].
      assert (Hx : float_exponent (sg ++ ds) = true)
        by (apply float_exponent_spec; exists sg, ds; auto).
      destruct Hmk as [->| ->]; cbn; exact Hx.
  - inversion Hall as [|? ? Hc Hall']; subst. cbn [app float_mantissa].
    destruct Hc as [Hd| ->].
    + destruct (is_digit_plain c Hd) as (_ & Hpt & _).
      apply Ascii.eqb_neq in Hpt. rewrite Hpt, Hd.
      rewrite count_occ_cons_neq in Hcnt
        by (apply Ascii.eqb_neq in Hpt; congruence).
      apply IH; auto.
      destruct Hend as [[-> Hp]|He]; [left|right; exact He].
      split; [reflexivity|]. destruct Hp as [Hp|[Hp|Hp]]; auto.
      apply Ascii.eqb_neq in Hpt. congruence.
    + rewrite count_occ_cons_eq in Hcnt by reflexivity.
      destruct has_dot; [simpl in Hcnt; lia|]. cbn.
      apply IH; auto.
      * simpl in *. lia.
      * destruct Hdig as [Hd|Hd]; [left; exact Hd|right].
        inversion Hd as [? ? Hx|]; subst; [discriminate Hx|assumption].
      * destruct Hend as [[-> _]|He]; [left; auto|right; exact He].
Qed.

(** [is_float64] accepts exactly the texts of the specified shape that hold
    a decimal point or an exponent marker. *)
Lemma is_float64_spec (s : list ascii) :
  is_float64 s = true <-> spec_float64 s /\ has_point_or_exponent s.
Proof.
  split.
  - unfold is_float64. destruct s as [|c r]; [discriminate|].
    destruct (skip_sign (c :: r)) as [|c0 r0] eqn:Hskip; [discriminate|].
    intros Hm.
    apply float_mantissa_true in Hm
      as (m & e & Hrest & Hall & Hcnt & Hdig & Hend).
    assert (Hs : exists sg, c :: r = sg ++ m ++ e /\ opt_sign sg).
    { unfold skip_sign in Hskip. destruct (is_sign c) eqn:Hsg.
      - exists [c]. subst r. rewrite Hrest. split; [reflexivity|].
        destruct (is_sign_cases c Hsg) as [->| ->]; unfold opt_sign; auto.
      - exists []. rewrite Hskip, Hrest. split; [reflexivity|now left]. }
    destruct Hs as (sg & Hs & Hsg). rewrite Hs. simpl in Hcnt.
    destruct Hdig as [Hdig|Hdig]; [discriminate|]. split.
    + exists sg, m, e. split; [reflexivity|]. split; [assumption|].
      split; [repeat split; auto; lia|].
      destruct Hend as [[-> _]|He]; auto.
    + unfold has_point_or_exponent.
      destruct Hend as [[-> [Hp|Hp]]|(mk & sg' & ds & -> & Hmk & _)].
      * discriminate.
      * left. rewrite app_nil_r. apply in_or_app. now right.
      * destruct Hmk as [->| ->]; [right; left|right; right];
          apply in_or_app; right; apply in_or_app; right; now left.
  - intros [(sg & m & e & -> & Hsg & (Hall & Hcnt & Hdig) & Hend) Hmark].
    assert (Hnonempty : exists c r, m = c :: r).
    { destruct m as [|c r]; [inversion Hdig|eauto]. }
    destruct Hnonempty as (c & r & Hm).
    assert (Hc : is_sign c = false).
    { apply digit_or_point_not_sign. subst m. now inversion Hall. }
    assert (Hmant : float_mantissa (m ++ e) false false = true).
    { apply float_mantissa_ok; auto; [simpl; lia|].
      destruct Hend as [->|He]; [left|right; exact He].
      split; [reflexivity|right].
      rewrite app_nil_r in Hmark.
      assert (Hin : forall x, In x (sg ++ m) -> is_sign x = false -> In x m).
      { intros x Hx Hnx. apply in_app_or in Hx as [Hx|Hx]; [|exact Hx].
        rewrite (opt_sign_no_digit_point sg x Hsg Hx) in Hnx.
        discriminate. }
      destruct Hmark as [Hp|[Hp|Hp]].
      - now apply Hin.
      - exfalso. apply Hin in Hp; [|reflexivity].
        rewrite Forall_forall in Hall. destruct (Hall _ Hp); discriminate.
      - exfalso. apply Hin in Hp; [|reflexivity].
        rewrite Forall_forall in Hall. destruct (Hall _ Hp); discriminate. }
    unfold is_float64. subst m.
    destruct Hsg as [->|[->| ->]]; cbn [app skip_sign]; cbn [app] in Hmant.
    + rewrite Hc. exact Hmant.
    + cbn. exact Hmant.
    + cbn. exact Hmant.
Qed.

(** ** Type inference: classification of a column *)

Lemma infer_schema_nth (reader : CsvReader) (sample_size col : nat) :
  col < column_count reader ->
  nth col (infer_schema reader sample_size) no_schema
  = infer_column reader (Nat.min (row_count reader) sample_size) col.
Proof.
  intros Hc. unfold infer_schema.
  rewrite (nth_indep _ no_schema
             (infer_column reader (Nat.min (row_count reader) sample_size) 0))
    by (rewrite length_map, length_seq; exact Hc).
  rewrite map_nth. now rewrite seq_nth.
Qed.

Lemma all_match_false (reader : CsvReader) (values : list string_view)
      (pred : list ascii -> bool) :
  ~ Forall (fun s => pred s = true)
      (map (fun v => unquote (text_of reader v)) values) ->
  all_match reader values pred = false.
Proof.
  intros Hn. unfold all_match.
  destruct (forallb _ values) eqn:E; [|reflexivity].
  exfalso. apply Hn. rewrite forallb_forall in E.
  apply Forall_forall. intros s Hs. apply in_map_iff in Hs as (v & <- & Hv).
  now apply E.
Qed.

Lemma all_match_true (reader : CsvReader) (values : list string_view)
      (pred : list ascii -> bool) :
  Forall (fun s => pred s = true)
    (map (fun v => unquote (text_of reader v)) values) ->
  all_match reader values pred = true.
Proof.
  intros Ha. unfold all_match. apply forallb_forall. intros v Hv.
  rewrite Forall_forall in Ha. apply Ha, in_map_iff. eauto.
Qed.

(** C2, as the code has it.  A column whose sampled non-empty unquoted
    values each have the specified Float64 shape and hold a decimal point
    or an exponent marker, and for which neither Bool, Currency, Date nor
    Int64 holds for every sampled value, is classified Float64. *)
Theorem float64_column_classified :
  forall (reader : CsvReader) (sample_size col : nat),
    col < column_count reader ->
    let vs := sampled_values reader sample_size col in
    Forall (fun s => spec_float64 s /\ has_point_or_exponent s) vs ->
    ~ Forall (fun s => is_bool s = true) vs ->
    ~ Forall (fun s => is_currency s = true) vs ->
    ~ Forall (fun s => is_date s = true) vs ->
    ~ Forall (fun s => is_int64 s = true) vs ->
    type (nth col (infer_schema reader sample_size) no_schema) = Float64.
Proof.
  intros reader sample_size col Hcol vs Hfl Hb Hc Hd Hi.
  assert (Hne : vs <> []).
  { intros E. apply Hb. rewrite E. constructor. }
  rewrite infer_schema_nth by exact Hcol.
  subst vs. unfold sampled_values in *. unfold infer_column.
  set (nrows := Nat.min (row_count reader) sample_size) in *.
  destruct (Nat.eqb_spec nrows 0) as [E|_].
  { rewrite E in Hne. now elim Hne. }
  destruct (sample_loop reader col nrows 0 [] []) as [values uniq].
  cbn [fst] in *. destruct values as [|v values']; [now elim Hne|].
  cbn [type]. unfold detect_type.
  rewrite (all_match_false _ _ _ Hb), (all_match_false _ _ _ Hc),
    (all_match_false _ _ _ Hd), (all_match_false _ _ _ Hi).
  rewrite all_match_true; [reflexivity|].
  eapply Forall_impl; [|exact Hfl].
  intros s Hs. now apply is_float64_spec.
Qed.

Lemma spec_float64_plain (m : list ascii) :
  spec_mantissa m -> spec_float64 m.
Proof.
  intros Hm. exists [], m, []. rewrite app_nil_r.
  repeat split; try apply Hm; unfold opt_sign; auto.
Qed.

Ltac not_all_by_head :=
  let H := fresh in
  intros H; inversion H; subst;
  match goal with Hx : _ = true |- _ => vm_compute in Hx; discriminate Hx end.

(** C2, as stated, fails.  The sampled values of the column of
    [mixed_numbers_csv] are "1" and "2.5": both have the specified Float64
    shape, none of Bool, Currency, Date, Int64 holds for both, and the
    column is classified Text. *)
Lemma mixed_int_float_column_is_text :
  let reader := parse (open mixed_numbers_csv) "," in
  let vs := sampled_values reader 100 0 in
  vs = [str "1"; str "2.5"]
  /\ Forall spec_float64 vs
  /\ ~ Forall (fun s => is_bool s = true) vs
  /\ ~ Forall (fun s => is_currency s = true) vs
  /\ ~ Forall (fun s => is_date s = true) vs
  /\ ~ Forall (fun s => is_int64 s = true) vs
  /\ type (nth 0 (infer_schema reader 100) no_schema) = Text
  /\ type (nth 0 (infer_schema reader 100) no_schema) <> Float64.
Proof.
  cbv zeta.
  assert (Hvs : sampled_values (parse (open mixed_numbers_csv) ",") 100 0
                = [str "1"; str "2.5"]) by (vm_compute; reflexivity).
  rewrite Hvs. split; [reflexivity|]. split.
  { repeat constructor; apply spec_float64_plain; repeat split.
    - repeat constructor; left; reflexivity.
    - vm_compute. lia.
    - constructor. reflexivity.
    - constructor; [left; reflexivity|].
      constructor; [right; reflexivity|].
      constructor; [left; reflexivity|constructor].
    - vm_compute. lia.
    - constructor. reflexivity. }
  split.
  { intros H; inversion H as [|? ? _ H']; subst.
    inversion H' as [|? ? Hx _]; subst. vm_compute in Hx. discriminate Hx. }
  split; [not_all_by_head|]. split; [not_all_by_head|]. split.
  { intros H; inversion H as [|? ? _ H']; subst.
    inversion H' as [|? ? Hx _]; subst. vm_compute in Hx. discriminate Hx. }
  split; [vm_compute; reflexivity|].
  vm_compute. discriminate.
Qed.

Lemma float64_column_classified_witness :
  type (nth 0 (infer_schema (parse (open decimals_csv) ",") 100) no_schema)
  = Float64.
Proof.
  assert (Hvs : sampled_values (parse (open decimals_csv) ",") 100 0
                = [str "1.5"; str "2.5e3"]) by (vm_compute; reflexivity).
  apply float64_column_classified; cbv zeta; rewrite ?Hvs.
  - vm_compute. lia.
  - constructor; [apply is_float64_spec; reflexivity|].
    constructor; [apply is_float64_spec; reflexivity|constructor].
  - not_all_by_head.
  - not_all_by_head.
  - not_all_by_head.
  - not_all_by_head.
Defined.

(** ** Column selection *)

Lemma getline_shrinks (c : ascii) (r : list ascii) (delim : ascii) :
  length (snd (getline (c :: r) delim)) < length (c :: r).
Proof.
  revert c. induction r as [|c' r IH]; intros c.
  - simpl. destruct (c =? delim)%char; simpl; lia.
  - cbn [getline]. destruct (c =? delim)%char; [simpl; lia|].
    specialize (IH c'). cbn [getline] in IH.
    destruct (c' =? delim)%char.
    + simpl. lia.
    + destruct (getline r delim) as [t r']. simpl in *. lia.
Qed.

Lemma resolve_loop_fuel (names : list (list ascii)) (f1 f2 : nat)
      (ss : list ascii) (indices : list nat) :
  length ss <= f1 -> length ss <= f2 ->
  resolve_loop names f1 ss indices = resolve_loop names f2 ss indices.
Proof.
  revert f2 ss indices.
  induction f1 as [|f1 IH]; intros [|f2] ss indices H1 H2;
    destruct ss as [|c r]; try reflexivity; try (simpl in *; lia).
  cbn [resolve_loop].
  pose proof (getline_shrinks c r COMMA) as Hs.
  destruct (getline (c :: r) COMMA) as [token ss']. cbn [snd] in Hs.
  simpl in H1, H2, Hs.
  destruct (find_first_not_of token SPACE 0); [|apply IH; lia].
  destruct (find_header names _ 0); [apply IH; lia|reflexivity].
Qed.

Lemma getline_token (a rest : list ascii) :
  ~ In COMMA a -> getline (a ++ COMMA :: rest) COMMA = (a, rest).
Proof.
  induction a as [|c a IH]; intros Hn.
  - reflexivity.
  - cbn [app getline]. destruct (Ascii.eqb_spec c COMMA) as [->|_].
    + elim Hn. now left.
    + rewrite IH; [reflexivity|]. intros Hin. apply Hn. now right.
Qed.

Lemma getline_last_token (a : list ascii) :
  ~ In COMMA a -> getline a COMMA = (a, []).
Proof.
  induction a as [|c a IH]; intros Hn.
  - reflexivity.
  - cbn [getline]. destruct (Ascii.eqb_spec c COMMA) as [->|_].
    + elim Hn. now left.
    + rewrite IH; [reflexivity|]. intros Hin. apply Hn. now right.
Qed.

Lemma blank_not_found (token : list ascii) (i : nat) :
  blank token -> find_first_not_of token SPACE i = None.
Proof.
  revert i. induction token as [|c t IH]; intros i Hb; [reflexivity|].
  inversion Hb; subst. cbn. apply IH. assumption.
Qed.

Lemma find_last_not_of_snoc (s : list ascii) (c : ascii) (i : nat)
      (seen : option nat) :
  c <> SPACE ->
  find_last_not_of (s ++ [c]) SPACE i seen = Some (i + length s).
Proof.
  intros Hc. revert i seen. induction s as [|x s IH]; intros i seen.
  - cbn. apply Ascii.eqb_neq in Hc. rewrite Hc. f_equal. lia.
  - cbn [app find_last_not_of length]. rewrite IH. f_equal. lia.
Qed.

(** Trimming leaves a plain name as it is. *)
Lemma plain_name_trim (a : list ascii) :
  plain_name a ->
  find_first_not_of a SPACE 0 = Some 0 /\
  exists e, find_last_not_of a SPACE 0 None = Some e /\
            substr a 0 (e - 0 + 1) = a.
Proof.
  intros (Hne & _ & Hhd & Hlast). split.
  - destruct a as [|c a']; [contradiction|]. cbn in *.
    apply Ascii.eqb_neq in Hhd. now rewrite Hhd.
  - destruct (exists_last Hne) as (s & c & ->).
    rewrite last_last in Hlast.
    exists (length s). split; [now apply find_last_not_of_snoc|].
    unfold substr. cbn [skipn]. apply firstn_all2.
    rewrite length_app. simpl. lia.
Qed.

Lemma resolve_from_nil (names : list (list ascii)) (indices : list nat) :
  resolve_from names [] indices = inr indices.
Proof. reflexivity. Qed.

Lemma resolve_from_blank (names : list (list ascii)) (ss token ss' : list ascii)
      (indices : list nat) :
  ss <> [] -> getline ss COMMA = (token, ss') -> blank token ->
  resolve_from names ss indices = resolve_from names ss' indices.
Proof.
  intros Hne Hg Hb. unfold resolve_from.
  destruct ss as [|c r]; [contradiction|].
  pose proof (getline_shrinks c r COMMA) as Hs. rewrite Hg in Hs.
  cbn [snd] in Hs. cbn [length resolve_loop]. rewrite Hg.
  rewrite (blank_not_found token 0 Hb).
  apply resolve_loop_fuel; simpl in Hs; lia.
Qed.

Lemma resolve_from_name (names : list (list ascii)) (ss token ss' : list ascii)
      (indices : list nat) (i : nat) :
  ss <> [] -> getline ss COMMA = (token, ss') -> plain_name token ->
  find_header names token 0 = Some i ->
  resolve_from names ss indices = resolve_from names ss' (indices ++ [i]).
Proof.
  intros Hne Hg Hp Hf. unfold resolve_from.
  destruct ss as [|c r]; [contradiction|].
  pose proof (getline_shrinks c r COMMA) as Hs. rewrite Hg in Hs.
  cbn [snd] in Hs. cbn [length resolve_loop]. rewrite Hg.
  destruct (plain_name_trim token Hp) as (Hfirst & e & Hlast & Hsub).
  rewrite Hfirst, Hlast, Hsub, Hf.
  apply resolve_loop_fuel; simpl in Hs; lia.
Qed.

Lemma getline_Forall (P : ascii -> Prop) (ss : list ascii) :
  Forall P ss ->
  Forall P (fst (getline ss COMMA)) /\ Forall P (snd (getline ss COMMA))
  /\ ~ In COMMA (fst (getline ss COMMA)).
Proof.
  induction ss as [|c r IH]; intros Ha.
  - cbn. repeat split; auto.
  - inversion Ha; subst. cbn [getline].
    destruct (Ascii.eqb_spec c COMMA) as [->|Hc].
    + cbn. repeat split; auto.
    + destruct (IH H2) as (Ht & Hr & Hn).
      destruct (getline r COMMA) as [t r']. cbn in *.
      repeat split; auto. intros [Hx|Hx]; [congruence|contradiction].
Qed.

Lemma resolve_from_separators (names : list (list ascii)) (n : nat) :
  forall (ss : list ascii) (indices : list nat),
    length ss <= n ->
    Forall (fun c => c = COMMA \/ c = SPACE) ss ->
    resolve_from names ss indices = inr indices.
Proof.
  induction n as [|n IH]; intros ss indices Hl Ha.
  - destruct ss; [reflexivity|simpl in Hl; lia].
  - destruct ss as [|c r]; [reflexivity|].
    pose proof (getline_shrinks c r COMMA) as Hs.
    destruct (getline_Forall _ _ Ha) as (Ht & Hr & Hn).
    destruct (getline (c :: r) COMMA) as [token ss'] eqn:Hg.
    cbn [fst snd] in *.
    rewrite (resolve_from_blank names (c :: r) token ss' indices);
      [|discriminate|exact Hg|].
    + apply IH; [simpl in *; lia|exact Hr].
    + unfold blank. rewrite Forall_forall in *. intros x Hx.
      destruct (Ht x Hx) as [->| ->]; [contradiction|reflexivity].
Qed.

(** C9, as the code has it.  A select token that is empty after trimming
    is skipped: two headers [a] and [b] that are plain names (not empty, no
    comma, no space at either end), with a blank token between them (the
    empty one of "a,,b" included), resolve to the index of [a] followed by
    the index of [b]; an expression of commas and spaces only raises
    [NoColumnsSelected]. *)
Theorem resolve_columns_skips_blank_tokens :
  (forall (reader : CsvReader) (a b gap : list ascii) (i j : nat),
      plain_name a -> plain_name b -> blank gap ->
      find_header (header_names reader) a 0 = Some i ->
      find_header (header_names reader) b 0 = Some j ->
      resolve_columns (a ++ COMMA :: gap ++ COMMA :: b) reader
      = inr [i; j]) /\
  (forall (reader : CsvReader) (select_str : list ascii),
      Forall (fun c => c = COMMA \/ c = SPACE) select_str ->
      resolve_columns select_str reader = inl NoColumnsSelected).
Proof.
  split.
  - intros reader a b gap i j Ha Hb Hgap Hi Hj. unfold resolve_columns.
    fold (resolve_from (header_names reader)
                       (a ++ COMMA :: gap ++ COMMA :: b) []).
    assert (Ha' := Ha). destruct Ha' as (Hane & Hac & _).
    assert (Hb' := Hb). destruct Hb' as (Hbne & Hbc & _).
    assert (Hgc : ~ In COMMA gap).
    { intros Hin. unfold blank in Hgap. rewrite Forall_forall in Hgap.
      specialize (Hgap _ Hin). discriminate Hgap. }
    rewrite (resolve_from_name _ _ a (gap ++ COMMA :: b) [] i);
      [|destruct a; [contradiction|discriminate]
       |now apply getline_token|exact Ha|exact Hi].
    rewrite (resolve_from_blank _ _ gap b);
      [|destruct gap; discriminate|now apply getline_token|exact Hgap].
    rewrite (resolve_from_name _ _ b [] _ j);
      [|exact Hbne|now apply getline_last_token|exact Hb|exact Hj].
    reflexivity.
  - intros reader s Hs. unfold resolve_columns.
    fold (resolve_from (header_names reader) s []).
    rewrite (resolve_from_separators _ (length s)); auto.
Qed.

Lemma resolve_columns_skips_blank_tokens_witness :
  resolve_columns (str "name,,age") (parse (open people_csv) ",")
  = inr [0; 1]
  /\ resolve_columns (str " , ,") (parse (open people_csv) ",")
     = inl NoColumnsSelected.
Proof.
  split.
  - apply (proj1 resolve_columns_skips_blank_tokens
                 (parse (open people_csv) ",") (str "name") (str "age") []).
    + repeat split; try discriminate.
      intros H; vm_compute in H; intuition discriminate.
    + repeat split; try discriminate.
      intros H; vm_compute in H; intuition discriminate.
    + constructor.
    + reflexivity.
    + reflexivity.
  - apply (proj2 resolve_columns_skips_blank_tokens).
    cbv [str list_ascii_of_string].
    repeat (apply Forall_cons; [first [now left | now right]|]).
    apply Forall_nil.
Defined.

(** C9, as stated, fails.  The header line [name, age] makes the second
    header the text " age", space included.  Both "name" and " age" are
    valid headers, at indices 0 and 1, but for the expression [name,, age]
    the token is trimmed to "age", which is no header: [resolve_columns]
    raises [UnknownColumn] and does not return the two indices. *)
Lemma resolve_columns_trims_the_token_only :
  let reader := parse (open spaced_header_csv) "," in
  header_names reader = [str "name"; str " age"]
  /\ find_header (header_names reader) (str "name") 0 = Some 0
  /\ find_header (header_names reader) (str " age") 0 = Some 1
  /\ resolve_columns (str "name" ++ COMMA :: COMMA :: str " age") reader
     = inl (UnknownColumn (str "age") (header_names reader))
  /\ resolve_columns (str "name" ++ COMMA :: COMMA :: str " age") reader
     <> inr [0; 1].
Proof.
  cbv zeta. repeat split; try (vm_compute; reflexivity).
  vm_compute. discriminate.
Qed.

(** The other two conditions on the names are needed as well.  A header
    that holds a comma is cut in two by [std::getline] when it is written
    in the expression, and a header that is empty is a blank token, which
    is skipped. *)
Example resolve_columns_comma_and_empty_headers :
  (let reader := parse (open comma_header_csv) "," in
   find_header (header_names reader) (str "a,b") 0 = Some 0
   /\ find_header (header_names reader) (str "c") 0 = Some 1
   /\ resolve_columns (str "a,b" ++ COMMA :: COMMA :: str "c") reader
      = inl (UnknownColumn (str "a") (header_names reader)))
  /\ (let reader := parse (open empty_header_csv) "," in
      find_header (header_names reader) [] 0 = Some 0
      /\ find_header (header_names reader) (str "x") 0 = Some 1
      /\ resolve_columns ([] ++ COMMA :: COMMA :: str "x") reader
         = inr [1]).
Proof. cbv zeta. repeat split; vm_compute; reflexivity. Qed.

(** ** Filtering *)

Section QueryFacts.
Context {D : DoubleOps}.
Variable stod : list ascii -> option double.

Lemma sorted_snoc (res : list nat) (r : nat) :
  StronglySorted lt res -> Forall (fun x => x < r) res ->
  StronglySorted lt (res ++ [r]).
Proof.
  induction res as [|x res IH]; intros Hs Hb; cbn [app].
  - repeat constructor.
  - inversion Hs; subst. inversion Hb; subst. constructor; [now apply IH|].
    apply Forall_app. split; [assumption|]. now constructor.
Qed.

Lemma filter_rows_spec (reader : CsvReader) (resolved : list ResolvedFilter)
      (ci or_logic : bool) (n r : nat) (res : list nat) :
  StronglySorted lt res -> Forall (fun x => x < r) res ->
  let out := filter_rows stod reader resolved ci or_logic n r res in
  StronglySorted lt out
  /\ Forall (fun x => x < r + n) out
  /\ forall x, In x out <->
               In x res \/
               (r <= x < r + n
                /\ row_passes stod reader resolved ci or_logic x = true).
Proof.
  revert r res. induction n as [|n IH]; intros r res Hs Hb; cbn [filter_rows].
  - repeat split.
    + assumption.
    + eapply Forall_impl; [|exact Hb]. cbv beta. intros; lia.
    + intros Hx; now left.
    + intros [Hx|[Hx _]]; [assumption|lia].
  - fold (row_passes stod reader resolved ci or_logic r).
    destruct (row_passes stod reader resolved ci or_logic r) eqn:Hr.
    + destruct (IH (S r) (res ++ [r])) as (H1 & H2 & H3).
      * now apply sorted_snoc.
      * apply Forall_app. split.
        -- eapply Forall_impl; [|exact Hb]. cbv beta. intros; lia.
        -- repeat constructor.
      * split; [exact H1|]. split.
        -- eapply Forall_impl; [|exact H2]. cbv beta. intros; lia.
        -- intros x. rewrite H3, in_app_iff. cbn [In]. split.
           ++ intros [[Hx|[<-|[]]]|[Hx Hp]]; auto.
              ** right. split; [lia|exact Hr].
              ** right. split; [lia|exact Hp].
           ++ intros [Hx|[Hx Hp]]; auto.
              destruct (Nat.eq_dec x r) as [->|Hne]; auto.
              right. split; [lia|exact Hp].
    + destruct (IH (S r) res) as (H1 & H2 & H3).
      * assumption.
      * eapply Forall_impl; [|exact Hb]. cbv beta. intros; lia.
      * split; [exact H1|]. split.
        -- eapply Forall_impl; [|exact H2]. cbv beta. intros; lia.
        -- intros x. rewrite H3. split.
           ++ intros [Hx|[Hx Hp]]; auto. right. split; [lia|exact Hp].
           ++ intros [Hx|[Hx Hp]]; auto.
              destruct (Nat.eq_dec x r) as [->|Hne]; [congruence|].
              right. split; [lia|exact Hp].
Qed.

Lemma filter_rows_no_filters_and (reader : CsvReader) (ci : bool)
      (n r : nat) (res : list nat) :
  filter_rows stod reader [] ci false n r res = res ++ seq r n.
Proof.
  revert r res. induction n as [|n IH]; intros r res; cbn.
  - now rewrite app_nil_r.
  - rewrite IH, <- app_assoc. reflexivity.
Qed.

Lemma filter_rows_no_filters_or (reader : CsvReader) (ci : bool)
      (n r : nat) (res : list nat) :
  filter_rows stod reader [] ci true n r res = res.
Proof.
  revert r res. induction n as [|n IH]; intros r res; cbn; auto.
Qed.

(** ** Filters whose columns all resolve *)

Lemma resolve_filters_total (reader : CsvReader) (schema : list ColumnSchema)
      (ci : bool) (filters : list Filter) (resolved : list ResolvedFilter) :
  (forall f, In f filters ->
             find_header (lookup_names ci reader) (lookup_key ci f) 0
             <> None) ->
  exists out, resolve_filters reader schema ci filters resolved = inr out.
Proof.
  revert resolved. induction filters as [|f rest IH]; intros resolved Hall.
  - eexists. reflexivity.
  - cbn [resolve_filters].
    fold (lookup_key ci f). fold (lookup_names ci reader).
    destruct (find_header (lookup_names ci reader) (lookup_key ci f) 0)
      as [i|] eqn:E.
    + apply IH. intros g Hg. apply Hall. now right.
    + elim (Hall f); [now left|exact E].
Qed.

End QueryFacts.

(** ** The exact arithmetic obeys the laws *)

Lemma exact_nonneg (x : Q) : @d_nonneg ExactOps x <-> (0 <= x)%Q.
Proof. unfold d_nonneg. cbn. apply Qle_bool_iff. Qed.

Lemma exact_ltb (x y : Q) : @dltb ExactOps x y = true <-> (x < y)%Q.
Proof.
  cbn. rewrite negb_true_iff. split.
  - intros Hb. apply Qnot_le_lt. intros Hle.
    apply Qle_bool_iff in Hle. congruence.
  - intros Hlt. destruct (Qle_bool y x) eqn:E; [|reflexivity].
    apply Qle_bool_iff in E. exfalso. apply (Qlt_not_le _ _ Hlt E).
Qed.

Lemma exact_size_positive (n : nat) : 0 < n -> (0 < inject_Z (Z.of_nat n))%Q.
Proof.
  intros Hn. change 0%Q with (inject_Z 0). rewrite <- Zlt_Qlt. lia.
Qed.

#[export] Instance ExactLaws : DoubleLaws ExactOps.
Proof.
  constructor.
  - intros x. cbn. rewrite negb_false_iff. apply Qle_bool_iff, Qle_refl.
  - intros a b _. unfold d_of_size. cbn. unfold Qplus, inject_Z. cbn.
    f_equal. lia.
  - intros s n Hn _ _. unfold d_of_size.
    pose proof (exact_size_positive n Hn) as Hpos.
    destruct (Nat.ltb_spec s (2 * n)) as [Hlt|Hge].
    + apply exact_ltb. apply Qlt_shift_div_r; [exact Hpos|].
      rewrite <- inject_Z_mult, <- Zlt_Qlt. lia.
    + destruct (@dltb ExactOps _ _) eqn:E; [|reflexivity].
      apply exact_ltb in E. exfalso. apply (Qlt_not_le _ _ E).
      apply Qle_shift_div_l; [exact Hpos|].
      rewrite <- inject_Z_mult, <- Zle_Qle. lia.
  - intros n _. unfold d_finite. cbn. apply Qeq_bool_iff. ring.
  - intros n. apply exact_nonneg. unfold d_of_size. cbn.
    change 0%Q with (inject_Z 0). rewrite <- Zle_Qle. lia.
  - intros s n _ _ _. unfold d_finite. cbn. apply Qeq_bool_iff. ring.
  - intros x y _ _. apply exact_nonneg. cbn.
    set (z := (x - y)%Q). unfold Qle, Qmult. cbn.
    rewrite Z.mul_1_r. apply Z.square_nonneg.
  - intros x y Hx Hy. apply exact_nonneg in Hx, Hy. apply exact_nonneg. cbn.
    exact (Qplus_le_compat 0 x 0 y Hx Hy).
  - intros x n Hx Hn _. apply exact_nonneg in Hx. apply exact_nonneg. cbn.
    apply Qle_shift_div_l; [exact (exact_size_positive n Hn)|].
    rewrite Qmult_0_l. exact Hx.
  - intros x _. apply exact_nonneg. cbn. unfold q_sqrt, Qle. cbn.
    rewrite Z.mul_1_r. apply Z.sqrt_nonneg.
  - intros x y _ Hx Hy. apply exact_nonneg in Hx, Hy. apply exact_nonneg.
    cbn. apply Qle_shift_div_l.
    + apply Qlt_le_trans with (y := 1%Q); [reflexivity|].
      rewrite <- (Qplus_0_r 1) at 1. apply Qplus_le_r. exact Hy.
    + rewrite Qmult_0_l. exact Hx.
  - intros x Hx. apply exact_nonneg in Hx. apply exact_ltb.
    apply Qlt_le_trans with (y := 0%Q); [reflexivity|exact Hx].
Qed.

(** ** Delimiter detection: the sampled lines and their field counts *)

Lemma at_skipn (data : list ascii) (s i : nat) :
  at_ (skipn s data) i = at_ data (s + i).
Proof. apply nth_skipn. Qed.

Lemma at_absent (data : list ascii) (c : ascii) (j : nat) :
  c <> zero -> ~ In c data -> at_ data j <> c.
Proof.
  intros Hz Hn He. unfold at_ in He.
  destruct (nth_in_or_default j data zero) as [Hin|Hd]; congruence.
Qed.

Lemma count_fields_loop_absent (line : list ascii) (c : ascii)
      (n i count : nat) (q : bool) :
  (forall j, at_ line j <> c) ->
  count_fields_loop line c n i count q = count.
Proof.
  intros Ha. revert i q. induction n as [|n IH]; intros i q; simpl; auto.
  destruct (at_ line i =? DQUOTE)%char; [apply IH|].
  destruct (Ascii.eqb_spec (at_ line i) c) as [E|_]; [now elim (Ha i)|].
  rewrite andb_false_r. apply IH.
Qed.

Lemma count_fields_loop_bound (line : list ascii) (c : ascii)
      (n i count : nat) (q : bool) :
  count <= count_fields_loop line c n i count q <= count + n.
Proof.
  revert i count q. induction n as [|n IH]; intros i count q; simpl; [lia|].
  destruct (at_ line i =? DQUOTE)%char.
  - specialize (IH (S i) count (negb q)). lia.
  - destruct (negb q && (at_ line i =? c)%char).
    + specialize (IH (S i) (S count) q). lia.
    + specialize (IH (S i) count q). lia.
Qed.

Lemma candidate_not_zero (c : ascii) : In c candidates -> c <> zero.
Proof.
  intros [<-|[<-|[<-|[<-|[]]]]]; discriminate.
Qed.

(** A line without the candidate byte is one field. *)
Lemma fields_on_absent (data : list ascii) (c : ascii) (l : LineSpan) :
  In c candidates -> ~ In c data -> fields_on data c l = 1.
Proof.
  intros Hc Hn. unfold fields_on, count_fields.
  apply count_fields_loop_absent. intros j. rewrite at_skipn.
  apply at_absent; [now apply candidate_not_zero|exact Hn].
Qed.

Lemma fields_on_bound (data : list ascii) (c : ascii) (l : LineSpan) :
  1 <= fields_on data c l <= ls_len l + 1.
Proof.
  unfold fields_on, count_fields.
  pose proof (count_fields_loop_bound (skipn (ls_start l) data) c
                                      (ls_len l) 0 1 false).
  lia.
Qed.

Lemma sample_line_end_bounds (data : list ascii) (n pos : nat) (q : bool) :
  pos <= sample_line_end data n pos q <= pos + n.
Proof.
  revert pos q. induction n as [|n IH]; intros pos q; simpl; [lia|].
  destruct (at_ data pos =? DQUOTE)%char.
  - specialize (IH (S pos) (negb q)). lia.
  - destruct (negb q && (at_ data pos =? NL)%char); [lia|].
    specialize (IH (S pos) q). lia.
Qed.

Lemma collect_lines_fuel (data : list ascii) (size sample_lines : nat)
      (f1 f2 pos : nat) (lines : list LineSpan) :
  size - pos <= f1 -> size - pos <= f2 ->
  collect_lines data size sample_lines f1 pos lines
  = collect_lines data size sample_lines f2 pos lines.
Proof.
  revert f2 pos lines.
  induction f1 as [|f1 IH]; intros [|f2] pos lines H1 H2;
    cbn [collect_lines]; try reflexivity.
  - destruct (Nat.ltb_spec pos size); [lia|reflexivity].
  - destruct (Nat.ltb_spec pos size); [lia|reflexivity].
  - destruct (Nat.ltb_spec pos size) as [Hp|]; cbn [andb]; [|reflexivity].
    destruct (length lines <? sample_lines); [|reflexivity].
    pose proof (sample_line_end_bounds data (size - pos) pos false) as Hb.
    set (e := sample_line_end data (size - pos) pos false) in *.
    apply IH; destruct (Nat.ltb_spec e size); lia.
Qed.

(** The sampled lines are non-empty and lie one after the other below the
    scanning position. *)
Lemma collect_lines_extent (data : list ascii) (size sample_lines : nat)
      (fuel pos : nat) (lines : list LineSpan) :
  pos <= size ->
  total_len lines <= pos ->
  Forall (fun l => 1 <= ls_len l) lines ->
  let out := collect_lines data size sample_lines fuel pos lines in
  total_len out <= size /\ Forall (fun l => 1 <= ls_len l) out.
Proof.
  revert pos lines. induction fuel as [|fuel IH];
    intros pos lines Hp Ht Hl; cbn [collect_lines].
  - split; [lia|assumption].
  - destruct (Nat.ltb_spec pos size) as [Hlt|]; cbn [andb];
      [|split; [lia|assumption]].
    destruct (length lines <? sample_lines); [|split; [lia|assumption]].
    pose proof (sample_line_end_bounds data (size - pos) pos false) as Hb.
    set (e := sample_line_end data (size - pos) pos false) in *.
    set (e' := if (pos <? e) && (at_ data (e - 1) =? CR)%char
               then e - 1 else e).
    assert (He' : e' <= e) by (subst e'; destruct (_ && _); lia).
    apply IH.
    + destruct (Nat.ltb_spec e size); lia.
    + destruct (Nat.ltb_spec pos e') as [Hnon|Hemp].
      * assert (Hsum : total_len (lines ++ [mkSpan pos (e' - pos)])
                       = total_len lines + (e' - pos)).
        { unfold total_len. rewrite map_app, list_sum_app. cbn. lia. }
        rewrite Hsum. destruct (Nat.ltb_spec e size); lia.
      * destruct (Nat.ltb_spec e size); lia.
    + destruct (Nat.ltb_spec pos e') as [Hnon|Hemp]; [|assumption].
      apply Forall_app. split; [assumption|]. repeat constructor. cbn. lia.
Qed.

Lemma length_le_total_len (lines : list LineSpan) :
  Forall (fun l => 1 <= ls_len l) lines -> length lines <= total_len lines.
Proof.
  unfold total_len, list_sum. intros Hall.
  induction lines as [|l lines IH]; cbn; [lia|].
  inversion Hall; subst. specialize (IH H2). lia.
Qed.

Lemma sampled_lines_extent (data : list ascii) (size sample_lines : nat) :
  let lines := sampled_lines data size sample_lines in
  total_len lines <= size /\ length lines <= size.
Proof.
  unfold sampled_lines.
  destruct (collect_lines_extent data size sample_lines size 0 [])
    as [Ht Hl]; [lia|cbn; lia|constructor|].
  split; [exact Ht|]. pose proof (length_le_total_len _ Hl). lia.
Qed.

Lemma total_fields_bound (data : list ascii) (lines : list LineSpan)
      (c : ascii) :
  length lines <= total_fields data lines c
  /\ total_fields data lines c <= total_len lines + length lines.
Proof.
  unfold total_fields, total_len, list_sum.
  induction lines as [|l lines IH]; cbn; [lia|].
  pose proof (fields_on_bound data c l). lia.
Qed.

(** ** Delimiter detection: means and scores *)

Section DetectFacts.
Context {D : DoubleOps} {L : DoubleLaws D}.

Lemma sum_exact (cs : list nat) (a : nat) :
  (Z.of_nat (a + list_sum cs) < 2 ^ 53)%Z ->
  fold_left dadd (map d_of_size cs) (d_of_size a)
  = d_of_size (a + list_sum cs).
Proof.
  revert a. induction cs as [|c cs IH]; intros a Hb; cbn [map fold_left].
  - cbn. now rewrite Nat.add_0_r.
  - change (list_sum (c :: cs)) with (c + list_sum cs) in *.
    rewrite dadd_exact by lia. rewrite IH by (rewrite <- Nat.add_assoc; lia).
    now rewrite Nat.add_assoc.
Qed.

Lemma mean_of_sizes (cs : list nat) :
  (Z.of_nat (list_sum cs) < 2 ^ 53)%Z ->
  mean_of (map d_of_size cs)
  = ddiv (d_of_size (list_sum cs)) (d_of_size (length cs)).
Proof.
  intros Hb. unfold mean_of. rewrite length_map.
  change (d_of_Z 0) with (d_of_size 0). now rewrite sum_exact.
Qed.

(** The disqualification test, on the integers. *)
Lemma mean_below_two (cs : list nat) :
  cs <> [] ->
  (Z.of_nat (list_sum cs) < 2 ^ 53)%Z -> (Z.of_nat (length cs) < 2 ^ 53)%Z ->
  dltb (mean_of (map d_of_size cs)) (d_of_Z 2)
  = (list_sum cs <? 2 * length cs).
Proof.
  intros Hne Hs Hn. rewrite mean_of_sizes by exact Hs.
  apply ddiv_below_two; try assumption.
  destruct cs; [contradiction|cbn; lia].
Qed.

Lemma variance_nonneg (m : double) (cs : list nat) (acc : double) :
  d_finite m -> Forall (fun c => (Z.of_nat c < 2 ^ 64)%Z) cs ->
  d_nonneg acc ->
  d_nonneg (fold_left
              (fun var v => dadd var (dmul (dsub v m) (dsub v m)))
              (map d_of_size cs) acc).
Proof.
  intros Hm Hall. revert acc.
  induction Hall as [|c cs Hc _ IH]; intros acc Hacc; cbn [map fold_left].
  - exact Hacc.
  - apply IH. apply dadd_nonneg; [exact Hacc|].
    apply dsquare_nonneg; [now apply d_of_size_finite|exact Hm].
Qed.

Lemma list_sum_bounds_each (cs : list nat) (b : Z) :
  (Z.of_nat (list_sum cs) < b)%Z -> Forall (fun c => (Z.of_nat c < b)%Z) cs.
Proof.
  induction cs as [|c cs IH]; intros Hb; constructor.
  - change (list_sum (c :: cs)) with (c + list_sum cs) in Hb. lia.
  - apply IH. change (list_sum (c :: cs)) with (c + list_sum cs) in Hb. lia.
Qed.

(** A score is a non-negative number, so it beats the initial [-1.0]. *)
Lemma score_nonneg (cs : list nat) :
  cs <> [] ->
  (Z.of_nat (list_sum cs) < 2 ^ 53)%Z -> (Z.of_nat (length cs) < 2 ^ 53)%Z ->
  d_nonneg (score_of (map d_of_size cs)).
Proof.
  intros Hne Hs Hn. unfold score_of. rewrite mean_of_sizes by exact Hs.
  rewrite length_map.
  assert (Hpos : 0 < length cs) by (destruct cs; [contradiction|cbn; lia]).
  assert (H64 : (2 ^ 53 < 2 ^ 64)%Z) by reflexivity.
  apply ddiv_one_plus_nonneg.
  - apply ddiv_sizes_finite; [exact Hpos|lia|lia].
  - apply ddiv_size_nonneg; [apply d_of_size_nonneg|exact Hpos|lia].
  - apply dsqrt_nonneg. apply ddiv_size_nonneg; [|exact Hpos|lia].
    apply variance_nonneg.
    + apply ddiv_sizes_finite; [exact Hpos|lia|lia].
    + apply list_sum_bounds_each. lia.
    + apply (d_of_size_nonneg 0).
Qed.

Lemma field_counts_sizes (data : list ascii) (lines : list LineSpan)
      (c : ascii) :
  field_counts data lines c = map d_of_size (map (fields_on data c) lines).
Proof. unfold field_counts, fields_on. now rewrite map_map. Qed.

Section Sampled.
Variables (data : list ascii) (sample_lines : nat).
Let lines := sampled_lines data (length data) sample_lines.
Hypothesis size_bound : (Z.of_nat (length data) < 2 ^ 52)%Z.
Hypothesis sampled : lines <> [].

Lemma total_fields_small (c : ascii) :
  (Z.of_nat (total_fields data lines c) < 2 ^ 53)%Z
  /\ (Z.of_nat (length lines) < 2 ^ 53)%Z.
Proof.
  pose proof (sampled_lines_extent data (length data) sample_lines)
    as [Ht Hl]. fold lines in Ht, Hl.
  pose proof (total_fields_bound data lines c) as [_ Hb].
  assert (H5253 : (2 ^ 53 = 2 * 2 ^ 52)%Z) by reflexivity. lia.
Qed.

Lemma qualifies_total (c : ascii) :
  qualifies data lines c = (2 * length lines <=? total_fields data lines c).
Proof.
  unfold qualifies. rewrite field_counts_sizes.
  destruct (total_fields_small c) as [Hs Hn].
  rewrite mean_below_two.
  - rewrite length_map. fold (total_fields data lines c).
    destruct (Nat.ltb_spec (total_fields data lines c) (2 * length lines));
      destruct (Nat.leb_spec (2 * length lines) (total_fields data lines c));
      try reflexivity; lia.
  - intros E. apply map_eq_nil in E. contradiction.
  - exact Hs.
  - now rewrite length_map.
Qed.

Lemma score_beats_initial (c : ascii) :
  dltb (d_of_Z (-1)) (score data lines c) = true.
Proof.
  apply dltb_minus_one. unfold score. rewrite field_counts_sizes.
  destruct (total_fields_small c) as [Hs Hn].
  apply score_nonneg.
  - intros E. apply map_eq_nil in E. contradiction.
  - exact Hs.
  - now rewrite length_map.
Qed.

End Sampled.
End DetectFacts.

(** ** Delimiter detection: which candidate wins *)

Section DetectWinner.
Context {D : DoubleOps}.
Variables (data : list ascii) (lines : list LineSpan).

Lemma candidate_step_passes (st : ascii * double) (c : ascii) :
  qualifies data lines c = false -> candidate_step data lines st c = st.
Proof.
  unfold qualifies, candidate_step. intros Hq. apply negb_false_iff in Hq.
  destruct st as [best best_score]. now rewrite Hq.
Qed.

Lemma candidate_step_scores (best : ascii) (best_score : double) (c : ascii) :
  qualifies data lines c = true ->
  candidate_step data lines (best, best_score) c
  = if dltb best_score (score data lines c)
    then (c, score data lines c) else (best, best_score).
Proof.
  unfold qualifies, candidate_step, score. intros Hq.
  apply negb_true_iff in Hq. now rewrite Hq.
Qed.

(** While every candidate met scores strictly below [s], the running best
    score stays strictly below [s]. *)
Lemma fold_keeps_below (s : double) (pre : list ascii) (st : ascii * double) :
  dltb (snd st) s = true ->
  (forall c', In c' pre -> qualifies data lines c' = true ->
              dltb (score data lines c') s = true) ->
  dltb (snd (fold_left (candidate_step data lines) pre st)) s = true.
Proof.
  revert st. induction pre as [|c' pre IH]; intros st Hst Hpre;
    cbn [fold_left]; [exact Hst|].
  apply IH; [|intros x Hx; apply Hpre; now right].
  destruct (qualifies data lines c') eqn:Hq.
  - destruct st as [best best_score]. rewrite candidate_step_scores by exact Hq.
    destruct (dltb best_score (score data lines c')); [|exact Hst].
    cbn [snd]. apply Hpre; [now left|exact Hq].
  - now rewrite candidate_step_passes.
Qed.

(** Once [c] is the best, no candidate that is not strictly greater
    replaces it. *)
Lemma fold_keeps_best (c : ascii) (post : list ascii) :
  (forall c', In c' post -> qualifies data lines c' = true ->
              dltb (score data lines c) (score data lines c') = false) ->
  fold_left (candidate_step data lines) post (c, score data lines c)
  = (c, score data lines c).
Proof.
  induction post as [|c' post IH]; intros Hpost; cbn [fold_left];
    [reflexivity|].
  destruct (qualifies data lines c') eqn:Hq.
  - rewrite candidate_step_scores by exact Hq.
    rewrite (Hpost c') by (auto; now left).
    apply IH. intros x Hx. apply Hpost. now right.
  - rewrite candidate_step_passes by exact Hq.
    apply IH. intros x Hx. apply Hpost. now right.
Qed.

Lemma fold_winner (pre post : list ascii) (c : ascii) :
  qualifies data lines c = true ->
  dltb (d_of_Z (-1)) (score data lines c) = true ->
  (forall c', In c' pre -> qualifies data lines c' = true ->
              dltb (score data lines c') (score data lines c) = true) ->
  (forall c', In c' post -> qualifies data lines c' = true ->
              dltb (score data lines c) (score data lines c') = false) ->
  fst (fold_left (candidate_step data lines) (pre ++ c :: post)
                 (COMMA, d_of_Z (-1))) = c.
Proof.
  intros Hq Hinit Hpre Hpost. rewrite fold_left_app. cbn [fold_left].
  pose proof (fold_keeps_below (score data lines c) pre (COMMA, d_of_Z (-1))
                               Hinit Hpre) as Hbelow.
  destruct (fold_left (candidate_step data lines) pre (COMMA, d_of_Z (-1)))
    as [best best_score]. cbn [snd] in Hbelow.
  rewrite candidate_step_scores by exact Hq. rewrite Hbelow.
  now rewrite fold_keeps_best.
Qed.

Lemma fold_all_pass (cs : list ascii) (st : ascii * double) :
  (forall c, In c cs -> qualifies data lines c = false) ->
  fold_left (candidate_step data lines) cs st = st.
Proof.
  revert st. induction cs as [|c cs IH]; intros st Hall; cbn [fold_left];
    [reflexivity|].
  rewrite candidate_step_passes by (apply Hall; now left).
  apply IH. intros x Hx. apply Hall. now right.
Qed.

End DetectWinner.

Lemma detect_delimiter_unfold {D : DoubleOps} (data : list ascii)
      (sample_lines : nat) :
  sampled_lines data (length data) sample_lines <> [] ->
  detect_delimiter data (length data) sample_lines
  = fst (fold_left
           (candidate_step data
                           (sampled_lines data (length data) sample_lines))
           candidates (COMMA, d_of_Z (-1))).
Proof.
  intros Hne. unfold detect_delimiter.
  destruct (Nat.eqb_spec (length data) 0) as [E|_].
  - elim Hne. unfold sampled_lines. now rewrite E.
  - fold (sampled_lines data (length data) sample_lines).
    destruct (sampled_lines data (length data) sample_lines);
      [contradiction|reflexivity].
Qed.

Lemma candidates_split (d : ascii) :
  In d candidates ->
  exists pre post,
    candidates = pre ++ d :: post /\ ~ In d pre /\ ~ In d post.
Proof.
  intros [<-|[<-|[<-|[<-|[]]]]].
  - exists [], [TAB; PIPE; SEMI]. split; [reflexivity|].
    split; [intros []|]. intros [H|[H|[H|[]]]]; discriminate H.
  - exists [COMMA], [PIPE; SEMI]. split; [reflexivity|].
    split; [intros [H|[]]; discriminate H|].
    intros [H|[H|[]]]; discriminate H.
  - exists [COMMA; TAB], [SEMI]. split; [reflexivity|].
    split; [intros [H|[H|[]]]; discriminate H|].
    intros [H|[]]; discriminate H.
  - exists [COMMA; TAB; PIPE], []. split; [reflexivity|].
    split; [intros [H|[H|[H|[]]]]; discriminate H|intros []].
Qed.

Lemma list_sum_ones (A : Type) (xs : list A) :
  list_sum (map (fun _ => 1) xs) = length xs.
Proof.
  induction xs as [|x xs IH]; [reflexivity|].
  change (list_sum (map (fun _ => 1) (x :: xs)))
    with (1 + list_sum (map (fun _ : A => 1) xs)).
  rewrite IH. reflexivity.
Qed.

Section DetectTheorems.
Context {D : DoubleOps} {L : DoubleLaws D}.

(** C6. On an input shorter than [2^52] bytes with at least one sampled
    line, in which a candidate [d] gives every sampled line two fields or
    more and no other candidate byte occurs, [detect_delimiter] returns
    [d]; on empty input, and when no line is sampled, it returns the comma;
    and it returns the comma whenever no candidate reaches a mean field
    count of 2 over the sampled lines. *)
Theorem detect_delimiter_single_separator :
  (forall (data : list ascii) (sample_lines : nat) (d : ascii),
      (Z.of_nat (length data) < 2 ^ 52)%Z ->
      let lines := sampled_lines data (length data) sample_lines in
      lines <> [] ->
      In d candidates ->
      (forall c, In c candidates -> c <> d -> ~ In c data) ->
      (forall l, In l lines -> 2 <= fields_on data d l) ->
      detect_delimiter data (length data) sample_lines = d) /\
  (forall (data : list ascii) (sample_lines : nat),
      detect_delimiter data 0 sample_lines = COMMA) /\
  (forall (data : list ascii) (size sample_lines : nat),
      sampled_lines data size sample_lines = [] ->
      detect_delimiter data size sample_lines = COMMA) /\
  (forall (data : list ascii) (size sample_lines : nat),
      (forall c, In c candidates ->
                 qualifies data (sampled_lines data size sample_lines) c
                 = false) ->
      detect_delimiter data size sample_lines = COMMA).
Proof.
  split; [|split; [|split]].
  - intros data sample_lines d Hsize lines Hne Hd Habsent Hfields.
    rewrite detect_delimiter_unfold by exact Hne. fold lines.
    destruct (candidates_split d Hd) as (pre & post & Hsplit & Hpre & Hpost).
    assert (Hother : forall c, In c candidates -> c <> d ->
                               qualifies data lines c = false).
    { intros c Hc Hcd. unfold lines.
      rewrite qualifies_total by assumption. fold lines.
      apply Nat.leb_gt. unfold total_fields.
      rewrite (map_ext_in _ (fun _ => 1)).
      - rewrite list_sum_ones. destruct lines; [contradiction|cbn; lia].
      - intros l _. apply fields_on_absent; [exact Hc|].
        now apply Habsent. }
    rewrite Hsplit. apply fold_winner.
    + unfold lines. rewrite qualifies_total by assumption. fold lines.
      apply Nat.leb_le. unfold total_fields.
      clear - Hfields. induction lines as [|l ls IH]; [cbn; lia|].
      change (list_sum (map (fields_on data d) (l :: ls)))
        with (fields_on data d l + list_sum (map (fields_on data d) ls)).
      cbn [length]. specialize (Hfields l (or_introl eq_refl)) as Hl.
      assert (IH' : 2 * length ls <= list_sum (map (fields_on data d) ls)).
      { apply IH. intros x Hx. apply Hfields. now right. }
      lia.
    + now apply score_beats_initial.
    + intros c' Hc' Hq. rewrite Hother in Hq; [discriminate| |].
      * rewrite Hsplit. apply in_or_app. now left.
      * intros ->. contradiction.
    + intros c' Hc' Hq. rewrite Hother in Hq; [discriminate| |].
      * rewrite Hsplit. apply in_or_app. right. now right.
      * intros ->. contradiction.
  - intros. reflexivity.
  - intros data size sample_lines Hnone. unfold detect_delimiter.
    destruct (size =? 0); [reflexivity|].
    fold (sampled_lines data size sample_lines). now rewrite Hnone.
  - intros data size sample_lines Hall. unfold detect_delimiter.
    destruct (size =? 0); [reflexivity|].
    fold (sampled_lines data size sample_lines).
    destruct (sampled_lines data size sample_lines) as [|l ls] eqn:E;
      [reflexivity|].
    rewrite fold_all_pass; [reflexivity|exact Hall].
Qed.

(** C10. Ties are broken by position.  On an input shorter than [2^52]
    bytes with at least one sampled line, let [c] be a qualifying candidate
    such that every qualifying candidate before it in the fixed order scores
    strictly lower and every qualifying candidate after it scores the same
    or is not strictly greater: [detect_delimiter] returns [c]. *)
Theorem detect_delimiter_first_of_ties :
  forall (data : list ascii) (sample_lines : nat)
         (pre post : list ascii) (c : ascii),
    candidates = pre ++ c :: post ->
    (Z.of_nat (length data) < 2 ^ 52)%Z ->
    let lines := sampled_lines data (length data) sample_lines in
    lines <> [] ->
    qualifies data lines c = true ->
    (forall c', In c' pre -> qualifies data lines c' = true ->
                dltb (score data lines c') (score data lines c) = true) ->
    (forall c', In c' post -> qualifies data lines c' = true ->
                score data lines c' = score data lines c
                \/ dltb (score data lines c) (score data lines c') = false) ->
    detect_delimiter data (length data) sample_lines = c.
Proof.
  intros data sample_lines pre post c Hsplit Hsize lines Hne Hq Hpre Hpost.
  rewrite detect_delimiter_unfold by exact Hne. fold lines. rewrite Hsplit.
  apply fold_winner.
  - exact Hq.
  - now apply score_beats_initial.
  - exact Hpre.
  - intros c' Hc' Hq'. destruct (Hpost c' Hc' Hq') as [->|Hle].
    + apply dltb_irrefl.
    + exact Hle.
Qed.

End DetectTheorems.

Lemma detect_delimiter_single_separator_witness :
  @detect_delimiter ExactOps pipes_csv (length pipes_csv) 10 = PIPE.
Proof.
  apply (proj1 (@detect_delimiter_single_separator ExactOps ExactLaws)).
  - vm_compute. reflexivity.
  - vm_compute. discriminate.
  - vm_compute. auto.
  - intros c [<-|[<-|[<-|[<-|[]]]]] Hc Hin; try (now elim Hc);
      vm_compute in Hin; intuition discriminate.
  - intros l Hl. vm_compute in Hl.
    destruct Hl as [<-|[<-|[]]]; vm_compute; lia.
Defined.

Lemma detect_delimiter_first_of_ties_witness :
  @score ExactOps tab_semi_csv
         (sampled_lines tab_semi_csv (length tab_semi_csv) 10) SEMI
  = @score ExactOps tab_semi_csv
           (sampled_lines tab_semi_csv (length tab_semi_csv) 10) TAB
  /\ @detect_delimiter ExactOps tab_semi_csv (length tab_semi_csv) 10 = TAB.
Proof.
  split; [vm_compute; reflexivity|].
  apply (@detect_delimiter_first_of_ties ExactOps ExactLaws tab_semi_csv 10
           [COMMA] [PIPE; SEMI] TAB).
  - reflexivity.
  - vm_compute. reflexivity.
  - vm_compute. discriminate.
  - vm_compute. reflexivity.
  - intros c' [<-|[]] Hq. vm_compute in Hq. discriminate Hq.
  - intros c' [<-|[<-|[]]] Hq.
    + vm_compute in Hq. discriminate Hq.
    + left. vm_compute. reflexivity.
Defined.

(** ** Line boundaries *)

Lemma memchr_none (base : list ascii) (c : ascii) (n start : nat) :
  memchr base c start n = None ->
  forall j, start <= j < start + n -> at_ base j <> c.
Proof.
  revert start. induction n as [|n IH]; intros start Hm j Hj; [lia|].
  simpl in Hm.
  destruct (Ascii.eqb_spec (at_ base start) c) as [|Hc]; [discriminate|].
  destruct (Nat.eq_dec j start) as [-> |Hne]; [assumption|].
  apply (IH (S start) Hm). lia.
Qed.

Lemma memchr_first (base : list ascii) (c : ascii) (n start p : nat) :
  memchr base c start n = Some p ->
  at_ base p = c /\ forall j, start <= j < p -> at_ base j <> c.
Proof.
  revert start. induction n as [|n IH]; intros start Hm; [discriminate|].
  simpl in Hm.
  destruct (Ascii.eqb_spec (at_ base start) c) as [Hc|Hc].
  - injection Hm as <-. split; [assumption|]. intros j Hj. lia.
  - destruct (IH (S start) Hm) as [Hp Hbefore]. split; [assumption|].
    intros j Hj. destruct (Nat.eq_dec j start) as [-> |Hne]; [assumption|].
    apply Hbefore. lia.
Qed.

Lemma line_end_slow_no_newline (base : list ascii) (total n i : nat)
      (q : bool) :
  (forall j, i <= j < i + n -> at_ base j <> NL) ->
  line_end_slow base total n i q = total.
Proof.
  revert i q. induction n as [|n IH]; intros i q Hno; simpl; [reflexivity|].
  destruct (at_ base i =? DQUOTE)%char.
  - apply IH. intros j Hj. apply Hno. lia.
  - destruct (Ascii.eqb_spec (at_ base i) NL) as [Hnl|Hnl].
    + exfalso. apply (Hno i); [lia|assumption].
    + rewrite andb_false_r. apply IH. intros j Hj. apply Hno. lia.
Qed.

Lemma line_end_slow_plain_prefix (base : list ascii) (total n i p : nat) :
  i <= p < i + n ->
  (forall j, i <= j < p -> at_ base j <> DQUOTE /\ at_ base j <> NL) ->
  at_ base p = NL ->
  line_end_slow base total n i false = p.
Proof.
  revert i. induction n as [|n IH]; intros i Hp Hplain Hnl; [lia|].
  simpl. destruct (Nat.eq_dec i p) as [-> |Hne].
  - rewrite Hnl. reflexivity.
  - destruct (Hplain i) as [Hq Hn]; [lia|].
    destruct (Ascii.eqb_spec (at_ base i) DQUOTE); [contradiction|].
    destruct (Ascii.eqb_spec (at_ base i) NL); [contradiction|].
    cbn [negb andb]. apply IH; [lia| |assumption].
    intros j Hj. apply Hplain. lia.
Qed.

(** The two [memchr] calls never change the answer of the quote-aware
    scan: they only save running it. *)
Lemma find_line_end_slow (base : list ascii) (total start : nat) :
  find_line_end base total start
  = line_end_slow base total (total - start) start false.
Proof.
  unfold find_line_end.
  destruct (memchr base NL start (total - start)) as [p|] eqn:Enl.
  - destruct (memchr base DQUOTE start (p - start)) eqn:Eq; [reflexivity|].
    pose proof (memchr_bounds _ _ _ _ _ Enl) as Hb.
    destruct (memchr_first _ _ _ _ _ Enl) as [Hp Hbefore].
    symmetry. apply line_end_slow_plain_prefix; [lia| |assumption].
    intros j Hj. split; [|apply Hbefore; lia].
    apply (memchr_none _ _ _ _ Eq). lia.
  - destruct (memchr base DQUOTE start (total - start)); [reflexivity|].
    symmetry. apply line_end_slow_no_newline.
    apply (memchr_none _ _ _ _ Enl).
Qed.

Lemma count_char_S (base : list ascii) (c : ascii) (i n : nat) :
  count_char base c i (S n)
  = (if (at_ base i =? c)%char then 1 else 0) + count_char base c (S i) n.
Proof. reflexivity. Qed.

Lemma xorb_negb_swap (a b : bool) : xorb a (negb b) = xorb (negb a) b.
Proof. destruct a, b; reflexivity. Qed.

Lemma line_end_slow_parity (base : list ascii) (total n i : nat) (q : bool) :
  i + n = total ->
  let r := line_end_slow base total n i q in
  (r < total ->
   at_ base r = NL
   /\ xorb q (Nat.odd (count_char base DQUOTE i (r - i))) = false)
  /\ (forall j, i <= j < r -> at_ base j = NL ->
      xorb q (Nat.odd (count_char base DQUOTE i (j - i))) = true).
Proof.
  revert i q. induction n as [|n IH]; intros i q Hn; cbn zeta.
  - simpl. split; [lia|]. intros j Hj. lia.
  - pose proof (line_end_slow_bounds base total n (S i)) as Hb.
    simpl. destruct (Ascii.eqb_spec (at_ base i) DQUOTE) as [Hq|Hq].
    + specialize (Hb (negb q) ltac:(lia)).
      destruct (IH (S i) (negb q) ltac:(lia)) as [Hr Hj].
      set (r := line_end_slow base total n (S i) (negb q)) in *.
      split.
      * intros Hlt. destruct (Hr Hlt) as [Hnl Hpar]. split; [assumption|].
        replace (r - i) with (S (r - S i)) by lia.
        rewrite count_char_S, Hq, Ascii.eqb_refl. cbn [Nat.add].
        rewrite Nat.odd_succ, <- Nat.negb_odd, xorb_negb_swap.
        exact Hpar.
      * intros j Hjr Hnl.
        assert (j <> i) by (intros ->; rewrite Hq in Hnl; discriminate).
        replace (j - i) with (S (j - S i)) by lia.
        rewrite count_char_S, Hq, Ascii.eqb_refl. cbn [Nat.add].
        rewrite Nat.odd_succ, <- Nat.negb_odd, xorb_negb_swap.
        apply Hj; [lia|assumption].
    + destruct (Ascii.eqb_spec (at_ base i) NL) as [Hnl|Hnl];
        destruct q; cbn [negb andb].
      * specialize (Hb true ltac:(lia)).
        destruct (IH (S i) true ltac:(lia)) as [Hr Hj].
        set (r := line_end_slow base total n (S i) true) in *.
        assert (Hi : (at_ base i =? DQUOTE)%char = false)
          by (apply Ascii.eqb_neq; assumption).
        split.
        -- intros Hlt. destruct (Hr Hlt) as [Hnl' Hpar]. split; [assumption|].
           replace (r - i) with (S (r - S i)) by lia.
           rewrite count_char_S, Hi. exact Hpar.
        -- intros j Hjr Hnl'. destruct (Nat.eq_dec j i) as [-> |Hne].
           ++ rewrite Nat.sub_diag. reflexivity.
           ++ replace (j - i) with (S (j - S i)) by lia.
              rewrite count_char_S, Hi. apply Hj; [lia|assumption].
      * split.
        -- intros _. rewrite Nat.sub_diag. split; [assumption|reflexivity].
        -- intros j Hj. lia.
      * specialize (Hb true ltac:(lia)).
        destruct (IH (S i) true ltac:(lia)) as [Hr Hj].
        set (r := line_end_slow base total n (S i) true) in *.
        assert (Hi : (at_ base i =? DQUOTE)%char = false)
          by (apply Ascii.eqb_neq; assumption).
        split.
        -- intros Hlt. destruct (Hr Hlt) as [Hnl' Hpar]. split; [assumption|].
           replace (r - i) with (S (r - S i)) by lia.
           rewrite count_char_S, Hi. exact Hpar.
        -- intros j Hjr Hnl'. destruct (Nat.eq_dec j i) as [-> |Hne];
             [contradiction|].
           replace (j - i) with (S (j - S i)) by lia.
           rewrite count_char_S, Hi. apply Hj; [lia|assumption].
      * specialize (Hb false ltac:(lia)).
        destruct (IH (S i) false ltac:(lia)) as [Hr Hj].
        set (r := line_end_slow base total n (S i) false) in *.
        assert (Hi : (at_ base i =? DQUOTE)%char = false)
          by (apply Ascii.eqb_neq; assumption).
        split.
        -- intros Hlt. destruct (Hr Hlt) as [Hnl' Hpar]. split; [assumption|].
           replace (r - i) with (S (r - S i)) by lia.
           rewrite count_char_S, Hi. exact Hpar.
        -- intros j Hjr Hnl'. destruct (Nat.eq_dec j i) as [-> |Hne];
             [contradiction|].
           replace (j - i) with (S (j - S i)) by lia.
           rewrite count_char_S, Hi. apply Hj; [lia|assumption].
Qed.

(** X1. [find_line_end] returns what its quote-aware scan alone returns
    (the [memchr] fast path never changes the answer), and that offset is
    the first newline from [start] on that lies outside quotes, an even
    number of quotes between [start] and it, or [total] when there is
    none: every newline before it is inside quotes. *)
Theorem find_line_end_first_unquoted_newline
        (base : list ascii) (total start : nat) :
  start <= total ->
  let r := find_line_end base total start in
  r = line_end_slow base total (total - start) start false
  /\ start <= r <= total
  /\ (r < total -> at_ base r = NL /\ inside_quotes base start r = false)
  /\ (forall j, start <= j < r -> at_ base j = NL ->
      inside_quotes base start j = true).
Proof.
  intros Hs r. subst r. rewrite find_line_end_slow.
  split; [reflexivity|].
  split; [apply line_end_slow_bounds; lia|].
  destruct (line_end_slow_parity base total (total - start) start false
                                 ltac:(lia)) as [Hr Hj].
  unfold inside_quotes. split.
  - intros Hlt. apply Hr. assumption.
  - intros j Hjr Hnl. apply (Hj j Hjr Hnl).
Qed.

Lemma find_line_end_first_unquoted_newline_witness :
  0 <= 12
  /\ at_ quoted_newline_csv (find_line_end quoted_newline_csv 12 0) = NL.
Proof.
  assert (H : 0 <= 12) by lia.
  split; [exact H|].
  apply (proj1 (proj2 (proj2 (find_line_end_first_unquoted_newline
                                quoted_newline_csv 12 0 H)))).
  vm_compute. lia.
Defined.

(** ** The reader's life cycle *)

Lemma parse_head_headers (arm_neon : bool) (r : CsvReader) (d : ascii)
      (max_rows : nat) :
  headers_ (parse_head arm_neon r d max_rows) = headers_ (parse r d).
Proof.
  unfold parse_head, parse.
  destruct (parse_header (clear r) d) as [r' pos].
  destruct (ncols_ r' =? 0); reflexivity.
Qed.

Lemma parse_head_row (arm_neon : bool) (r : CsvReader) (d : ascii)
      (max_rows i : nat) :
  i < row_count (parse_head arm_neon r d max_rows) ->
  row (parse_head arm_neon r d max_rows) i = row (parse r d) i.
Proof.
  intros Hi. unfold row.
  destruct (parse_head_rows_prefix arm_neon r d max_rows) as [Hn Hf].
  rewrite Hn, Hf.
  pose proof (parse_head_row_count arm_neon r d max_rows) as Hc.
  unfold row_count in *. rewrite Hc in Hi.
  set (n := ncols_ (parse r d)). set (l := fields_ (parse r d)).
  rewrite skipn_firstn_comm, firstn_firstn.
  f_equal. apply Nat.min_l.
  assert (S i * n <= max_rows * n) by (apply Nat.mul_le_mono_r; lia).
  lia.
Qed.

(** X2. A head parse holds the same table as the full parse as far as it
    goes: the same headers, the same column count, and every row it has
    parsed is, view for view, the row with that index of the full parse. *)
Theorem parse_head_rows_are_parse_rows
        (arm_neon : bool) (r : CsvReader) (d : ascii) (max_rows : nat) :
  let h := parse_head arm_neon r d max_rows in
  let t := parse r d in
  headers h = headers t
  /\ column_count h = column_count t
  /\ forall i, i < row_count h -> row h i = row t i.
Proof.
  cbv zeta. unfold headers, column_count.
  destruct (parse_head_rows_prefix arm_neon r d max_rows) as [Hn _].
  split; [apply parse_head_headers|]. split; [exact Hn|].
  intros i Hi. now apply parse_head_row.
Qed.

Lemma parse_head_rows_are_parse_rows_witness :
  1 < row_count (parse_head false (open ten_rows_csv) "," 3)
  /\ row (parse_head false (open ten_rows_csv) "," 3) 1
     = row (parse (open ten_rows_csv) ",") 1.
Proof.
  assert (H : 1 < row_count (parse_head false (open ten_rows_csv) "," 3))
    by (vm_compute; lia).
  split; [exact H|].
  exact (proj2 (proj2 (parse_head_rows_are_parse_rows
                         false (open ten_rows_csv) ","%char 3)) 1 H).
Defined.

Lemma parse_from_bytes (r : CsvReader) (d : ascii) :
  parse r d = parse (open (addr r)) d.
Proof. reflexivity. Qed.

Lemma parse_head_from_bytes (arm_neon : bool) (r : CsvReader) (d : ascii)
      (max_rows : nat) :
  parse_head arm_neon r d max_rows
  = parse_head arm_neon (open (addr r)) d max_rows.
Proof. reflexivity. Qed.

(** X3. Parsing starts from the bytes alone: whatever an earlier [parse]
    or [parse_head] left in the reader, with whatever delimiter, a new
    parse gives the table a fresh reader on the same bytes gives. *)
Theorem parse_discards_previous_table
        (arm_neon : bool) (r : CsvReader) (d d' : ascii) (n n' : nat) :
  parse (parse r d') d = parse r d
  /\ parse (parse_head arm_neon r d' n') d = parse r d
  /\ parse_head arm_neon (parse r d') d n = parse_head arm_neon r d n
  /\ parse_head arm_neon (parse_head arm_neon r d' n') d n
     = parse_head arm_neon r d n.
Proof.
  destruct (parse_table r d') as [Ha _].
  destruct (parse_head_table arm_neon r d' n') as [Hb _].
  repeat split.
  - rewrite (parse_from_bytes (parse r d')), Ha. reflexivity.
  - rewrite (parse_from_bytes (parse_head _ _ _ _)), Hb. reflexivity.
  - rewrite (parse_head_from_bytes _ (parse r d')), Ha. reflexivity.
  - rewrite (parse_head_from_bytes _ (parse_head _ _ _ _)), Hb. reflexivity.
Qed.

(** X4. A file whose first line is blank, a lone newline or a carriage
    return and a newline, has no header: whatever follows it, and whether
    parsed in full or by its head, the table has no columns and no rows. *)
Theorem blank_first_line_gives_no_table
        (arm_neon : bool) (rest : list ascii) (d : ascii) (max_rows : nat) :
  empty_table (parse (open (NL :: rest)) d)
  /\ empty_table (parse (open (CR :: NL :: rest)) d)
  /\ empty_table (parse_head arm_neon (open (NL :: rest)) d max_rows)
  /\ empty_table (parse_head arm_neon (open (CR :: NL :: rest)) d max_rows).
Proof. repeat split; reflexivity. Qed.

(** ** Lines without quotes *)

Lemma split_on_nonempty (d : ascii) (s : list ascii) : split_on d s <> [].
Proof.
  induction s as [|c r IH]; simpl; [discriminate|].
  destruct (c =? d)%char; [discriminate|].
  destruct (split_on d r); discriminate.
Qed.

Lemma split_on_plain (d : ascii) (f : list ascii) :
  ~ In d f -> split_on d f = [f].
Proof.
  induction f as [|c r IH]; intros Hn; simpl; [reflexivity|].
  destruct (Ascii.eqb_spec c d) as [->|Hc]; [exfalso; apply Hn; now left|].
  rewrite IH; [reflexivity|]. intros Hin. apply Hn. now right.
Qed.

Lemma split_on_at_delimiter (d : ascii) (f rest : list ascii) :
  ~ In d f -> split_on d (f ++ d :: rest) = f :: split_on d rest.
Proof.
  induction f as [|c r IH]; intros Hn; simpl.
  - rewrite Ascii.eqb_refl. reflexivity.
  - destruct (Ascii.eqb_spec c d) as [->|Hc]; [exfalso; apply Hn; now left|].
    rewrite IH; [reflexivity|]. intros Hin. apply Hn. now right.
Qed.

Lemma segment_nil (base : list ascii) (i : nat) : segment base i i = [].
Proof. unfold segment. now rewrite Nat.sub_diag. Qed.

Lemma skipn_at (base : list ascii) (i : nat) :
  i < length base -> skipn i base = at_ base i :: skipn (S i) base.
Proof.
  revert i. induction base as [|c base IH]; intros i Hi; simpl in Hi; [lia|].
  destruct i as [|i]; [reflexivity|].
  cbn [skipn]. unfold at_ in *. cbn [nth]. apply IH. lia.
Qed.

Lemma segment_cons (base : list ascii) (i j : nat) :
  i < j -> j <= length base ->
  segment base i j = at_ base i :: segment base (S i) j.
Proof.
  intros Hij Hj. unfold segment.
  replace (j - i) with (S (j - S i)) by lia.
  rewrite (skipn_at base i) by lia. reflexivity.
Qed.

Lemma segment_split (base : list ascii) (i k j : nat) :
  i <= k <= j -> j <= length base ->
  segment base i j = segment base i k ++ segment base k j.
Proof.
  intros Hk Hj. remember (k - i) as n eqn:En.
  revert i Hk En. induction n as [|n IH]; intros i Hk En.
  - replace k with i by lia. now rewrite segment_nil.
  - rewrite (segment_cons base i j), (segment_cons base i k) by lia.
    cbn [app]. f_equal. apply IH; lia.
Qed.

Lemma segment_free (base : list ascii) (c : ascii) (i j : nat) :
  j <= length base ->
  (forall p, i <= p < j -> at_ base p <> c) ->
  ~ In c (segment base i j).
Proof.
  intros Hj. remember (j - i) as n eqn:En.
  revert i En. induction n as [|n IH]; intros i En Hfree.
  - unfold segment. rewrite <- En. intros [].
  - rewrite segment_cons by lia. intros [Hc|Hin].
    + apply (Hfree i); [lia|assumption].
    + apply (IH (S i)); [lia| |assumption]. intros p Hp. apply Hfree. lia.
Qed.

Lemma skip_unquoted_spec (base : list ascii) (end_ : nat) (d : ascii)
      (fuel i : nat) :
  i <= end_ -> end_ - i <= fuel ->
  let k := skip_unquoted base end_ d fuel i in
  i <= k <= end_
  /\ (forall p, i <= p < k -> at_ base p <> d)
  /\ (k < end_ -> at_ base k = d).
Proof.
  revert i. induction fuel as [|fuel IH]; intros i Hi Hf; simpl.
  - repeat split; lia.
  - destruct (Nat.ltb_spec i end_) as [Hlt|Hge]; cbn [andb].
    2:{ repeat split; lia. }
    destruct (Ascii.eqb_spec (at_ base i) d) as [Hd|Hd]; cbn [negb].
    + repeat split; try lia. intros _. assumption.
    + destruct (IH (S i) ltac:(lia) ltac:(lia)) as (Hb & Hfree & Hk).
      repeat split; try lia; [|assumption].
      intros p Hp. destruct (Nat.eq_dec p i) as [->|Hne]; [assumption|].
      apply Hfree. lia.
Qed.

Lemma line_fields_loop_done (base : list ascii) (end_ : nat) (d : ascii)
      (fuel : nat) (acc : list string_view) :
  line_fields_loop base end_ d fuel end_ acc = acc.
Proof.
  destruct fuel; simpl; [reflexivity|]. now rewrite Nat.ltb_irrefl.
Qed.

Lemma line_fields_loop_plain (base : list ascii) (end_ : nat) (d : ascii)
      (fuel i : nat) (acc : list string_view) :
  i <= end_ -> end_ - i <= fuel -> end_ <= length base ->
  (forall p, i <= p < end_ -> at_ base p <> DQUOTE) ->
  (i = end_ -> at_ base (end_ - 1) = d) ->
  map (sv_text base) (line_fields_loop base end_ d fuel i acc)
  ++ (if (at_ base (end_ - 1) =? d)%char then [[]] else [])
  = map (sv_text base) acc ++ split_on d (segment base i end_).
Proof.
  revert i acc. induction fuel as [|fuel IH]; intros i acc Hi Hf Hlen Hq Hend.
  - replace i with end_ in * by lia. rewrite segment_nil.
    simpl. rewrite Hend, Ascii.eqb_refl; reflexivity.
  - destruct (Nat.eq_dec i end_) as [->|Hne].
    { rewrite line_fields_loop_done, segment_nil, Hend, Ascii.eqb_refl;
        reflexivity. }
    cbn [line_fields_loop].
    destruct (Nat.ltb_spec i end_) as [Hlt|]; [|lia].
    unfold scan_field.
    destruct (Ascii.eqb_spec (at_ base i) DQUOTE) as [Hdq|_].
    { exfalso. apply (Hq i); [lia|assumption]. }
    destruct (skip_unquoted_spec base end_ d (end_ - i) i ltac:(lia)
                                 ltac:(lia)) as (Hb & Hfree & Hk).
    set (k := skip_unquoted base end_ d (end_ - i) i) in *.
    assert (Hf_free : ~ In d (segment base i k))
      by (apply segment_free; [lia|assumption]).
    destruct (Nat.ltb_spec k end_) as [Hkl|Hkg].
    + rewrite IH; try lia.
      * rewrite map_app, <- app_assoc. f_equal. cbn [map app sv_text].
        rewrite (segment_split base i k end_) by lia.
        rewrite (segment_cons base k end_) by lia.
        rewrite (Hk Hkl), split_on_at_delimiter by assumption.
        replace (k + 1) with (S k) by lia. reflexivity.
      * intros p Hp. apply Hq. lia.
      * intros He. replace (end_ - 1) with k by lia. apply Hk. lia.
    + replace k with end_ in * by lia.
      rewrite line_fields_loop_done, map_app. cbn [map sv_text].
      destruct (Ascii.eqb_spec (at_ base (end_ - 1)) d) as [Hd|_].
      { exfalso. apply (Hfree (end_ - 1)); [lia|assumption]. }
      rewrite app_nil_r, split_on_plain by assumption. reflexivity.
Qed.

Lemma parse_line_fields_plain (base : list ascii) (start end_ : nat)
      (d : ascii) :
  start < end_ -> end_ <= length base ->
  (forall p, start <= p < end_ -> at_ base p <> DQUOTE) ->
  map (sv_text base) (parse_line_fields base start end_ d)
  = split_on d (segment base start end_).
Proof.
  intros Hs Hlen Hq. unfold parse_line_fields.
  destruct (Nat.eqb_spec start end_); [lia|].
  pose proof (line_fields_loop_plain base end_ d (end_ - start) start []
                ltac:(lia) ltac:(lia) Hlen Hq ltac:(lia)) as Hl.
  cbn [map app] in Hl. rewrite <- Hl.
  destruct (Nat.ltb_spec start end_); [|lia]. cbn [andb].
  destruct (at_ base (end_ - 1) =? d)%char.
  - rewrite map_app. reflexivity.
  - now rewrite app_nil_r.
Qed.

Lemma count_fields_loop_plain (line : list ascii) (d : ascii)
      (n i count : nat) :
  i + n <= length line ->
  (forall p, i <= p < i + n -> at_ line p <> DQUOTE) ->
  S (count_fields_loop line d n i count false)
  = count + length (split_on d (segment line i (i + n))).
Proof.
  revert i count. induction n as [|n IH]; intros i count Hlen Hq.
  - rewrite Nat.add_0_r, segment_nil. simpl. lia.
  - cbn [count_fields_loop].
    rewrite (segment_cons line i (i + S n)) by lia.
    destruct (Ascii.eqb_spec (at_ line i) DQUOTE) as [Hdq|_].
    { exfalso. apply (Hq i); [lia|assumption]. }
    cbn [negb andb split_on].
    replace (i + S n) with (S i + n) by lia.
    destruct (at_ line i =? d)%char.
    + rewrite IH; [cbn [length]; lia|lia|]. intros p Hp. apply Hq. lia.
    + rewrite IH; [|lia|intros p Hp; apply Hq; lia].
      pose proof (split_on_nonempty d (segment line (S i) (S i + n))).
      destruct (split_on d (segment line (S i) (S i + n)));
        [contradiction|reflexivity].
Qed.

(** X5. On a line that holds no quote the parser's fields are the pieces
    of the line between the delimiters, empty pieces included, and the
    field count the delimiter detector computes for the line is the number
    of fields the parser makes of it. *)
Theorem plain_line_is_split_at_delimiters
        (base : list ascii) (start end_ : nat) (d : ascii) :
  start < end_ -> end_ <= length base ->
  (forall p, start <= p < end_ -> at_ base p <> DQUOTE) ->
  map (sv_text base) (parse_line_fields base start end_ d)
  = split_on d (segment base start end_)
  /\ count_fields (skipn start base) (end_ - start) d
     = length (parse_line_fields base start end_ d).
Proof.
  intros Hs Hlen Hq.
  pose proof (parse_line_fields_plain base start end_ d Hs Hlen Hq) as Hp.
  split; [exact Hp|].
  apply (f_equal (@length _)) in Hp. rewrite length_map in Hp. rewrite Hp.
  unfold count_fields.
  pose proof (count_fields_loop_plain (skipn start base) d (end_ - start)
                                      0 1) as Hc.
  rewrite length_skipn in Hc. cbn [Nat.add] in Hc.
  assert (Hseg : segment (skipn start base) 0 (end_ - start)
                 = segment base start end_).
  { unfold segment. now rewrite Nat.sub_0_r. }
  rewrite Hseg in Hc.
  enough (S (count_fields_loop (skipn start base) d (end_ - start) 0 1 false)
          = 1 + length (split_on d (segment base start end_))) by lia.
  apply Hc; [lia|].
  intros p Hp'. rewrite at_skipn. apply Hq. lia.
Qed.

Lemma plain_line_is_split_at_delimiters_witness :
  map (sv_text people_csv) (parse_line_fields people_csv 0 8 ",")
  = split_on "," (segment people_csv 0 8)
  /\ count_fields (skipn 0 people_csv) (8 - 0) ","
     = length (parse_line_fields people_csv 0 8 ",").
Proof.
  apply plain_line_is_split_at_delimiters.
  - lia.
  - vm_compute. lia.
  - intros p Hp.
    assert (Hc : p = 0 \/ p = 1 \/ p = 2 \/ p = 3 \/ p = 4 \/ p = 5
                 \/ p = 6 \/ p = 7) by lia.
    repeat (destruct Hc as [->|Hc]; [vm_compute; discriminate|]).
    subst p. vm_compute. discriminate.
Defined.

(** ** The detector reads the lines the parser reads *)

Lemma sample_line_end_slow (data : list ascii) (total n i : nat) (q : bool) :
  i + n = total ->
  sample_line_end data n i q = line_end_slow data total n i q.
Proof.
  revert i q. induction n as [|n IH]; intros i q Hn; simpl; [lia|].
  destruct (at_ data i =? DQUOTE)%char; [apply IH; lia|].
  destruct (negb q && (at_ data i =? NL)%char); [reflexivity|].
  apply IH. lia.
Qed.

Lemma collect_lines_body_lines (data : list ascii) (size n fuel pos : nat)
      (acc : list LineSpan) :
  pos <= size ->
  collect_lines data size n fuel pos acc
  = acc ++ map span_of (firstn (n - length acc)
                               (body_lines data size fuel pos)).
Proof.
  revert pos acc. induction fuel as [|fuel IH]; intros pos acc Hpos;
    cbn [collect_lines body_lines].
  - rewrite firstn_nil. cbn. now rewrite app_nil_r.
  - destruct (Nat.ltb_spec pos size) as [Hlt|Hge]; cbn [andb].
    2:{ rewrite firstn_nil. cbn. now rewrite app_nil_r. }
    destruct (Nat.ltb_spec (length acc) n) as [Hn|Hn].
    2:{ replace (n - length acc) with 0 by lia. cbn. now rewrite app_nil_r. }
    rewrite (sample_line_end_slow data size) by lia.
    rewrite <- find_line_end_slow.
    pose proof (find_line_end_bounds data size pos ltac:(lia)) as Hb.
    set (e := find_line_end data size pos) in *.
    set (a := if (pos <? e) && (at_ data (e - 1) =? CR)%char
              then e - 1 else e).
    assert (Ha : pos <= a <= e).
    { unfold a. destruct (Nat.ltb_spec pos e); cbn [andb]; [|lia].
      destruct (at_ data (e - 1) =? CR)%char; lia. }
    assert (Hnext : (if e <? size then S e else e) = next_pos e size).
    { unfold next_pos. destruct (Nat.ltb_spec e size); lia. }
    rewrite Hnext.
    pose proof (next_pos_progress e size pos Hlt Hb) as Hp.
    destruct (Nat.ltb_spec pos a) as [Hne|He];
      destruct (Nat.eqb_spec a pos) as [Heq|Hneq]; try lia.
    + rewrite IH by lia. rewrite length_app. cbn [length].
      replace (n - length acc) with (S (n - (length acc + 1))) by lia.
      cbn [firstn map]. rewrite <- app_assoc. reflexivity.
    + apply IH. lia.
Qed.

(** X6. The delimiter detector samples the lines the parser reads: its
    sample is the first [sample_lines] non-blank lines of the data, the
    header line included, each with the bounds the parser's body loop
    gives that line (quoted newlines kept inside, one trailing carriage
    return dropped). *)
Theorem sampled_lines_are_parsed_lines
        (data : list ascii) (size sample_lines : nat) :
  sampled_lines data size sample_lines
  = map span_of (firstn sample_lines (body_lines data size size 0)).
Proof.
  unfold sampled_lines.
  rewrite collect_lines_body_lines by lia.
  cbn [app length]. now rewrite Nat.sub_0_r.
Qed.

(** ** The detector answers with a candidate *)

Section DetectRange.
Context `{DoubleOps}.

Lemma candidate_step_choice (data : list ascii) (lines : list LineSpan)
      (st : ascii * double) (c : ascii) :
  fst (candidate_step data lines st c) = fst st
  \/ fst (candidate_step data lines st c) = c.
Proof.
  unfold candidate_step. destruct st as [best best_score].
  destruct (dltb (mean_of _) _); [now left|].
  destruct (dltb best_score _); [now right|now left].
Qed.

Lemma fold_candidate_step_choice (data : list ascii) (lines : list LineSpan)
      (cs : list ascii) (st : ascii * double) :
  fst (fold_left (candidate_step data lines) cs st) = fst st
  \/ In (fst (fold_left (candidate_step data lines) cs st)) cs.
Proof.
  revert st. induction cs as [|c cs IH]; intros st; cbn [fold_left].
  - now left.
  - destruct (IH (candidate_step data lines st c)) as [E|Hin].
    + rewrite E. destruct (candidate_step_choice data lines st c) as [E'|E'].
      * now left.
      * right. left. now rewrite E'.
    + right. now right.
Qed.

(** X7. Whatever the data, and in whatever arithmetic the scores are
    computed, [detect_delimiter] answers with one of its four candidates:
    comma, tab, pipe or semicolon. *)
Theorem detect_delimiter_is_a_candidate
        (data : list ascii) (size sample_lines : nat) :
  In (detect_delimiter data size sample_lines) candidates.
Proof.
  unfold detect_delimiter.
  destruct (size =? 0); [now left|].
  destruct (collect_lines data size sample_lines size 0 []) as [|l ls];
    [now left|].
  destruct (fold_candidate_step_choice data (l :: ls) candidates
              (COMMA, d_of_Z (-1))) as [E|Hin].
  - rewrite E. now left.
  - exact Hin.
Qed.
End DetectRange.

(** ** Type inference: the shapes the predicates accept *)

(** X8. [is_int64] accepts exactly an optional sign followed by one or
    more digits: no blank, no decimal point, no thousands separator, and
    no bound on the number of digits. *)
Theorem is_int64_signed_digits (s : list ascii) :
  is_int64 s = true <-> signed_digits s.
Proof.
  unfold signed_digits. rewrite <- float_exponent_spec.
  unfold is_int64, float_exponent. destruct s; [|reflexivity].
  cbn. split; discriminate.
Qed.

Lemma is_date_sep_cases (c : ascii) : is_date_sep c = true <-> date_sep c.
Proof.
  unfold is_date_sep, date_sep. rewrite orb_true_iff.
  now rewrite !Ascii.eqb_eq.
Qed.

Lemma digit_not_date_sep (c : ascii) :
  is_digit c = true -> is_date_sep c = false.
Proof.
  intros Hd. unfold is_date_sep.
  destruct (Ascii.eqb_spec c "-") as [->|_]; [discriminate Hd|].
  destruct (Ascii.eqb_spec c "/") as [->|_]; [discriminate Hd|].
  reflexivity.
Qed.

Lemma length_ten (s : list ascii) :
  length s = 10 ->
  exists c0 c1 c2 c3 c4 c5 c6 c7 c8 c9,
    s = [c0; c1; c2; c3; c4; c5; c6; c7; c8; c9].
Proof.
  intros Hl.
  do 10 (destruct s as [|? s]; [discriminate Hl|]).
  destruct s; [|discriminate Hl].
  repeat eexists.
Qed.

(** What [is_date] accepts has one of the two shapes. *)
Lemma is_date_true (s : list ascii) :
  is_date s = true -> year_first_date s \/ year_last_date s.
Proof.
  unfold is_date.
  destruct ((length s <? 8) || (10 <? length s)); [discriminate|].
  destruct (Nat.eqb_spec (length s) 10) as [Hl|Hl]; [|discriminate].
  destruct (length_ten s Hl)
    as (c0 & c1 & c2 & c3 & c4 & c5 & c6 & c7 & c8 & c9 & ->).
  cbn [andb at_ nth forallb].
  destruct (is_date_sep c4 && is_date_sep c7) eqn:E1.
  - intros H. left. apply andb_prop in E1 as [Hp Hq].
    repeat (apply andb_prop in H as [?H H]).
    exists c0, c1, c2, c3, c4, c5, c6, c7, c8, c9.
    split; [reflexivity|].
    split; [repeat constructor; assumption|].
    split; now apply is_date_sep_cases.
  - destruct (is_date_sep c2 && is_date_sep c5) eqn:E2; [|discriminate].
    intros H. right. apply andb_prop in E2 as [Hp Hq].
    repeat (apply andb_prop in H as [?H H]).
    exists c0, c1, c2, c3, c4, c5, c6, c7, c8, c9.
    split; [reflexivity|].
    split; [repeat constructor; assumption|].
    split; now apply is_date_sep_cases.
Qed.

(** X9. [is_date] accepts exactly the ten-character texts of the two
    shapes, year first or year last, with [-] or [/] in the two separator
    places (the two need not be the same) and digits elsewhere.  No range
    of month or day is checked, and no text of eight or nine characters is
    a date. *)
Theorem is_date_shapes (s : list ascii) :
  is_date s = true <-> year_first_date s \/ year_last_date s.
Proof.
  split; [apply is_date_true|].
  - intros [H|H];
      destruct H as (a & b & c & d & e & f & g & h & i & j & -> & Hd & Hp & Hq);
      apply is_date_sep_cases in Hp, Hq;
      repeat match goal with
             | H : all_digits (_ :: _) |- _ => inversion H; subst; clear H
             | H : Forall _ (_ :: _) |- _ => inversion H; subst; clear H
             end;
      unfold is_date; cbn [length Nat.ltb Nat.leb orb Nat.eqb andb at_ nth].
    + rewrite Hp, Hq. cbn [andb forallb nth at_].
      repeat match goal with H : is_digit _ = true |- _ => rewrite H; clear H
             end.
      reflexivity.
    + rewrite (digit_not_date_sep e) by assumption. cbn [andb].
      rewrite Hp, Hq. cbn [andb forallb nth at_].
      repeat match goal with H : is_digit _ = true |- _ => rewrite H; clear H
             end.
      reflexivity.
Qed.

(** ** Type inference: currency amounts, and one type per value *)

Lemma currency_digits_true (b : list ascii) (has_digit has_dot : bool) :
  currency_digits b has_digit has_dot = Some true <->
  Forall amount_char b
  /\ count_occ ascii_dec b "."%char + (if has_dot then 1 else 0) <= 1
  /\ (has_digit = true \/ Exists (fun c => is_digit c = true) b).
Proof.
  revert has_digit has_dot.
  induction b as [|c r IH]; intros has_digit has_dot; cbn [currency_digits].
  - split.
    + intros [= ->]. split; [constructor|]. split; [destruct has_dot; simpl; lia|].
      now left.
    + intros (_ & _ & [->|Hx]); [reflexivity|inversion Hx].
  - destruct (is_digit c) eqn:Hd.
    + rewrite IH. destruct (is_digit_plain c Hd) as (_ & Hpt & _).
      rewrite count_occ_cons_neq by congruence.
      split.
      * intros (Hall & Hcnt & _). split; [constructor; [now left|assumption]|].
        split; [assumption|]. right. now apply Exists_cons_hd.
      * intros (Hall & Hcnt & _). inversion Hall; subst.
        split; [assumption|]. split; [assumption|now left].
    + destruct (Ascii.eqb_spec c ",") as [->|Hcomma].
      * rewrite IH. rewrite count_occ_cons_neq by discriminate.
        split.
        -- intros (Hall & Hcnt & Hdig).
           split; [constructor; [right; now left|assumption]|].
           split; [assumption|]. destruct Hdig as [Hdig|Hdig]; [now left|].
           right. now apply Exists_cons_tl.
        -- intros (Hall & Hcnt & Hdig). inversion Hall; subst.
           split; [assumption|]. split; [assumption|].
           destruct Hdig as [Hdig|Hdig]; [now left|]. right.
           inversion Hdig; subst; [discriminate|assumption].
      * destruct (Ascii.eqb_spec c ".") as [->|Hpoint].
        -- rewrite count_occ_cons_eq by reflexivity.
           destruct has_dot.
           ++ split; [discriminate|]. intros (_ & Hcnt & _). lia.
           ++ rewrite IH. split.
              ** intros (Hall & Hcnt & Hdig).
                 split; [constructor; [right; now right|assumption]|].
                 split; [lia|]. destruct Hdig as [Hdig|Hdig]; [now left|].
                 right. now apply Exists_cons_tl.
              ** intros (Hall & Hcnt & Hdig). inversion Hall; subst.
                 split; [assumption|]. split; [lia|].
                 destruct Hdig as [Hdig|Hdig]; [now left|]. right.
                 inversion Hdig; subst; [discriminate|assumption].
        -- split; [discriminate|]. intros (Hall & _). inversion Hall; subst.
           match goal with H : amount_char c |- _ =>
             destruct H as [H|[H|H]]; congruence end.
Qed.

Lemma amount_char_plain (c : ascii) :
  amount_char c ->
  is_sign c = false /\ c <> xA3 /\ c <> xA5 /\ c <> DOLLAR.
Proof.
  intros [Hd|[->| ->]].
  - destruct (is_digit_plain c Hd) as (Hs & _). split; [assumption|].
    repeat split; intros ->; discriminate Hd.
  - repeat split; discriminate.
  - repeat split; discriminate.
Qed.

Lemma amount_nonempty (b : list ascii) :
  amount b -> exists c r, b = c :: r /\ amount_char c.
Proof.
  intros (Hall & _ & Hdig). destruct b as [|c r]; [inversion Hdig|].
  exists c, r. split; [reflexivity|]. now inversion Hall.
Qed.

Lemma amount_iff_digits (b : list ascii) :
  currency_digits b false false = Some true <-> amount b.
Proof.
  rewrite currency_digits_true. unfold amount. rewrite Nat.add_0_r.
  split.
  - intros (Ha & Hc & [Hf|Hd]); [discriminate|auto].
  - intros (Ha & Hc & Hd); auto.
Qed.

(** What [is_currency] accepts is a dollar amount. *)
Lemma is_currency_true (s : list ascii) :
  is_currency s = true -> dollar_amount s.
Proof.
  unfold is_currency.
  destruct s as [|c0 [|c1 r]]; try discriminate.
  cbn [length Nat.ltb Nat.leb at_ nth andb].
  destruct (Ascii.eqb_spec c0 DOLLAR) as [->|Hc0].
  2:{ intros H. exfalso.
      repeat match type of H with
             | context [if ?b then _ else _] => destruct b
             | context [match ?x with _ => _ end] => destruct x
             end; try discriminate;
        rewrite ?andb_false_r in H; discriminate. }
  cbn [orb].
  assert (Hres : forall b, match currency_digits b false false with
                           | Some has_digit => has_digit && true
                           | None => false
                           end = true -> amount b).
  { intros b Hb. apply amount_iff_digits.
    destruct (currency_digits b false false) as [[|]|]; try discriminate.
    reflexivity. }
  destruct ((c1 =? xA3)%char || (c1 =? xA5)%char) eqn:Hlead.
  - assert (Hl : [c1] = [xA3] \/ [c1] = [xA5]).
    { apply orb_prop in Hlead as [H|H]; apply Ascii.eqb_eq in H; subst;
        auto. }
    destruct r as [|c2 r']; [discriminate|].
    cbn [length Nat.eqb nth].
    destruct (is_sign c2) eqn:Hs; cbn [skipn]; intros H; apply Hres in H.
    + exists [c1], [c2], r'. split; [reflexivity|]. split; [auto|].
      split; [|assumption].
      destruct (is_sign_cases c2 Hs) as [->| ->]; unfold opt_sign; auto.
    + exists [c1], [], (c2 :: r'). split; [reflexivity|]. split; [auto|].
      split; [now left|assumption].
  - cbn [length Nat.eqb nth].
    destruct (is_sign c1) eqn:Hs; cbn [skipn]; intros H; apply Hres in H.
    + exists [], [c1], r. split; [reflexivity|]. split; [auto|].
      split; [|assumption].
      destruct (is_sign_cases c1 Hs) as [->| ->]; unfold opt_sign; auto.
    + exists [], [], (c1 :: r). split; [reflexivity|]. split; [auto|].
      split; [now left|assumption].
Qed.

(** X10. [is_currency] accepts exactly a dollar sign followed by an
    optional sign and an amount: digits, commas anywhere among them, at
    most one decimal point, at least one digit.  Between the dollar sign
    and the rest one byte [0xA3] or [0xA5] is let through; a text that
    begins with the pound or yen sign itself is never a currency. *)
Theorem is_currency_dollar_amount (s : list ascii) :
  is_currency s = true <-> dollar_amount s.
Proof.
  split; [apply is_currency_true|].
  - intros (lead & sg & b & -> & Hlead & Hsg & Hb).
    pose proof (proj2 (amount_iff_digits b) Hb) as Hrun.
    destruct (amount_nonempty b Hb) as (c & r & -> & Hc).
    destruct (amount_char_plain c Hc) as (Hns & H3 & H5 & _).
    apply Ascii.eqb_neq in H3, H5.
    unfold is_currency.
    destruct Hlead as [->|[->| ->]]; destruct Hsg as [->|[->| ->]];
      cbn [app length Nat.ltb Nat.leb at_ nth andb orb Ascii.eqb Bool.eqb
           DOLLAR xA3 xA5 xC2 Nat.eqb is_sign skipn];
      rewrite ?H3, ?H5, ?Hns; cbn [orb Nat.eqb nth skipn];
      rewrite ?Hns; cbn [skipn]; rewrite ?Hrun; reflexivity.
Qed.

Lemma str_eqb_eq (a b : list ascii) : str_eqb a b = true <-> a = b.
Proof.
  unfold str_eqb. destruct (list_eq_dec ascii_dec a b); split; auto.
  discriminate.
Qed.

Lemma lower_char_number_start (c : ascii) :
  number_start c -> lower_char c = c.
Proof.
  unfold lower_char.
  intros [Hs|[->|[Hd| ->]]]; try reflexivity.
  - destruct (is_sign_cases c Hs) as [->| ->]; reflexivity.
  - unfold is_digit, in_range in *.
    change (code "9") with 57 in Hd. change (code "A") with 65.
    apply andb_prop in Hd as [_ Hd]. apply Nat.leb_le in Hd.
    destruct (Nat.leb_spec 65 (code c)); [lia|reflexivity].
Qed.

Lemma is_bool_number_start (c : ascii) (r : list ascii) :
  number_start c -> is_bool (c :: r) = true ->
  c :: r = str "0" \/ c :: r = str "1".
Proof.
  intros Hc. unfold is_bool.
  destruct ((length (c :: r) <? 1) || (5 <? length (c :: r)));
    [discriminate|].
  unfold to_lower. cbn [map]. rewrite (lower_char_number_start c Hc).
  intros H. rewrite !orb_true_iff, !str_eqb_eq in H.
  destruct H as [[[[[H|H]|H]|H]|H]|H]; injection H as Hc' Hr;
    try (exfalso; subst c; destruct Hc as [Hs|[Hp|[Hd|Hdl]]]; discriminate);
    apply map_eq_nil in Hr; subst; auto.
Qed.

Lemma is_float64_number_start (s : list ascii) :
  is_float64 s = true -> exists c r, s = c :: r /\ number_start c.
Proof.
  unfold is_float64, number_start. destruct s as [|c r]; [discriminate|].
  intros H. exists c, r. split; [reflexivity|].
  unfold skip_sign in H. destruct (is_sign c); [now left|].
  cbn [float_mantissa] in H.
  destruct (Ascii.eqb_spec c "."); [auto|].
  destruct (is_digit c); [auto|].
  destruct ((c =? "e")%char || (c =? "E")%char); discriminate.
Qed.

Lemma is_int64_number_start (s : list ascii) :
  is_int64 s = true -> exists c r, s = c :: r /\ number_start c.
Proof.
  unfold is_int64, number_start. destruct s as [|c r]; [discriminate|].
  intros H. exists c, r. split; [reflexivity|].
  unfold skip_sign in H. destruct (is_sign c); [now left|].
  cbn [forallb] in H. apply andb_prop in H as [H _]. auto.
Qed.

Lemma float_mantissa_digits (l : list ascii) (has_digit : bool) :
  forallb is_digit l = true -> float_mantissa l false has_digit = false.
Proof.
  revert has_digit. induction l as [|c r IH]; intros has_digit H.
  - cbn. apply andb_false_r.
  - cbn [forallb] in H. apply andb_prop in H as [Hd Hr].
    cbn [float_mantissa]. destruct (is_digit_plain c Hd) as (_ & Hp & _).
    apply Ascii.eqb_neq in Hp. rewrite Hp, Hd. now apply IH.
Qed.

Lemma float_mantissa_digit (c : ascii) (r : list ascii)
      (has_dot has_digit : bool) :
  is_digit c = true ->
  float_mantissa (c :: r) has_dot has_digit = float_mantissa r has_dot true.
Proof.
  intros Hd. cbn [float_mantissa].
  destruct (is_digit_plain c Hd) as (_ & Hp & _).
  apply Ascii.eqb_neq in Hp. now rewrite Hp, Hd.
Qed.

Lemma date_starts_with_digits (s : list ascii) :
  is_date s = true ->
  exists c0 c1 c2 r,
    s = c0 :: c1 :: c2 :: r /\ is_digit c0 = true /\ is_digit c1 = true
    /\ (is_digit c2 = true \/ date_sep c2)
    /\ exists r1 p r2, r = r1 ++ p :: r2 /\ date_sep p.
Proof.
  intros H. apply is_date_true in H.
  destruct H as [H|H];
    destruct H as (a & b & c & d & e & f & g & h & i & j & -> & Hd & Hp & Hq);
    repeat match goal with
           | H : all_digits (_ :: _) |- _ => inversion H; subst; clear H
           | H : Forall _ (_ :: _) |- _ => inversion H; subst; clear H
           end.
  - exists a, b, c, [d; e; f; g; h; i; j]. repeat split; auto.
    exists [d], e, [f; g; h; i; j]. split; [reflexivity|assumption].
  - exists a, b, c, [d; e; f; g; h; i; j]. repeat split; auto.
    exists [d; e], f, [g; h; i; j]. split; [reflexivity|assumption].
Qed.
Lemma date_sep_plain (p : ascii) :
  date_sep p ->
  is_digit p = false /\ (p =? ".")%char = false
  /\ (p =? "e")%char || (p =? "E")%char = false.
Proof. intros [->| ->]; repeat split; reflexivity. Qed.

Lemma date_is_nothing_else (s : list ascii) :
  is_date s = true ->
  is_bool s = false /\ is_currency s = false /\ is_int64 s = false
  /\ is_float64 s = false.
Proof.
  intros H.
  assert (Hcur : is_currency s = false).
  { destruct (is_currency s) eqn:E; [|reflexivity].
    apply is_currency_true in E as (lead & sg & b & -> & _).
    apply date_starts_with_digits in H
      as (c0 & c1 & c2 & r & [= <- _] & Hd & _).
    discriminate Hd. }
  split; [|split; [exact Hcur|]]; clear Hcur;
  apply is_date_true in H;
  destruct H as [H|H];
    destruct H as (a & b & c & d & e & f & g & h & i & j & -> & Hd & Hp & Hq);
    repeat match goal with
           | H : all_digits (_ :: _) |- _ => inversion H; subst; clear H
           | H : Forall _ (_ :: _) |- _ => inversion H; subst; clear H
           end;
    try reflexivity.
  - destruct (date_sep_plain e Hp) as (Hpd & Hpp & Hpe).
    unfold is_int64, is_float64, skip_sign.
    rewrite (proj1 (is_digit_plain a ltac:(assumption))).
    split.
    + cbn [forallb]. rewrite Hpd.
      repeat match goal with H : is_digit _ = true |- _ => rewrite H; clear H
             end. reflexivity.
    + rewrite !float_mantissa_digit by assumption.
      cbn [float_mantissa]. now rewrite Hpp, Hpd, Hpe.
  - destruct (date_sep_plain c Hp) as (Hpd & Hpp & Hpe).
    unfold is_int64, is_float64, skip_sign.
    rewrite (proj1 (is_digit_plain a ltac:(assumption))).
    split.
    + cbn [forallb]. rewrite Hpd.
      repeat match goal with H : is_digit _ = true |- _ => rewrite H; clear H
             end. reflexivity.
    + rewrite !float_mantissa_digit by assumption.
      cbn [float_mantissa]. now rewrite Hpp, Hpd, Hpe.
Qed.

Lemma currency_is_nothing_else (s : list ascii) :
  is_currency s = true ->
  is_bool s = false /\ is_int64 s = false /\ is_float64 s = false.
Proof.
  intros H. pose proof H as Hshape.
  apply is_currency_true in Hshape as (lead & sg & b & -> & _).
  split; [|split; reflexivity].
  destruct (is_bool (DOLLAR :: lead ++ sg ++ b)) eqn:E; [|reflexivity].
  apply is_bool_number_start in E as [E|E]; try discriminate E.
  unfold number_start. auto.
Qed.

Lemma bool_and_number (s : list ascii) :
  is_bool s = true ->
  (exists c r, s = c :: r /\ number_start c) ->
  s = str "0" \/ s = str "1".
Proof.
  intros Hb (c & r & -> & Hc). now apply is_bool_number_start.
Qed.

(** X11. No text satisfies two of the five typed predicates, except the
    texts [0] and [1], which are both Bool and Int64: the order in which
    [infer_schema] tries the predicates decides the type of a value only
    for these two. *)
Theorem one_value_one_type (s : list ascii) :
  is_bool s && is_currency s = false
  /\ is_bool s && is_date s = false
  /\ is_bool s && is_float64 s = false
  /\ is_currency s && is_date s = false
  /\ is_currency s && is_int64 s = false
  /\ is_currency s && is_float64 s = false
  /\ is_date s && is_int64 s = false
  /\ is_date s && is_float64 s = false
  /\ is_int64 s && is_float64 s = false
  /\ (is_bool s && is_int64 s = true <-> s = str "0" \/ s = str "1").
Proof.
  assert (Hdate : is_date s = true -> _) by apply date_is_nothing_else.
  assert (Hcur : is_currency s = true -> _) by apply currency_is_nothing_else.
  assert (Hbf : is_bool s && is_float64 s = false).
  { destruct (is_bool s) eqn:Eb; [|reflexivity].
    destruct (is_float64 s) eqn:Ef; [|reflexivity].
    destruct (bool_and_number s Eb (is_float64_number_start s Ef)) as [->| ->];
      discriminate Ef. }
  assert (Hif : is_int64 s && is_float64 s = false).
  { destruct (is_int64 s) eqn:Ei; [|reflexivity]. cbn [andb].
    unfold is_int64 in Ei. unfold is_float64.
    destruct s as [|c r]; [reflexivity|].
    destruct (skip_sign (c :: r)); [reflexivity|].
    now apply float_mantissa_digits. }
  destruct (is_date s) eqn:Ed;
    [destruct (Hdate eq_refl) as (-> & -> & -> & ->)|];
    destruct (is_currency s) eqn:Ec;
    try (destruct (Hcur eq_refl) as (Hb & Hi & Hf); rewrite ?Hb, ?Hi, ?Hf);
    rewrite ?andb_false_r; cbn [andb];
    repeat (split; [first [reflexivity|assumption]|]);
    try (split; [discriminate|intros [->| ->]; discriminate]).
  split.
  - intros H. apply andb_prop in H as [Hb Hi].
    exact (bool_and_number s Hb (is_int64_number_start s Hi)).
  - intros [->| ->]; reflexivity.
Qed.

(** ** Type inference: the schema as a whole *)

Lemma map_seq_nth {A B : Type} (f : A -> B) (l : list A) (d : A) :
  map (fun i => f (nth i l d)) (seq 0 (length l)) = map f l.
Proof.
  induction l as [|x l IH]; [reflexivity|].
  cbn [length seq map nth]. f_equal.
  rewrite <- seq_shift, map_map. exact IH.
Qed.

Lemma infer_column_name (reader : CsvReader) (nrows col : nat) :
  name (infer_column reader nrows col)
  = unquote (text_of reader (nth col (headers reader) NullView)).
Proof.
  unfold infer_column. destruct (nrows =? 0); [reflexivity|].
  destruct (sample_loop reader col nrows 0 [] []) as [[|v vs] us];
    reflexivity.
Qed.

Lemma parse_header_ncols (r : CsvReader) (d : ascii) :
  ncols_ (fst (parse_header (clear r) d))
  = length (headers_ (fst (parse_header (clear r) d))).
Proof.
  unfold parse_header. destruct (file_size_ (clear r) =? 0); reflexivity.
Qed.

Lemma parse_ncols_headers (r : CsvReader) (d : ascii) :
  ncols_ (parse r d) = length (headers_ (parse r d)).
Proof.
  unfold parse. pose proof (parse_header_ncols r d) as H.
  destruct (parse_header (clear r) d) as [r' pos]. cbn [fst] in H.
  destruct (ncols_ r' =? 0); exact H.
Qed.

Lemma parse_head_ncols_headers (arm_neon : bool) (r : CsvReader) (d : ascii)
      (max_rows : nat) :
  ncols_ (parse_head arm_neon r d max_rows)
  = length (headers_ (parse_head arm_neon r d max_rows)).
Proof.
  unfold parse_head. pose proof (parse_header_ncols r d) as H.
  destruct (parse_header (clear r) d) as [r' pos]. cbn [fst] in H.
  destruct (ncols_ r' =? 0); exact H.
Qed.

Lemma infer_schema_names (reader : CsvReader) (sample_size : nat) :
  column_count reader = length (headers reader) ->
  map name (infer_schema reader sample_size) = header_names reader
  /\ length (infer_schema reader sample_size) = column_count reader.
Proof.
  intros Hn. unfold infer_schema. split.
  - rewrite map_map, Hn.
    rewrite (map_ext _ (fun col => unquote (text_of reader
                                      (nth col (headers reader) NullView))))
      by (intros col; apply infer_column_name).
    apply (map_seq_nth (fun h => unquote (text_of reader h))).
  - now rewrite length_map, length_seq.
Qed.

(** X12. The schema is aligned with the header: after a full parse or a
    head parse, [infer_schema] returns one entry per column, in column
    order, each named by the unquoted header of its column, whatever the
    sample size. *)
Theorem schema_follows_headers
        (arm_neon : bool) (r : CsvReader) (d : ascii)
        (max_rows sample_size : nat) :
  let t := parse r d in
  let h := parse_head arm_neon r d max_rows in
  map name (infer_schema t sample_size) = header_names t
  /\ length (infer_schema t sample_size) = column_count t
  /\ map name (infer_schema h sample_size) = header_names t
  /\ length (infer_schema h sample_size) = column_count t.
Proof.
  cbv zeta.
  destruct (infer_schema_names (parse r d) sample_size
              (parse_ncols_headers r d)) as [H1 H2].
  destruct (infer_schema_names (parse_head arm_neon r d max_rows) sample_size
              (parse_head_ncols_headers arm_neon r d max_rows)) as [H3 H4].
  destruct (parse_head_rows_prefix arm_neon r d max_rows) as [Hn _].
  repeat split; try assumption.
  - rewrite H3. unfold header_names, headers, text_of.
    rewrite parse_head_headers.
    destruct (parse_table r d) as [-> _].
    destruct (parse_head_table arm_neon r d max_rows) as [-> _].
    reflexivity.
  - rewrite H4. exact Hn.
Qed.

Lemma set_insert_spec (val : list ascii) (s : list (list ascii)) :
  NoDup s ->
  NoDup (set_insert val s)
  /\ forall x, In x (set_insert val s) <-> In x s \/ x = val.
Proof.
  intros Hs. unfold set_insert.
  destruct (existsb (str_eqb val) s) eqn:E.
  - split; [assumption|]. intros x. split; [auto|].
    intros [Hx| ->]; [assumption|].
    apply existsb_exists in E as (y & Hy & Hyv).
    apply str_eqb_eq in Hyv. now subst.
  - split.
    + apply NoDup_app; [assumption|repeat constructor; intros []|].
      intros x Hx [Hv|[]]. subst x.
      assert (Ht : existsb (str_eqb val) s = true).
      { apply existsb_exists. exists val. split; [assumption|].
        now apply str_eqb_eq. }
      congruence.
    + intros x. rewrite in_app_iff. cbn. intuition.
Qed.

Lemma sample_loop_distinct (reader : CsvReader) (col n r : nat)
      (values : list string_view) (uniq : list (list ascii)) :
  let txt := fun v => unquote (text_of reader v) in
  NoDup uniq ->
  (forall x, In x uniq <-> In x (map txt values)) ->
  let '(vs, us) := sample_loop reader col n r values uniq in
  NoDup us /\ forall x, In x us <-> In x (map txt vs).
Proof.
  cbv zeta. revert r values uniq.
  induction n as [|n IH]; intros r values uniq Hnd Hin; cbn [sample_loop].
  - split; assumption.
  - destruct (col <? ncols_ reader); [|now apply IH].
    destruct (negb (is_empty _)); [|now apply IH].
    destruct (set_insert_spec
                (unquote (text_of reader (nth col (row reader r) NullView)))
                uniq Hnd) as [Hnd' Hin'].
    apply IH; [assumption|].
    intros x. rewrite Hin', map_app, in_app_iff, Hin. cbn.
    intuition.
Qed.

Lemma sample_loop_distinct_count (reader : CsvReader) (col n : nat) :
  let '(vs, us) := sample_loop reader col n 0 [] [] in
  length us
  = length (nodup (list_eq_dec ascii_dec)
                  (map (fun v => unquote (text_of reader v)) vs)).
Proof.
  pose proof (sample_loop_distinct reader col n 0 [] []
                (NoDup_nil _) ltac:(intros x; reflexivity)) as H.
  destruct (sample_loop reader col n 0 [] []) as [vs us].
  destruct H as [Hnd Hin].
  apply Permutation_length, NoDup_Permutation;
    [assumption|apply NoDup_nodup|].
  intros x. rewrite Hin. symmetry. apply nodup_In.
Qed.

(** X13. A column that fits no typed predicate is Enum or Text by the
    number of its distinct values alone: with [vs] the sampled non-empty
    unquoted values, it is Enum when fewer than [max 2 (|vs| / 10)] of
    them are distinct and Text otherwise.  A column with no sampled value
    at all is Text. *)
Theorem untyped_column_is_enum_or_text
        (reader : CsvReader) (sample_size col : nat) :
  col < column_count reader ->
  let vs := sampled_values reader sample_size col in
  let ty := type (nth col (infer_schema reader sample_size) no_schema) in
  (vs = [] -> ty = Text)
  /\ (~ Forall (fun s => is_bool s = true) vs ->
      ~ Forall (fun s => is_currency s = true) vs ->
      ~ Forall (fun s => is_date s = true) vs ->
      ~ Forall (fun s => is_int64 s = true) vs ->
      ~ Forall (fun s => is_float64 s = true) vs ->
      ty = if length (nodup (list_eq_dec ascii_dec) vs)
              <? Nat.max 2 (length vs / 10)
           then Enum else Text).
Proof.
  intros Hcol vs ty. subst vs ty.
  rewrite infer_schema_nth by exact Hcol.
  unfold sampled_values, infer_column.
  set (nrows := Nat.min (row_count reader) sample_size).
  pose proof (sample_loop_distinct_count reader col nrows) as Hcount.
  destruct (sample_loop reader col nrows 0 [] []) as [values uniq] eqn:Hs.
  cbn [fst]. split.
  - intros Hnil. apply map_eq_nil in Hnil. subst values.
    destruct (nrows =? 0); reflexivity.
  - intros Hb Hc Hd Hi Hf.
    destruct (Nat.eqb_spec nrows 0) as [E|_].
    { exfalso. apply Hb. rewrite E in Hs. cbn in Hs.
      injection Hs as <- <-. constructor. }
    destruct values as [|v values']; [exfalso; apply Hb; constructor|].
    cbn [type]. unfold detect_type.
    rewrite (all_match_false _ _ _ Hb), (all_match_false _ _ _ Hc),
      (all_match_false _ _ _ Hd), (all_match_false _ _ _ Hi),
      (all_match_false _ _ _ Hf).
    rewrite Hcount, length_map. reflexivity.
Qed.

Lemma untyped_column_is_enum_or_text_witness :
  type (nth 0 (infer_schema (parse (open two_values_csv) ",") 100) no_schema)
  = Enum.
Proof.
  assert (Hvs : sampled_values (parse (open two_values_csv) ",") 100 0
                = concat (repeat [str "A"; str "B"] 15))
    by (vm_compute; reflexivity).
  assert (Hcol : 0 < column_count (parse (open two_values_csv) ","))
    by (vm_compute; lia).
  destruct (untyped_column_is_enum_or_text
              (parse (open two_values_csv) ",") 100 0 Hcol) as [_ H].
  cbv zeta in H. rewrite Hvs in H.
  apply H; not_all_by_head.
Defined.

(** ** Column names that do not resolve, and those that do *)

Lemma find_header_none (names : list (list ascii)) (wanted : list ascii)
      (k : nat) :
  find_header names wanted k = None <-> ~ In wanted names.
Proof.
  revert k. induction names as [|h rest IH]; intros k; cbn [find_header In].
  - split; [intros _ []|reflexivity].
  - destruct (str_eqb h wanted) eqn:E.
    + apply str_eqb_eq in E. split; [discriminate|]. intros Hn.
      exfalso. apply Hn. now left.
    + rewrite IH. split.
      * intros Hn [Hh|Hin]; [|contradiction].
        apply str_eqb_eq in Hh. congruence.
      * intros Hn Hin. apply Hn. now right.
Qed.

Lemma find_header_first (names : list (list ascii)) (wanted : list ascii)
      (k i : nat) :
  find_header names wanted k = Some i ->
  k <= i < k + length names
  /\ nth (i - k) names [] = wanted
  /\ forall j, j < i - k -> nth j names [] <> wanted.
Proof.
  revert k. induction names as [|h rest IH]; intros k; cbn [find_header];
    [discriminate|].
  destruct (str_eqb h wanted) eqn:E.
  - intros [= <-]. apply str_eqb_eq in E. rewrite Nat.sub_diag.
    cbn [length nth]. split; [lia|]. split; [assumption|].
    intros j Hj. lia.
  - intros Hf. destruct (IH (S k) Hf) as (Hb & Hn & Hfirst).
    cbn [length]. split; [lia|].
    replace (i - k) with (S (i - S k)) by lia. cbn [nth].
    split; [assumption|].
    intros [|j] Hj; cbn [nth].
    + intros Hh. apply str_eqb_eq in Hh. congruence.
    + apply Hfirst. lia.
Qed.

Section Unresolved.
Context {D : DoubleOps}.
Variable stod : list ascii -> option double.

Lemma resolve_filters_app (reader : CsvReader) (schema : list ColumnSchema)
      (ci : bool) (fs : list Filter) (acc : list ResolvedFilter) :
  resolve_filters reader schema ci fs acc
  = match resolve_filters reader schema ci fs [] with
    | inl e => inl e
    | inr out => inr (acc ++ out)
    end.
Proof.
  revert acc. induction fs as [|f rest IH]; intros acc;
    cbn [resolve_filters].
  - now rewrite app_nil_r.
  - destruct (find_header _ _ 0) as [i|]; [|reflexivity].
    rewrite (IH (acc ++ _)), (IH ([] ++ _)).
    destruct (resolve_filters reader schema ci rest []); [reflexivity|].
    now rewrite <- app_assoc.
Qed.

Lemma resolve_filters_concat (reader : CsvReader)
      (schema : list ColumnSchema) (ci : bool) (fs1 fs2 : list Filter) :
  resolve_filters reader schema ci (fs1 ++ fs2) []
  = match resolve_filters reader schema ci fs1 [] with
    | inl e => inl e
    | inr out1 =>
        match resolve_filters reader schema ci fs2 [] with
        | inl e => inl e
        | inr out2 => inr (out1 ++ out2)
        end
    end.
Proof.
  induction fs1 as [|f rest IH]; cbn [app resolve_filters].
  - destruct (resolve_filters reader schema ci fs2 []); reflexivity.
  - destruct (find_header _ _ 0) as [i|]; [|reflexivity].
    rewrite (resolve_filters_app _ _ _ (rest ++ fs2)), IH.
    rewrite (resolve_filters_app _ _ _ rest (_ :: _)).
    destruct (resolve_filters reader schema ci rest []); [reflexivity|].
    destruct (resolve_filters reader schema ci fs2 []); [reflexivity|].
    now rewrite app_assoc.
Qed.

(** X14. A name that matches no header is reported, not ignored: the
    first filter whose column resolves to no header makes [apply_filters]
    raise, under AND and under OR alike, with that filter's column as it
    was written and the unquoted names of all headers; and [sort_indices]
    raises the same for a sort column that is no header (this lookup is
    always case-sensitive). *)
Theorem unknown_column_is_reported
        (reader : CsvReader) (schema : list ColumnSchema) :
  (forall (ci or_logic : bool) (found : list Filter) (f : Filter)
          (rest : list Filter),
      Forall (fun g => In (lookup_key ci g) (lookup_names ci reader)) found ->
      ~ In (lookup_key ci f) (lookup_names ci reader) ->
      apply_filters stod (found ++ f :: rest) reader schema ci or_logic
      = inl (UnknownColumn (column f) (header_names reader)))
  /\ (forall (stable_sort : (nat -> nat -> bool) -> list nat -> list nat)
             (indices : list nat) (col_name : list ascii)
             (descending : bool),
         ~ In col_name (header_names reader) ->
         sort_indices stod stable_sort indices reader schema col_name
                      descending
         = inl (UnknownColumn col_name (header_names reader))).
Proof.
  split.
  - intros ci or_logic found f rest Hfound Hf. unfold apply_filters.
    rewrite resolve_filters_concat.
    destruct (resolve_filters_total reader schema ci found []) as [out ->].
    { intros g Hg. rewrite Forall_forall in Hfound.
      rewrite find_header_none. intros Hn. apply Hn, Hfound, Hg. }
    cbn [resolve_filters]. fold (lookup_key ci f).
    fold (lookup_names ci reader).
    apply (find_header_none _ _ 0) in Hf. now rewrite Hf.
  - intros stable_sort indices col_name descending Hn. unfold sort_indices.
    apply (find_header_none _ _ 0) in Hn. now rewrite Hn.
Qed.

Lemma all_matches_app (reader : CsvReader) (rw : list string_view)
      (ci : bool) (l1 l2 : list ResolvedFilter) :
  all_matches stod reader rw ci (l1 ++ l2)
  = all_matches stod reader rw ci l1 && all_matches stod reader rw ci l2.
Proof.
  induction l1 as [|rf l1 IH]; cbn [app all_matches]; [reflexivity|].
  destruct (row_matches _ _ _ _ _ _ _ _); cbn [negb]; [exact IH|reflexivity].
Qed.

Lemma any_matches_app (reader : CsvReader) (rw : list string_view)
      (ci : bool) (l1 l2 : list ResolvedFilter) :
  any_matches stod reader rw ci (l1 ++ l2)
  = any_matches stod reader rw ci l1 || any_matches stod reader rw ci l2.
Proof.
  induction l1 as [|rf l1 IH]; cbn [app any_matches]; [reflexivity|].
  destruct (row_matches _ _ _ _ _ _ _ _); [reflexivity|exact IH].
Qed.

(** X15. Filters compose by their lists: when two lists of filters each
    resolve, their concatenation resolves too, and it selects under AND
    exactly the rows both lists select, under OR exactly the rows either
    selects.  With the ascending order of every result this fixes the
    combined result. *)
Theorem apply_filters_concatenation
        (reader : CsvReader) (schema : list ColumnSchema) (ci or_logic : bool)
        (fs1 fs2 : list Filter) (rows1 rows2 : list nat) :
  apply_filters stod fs1 reader schema ci or_logic = inr rows1 ->
  apply_filters stod fs2 reader schema ci or_logic = inr rows2 ->
  exists rows,
    apply_filters stod (fs1 ++ fs2) reader schema ci or_logic = inr rows
    /\ StronglySorted lt rows
    /\ forall r, In r rows <->
                 if or_logic then In r rows1 \/ In r rows2
                 else In r rows1 /\ In r rows2.
Proof.
  unfold apply_filters. rewrite resolve_filters_concat.
  destruct (resolve_filters reader schema ci fs1 []) as [|res1];
    [discriminate|].
  destruct (resolve_filters reader schema ci fs2 []) as [|res2];
    [discriminate|].
  intros [= <-] [= <-]. eexists. split; [reflexivity|].
  destruct (filter_rows_spec stod reader res1 ci or_logic
              (row_count reader) 0 []) as (_ & _ & H1);
    [constructor|constructor|].
  destruct (filter_rows_spec stod reader res2 ci or_logic
              (row_count reader) 0 []) as (_ & _ & H2);
    [constructor|constructor|].
  destruct (filter_rows_spec stod reader (res1 ++ res2) ci or_logic
              (row_count reader) 0 []) as (Hs & _ & H3);
    [constructor|constructor|].
  split; [exact Hs|]. intros r. unfold row_passes in *.
  destruct or_logic; rewrite H3, H1, H2; cbn [In].
  - rewrite any_matches_app, orb_true_iff. tauto.
  - rewrite all_matches_app, andb_true_iff. tauto.
Qed.
End Unresolved.

Lemma unknown_column_is_reported_witness :
  @apply_filters ExactOps stod_integral
                 [age_over_30; mkFilter (str "salary") Gt (str "1")]
                 (parse (open ages_csv) ",") ages_schema false false
  = inl (UnknownColumn (str "salary") [str "name"; str "age"]).
Proof.
  apply (proj1 (@unknown_column_is_reported ExactOps stod_integral
                  (parse (open ages_csv) ",") ages_schema)
               false false [age_over_30]
               (mkFilter (str "salary") Gt (str "1")) []).
  - constructor; [|constructor]. vm_compute. auto.
  - vm_compute. intuition discriminate.
Defined.

Lemma apply_filters_concatenation_witness :
  exists rows,
    @apply_filters ExactOps stod_integral
                   [age_over_30; mkFilter (str "name") Eq (str "Carol")]
                   (parse (open ages_csv) ",") ages_schema false false
    = inr rows
    /\ forall r, In r rows <-> In r [1; 2] /\ In r [2].
Proof.
  destruct (@apply_filters_concatenation ExactOps stod_integral
              (parse (open ages_csv) ",") ages_schema false false
              [age_over_30] [mkFilter (str "name") Eq (str "Carol")]
              [1; 2] [2])
    as (rows & Hrows & _ & Hin).
  - vm_compute. reflexivity.
  - vm_compute. reflexivity.
  - exists rows. split; [exact Hrows|exact Hin].
Defined.

(** ** Column selection: what the indices are *)

Lemma find_header_first_of_its_name (names : list (list ascii))
      (wanted : list ascii) (i : nat) :
  find_header names wanted 0 = Some i ->
  first_of_its_name names i /\ nth i names [] = wanted.
Proof.
  intros Hf. destruct (find_header_first names wanted 0 i Hf)
    as (Hb & Hn & Hfirst).
  rewrite Nat.sub_0_r in *. split; [|assumption].
  split; [lia|]. intros j Hj. rewrite Hn. now apply Hfirst.
Qed.

Lemma find_first_not_of_bounds (s : list ascii) (c : ascii) (i p : nat) :
  find_first_not_of s c i = Some p -> i <= p < i + length s.
Proof.
  revert i. induction s as [|x r IH]; intros i; cbn [find_first_not_of];
    [discriminate|].
  destruct (x =? c)%char.
  - intros H. apply IH in H. cbn [length]. lia.
  - intros [= <-]. cbn [length]. lia.
Qed.

Lemma substr_nonempty (s : list ascii) (pos n : nat) :
  pos < length s -> substr s pos (n + 1) <> [].
Proof.
  intros Hp. unfold substr. rewrite (skipn_at s pos Hp).
  replace (n + 1) with (S n) by lia. discriminate.
Qed.

Lemma resolve_loop_indices (names : list (list ascii)) (fuel : nat)
      (ss : list ascii) (acc : list nat) :
  Forall (first_of_its_name names) acc ->
  match resolve_loop names fuel ss acc with
  | inr out => Forall (first_of_its_name names) out
               /\ length acc <= length out
  | inl e => exists token,
               e = UnknownColumn token names /\ ~ In token names
               /\ token <> []
  end.
Proof.
  revert ss acc. induction fuel as [|fuel IH]; intros ss acc Hacc;
    cbn [resolve_loop]; [auto|].
  destruct ss as [|c r]; [auto|].
  destruct (getline (c :: r) COMMA) as [token ss'].
  destruct (find_first_not_of token SPACE 0) as [start|] eqn:Hstart;
    [|now apply IH].
  set (tok := substr token start _).
  destruct (find_header names tok 0) as [i|] eqn:Hf.
  - specialize (IH ss' (acc ++ [i])).
    destruct (resolve_loop names fuel ss' (acc ++ [i])).
    + apply IH. apply Forall_app. split; [assumption|].
      constructor; [|constructor].
      now apply (find_header_first_of_its_name names tok).
    + destruct IH as [Hall Hlen].
      * apply Forall_app. split; [assumption|].
        constructor; [|constructor].
        now apply (find_header_first_of_its_name names tok).
      * split; [assumption|]. rewrite length_app in Hlen. cbn in Hlen. lia.
  - exists tok. split; [reflexivity|].
    split; [now apply (find_header_none names tok 0)|].
    apply substr_nonempty.
    apply find_first_not_of_bounds in Hstart. lia.
Qed.

(** X16. The indices [resolve_columns] returns are valid and canonical:
    there is at least one, each is the index of a header, and of headers
    that share a name each is the first.  When it raises for a name, that
    name is not empty and is no header. *)
Theorem resolve_columns_indices (select_str : list ascii)
        (reader : CsvReader) :
  match resolve_columns select_str reader with
  | inr indices =>
      indices <> []
      /\ Forall (first_of_its_name (header_names reader)) indices
  | inl NoColumnsSelected => True
  | inl (UnknownColumn token available) =>
      available = header_names reader
      /\ ~ In token available /\ token <> []
  end.
Proof.
  unfold resolve_columns.
  pose proof (resolve_loop_indices (header_names reader) (length select_str)
                select_str [] (Forall_nil _)) as H.
  destruct (resolve_loop (header_names reader) (length select_str)
                         select_str []) as [e|[|i out]].
  - destruct H as (token & -> & Hn & Hne). auto.
  - exact I.
  - split; [discriminate|apply H].
Qed.

(** ** Ordering and matching of texts *)

Lemma code_inj (x y : ascii) : code x = code y -> x = y.
Proof.
  unfold code. intros H.
  rewrite <- (ascii_nat_embedding x), <- (ascii_nat_embedding y).
  now rewrite H.
Qed.

Lemma str_ltb_irrefl (a : list ascii) : str_ltb a a = false.
Proof.
  induction a as [|x a IH]; cbn [str_ltb]; [reflexivity|].
  now rewrite Nat.ltb_irrefl.
Qed.

Lemma str_ltb_trans (a b c : list ascii) :
  str_ltb a b = true -> str_ltb b c = true -> str_ltb a c = true.
Proof.
  revert b c. induction a as [|x a IH]; intros [|y b] [|z c];
    cbn [str_ltb]; try discriminate; try reflexivity.
  destruct (Nat.ltb_spec (code x) (code y)) as [Hxy|Hxy];
    destruct (Nat.ltb_spec (code y) (code z)) as [Hyz|Hyz];
    destruct (Nat.ltb_spec (code x) (code z)) as [Hxz|Hxz];
    try reflexivity; try lia;
    destruct (Nat.ltb_spec (code y) (code x)) as [Hyx|Hyx];
    destruct (Nat.ltb_spec (code z) (code y)) as [Hzy|Hzy];
    destruct (Nat.ltb_spec (code z) (code x)) as [Hzx|Hzx];
    try discriminate; try lia.
  apply IH.
Qed.

Lemma str_ltb_connected (a b : list ascii) :
  str_ltb a b = false -> str_ltb b a = false -> a = b.
Proof.
  revert b. induction a as [|x a IH]; intros [|y b]; cbn [str_ltb];
    try discriminate; [reflexivity|].
  destruct (Nat.ltb_spec (code x) (code y)) as [Hxy|Hxy]; [discriminate|].
  destruct (Nat.ltb_spec (code y) (code x)) as [Hyx|Hyx]; [discriminate|].
  intros H1 H2. f_equal; [apply code_inj; lia|now apply IH].
Qed.

Section SortOrder.
Context {D : DoubleOps}.
Variable stod : list ascii -> option double.

(** X17. On a column that is not numeric the comparator [sort_indices]
    hands to [std::stable_sort] is a strict total order of the unquoted
    cells, compared byte by byte as unsigned characters: it is
    irreflexive and transitive, two rows that it does not order either
    way have the same cell, and descending order is its converse. *)
Theorem sort_comparator_orders_text
        (reader : CsvReader) (col : nat) (descending : bool) :
  let less := sort_less stod reader col false descending in
  (forall a, less a a = false)
  /\ (forall a b c, less a b = true -> less b c = true -> less a c = true)
  /\ (forall a b, less a b = false -> less b a = false ->
                  sort_key reader col a = sort_key reader col b)
  /\ (forall a b, sort_less stod reader col false true a b
                  = sort_less stod reader col false false b a).
Proof.
  cbv zeta. unfold sort_less. repeat split.
  - intros a. destruct descending; apply str_ltb_irrefl.
  - intros a b c. destruct descending; intros H1 H2.
    + exact (str_ltb_trans _ _ _ H2 H1).
    + exact (str_ltb_trans _ _ _ H1 H2).
  - intros a b. destruct descending; intros H1 H2.
    + exact (str_ltb_connected _ _ H2 H1).
    + exact (str_ltb_connected _ _ H1 H2).
Qed.
End SortOrder.

Lemma sort_comparator_orders_text_witness :
  let reader := parse (open people_csv) "," in
  @sort_less ExactOps stod_integral reader 0 false false 0 1 = true
  /\ @sort_less ExactOps stod_integral reader 0 false false 1 0 = false.
Proof.
  cbv zeta.
  assert (H : @sort_less ExactOps stod_integral (parse (open people_csv) ",")
                         0 false false 0 1 = true)
    by (vm_compute; reflexivity).
  split; [exact H|].
  pose proof (@sort_comparator_orders_text ExactOps stod_integral
                (parse (open people_csv) ",") 0 false) as (Hirr & Htr & _).
  destruct (@sort_less ExactOps stod_integral (parse (open people_csv) ",")
                       0 false false 1 0) eqn:E; [|reflexivity].
  rewrite <- (Hirr 0). symmetry. exact (Htr 0 1 0 H E).
Defined.

Lemma compare_at_occurrence (a b : list ascii) (p : nat) :
  compare_at a p (length b) b = true <->
  exists post, skipn p a = b ++ post.
Proof.
  unfold compare_at. rewrite str_eqb_eq. split.
  - intros H. exists (skipn (length b) (skipn p a)).
    rewrite <- H at 1. symmetry. apply firstn_skipn.
  - intros [post ->]. rewrite firstn_app, Nat.sub_diag, firstn_all.
    cbn. apply app_nil_r.
Qed.

Lemma find_from_occurrence (a b : list ascii) (n pos : nat) :
  find_from a b n pos = true <->
  exists p, pos <= p < pos + n /\ compare_at a p (length b) b = true.
Proof.
  revert pos. induction n as [|n IH]; intros pos; cbn [find_from].
  - split; [discriminate|]. intros (p & Hp & _). lia.
  - rewrite orb_true_iff, IH. split.
    + intros [H|(p & Hp & H)]; [exists pos|exists p]; split; auto; lia.
    + intros (p & Hp & H). destruct (Nat.eq_dec p pos) as [->|Hne];
        [now left|]. right. exists p. split; [lia|assumption].
Qed.

Lemma str_contains_infix (a b : list ascii) :
  str_contains a b = true <-> exists pre post, a = pre ++ b ++ post.
Proof.
  unfold str_contains. split.
  - destruct (length a <? length b); [discriminate|].
    rewrite find_from_occurrence. intros (p & _ & H).
    apply compare_at_occurrence in H as [post H].
    exists (firstn p a), post. rewrite <- H. symmetry. apply firstn_skipn.
  - intros (pre & post & ->).
    rewrite !length_app.
    destruct (Nat.ltb_spec (length pre + (length b + length post))
                           (length b)); [lia|].
    apply find_from_occurrence. exists (length pre). split; [lia|].
    apply compare_at_occurrence. exists post.
    rewrite skipn_app, Nat.sub_diag, skipn_all. reflexivity.
Qed.

(** X18. The three text operators are what their names say, on the two
    texts as they are or, when case is ignored, on both lowered:
    [starts_with] holds exactly when the value is a prefix of the cell,
    [ends_with] exactly when it is a suffix, [contains] exactly when it
    occurs in it.  In particular the empty value matches every cell. *)
Theorem text_operators_match_substrings
        (cell v : list ascii) (ci : bool) :
  let a := if ci then to_lower cell else cell in
  let b := if ci then to_lower v else v in
  (compare_strings cell StartsWith v ci = true <-> exists post, a = b ++ post)
  /\ (compare_strings cell EndsWith v ci = true <-> exists pre, a = pre ++ b)
  /\ (compare_strings cell Contains v ci = true <->
      exists pre post, a = pre ++ b ++ post).
Proof.
  cbv zeta. unfold compare_strings.
  set (a := if ci then to_lower cell else cell).
  set (b := if ci then to_lower v else v).
  split; [|split].
  - rewrite andb_true_iff, compare_at_occurrence. cbn [skipn]. split.
    + intros [_ H]. exact H.
    + intros [post H]. split; [|eauto].
      apply Nat.leb_le. rewrite H, length_app. lia.
  - rewrite andb_true_iff, compare_at_occurrence, Nat.leb_le. split.
    + intros [Hl [post H]]. exists (firstn (length a - length b) a).
      assert (Hp : post = []).
      { apply (f_equal (@length _)) in H.
        rewrite length_skipn, length_app in H.
        apply length_zero_iff_nil. lia. }
      subst post. rewrite app_nil_r in H.
      rewrite <- (firstn_skipn (length a - length b) a) at 1.
      now rewrite H.
    + intros [pre H]. split; [rewrite H, length_app; lia|].
      exists []. rewrite H, length_app, app_nil_r.
      replace (length pre + length b - length b) with (length pre) by lia.
      rewrite skipn_app, Nat.sub_diag, skipn_all. reflexivity.
  - apply str_contains_infix.
Qed.

(** ** Filter expressions *)

Lemma drop_spaces_spec (s : list ascii) :
  exists k, s = repeat SPACE k ++ drop_spaces s
            /\ hd zero (drop_spaces s) <> SPACE.
Proof.
  induction s as [|c r IH]; cbn [drop_spaces].
  - exists 0. split; [reflexivity|discriminate].
  - destruct (Ascii.eqb_spec c SPACE) as [->|Hc].
    + destruct IH as (k & Hk & Hh). exists (S k). cbn [repeat app].
      split; [now rewrite <- Hk|assumption].
    + exists 0. split; [reflexivity|assumption].
Qed.

Lemma drop_spaces_id (s : list ascii) :
  hd zero s <> SPACE -> drop_spaces s = s.
Proof.
  destruct s as [|c r]; [reflexivity|]. cbn [hd drop_spaces]. intros Hc.
  apply Ascii.eqb_neq in Hc. now rewrite Hc.
Qed.

Lemma drop_spaces_repeat (k : nat) (s : list ascii) :
  drop_spaces (repeat SPACE k ++ s) = drop_spaces s.
Proof. induction k as [|k IH]; [reflexivity|exact IH]. Qed.

Lemma hd_rev (s : list ascii) : hd zero (rev s) = last s zero.
Proof.
  induction s as [|c r IH] using rev_ind; [reflexivity|].
  now rewrite rev_unit, last_last.
Qed.

Lemma last_rev (s : list ascii) : last (rev s) zero = hd zero s.
Proof. rewrite <- hd_rev. now rewrite rev_involutive. Qed.

Lemma rev_repeat_space (k : nat) : rev (repeat SPACE k) = repeat SPACE k.
Proof.
  induction k as [|k IH]; [reflexivity|].
  cbn [repeat rev]. rewrite IH. symmetry. apply (repeat_cons k SPACE).
Qed.

(** What [trim] returns: the text between the leading and the trailing
    spaces, itself without a space at either end. *)
Lemma trim_spec (s : list ascii) :
  exists k1 k2,
    s = repeat SPACE k1 ++ trim s ++ repeat SPACE k2 /\ trimmed (trim s).
Proof.
  unfold trim.
  destruct (drop_spaces_spec s) as (k1 & H1 & Hh1).
  destruct (drop_spaces_spec (rev (drop_spaces s))) as (k2 & H2 & Hh2).
  set (t := drop_spaces s) in *.
  set (u := drop_spaces (rev t)) in *.
  assert (Ht : t = rev u ++ repeat SPACE k2).
  { rewrite <- (rev_involutive t), H2, rev_app_distr, rev_repeat_space.
    reflexivity. }
  exists k1, k2. split; [now rewrite <- Ht|].
  split.
  - destruct (rev u) as [|c r] eqn:Eu; [discriminate|].
    rewrite Ht in Hh1. exact Hh1.
  - now rewrite last_rev.
Qed.

Lemma trim_id (s : list ascii) : trimmed s -> trim s = s.
Proof.
  intros [Hh Hl]. unfold trim. rewrite (drop_spaces_id s Hh).
  rewrite drop_spaces_id by (now rewrite hd_rev). apply rev_involutive.
Qed.

Lemma trim_padded (k1 k2 : nat) (s : list ascii) :
  trimmed s -> trim (repeat SPACE k1 ++ s ++ repeat SPACE k2) = s.
Proof.
  intros [Hh Hl]. unfold trim. rewrite drop_spaces_repeat.
  destruct s as [|c r].
  - cbn [app]. rewrite <- (app_nil_r (repeat SPACE k2)).
    rewrite drop_spaces_repeat. reflexivity.
  - rewrite (drop_spaces_id ((c :: r) ++ _)) by exact Hh.
    rewrite rev_app_distr, rev_repeat_space, drop_spaces_repeat.
    rewrite drop_spaces_id by (now rewrite hd_rev).
    apply rev_involutive.
Qed.

Lemma search_ops_result (nexpr : list ascii)
      (wrap : list ascii -> list ascii)
      (tokens : list (list ascii * FilterOp)) (f : Filter) :
  search_ops nexpr wrap tokens = Some (inr f) ->
  exists token pos,
    In (token, op f) tokens
    /\ str_find nexpr (wrap token) = Some pos
    /\ column f = trim (firstn pos nexpr)
    /\ value f = trim (skipn (pos + length (wrap token)) nexpr)
    /\ column f <> [] /\ value f <> [].
Proof.
  induction tokens as [|[token o] rest IH]; cbn [search_ops];
    [discriminate|].
  destruct (str_find nexpr (wrap token)) as [pos|] eqn:Hfind.
  - destruct (is_empty (trim (firstn pos nexpr))) eqn:Ec;
      [discriminate|].
    destruct (is_empty (trim (skipn _ nexpr))) eqn:Ev; [discriminate|].
    cbn [orb]. intros [= <-]. exists token, pos. cbn [column op value].
    split; [now left|]. split; [assumption|].
    split; [reflexivity|]. split; [reflexivity|].
    split; intros E; rewrite E in *; discriminate.
  - intros H. destruct (IH H) as (t & p & Hin & Hrest).
    exists t, p. split; [now right|assumption].
Qed.

Lemma trim_trimmed (s : list ascii) : trimmed (trim s).
Proof. destruct (trim_spec s) as (k1 & k2 & _ & H). exact H. Qed.

Lemma trim_blank (s : list ascii) :
  trim s = [] <-> Forall (eq SPACE) s.
Proof.
  destruct (trim_spec s) as (k1 & k2 & Hs & [Hh Hl]). split.
  - intros E. rewrite Hs, E. cbn [app]. apply Forall_app.
    split; apply Forall_forall; intros x Hx; apply repeat_spec in Hx;
      now subst.
  - intros Hall. destruct (trim s) as [|c r]; [reflexivity|].
    exfalso. apply Hh. cbn [hd]. rewrite Hs in Hall.
    apply Forall_app in Hall as [_ Hall]. inversion Hall; subst.
    reflexivity.
Qed.

(** X19. What [parse_filter] returns is well formed: the column and
    the value are not empty and have no space at either end, and the
    operator is one of the nine.  It raises on a blank expression, and
    only a blank expression is reported as empty. *)
Theorem parse_filter_well_formed (expr : list ascii) :
  (forall f, parse_filter expr = inr f ->
             column f <> [] /\ value f <> []
             /\ trimmed (column f) /\ trimmed (value f)
             /\ (In (token_of (op f), op f) word_op_tokens
                 \/ In (token_of (op f), op f) op_tokens))
  /\ (parse_filter expr = inl EmptyExpression <-> Forall (eq SPACE) expr).
Proof.
  split.
  - intros f. unfold parse_filter.
    destruct (is_empty (trim expr)); [discriminate|].
    destruct (search_ops _ (fun t => SPACE :: t ++ [SPACE]) word_op_tokens)
      as [res|] eqn:Ew.
    + intros ->. apply search_ops_result in Ew
        as (t & p & Hin & _ & Hc & Hv & Hce & Hve).
      split; [assumption|]. split; [assumption|].
      rewrite Hc, Hv. split; [apply trim_trimmed|].
      split; [apply trim_trimmed|]. left.
      cbn in Hin. destruct Hin as [[= <- <-]|[[= <- <-]|[[= <- <-]|[]]]];
        cbn; auto.
    + destruct (search_ops _ (fun t => t) op_tokens) as [res|] eqn:Eo;
        [|discriminate].
      intros ->. apply search_ops_result in Eo
        as (t & p & Hin & _ & Hc & Hv & Hce & Hve).
      split; [assumption|]. split; [assumption|].
      rewrite Hc, Hv. split; [apply trim_trimmed|].
      split; [apply trim_trimmed|]. right.
      cbn in Hin.
      destruct Hin as [[= <- <-]|[[= <- <-]|[[= <- <-]|[[= <- <-]|
                      [[= <- <-]|[[= <- <-]|[]]]]]]]; cbn; auto 10.
  - rewrite <- trim_blank. unfold parse_filter.
    destruct (trim expr) as [|c r] eqn:Et; cbn [is_empty].
    + split; reflexivity.
    + split; [|discriminate].
      destruct (search_ops _ (fun t => SPACE :: t ++ [SPACE]) word_op_tokens)
        as [res|] eqn:Ew.
      * intros ->. exfalso. revert Ew. generalize (normalize (c :: r)).
        intros n. cbn [search_ops word_op_tokens].
        repeat (destruct (str_find n _);
                [destruct (is_empty _ || is_empty _); discriminate|]).
        discriminate.
      * destruct (search_ops _ (fun t => t) op_tokens) as [res|] eqn:Eo;
          [|discriminate].
        intros ->. exfalso. revert Eo. generalize (normalize (c :: r)).
        intros n. cbn [search_ops op_tokens].
        repeat (destruct (str_find n _);
                [destruct (is_empty _ || is_empty _); discriminate|]).
        discriminate.
Qed.

Lemma parse_filter_well_formed_witness :
  parse_filter (str " age >30 ") = inr (mkFilter (str "age") Gt (str "30"))
  /\ trimmed (str "age").
Proof.
  assert (H : parse_filter (str " age >30 ")
              = inr (mkFilter (str "age") Gt (str "30")))
    by (vm_compute; reflexivity).
  split; [exact H|].
  exact (proj1 (proj2 (proj2 (proj1 (parse_filter_well_formed _) _ H)))).
Defined.

(** *** Reading back a filter that was written out *)

Lemma find_at_spec (s pat : list ascii) (n pos : nat) :
  match find_at s pat n pos with
  | Some p => pos <= p < pos + n
              /\ compare_at s p (length pat) pat = true
              /\ forall j, pos <= j < p ->
                           compare_at s j (length pat) pat = false
  | None => forall j, pos <= j < pos + n ->
                      compare_at s j (length pat) pat = false
  end.
Proof.
  revert pos. induction n as [|n IH]; intros pos; cbn [find_at].
  - intros j Hj. lia.
  - destruct (compare_at s pos (length pat) pat) eqn:E.
    + split; [lia|]. split; [assumption|]. intros j Hj. lia.
    + specialize (IH (S pos)). destruct (find_at s pat n (S pos)) as [p|].
      * destruct IH as (Hb & Hp & Hfirst). split; [lia|].
        split; [assumption|]. intros j Hj.
        destruct (Nat.eq_dec j pos) as [->|Hne]; [assumption|].
        apply Hfirst. lia.
      * intros j Hj. destruct (Nat.eq_dec j pos) as [->|Hne]; [assumption|].
        apply IH. lia.
Qed.

Lemma occurrence_fits (s pat post : list ascii) (j : nat) :
  pat <> [] -> skipn j s = pat ++ post -> j + length pat <= length s.
Proof.
  intros Hne H. apply (f_equal (@length _)) in H.
  rewrite length_skipn, length_app in H.
  destruct pat; [contradiction|]. cbn [length] in *. lia.
Qed.

Lemma str_find_none (s pat : list ascii) :
  pat <> [] ->
  (forall j post, skipn j s <> pat ++ post) ->
  str_find s pat = None.
Proof.
  intros Hne Hno. unfold str_find.
  destruct (length s <? length pat); [reflexivity|].
  pose proof (find_at_spec s pat (length s - length pat + 1) 0) as H.
  destruct (find_at s pat _ 0) as [p|]; [|reflexivity].
  destruct H as (_ & Hp & _).
  apply compare_at_occurrence in Hp as [post Hp]. elim (Hno p post Hp).
Qed.

Lemma str_find_first (pre pat post : list ascii) :
  pat <> [] ->
  (forall j post', skipn j (pre ++ pat ++ post) = pat ++ post' ->
                   length pre <= j) ->
  str_find (pre ++ pat ++ post) pat = Some (length pre).
Proof.
  intros Hne Hfirst. unfold str_find. set (s := pre ++ pat ++ post).
  assert (Hlen : length s = length pre + length pat + length post)
    by (unfold s; rewrite !length_app; lia).
  destruct (Nat.ltb_spec (length s) (length pat)); [lia|].
  assert (Hocc : compare_at s (length pre) (length pat) pat = true).
  { apply compare_at_occurrence. exists post. unfold s.
    rewrite skipn_app, Nat.sub_diag, skipn_all. reflexivity. }
  pose proof (find_at_spec s pat (length s - length pat + 1) 0) as Hspec.
  destruct (find_at s pat _ 0) as [p|].
  - destruct Hspec as (Hb & Hp & Hbefore). f_equal.
    apply compare_at_occurrence in Hp as [post' Hp].
    pose proof (Hfirst p post' Hp).
    destruct (Nat.eq_dec p (length pre)) as [|Hne']; [assumption|].
    rewrite Hbefore in Hocc by lia. discriminate.
  - rewrite Hspec in Hocc by lia. discriminate.
Qed.

Lemma split_on_app (d : ascii) (x r : list ascii) :
  split_on d (x ++ d :: r) = split_on d x ++ split_on d r.
Proof.
  induction x as [|c x IH]; cbn [app split_on].
  - now rewrite Ascii.eqb_refl.
  - destruct (c =? d)%char; [now rewrite IH|].
    rewrite IH. pose proof (split_on_nonempty d x).
    destruct (split_on d x); [contradiction|reflexivity].
Qed.

Lemma join_split_on (d : ascii) (s : list ascii) :
  join d (split_on d s) = s.
Proof.
  induction s as [|c r IH]; [reflexivity|]. cbn [split_on].
  destruct (Ascii.eqb_spec c d) as [->|Hc].
  - pose proof (split_on_nonempty d r).
    destruct (split_on d r) as [|p ps] eqn:E; [contradiction|].
    cbn [join app]. cbn [join] in IH. now rewrite IH.
  - pose proof (split_on_nonempty d r).
    destruct (split_on d r) as [|p ps] eqn:E; [contradiction|].
    destruct ps as [|q qs]; cbn [join app] in *; now rewrite IH.
Qed.

Lemma word_no_space (s : list ascii) : Forall word_char s -> ~ In SPACE s.
Proof.
  intros Hw Hin. rewrite Forall_forall in Hw.
  destruct (Hw _ Hin) as [Hs _]. now apply Hs.
Qed.

Lemma word_trimmed (s : list ascii) : Forall word_char s -> trimmed s.
Proof.
  intros Hw. split.
  - destruct s as [|c r]; [discriminate|]. inversion Hw; subst.
    cbn [hd]. match goal with H : word_char c |- _ => apply H end.
  - destruct s as [|c r] using rev_ind; [discriminate|].
    rewrite last_last. apply Forall_app in Hw as [_ Hw].
    inversion Hw; subst. match goal with H : word_char c |- _ => apply H end.
Qed.

(** An occurrence of a space, a piece without spaces and a space makes
    the piece one of the inner pieces of the text. *)
Lemma spaced_occurrence_pieces (e w post : list ascii) (j : nat) :
  ~ In SPACE w ->
  skipn j e = (SPACE :: w ++ [SPACE]) ++ post ->
  split_on SPACE e
  = split_on SPACE (firstn j e) ++ w :: split_on SPACE post.
Proof.
  intros Hw Hocc. rewrite <- (firstn_skipn j e) at 1. rewrite Hocc.
  cbn [app]. rewrite split_on_app, <- app_assoc. cbn [app].
  now rewrite split_on_at_delimiter.
Qed.

Lemma three_pieces (col tok val : list ascii) :
  ~ In SPACE col -> ~ In SPACE tok -> ~ In SPACE val ->
  split_on SPACE (col ++ SPACE :: tok ++ SPACE :: val) = [col; tok; val].
Proof.
  intros Hc Ht Hv.
  rewrite split_on_at_delimiter, split_on_at_delimiter, split_on_plain
    by assumption.
  reflexivity.
Qed.

Lemma spaced_occurrence_unique (col tok val w post : list ascii) (j : nat) :
  ~ In SPACE col -> ~ In SPACE tok -> ~ In SPACE val -> ~ In SPACE w ->
  skipn j (col ++ SPACE :: tok ++ SPACE :: val)
  = (SPACE :: w ++ [SPACE]) ++ post ->
  w = tok /\ length col <= j.
Proof.
  intros Hc Ht Hv Hw Hocc.
  pose proof (spaced_occurrence_pieces _ _ _ _ Hw Hocc) as Hp.
  rewrite three_pieces in Hp by assumption.
  set (e := col ++ SPACE :: tok ++ SPACE :: val) in *.
  pose proof (split_on_nonempty SPACE (firstn j e)) as H1.
  pose proof (split_on_nonempty SPACE post) as H2.
  pose proof (join_split_on SPACE (firstn j e)) as Hj.
  destruct (split_on SPACE (firstn j e)) as [|a [|b l1]]; [contradiction| |].
  - cbn [app] in Hp. injection Hp as Ha Hw' _. split; [now symmetry|].
    cbn [join] in Hj. subst a.
    apply (f_equal (@length _)) in Hj. rewrite length_firstn in Hj. lia.
  - exfalso. cbn [app] in Hp. injection Hp as _ _ Hp.
    destruct l1; cbn [app] in Hp.
    + injection Hp as _ Hp. destruct (split_on SPACE post);
        [contradiction|discriminate].
    + injection Hp as _ Hp. destruct l1; discriminate.
Qed.

Lemma normalize_id (s : list ascii) :
  ~ In BACKSLASH s -> normalize s = s.
Proof.
  induction s as [|c r IH]; intros Hn; [reflexivity|].
  cbn [normalize]. destruct r as [|c' r']; [reflexivity|].
  destruct (Ascii.eqb_spec c BACKSLASH) as [->|_];
    [exfalso; apply Hn; now left|].
  cbn [andb]. f_equal. apply IH. intros Hin. apply Hn. now right.
Qed.

Lemma occurrence_not_in_prefix (l y p post : list ascii) (j : nat) :
  Forall (fun c => is_escaped_op c = false) l ->
  (exists c p', p = c :: p' /\ is_escaped_op c = true) ->
  skipn j (l ++ y) = p ++ post ->
  length l <= j /\ skipn (j - length l) y = p ++ post.
Proof.
  intros Hl (c & p' & -> & Hc). revert j.
  induction l as [|x l IH]; intros j Hocc.
  - cbn [app length] in *. rewrite Nat.sub_0_r. split; [lia|assumption].
  - inversion Hl; subst. destruct j as [|j].
    + cbn in Hocc. injection Hocc as -> _. congruence.
    + cbn [app skipn length] in *.
      destruct (IH ltac:(assumption) j Hocc) as [Hle Hs].
      split; [lia|exact Hs].
Qed.

Lemma In_skipn_ascii (j : nat) (l : list ascii) (a : ascii) :
  In a (skipn j l) -> In a l.
Proof.
  revert l. induction j as [|j IH]; intros l; [auto|].
  destruct l as [|c l]; [auto|]. cbn [skipn]. intros H. right. now apply IH.
Qed.

Lemma occurrence_not_in_suffix (x r p post : list ascii) (j : nat) :
  Forall (fun c => is_escaped_op c = false) r ->
  Forall (fun c => is_escaped_op c = true) p -> p <> [] ->
  skipn j (x ++ r) = p ++ post ->
  exists post', skipn j x = p ++ post'.
Proof.
  intros Hr Hp Hne. revert j p Hp Hne.
  induction x as [|c x IH]; intros j p Hp Hne Hocc.
  - exfalso. destruct p as [|a p]; [contradiction|]. inversion Hp; subst.
    cbn [app] in Hocc.
    assert (Hin : In a (skipn j r)) by (rewrite Hocc; now left).
    apply In_skipn_ascii in Hin. rewrite Forall_forall in Hr.
    rewrite (Hr a Hin) in *. discriminate.
  - destruct j as [|j].
    + cbn [skipn app] in *. destruct p as [|a p]; [contradiction|].
      injection Hocc as <- Hocc. inversion Hp; subst.
      destruct p as [|b p].
      * exists x. reflexivity.
      * destruct (IH 0 (b :: p) ltac:(assumption) ltac:(discriminate) Hocc)
          as [post' Hx].
        cbn [skipn] in Hx. exists post'. now rewrite Hx.
    + cbn [skipn app] in *. now apply IH.
Qed.


Ltac no_symbol_occurrence HL HR :=
  try (intros ?; discriminate);
  let j := fresh "j" in
  let post := fresh "post" in
  let H := fresh "H" in
  let post' := fresh "post'" in
  intros j post H;
  apply (occurrence_not_in_prefix _ _ _ _ _ HL) in H;
  [|do 2 eexists; split; reflexivity];
  destruct H as [_ H];
  apply (occurrence_not_in_suffix _ _ _ _ _ HR) in H;
  [|repeat constructor|discriminate];
  destruct H as [post' H];
  destruct (j - _) as [|[|[|?]]]; cbn in H; discriminate H.

Lemma symbol_found (l r tok : list ascii) :
  Forall (fun c => is_escaped_op c = false) l ->
  (exists c p', tok = c :: p' /\ is_escaped_op c = true) ->
  str_find (l ++ tok ++ r) tok = Some (length l).
Proof.
  intros Hl Htok. apply str_find_first.
  - destruct Htok as (c & p' & -> & _). discriminate.
  - intros j post' Hocc.
    now destruct (occurrence_not_in_prefix _ _ _ _ _ Hl Htok Hocc).
Qed.

Lemma symbolic_search (l r : list ascii) (o : FilterOp) :
  Forall (fun c => is_escaped_op c = false) l ->
  Forall (fun c => is_escaped_op c = false) r ->
  is_text_op o = false ->
  search_ops (l ++ token_of o ++ r) (fun t => t) op_tokens
  = Some (if is_empty (trim l) || is_empty (trim r)
          then inl (OperandMissing (token_of o))
          else inr (mkFilter (trim l) o (trim r))).
Proof.
  intros Hl Hr Ho.
  assert (Hcut : forall tok,
             firstn (length l) (l ++ tok ++ r) = l
             /\ skipn (length l + length tok) (l ++ tok ++ r) = r).
  { intros tok. split.
    - now rewrite firstn_app, Nat.sub_diag, firstn_all, firstn_O, app_nil_r.
    - rewrite app_assoc, <- length_app.
      now rewrite skipn_app, Nat.sub_diag, skipn_all. }
  destruct o; try discriminate Ho; cbn [token_of];
    unfold op_tokens; cbn [search_ops].
  - (* == *)
    rewrite (str_find_none _ (str ">=")) by no_symbol_occurrence Hl Hr.
    rewrite (str_find_none _ (str "<=")) by no_symbol_occurrence Hl Hr.
    rewrite (str_find_none _ (str "!=")) by no_symbol_occurrence Hl Hr.
    rewrite symbol_found by (assumption || (do 2 eexists; split; reflexivity)).
    destruct (Hcut (str "==")) as [-> ->].
    now destruct (is_empty (trim l) || is_empty (trim r)).
  - (* != *)
    rewrite (str_find_none _ (str ">=")) by no_symbol_occurrence Hl Hr.
    rewrite (str_find_none _ (str "<=")) by no_symbol_occurrence Hl Hr.
    rewrite symbol_found by (assumption || (do 2 eexists; split; reflexivity)).
    destruct (Hcut (str "!=")) as [-> ->].
    now destruct (is_empty (trim l) || is_empty (trim r)).
  - (* > *)
    rewrite (str_find_none _ (str ">=")) by no_symbol_occurrence Hl Hr.
    rewrite (str_find_none _ (str "<=")) by no_symbol_occurrence Hl Hr.
    rewrite (str_find_none _ (str "!=")) by no_symbol_occurrence Hl Hr.
    rewrite (str_find_none _ (str "==")) by no_symbol_occurrence Hl Hr.
    rewrite symbol_found by (assumption || (do 2 eexists; split; reflexivity)).
    destruct (Hcut (str ">")) as [-> ->].
    now destruct (is_empty (trim l) || is_empty (trim r)).
  - (* < *)
    rewrite (str_find_none _ (str ">=")) by no_symbol_occurrence Hl Hr.
    rewrite (str_find_none _ (str "<=")) by no_symbol_occurrence Hl Hr.
    rewrite (str_find_none _ (str "!=")) by no_symbol_occurrence Hl Hr.
    rewrite (str_find_none _ (str "==")) by no_symbol_occurrence Hl Hr.
    rewrite (str_find_none _ (str ">")) by no_symbol_occurrence Hl Hr.
    rewrite symbol_found by (assumption || (do 2 eexists; split; reflexivity)).
    destruct (Hcut (str "<")) as [-> ->].
    now destruct (is_empty (trim l) || is_empty (trim r)).
  - (* >= *)
    rewrite symbol_found by (assumption || (do 2 eexists; split; reflexivity)).
    destruct (Hcut (str ">=")) as [-> ->].
    now destruct (is_empty (trim l) || is_empty (trim r)).
  - (* <= *)
    rewrite (str_find_none _ (str ">=")) by no_symbol_occurrence Hl Hr.
    rewrite symbol_found by (assumption || (do 2 eexists; split; reflexivity)).
    destruct (Hcut (str "<=")) as [-> ->].
    now destruct (is_empty (trim l) || is_empty (trim r)).
Qed.

Lemma spaced_expression (col tok val : list ascii) :
  col ++ SPACE :: tok ++ SPACE :: val
  = col ++ (SPACE :: tok ++ [SPACE]) ++ val.
Proof. cbn [app]. now rewrite <- app_assoc. Qed.

Lemma word_pattern_absent (col tok val w : list ascii) :
  ~ In SPACE col -> ~ In SPACE tok -> ~ In SPACE val -> ~ In SPACE w ->
  w <> tok ->
  str_find (col ++ SPACE :: tok ++ SPACE :: val) (SPACE :: w ++ [SPACE])
  = None.
Proof.
  intros Hc Ht Hv Hw Hne. apply str_find_none; [discriminate|].
  intros j post Hocc.
  destruct (spaced_occurrence_unique col tok val w post j); auto.
Qed.

Lemma word_pattern_found (col tok val : list ascii) :
  ~ In SPACE col -> ~ In SPACE tok -> ~ In SPACE val ->
  str_find (col ++ SPACE :: tok ++ SPACE :: val) (SPACE :: tok ++ [SPACE])
  = Some (length col).
Proof.
  intros Hc Ht Hv. rewrite spaced_expression.
  apply str_find_first; [discriminate|].
  intros j post Hocc. rewrite <- spaced_expression in Hocc.
  now destruct (spaced_occurrence_unique col tok val tok post j).
Qed.

Lemma spaceless_pattern_absent (e w : list ascii) :
  ~ In SPACE e -> str_find e (SPACE :: w) = None.
Proof.
  intros He. apply str_find_none; [discriminate|].
  intros j post Hocc. apply He. apply (In_skipn_ascii j).
  rewrite Hocc. now left.
Qed.

Lemma token_of_plain (o : FilterOp) :
  ~ In SPACE (token_of o) /\ ~ In BACKSLASH (token_of o).
Proof.
  destruct o; cbn; intuition discriminate.
Qed.

Lemma word_no_backslash (s : list ascii) :
  Forall word_char s -> ~ In BACKSLASH s.
Proof.
  intros Hw Hin. rewrite Forall_forall in Hw.
  destruct (Hw _ Hin) as (_ & Hb & _). now apply Hb.
Qed.

Lemma word_no_symbol (s : list ascii) :
  Forall word_char s -> Forall (fun c => is_escaped_op c = false) s.
Proof. apply Forall_impl. intros c H. apply H. Qed.

Lemma parse_filter_plain (e : list ascii) :
  e <> [] -> trimmed e -> ~ In BACKSLASH e ->
  parse_filter e
  = match search_ops e (fun t => SPACE :: t ++ [SPACE]) word_op_tokens with
    | Some res => res
    | None => match search_ops e (fun t => t) op_tokens with
              | Some res => res
              | None => inl (NoOperator e)
              end
    end.
Proof.
  intros Hne Ht Hb. unfold parse_filter.
  rewrite (trim_id e Ht), (normalize_id e Hb).
  destruct e; [contradiction|reflexivity].
Qed.

Lemma trimmed_between (col mid val : list ascii) :
  col <> [] -> val <> [] -> trimmed col -> trimmed val ->
  trimmed (col ++ mid ++ val).
Proof.
  intros Hc Hv [Hh _] [_ Hl]. split.
  - destruct col; [contradiction|exact Hh].
  - rewrite app_assoc.
    destruct val as [|c r] using rev_ind; [contradiction|].
    rewrite app_assoc, last_last. now rewrite last_last in Hl.
Qed.

Lemma cut_at_operator (col pat val : list ascii) :
  firstn (length col) (col ++ pat ++ val) = col
  /\ skipn (length col + length pat) (col ++ pat ++ val) = val.
Proof.
  split.
  - now rewrite firstn_app, Nat.sub_diag, firstn_all, firstn_O, app_nil_r.
  - rewrite app_assoc, <- length_app.
    now rewrite skipn_app, Nat.sub_diag, skipn_all.
Qed.

Lemma trim_space_right (s : list ascii) :
  trimmed s -> trim (s ++ [SPACE]) = s.
Proof. intros H. exact (trim_padded 0 1 s H). Qed.

Lemma trim_space_left (s : list ascii) :
  trimmed s -> trim (SPACE :: s) = s.
Proof.
  intros H. pose proof (trim_padded 1 0 s H) as Ht.
  cbn [repeat app] in Ht. now rewrite app_nil_r in Ht.
Qed.

(** X20. A filter written out reads back: for a column and a literal
    that are bare words (not empty; no space, backslash or operator
    character) and any of the nine operators, [parse_filter] of the
    column, a space, the operator's token, a space and the literal gives
    that column, that operator and that literal; for the six symbolic
    operators the spaces may be left out. *)
Theorem parse_filter_reads_back (col val : list ascii) (o : FilterOp) :
  word col -> word val ->
  parse_filter (col ++ SPACE :: token_of o ++ SPACE :: val)
  = inr (mkFilter col o val)
  /\ (is_text_op o = false ->
      parse_filter (col ++ token_of o ++ val) = inr (mkFilter col o val)).
Proof.
  intros [Hcne Hcw] [Hvne Hvw].
  pose proof (word_no_space col Hcw) as Hcs.
  pose proof (word_no_space val Hvw) as Hvs.
  pose proof (word_trimmed col Hcw) as Hct.
  pose proof (word_trimmed val Hvw) as Hvt.
  destruct (token_of_plain o) as [Hts Htb].
  assert (Hce : is_empty col = false) by (destruct col; [contradiction|reflexivity]).
  assert (Hve : is_empty val = false) by (destruct val; [contradiction|reflexivity]).
  split.
  - rewrite parse_filter_plain.
    2:{ destruct col; [contradiction|discriminate]. }
    2:{ rewrite spaced_expression. now apply trimmed_between. }
    2:{ intros Hin. apply in_app_or in Hin as [Hin|[Hin|Hin]].
        - now apply (word_no_backslash col Hcw).
        - discriminate Hin.
        - apply in_app_or in Hin as [Hin|[Hin|Hin]]; [now apply Htb|
            discriminate Hin|now apply (word_no_backslash val Hvw)]. }
    destruct (is_text_op o) eqn:Ho.
    + assert (Hres : forall pos,
                 pos = length col ->
                 (if is_empty (trim (firstn pos
                        (col ++ SPACE :: token_of o ++ SPACE :: val)))
                     || is_empty (trim (skipn
                          (pos + length (SPACE :: token_of o ++ [SPACE]))
                          (col ++ SPACE :: token_of o ++ SPACE :: val)))
                  then Some (inl (OperandMissing (token_of o)))
                  else Some (inr (mkFilter
                         (trim (firstn pos
                            (col ++ SPACE :: token_of o ++ SPACE :: val)))
                         o
                         (trim (skipn
                            (pos + length (SPACE :: token_of o ++ [SPACE]))
                            (col ++ SPACE :: token_of o ++ SPACE :: val))))))
                 = Some (inr (mkFilter col o val) : parse_error + Filter)).
      { intros pos ->. rewrite spaced_expression.
        destruct (cut_at_operator col (SPACE :: token_of o ++ [SPACE]) val)
          as [-> ->].
        rewrite (trim_id col Hct), (trim_id val Hvt), Hce, Hve.
        reflexivity. }
      pose proof (word_pattern_found col (token_of o) val Hcs Hts Hvs) as Hf.
      destruct o; try discriminate Ho; unfold word_op_tokens;
        cbn [search_ops token_of] in *.
      * rewrite (word_pattern_absent col _ val (str "starts_with"));
          try assumption; try discriminate;
          [|cbn; intuition discriminate].
        rewrite (word_pattern_absent col _ val (str "ends_with"));
          try assumption; try discriminate;
          [|cbn; intuition discriminate].
        rewrite Hf. now rewrite (Hres _ eq_refl).
      * rewrite Hf. now rewrite (Hres _ eq_refl).
      * rewrite (word_pattern_absent col _ val (str "starts_with"));
          try assumption; try discriminate;
          [|cbn; intuition discriminate].
        rewrite Hf. now rewrite (Hres _ eq_refl).
    + assert (Hnone : search_ops (col ++ SPACE :: token_of o ++ SPACE :: val)
                        (fun t => SPACE :: t ++ [SPACE]) word_op_tokens
                      = None).
      { unfold word_op_tokens. cbn [search_ops].
        rewrite !word_pattern_absent; try assumption; try reflexivity;
          try (cbn; intuition discriminate);
          destruct o; discriminate. }
      rewrite Hnone.
      replace (col ++ SPACE :: token_of o ++ SPACE :: val)
        with ((col ++ [SPACE]) ++ token_of o ++ SPACE :: val)
        by (now rewrite <- app_assoc).
      rewrite symbolic_search; try assumption.
      * rewrite (trim_space_right col Hct), (trim_space_left val Hvt).
        rewrite Hce, Hve. reflexivity.
      * apply Forall_app. split; [now apply word_no_symbol|].
        repeat constructor.
      * constructor; [reflexivity|now apply word_no_symbol].
  - intros Ho. rewrite parse_filter_plain.
    2:{ destruct col; [contradiction|discriminate]. }
    2:{ now apply trimmed_between. }
    2:{ intros Hin. apply in_app_or in Hin as [Hin|Hin];
          [now apply (word_no_backslash col Hcw)|].
        apply in_app_or in Hin as [Hin|Hin];
          [now apply Htb|now apply (word_no_backslash val Hvw)]. }
    assert (Hns : ~ In SPACE (col ++ token_of o ++ val)).
    { intros Hin. apply in_app_or in Hin as [Hin|Hin]; [now apply Hcs|].
      apply in_app_or in Hin as [Hin|Hin]; [now apply Hts|now apply Hvs]. }
    unfold word_op_tokens. cbn [search_ops].
    rewrite !spaceless_pattern_absent by assumption.
    rewrite symbolic_search; try assumption; try now apply word_no_symbol.
    rewrite (trim_id col Hct), (trim_id val Hvt), Hce, Hve. reflexivity.
Qed.

Lemma parse_filter_reads_back_witness :
  parse_filter (str "age >= 30") = inr (mkFilter (str "age") Gte (str "30"))
  /\ parse_filter (str "name contains li")
     = inr (mkFilter (str "name") Contains (str "li")).
Proof.
  assert (Hw : forall s, s <> [] ->
                         forallb (fun c => negb ((c =? SPACE)%char
                                                 || (c =? BACKSLASH)%char
                                                 || is_escaped_op c)) s
                         = true -> word s).
  { intros s Hne Hall. split; [assumption|]. apply Forall_forall.
    intros c Hc. rewrite forallb_forall in Hall. specialize (Hall c Hc).
    apply negb_true_iff in Hall. apply orb_false_iff in Hall as [Hall Ho].
    apply orb_false_iff in Hall as [Hs Hb].
    repeat split; [now apply Ascii.eqb_neq|now apply Ascii.eqb_neq|
                   assumption]. }
  split.
  - apply (proj1 (parse_filter_reads_back (str "age") (str "30") Gte
                    (Hw (str "age") ltac:(discriminate) eq_refl)
                    (Hw (str "30") ltac:(discriminate) eq_refl))).
  - apply (proj1 (parse_filter_reads_back (str "name") (str "li") Contains
                    (Hw (str "name") ltac:(discriminate) eq_refl)
                    (Hw (str "li") ltac:(discriminate) eq_refl))).
Defined.

(** ** Reading back what [render_csv] writes: one line *)

Lemma segment_length (base : list ascii) (i j : nat) :
  j <= length base -> length (segment base i j) = j - i.
Proof.
  intros Hj. unfold segment. rewrite length_firstn, length_skipn. lia.
Qed.

Lemma segment_head (base : list ascii) (i j : nat) (x : ascii)
      (r : list ascii) :
  j <= length base -> segment base i j = x :: r ->
  i < j /\ at_ base i = x /\ segment base (S i) j = r.
Proof.
  intros Hj Hs.
  assert (Hi : i < j).
  { pose proof (segment_length base i j Hj) as Hl. rewrite Hs in Hl.
    cbn [length] in Hl. lia. }
  rewrite segment_cons in Hs by assumption. injection Hs as Hx Hr. auto.
Qed.

Lemma segment_empty (base : list ascii) (i j : nat) :
  j <= length base -> segment base i j = [] -> j <= i.
Proof.
  intros Hj Hs. pose proof (segment_length base i j Hj) as Hl.
  rewrite Hs in Hl. cbn [length] in Hl. lia.
Qed.

Lemma segment_drop (base : list ascii) (i j : nat) (f r : list ascii) :
  j <= length base -> i <= j -> segment base i j = f ++ r ->
  segment base (i + length f) j = r /\ i + length f <= j.
Proof.
  intros Hj. revert i. induction f as [|c f IH]; intros i Hij Hs.
  - cbn [app length] in *. rewrite Nat.add_0_r. auto.
  - cbn [app] in Hs. apply segment_head in Hs as (Hi & _ & Hs); [|assumption].
    destruct (IH (S i) ltac:(lia) Hs) as [Hr Hle]. cbn [length].
    replace (i + S (length f)) with (S i + length f) by lia. auto.
Qed.

Lemma segment_take (base : list ascii) (i j : nat) (f r : list ascii) :
  j <= length base -> segment base i j = f ++ r ->
  sv_text base (View i (length f)) = f.
Proof.
  intros Hj Hs. cbn [sv_text].
  pose proof (segment_length base i j Hj) as Hl.
  rewrite Hs, length_app in Hl. unfold segment in Hs.
  apply (f_equal (firstn (length f))) in Hs.
  rewrite firstn_firstn, firstn_app, Nat.sub_diag, firstn_all in Hs.
  cbn [firstn] in Hs. rewrite app_nil_r in Hs.
  rewrite Nat.min_l in Hs by lia. exact Hs.
Qed.

Lemma skip_quoted_doubled (base : list ascii) (end_ : nat)
      (v rest : list ascii) (fuel i : nat) :
  end_ <= length base ->
  segment base i end_ = double_quotes v ++ DQUOTE :: rest ->
  hd zero rest <> DQUOTE ->
  end_ - i <= fuel ->
  skip_quoted base end_ fuel i = i + length (double_quotes v).
Proof.
  intros Hlen. revert fuel i.
  induction v as [|c v IH]; intros fuel i Hs Hrest Hfuel.
  - cbn [double_quotes app length] in *.
    apply segment_head in Hs as (Hi & Hq & Hs); [|assumption].
    destruct fuel as [|fuel]; [lia|]. cbn [skip_quoted].
    destruct (Nat.ltb_spec i end_); [|lia].
    rewrite Hq, Ascii.eqb_refl.
    destruct (Nat.ltb_spec (i + 1) end_) as [Hn|Hn]; cbn [andb]; [|lia].
    replace (i + 1) with (S i) in * by lia.
    destruct rest as [|x rest].
    + apply segment_empty in Hs; [lia|assumption].
    + apply segment_head in Hs as (_ & Hx & _); [|assumption].
      cbn [hd] in Hrest. rewrite Hx.
      apply Ascii.eqb_neq in Hrest. rewrite Hrest. lia.
  - cbn [double_quotes] in *.
    destruct fuel as [|fuel].
    { destruct (c =? DQUOTE)%char;
        apply segment_head in Hs as (Hi & _); [lia|assumption|lia|assumption]. }
    cbn [skip_quoted].
    destruct (Ascii.eqb_spec c DQUOTE) as [-> |Hc].
    + cbn [app] in Hs.
      apply segment_head in Hs as (Hi & Hq & Hs); [|assumption].
      apply segment_head in Hs as (Hi' & Hq' & Hs); [|assumption].
      destruct (Nat.ltb_spec i end_); [|lia].
      rewrite Hq, Ascii.eqb_refl.
      replace (i + 1) with (S i) by lia.
      destruct (Nat.ltb_spec (S i) end_); [|lia].
      rewrite Hq', Ascii.eqb_refl. cbn [andb].
      replace (i + 2) with (S (S i)) by lia.
      rewrite (IH fuel (S (S i)) Hs Hrest) by lia. cbn [length]. lia.
    + cbn [app] in Hs.
      apply segment_head in Hs as (Hi & Hq & Hs); [|assumption].
      destruct (Nat.ltb_spec i end_); [|lia].
      rewrite Hq. apply Ascii.eqb_neq in Hc. rewrite Hc.
      replace (i + 1) with (S i) by lia.
      rewrite (IH fuel (S i) Hs Hrest) by lia. cbn [length]. lia.
Qed.

Lemma skip_unquoted_plain (base : list ascii) (end_ : nat) (d : ascii)
      (v rest : list ascii) (fuel i : nat) :
  end_ <= length base ->
  segment base i end_ = v ++ rest ->
  ~ In d v -> (rest = [] \/ hd zero rest = d) ->
  end_ - i <= fuel ->
  skip_unquoted base end_ d fuel i = i + length v.
Proof.
  intros Hlen. revert fuel i.
  induction v as [|c v IH]; intros fuel i Hs Hv Hrest Hfuel.
  - cbn [app length] in *. rewrite Nat.add_0_r.
    destruct fuel as [|fuel]; [reflexivity|]. cbn [skip_unquoted].
    destruct (Nat.ltb_spec i end_) as [Hi|Hi]; cbn [andb]; [|reflexivity].
    destruct rest as [|x rest].
    + apply segment_empty in Hs; [lia|assumption].
    + apply segment_head in Hs as (_ & Hx & _); [|assumption].
      destruct Hrest as [Hr|Hr]; [discriminate|]. cbn [hd] in Hr.
      rewrite Hx, Hr, Ascii.eqb_refl. reflexivity.
  - cbn [app] in Hs.
    apply segment_head in Hs as (Hi & Hc & Hs); [|assumption].
    destruct fuel as [|fuel]; [lia|]. cbn [skip_unquoted].
    destruct (Nat.ltb_spec i end_); [|lia]. cbn [andb].
    rewrite Hc.
    destruct (Ascii.eqb_spec c d) as [-> |Hne]; [elim Hv; now left|].
    cbn [negb]. rewrite (IH fuel (S i) Hs); [cbn [length]; lia| |assumption|lia].
    intros Hin. apply Hv. now right.
Qed.

Lemma needs_quote_false (v : list ascii) (d : ascii) :
  needs_quote v d = false ->
  ~ In d v /\ ~ In DQUOTE v /\ ~ In NL v /\ ~ In CR v.
Proof.
  unfold needs_quote. intros H.
  assert (Hall : forall c, In c v ->
                   (c =? d)%char || (c =? DQUOTE)%char || (c =? NL)%char
                   || (c =? CR)%char = false).
  { intros c Hc. destruct (_ || _ || _ || _) eqn:E; [|reflexivity].
    assert (Ht : existsb (fun c => (c =? d)%char || (c =? DQUOTE)%char
                                   || (c =? NL)%char || (c =? CR)%char) v
                 = true) by (apply existsb_exists; eauto).
    congruence. }
  repeat split; intros Hin; specialize (Hall _ Hin);
    rewrite Ascii.eqb_refl in Hall; cbn in Hall;
    rewrite ?orb_true_r in Hall; discriminate.
Qed.

(** One iteration of the field loop on a field that [csv_escape] wrote:
    the view covers exactly the written field, and the loop moves past the
    delimiter that follows it. *)
Lemma scan_field_rendered (base : list ascii) (end_ : nat) (d : ascii)
      (v rest : list ascii) (i : nat) :
  d <> DQUOTE -> end_ <= length base -> i < end_ ->
  segment base i end_ = csv_escape v d ++ rest ->
  (rest = [] \/ hd zero rest = d) ->
  let k := i + length (csv_escape v d) in
  scan_field base end_ d i
  = (View i (length (csv_escape v d)), if k <? end_ then k + 1 else k).
Proof.
  intros Hd Hlen Hi Hs Hrest k. subst k.
  assert (Hrq : hd zero rest <> DQUOTE).
  { destruct Hrest as [-> | ->]; [discriminate|assumption]. }
  destruct (segment_drop base i end_ _ _ Hlen ltac:(lia) Hs) as [Hafter Hk].
  assert (Hnext : i + length (csv_escape v d) < end_ ->
                  at_ base (i + length (csv_escape v d)) = d).
  { intros Hlt. destruct rest as [|x rest].
    - apply segment_empty in Hafter; [lia|assumption].
    - apply segment_head in Hafter as (_ & Hx & _); [|assumption].
      destruct Hrest as [Hr|Hr]; [discriminate|]. now rewrite Hx. }
  unfold scan_field, csv_escape in *.
  destruct (needs_quote v d) eqn:Hq; cbn [negb] in *.
  - cbn [app] in Hs.
    apply segment_head in Hs as (_ & Hq0 & Hs); [|assumption].
    rewrite Hq0, Ascii.eqb_refl. rewrite <- app_assoc in Hs. cbn [app] in Hs.
    replace (i + 1) with (S i) by lia.
    rewrite (skip_quoted_doubled base end_ v rest _ (S i) Hlen Hs Hrq)
      by lia.
    cbn [length] in *. rewrite length_app in *. cbn [length] in *.
    set (n := length (double_quotes v)) in *.
    destruct (Nat.ltb_spec (S i + n) end_); [|lia].
    replace (S i + n + 1 - i) with (S (n + 1)) by lia.
    replace (S i + n + 1) with (i + S (n + 1)) by lia.
    destruct (Nat.ltb_spec (i + S (n + 1)) end_) as [Hlt|Hge]; cbn [andb].
    + now rewrite (Hnext Hlt), Ascii.eqb_refl.
    + reflexivity.
  - destruct (needs_quote_false v d Hq) as (Hnd & Hnq & _).
    assert (H0 : at_ base i <> DQUOTE).
    { destruct v as [|c v].
      - rewrite Nat.add_0_r in Hnext. now rewrite (Hnext Hi).
      - cbn [app] in Hs.
        apply segment_head in Hs as (_ & Hc & _); [|assumption].
        rewrite Hc. intros ->. apply Hnq. now left. }
    apply Ascii.eqb_neq in H0. rewrite H0.
    rewrite (skip_unquoted_plain base end_ d v rest _ i Hlen Hs Hnd Hrest)
      by lia.
    replace (i + length v - i) with (length v) by lia. reflexivity.
Qed.

Lemma csv_escape_nil (v : list ascii) (d : ascii) :
  csv_escape v d = [] -> v = [].
Proof.
  unfold csv_escape. destruct (needs_quote v d); cbn [negb];
    [discriminate|auto].
Qed.

Lemma csv_escape_last (v : list ascii) (d : ascii) :
  d <> DQUOTE -> csv_escape v d <> [] -> last (csv_escape v d) zero <> d.
Proof.
  intros Hd Hne. unfold csv_escape in *.
  destruct (needs_quote v d) eqn:Hq; cbn [negb] in *.
  - change (DQUOTE :: double_quotes v ++ [DQUOTE])
      with ((DQUOTE :: double_quotes v) ++ [DQUOTE]).
    rewrite last_last. congruence.
  - destruct (needs_quote_false v d Hq) as (Hnd & _).
    intros Hl. apply Hnd. rewrite <- Hl.
    destruct v as [|c v] using rev_ind; [contradiction|].
    rewrite last_last. apply in_or_app. right. now left.
Qed.

Lemma render_fields_false_nil (vals : list (list ascii)) (d : ascii) :
  render_fields vals d false = [] -> vals = [].
Proof. destruct vals; [reflexivity|discriminate]. Qed.

Lemma segment_last (base : list ascii) (i j : nat) (l : list ascii) :
  j <= length base -> segment base i j = l -> l <> [] ->
  at_ base (j - 1) = last l zero.
Proof.
  intros Hj. revert i. induction l as [|c l IH]; intros i Hs Hne;
    [contradiction|].
  apply segment_head in Hs as (Hi & Hc & Hs); [|assumption].
  destruct l as [|c' l].
  - apply segment_empty in Hs; [|assumption].
    replace (j - 1) with i by lia. exact Hc.
  - rewrite (IH (S i) Hs) by discriminate. reflexivity.
Qed.

Lemma line_fields_loop_rendered (base : list ascii) (end_ : nat) (d : ascii)
      (v : list ascii) (rest : list (list ascii)) (fuel i : nat)
      (acc : list string_view) :
  d <> DQUOTE -> end_ <= length base -> i <= end_ -> end_ - i <= fuel ->
  segment base i end_ = csv_escape v d ++ render_fields rest d false ->
  (i = end_ -> at_ base (end_ - 1) = d) ->
  map (fun f => unquote (sv_text base f))
      (line_fields_loop base end_ d fuel i acc)
  ++ (if (at_ base (end_ - 1) =? d)%char then [[]] else [])
  = map (fun f => unquote (sv_text base f)) acc ++ v :: rest.
Proof.
  intros Hd Hlen. revert v fuel i acc.
  induction rest as [|v' rest IH]; intros v fuel i acc Hi Hfuel Hs Hend.
  - cbn [render_fields] in Hs. rewrite app_nil_r in Hs.
    destruct (Nat.eq_dec i end_) as [->|Hne].
    + rewrite line_fields_loop_done, (Hend eq_refl), Ascii.eqb_refl.
      unfold segment in Hs. rewrite Nat.sub_diag in Hs. cbn [firstn] in Hs.
      symmetry in Hs. apply csv_escape_nil in Hs. now subst.
    + destruct fuel as [|fuel]; [lia|]. cbn [line_fields_loop].
      destruct (Nat.ltb_spec i end_); [|lia].
      pose proof (scan_field_rendered base end_ d v [] i Hd Hlen
                    ltac:(lia)) as Hscan.
      rewrite app_nil_r in Hscan. cbv zeta in Hscan.
      rewrite (Hscan Hs (or_introl eq_refl)).
      pose proof (segment_length base i end_ Hlen) as Hl. rewrite Hs in Hl.
      destruct (Nat.ltb_spec (i + length (csv_escape v d)) end_); [lia|].
      replace (i + length (csv_escape v d)) with end_ by lia.
      rewrite line_fields_loop_done, map_app. cbn [map].
      rewrite <- (app_nil_r (csv_escape v d)) in Hs.
      rewrite (segment_take base i end_ _ _ Hlen Hs), unquote_csv_escape.
      rewrite app_nil_r in Hs.
      assert (Hlast : at_ base (end_ - 1) <> d).
      { rewrite (segment_last base i end_ _ Hlen Hs).
        - apply csv_escape_last; [assumption|].
          intros E. rewrite E in Hl. cbn in Hl. lia.
        - intros E. rewrite E in Hl. cbn in Hl. lia. }
      apply Ascii.eqb_neq in Hlast. rewrite Hlast, app_nil_r. reflexivity.
  - cbn [render_fields app] in Hs.
    assert (Hi' : i < end_).
    { pose proof (segment_length base i end_ Hlen) as Hl. rewrite Hs in Hl.
      rewrite length_app in Hl. cbn [length] in Hl. lia. }
    destruct fuel as [|fuel]; [lia|]. cbn [line_fields_loop].
    destruct (Nat.ltb_spec i end_); [|lia].
    pose proof (scan_field_rendered base end_ d v _ i Hd Hlen Hi' Hs
                  (or_intror eq_refl)) as Hscan.
    cbv zeta in Hscan. rewrite Hscan.
    destruct (segment_drop base i end_ _ _ Hlen ltac:(lia) Hs) as [Hafter Hk].
    apply segment_head in Hafter as (Hk' & Hdk & Hafter); [|assumption].
    destruct (Nat.ltb_spec (i + length (csv_escape v d)) end_); [|lia].
    replace (i + length (csv_escape v d) + 1)
      with (S (i + length (csv_escape v d))) by lia.
    rewrite (IH v' fuel (S (i + length (csv_escape v d)))
                (acc ++ [View i (length (csv_escape v d))])
                ltac:(lia) ltac:(lia) Hafter).
    + rewrite map_app. cbn [map].
      rewrite (segment_take base i end_ _ _ Hlen Hs), unquote_csv_escape.
      rewrite <- app_assoc. reflexivity.
    + intros E. replace (end_ - 1) with (i + length (csv_escape v d)) by lia.
      exact Hdk.
Qed.

Lemma parse_line_fields_rendered (base : list ascii) (start end_ : nat)
      (vals : list (list ascii)) (d : ascii) :
  d <> DQUOTE -> vals <> [[]] -> end_ <= length base -> start <= end_ ->
  segment base start end_ = render_fields vals d true ->
  map (fun f => unquote (sv_text base f))
      (parse_line_fields base start end_ d)
  = vals.
Proof.
  intros Hd Hvals Hlen Hle Hseg.
  pose proof (segment_length base start end_ Hlen) as Hl.
  unfold parse_line_fields.
  destruct (Nat.eqb_spec start end_) as [E|E].
  - rewrite Hseg, E, Nat.sub_diag in Hl. apply length_zero_iff_nil in Hl.
    destruct vals as [|v rest]; [reflexivity|].
    cbn [render_fields app] in Hl. apply app_eq_nil in Hl as [Hv Hr].
    apply csv_escape_nil in Hv. apply render_fields_false_nil in Hr.
    subst. contradiction.
  - destruct vals as [|v rest].
    { rewrite Hseg in Hl. cbn in Hl. lia. }
    destruct (Nat.ltb_spec start end_); [|lia]. cbn [andb].
    pose proof (line_fields_loop_rendered base end_ d v rest (end_ - start)
                  start [] Hd Hlen ltac:(lia) ltac:(lia) Hseg ltac:(lia))
      as Hloop.
    cbn [map app] in Hloop. rewrite <- Hloop.
    destruct (at_ base (end_ - 1) =? d)%char.
    + rewrite map_app. reflexivity.
    + now rewrite app_nil_r.
Qed.

Lemma segment_middle (pre mid post : list ascii) :
  segment (pre ++ mid ++ post) (length pre) (length pre + length mid) = mid.
Proof.
  unfold segment.
  replace (length pre + length mid - length pre) with (length mid) by lia.
  rewrite skipn_app, Nat.sub_diag, skipn_all. cbn [skipn app].
  now rewrite firstn_app, Nat.sub_diag, firstn_all, app_nil_r.
Qed.

(** X21. A line written by [render_csv] reads back: whatever the values
    hold (delimiters, quotes, newlines, nothing at all), the fields
    [parse_line_fields] makes of the escaped values joined by the
    delimiter are, unquoted, those values, as many and in order.  The
    delimiter must not be the quote character, and the line must not be
    the single empty value, which is written as no character at all. *)
Theorem rendered_line_reads_back
        (pre post : list ascii) (vals : list (list ascii)) (d : ascii) :
  d <> DQUOTE -> vals <> [[]] ->
  let line := render_fields vals d true in
  let base := pre ++ line ++ post in
  map (fun f => unquote (sv_text base f))
      (parse_line_fields base (length pre) (length pre + length line) d)
  = vals.
Proof.
  intros Hd Hvals line base.
  apply parse_line_fields_rendered; try assumption.
  - unfold base. rewrite !length_app. lia.
  - lia.
  - apply segment_middle.
Qed.

Lemma rendered_line_reads_back_witness :
  let vals := [str "a,b"; [DQUOTE]; []; [NL]] in
  let line := render_fields vals "," true in
  map (fun f => unquote (sv_text (line ++ [NL]) f))
      (parse_line_fields (line ++ [NL]) 0 (length line) ",")
  = vals.
Proof.
  exact (rendered_line_reads_back [] [NL] [str "a,b"; [DQUOTE]; []; [NL]]
           ","%char ltac:(discriminate) ltac:(discriminate)).
Defined.

(** ** Reading back what [render_csv] writes: the lines of a file *)

Lemma quote_state_app (l1 l2 : list ascii) (q : bool) :
  quote_state (l1 ++ l2) q = quote_state l2 (quote_state l1 q).
Proof.
  revert q. induction l1 as [|c l1 IH]; intros q; [reflexivity|].
  cbn [app quote_state]. apply IH.
Qed.

Lemma newlines_quoted_app (l1 l2 : list ascii) (q : bool) :
  newlines_quoted (l1 ++ l2) q
  = newlines_quoted l1 q && newlines_quoted l2 (quote_state l1 q).
Proof.
  revert q. induction l1 as [|c l1 IH]; intros q; [reflexivity|].
  cbn [app newlines_quoted quote_state].
  destruct (c =? DQUOTE)%char; [apply IH|].
  destruct (negb q && (c =? NL)%char); [reflexivity|apply IH].
Qed.

Lemma plain_text_state (l : list ascii) (q : bool) :
  ~ In DQUOTE l -> ~ In NL l ->
  quote_state l q = q /\ newlines_quoted l q = true.
Proof.
  induction l as [|c l IH]; intros Hq Hn; [auto|].
  cbn [quote_state newlines_quoted].
  destruct (Ascii.eqb_spec c DQUOTE) as [->|_]; [elim Hq; now left|].
  destruct (Ascii.eqb_spec c NL) as [->|_]; [elim Hn; now left|].
  rewrite andb_false_r. apply IH; intros Hin; [apply Hq|apply Hn]; now right.
Qed.

Lemma double_quotes_state (v r : list ascii) :
  quote_state (double_quotes v ++ r) true = quote_state r true
  /\ newlines_quoted (double_quotes v ++ r) true = newlines_quoted r true.
Proof.
  induction v as [|c v IH]; [auto|]. cbn [double_quotes].
  destruct (Ascii.eqb_spec c DQUOTE) as [->|Hc].
  - cbn [app quote_state newlines_quoted]. rewrite Ascii.eqb_refl.
    cbn [negb]. exact IH.
  - cbn [app quote_state newlines_quoted].
    apply Ascii.eqb_neq in Hc. rewrite Hc. cbn [negb andb]. exact IH.
Qed.

Lemma csv_escape_state (v : list ascii) (d : ascii) :
  quote_state (csv_escape v d) false = false
  /\ newlines_quoted (csv_escape v d) false = true.
Proof.
  unfold csv_escape. destruct (needs_quote v d) eqn:Hq; cbn [negb].
  - cbn [quote_state newlines_quoted]. rewrite Ascii.eqb_refl. cbn [negb].
    destruct (double_quotes_state v [DQUOTE]) as [-> ->].
    cbn. auto.
  - destruct (needs_quote_false v d Hq) as (_ & Hnq & Hnn & _).
    now apply plain_text_state.
Qed.

Lemma render_fields_state (vals : list (list ascii)) (d : ascii)
      (first : bool) :
  d <> DQUOTE -> d <> NL ->
  quote_state (render_fields vals d first) false = false
  /\ newlines_quoted (render_fields vals d first) false = true.
Proof.
  intros Hd Hn. revert first.
  induction vals as [|v vals IH]; intros first; [auto|].
  cbn [render_fields].
  assert (Hsep : quote_state (if first then [] else [d]) false = false
                 /\ newlines_quoted (if first then [] else [d]) false = true).
  { destruct first; [auto|]. apply plain_text_state; intros [E|[]]; auto. }
  destruct Hsep as [Hs1 Hs2].
  destruct (csv_escape_state v d) as [He1 He2].
  destruct (IH false) as [Hr1 Hr2].
  rewrite !newlines_quoted_app, !quote_state_app.
  rewrite ?Hs1, ?Hs2, ?He1, ?He2, ?Hr1, ?Hr2. auto.
Qed.

Lemma csv_escape_last_cr (v : list ascii) (d : ascii) :
  csv_escape v d <> [] -> last (csv_escape v d) zero <> CR.
Proof.
  intros Hne. unfold csv_escape in *.
  destruct (needs_quote v d) eqn:Hq; cbn [negb] in *.
  - change (DQUOTE :: double_quotes v ++ [DQUOTE])
      with ((DQUOTE :: double_quotes v) ++ [DQUOTE]).
    rewrite last_last. discriminate.
  - destruct (needs_quote_false v d Hq) as (_ & _ & _ & Hcr).
    intros Hl. apply Hcr. rewrite <- Hl.
    destruct v as [|c v] using rev_ind; [contradiction|].
    rewrite last_last. apply in_or_app. right. now left.
Qed.

Lemma last_app_nonempty (l1 l2 : list ascii) :
  l2 <> [] -> last (l1 ++ l2) zero = last l2 zero.
Proof.
  intros Hne. destruct l2 as [|c l2] using rev_ind; [contradiction|].
  now rewrite app_assoc, !last_last.
Qed.

Lemma render_fields_last_cr (vals : list (list ascii)) (d : ascii)
      (first : bool) :
  d <> CR -> render_fields vals d first <> [] ->
  last (render_fields vals d first) zero <> CR.
Proof.
  intros Hd. revert first.
  induction vals as [|v vals IH]; intros first Hne; [contradiction|].
  cbn [render_fields] in *.
  destruct (list_eq_dec ascii_dec (render_fields vals d false) [])
    as [E|E].
  - rewrite E, app_nil_r in *.
    destruct (list_eq_dec ascii_dec (csv_escape v d) []) as [E'|E'].
    + rewrite E', app_nil_r in *. destruct first; [contradiction|].
      cbn. congruence.
    + rewrite last_app_nonempty by assumption.
      now apply csv_escape_last_cr.
  - rewrite app_assoc, last_app_nonempty by assumption. now apply IH.
Qed.

Lemma rendered_whole_line (vals : list (list ascii)) (d : ascii) :
  d <> DQUOTE -> d <> NL -> d <> CR -> 2 <= length vals ->
  whole_line (render_fields vals d true).
Proof.
  intros Hq Hn Hc Hlen.
  assert (Hne : render_fields vals d true <> []).
  { destruct vals as [|v [|v' vals]]; cbn [length] in Hlen; try lia.
    cbn [render_fields app]. intros E. apply app_eq_nil in E as [_ E].
    discriminate. }
  destruct (render_fields_state vals d true Hq Hn) as [H1 H2].
  repeat split; try assumption. now apply render_fields_last_cr.
Qed.

Lemma line_end_slow_over (base : list ascii) (total : nat)
      (l rest : list ascii) (i : nat) (q : bool) :
  total <= length base -> i <= total ->
  segment base i total = l ++ rest ->
  newlines_quoted l q = true ->
  line_end_slow base total (total - i) i q
  = line_end_slow base total (total - (i + length l)) (i + length l)
                  (quote_state l q).
Proof.
  intros Hlen. revert i q.
  induction l as [|c l IH]; intros i q Hi Hs Hnl.
  - cbn [length quote_state]. now rewrite Nat.add_0_r.
  - cbn [app] in Hs.
    apply segment_head in Hs as (Hlt & Hc & Hs); [|assumption].
    replace (total - i) with (S (total - S i)) by lia.
    cbn [line_end_slow newlines_quoted quote_state length] in *.
    rewrite Hc.
    replace (i + S (length l)) with (S i + length l) by lia.
    destruct (c =? DQUOTE)%char; [apply IH; auto; lia|].
    destruct (negb q && (c =? NL)%char); [discriminate|].
    apply IH; auto; lia.
Qed.

Lemma find_line_end_whole_line (base : list ascii) (total pos : nat)
      (l rest : list ascii) :
  total <= length base -> pos <= total ->
  segment base pos total = l ++ NL :: rest ->
  quote_state l false = false -> newlines_quoted l false = true ->
  find_line_end base total pos = pos + length l.
Proof.
  intros Hlen Hpos Hs Hq Hn. rewrite find_line_end_slow.
  rewrite (line_end_slow_over base total l (NL :: rest) pos false)
    by assumption.
  rewrite Hq.
  destruct (segment_drop base pos total _ _ Hlen Hpos Hs) as [Hafter Hk].
  apply segment_head in Hafter as (Hlt & Hc & _); [|assumption].
  replace (total - (pos + length l)) with (S (total - S (pos + length l)))
    by lia.
  cbn [line_end_slow]. rewrite Hc. reflexivity.
Qed.

Lemma segment_to_end (base : list ascii) (i : nat) :
  segment base i (length base) = skipn i base.
Proof.
  unfold segment. rewrite <- (length_skipn i base). apply firstn_all.
Qed.

Lemma body_lines_whole_lines (base : list ascii) (lines : list (list ascii))
      (fuel pos : nat) :
  pos <= length base -> length base - pos <= fuel ->
  skipn pos base = concat (map (fun l => l ++ [NL]) lines) ->
  Forall whole_line lines ->
  body_lines base (length base) fuel pos = line_spans pos lines.
Proof.
  revert fuel pos.
  induction lines as [|l lines IH]; intros fuel pos Hpos Hfuel Hs Hall.
  - cbn [map concat] in Hs. apply (f_equal (@length _)) in Hs.
    rewrite length_skipn in Hs. cbn [length] in Hs.
    destruct fuel as [|fuel]; [reflexivity|]. cbn [body_lines line_spans].
    destruct (Nat.ltb_spec pos (length base)); [lia|reflexivity].
  - inversion Hall as [|? ? (Hne & Hq & Hn & Hcr) Hall']; subst.
    cbn [map concat] in Hs. rewrite <- app_assoc in Hs. cbn [app] in Hs.
    rewrite <- segment_to_end in Hs.
    pose proof (find_line_end_whole_line base (length base) pos l _
                  (Nat.le_refl _) Hpos Hs Hq Hn) as Hend.
    destruct (segment_drop base pos (length base) _ _ (Nat.le_refl _)
                           Hpos Hs) as [Hafter Hk].
    apply segment_head in Hafter as (Hlt & Hc & Hafter); [|lia].
    assert (Hl : 0 < length l) by (destruct l; [contradiction|cbn; lia]).
    destruct fuel as [|fuel]; [lia|]. cbn [body_lines line_spans].
    destruct (Nat.ltb_spec pos (length base)); [|lia].
    rewrite Hend.
    assert (Hlast : at_ base (pos + length l - 1) = last l zero).
    { destruct (segment_drop base pos (length base) l _ (Nat.le_refl _)
                             Hpos Hs) as [_ Hle].
      assert (Hseg : segment base pos (pos + length l) = l).
      { unfold segment in *.
        replace (pos + length l - pos) with (length l) by lia.
        apply (f_equal (firstn (length l))) in Hs.
        rewrite firstn_firstn, firstn_app, Nat.sub_diag, firstn_all in Hs.
        cbn [firstn] in Hs. rewrite app_nil_r in Hs.
        rewrite Nat.min_l in Hs by lia. exact Hs. }
      apply (segment_last base pos (pos + length l) l); [lia|assumption|
                                                           assumption]. }
    destruct (Nat.ltb_spec pos (pos + length l)); [|lia]. cbn [andb].
    rewrite Hlast. apply Ascii.eqb_neq in Hcr. rewrite Hcr.
    destruct (Nat.eqb_spec (pos + length l) pos); [lia|].
    unfold next_pos. destruct (Nat.ltb_spec (pos + length l) (length base));
      [|lia].
    f_equal. apply IH; try lia; [|assumption].
    rewrite segment_to_end in Hafter.
    replace (pos + length l + 1) with (S (pos + length l)) by lia.
    exact Hafter.
Qed.

Lemma line_spans_length (pos : nat) (lines : list (list ascii)) :
  length (line_spans pos lines) = length lines.
Proof.
  revert pos. induction lines as [|l ls IH]; intros pos; [reflexivity|].
  cbn [line_spans length]. now rewrite IH.
Qed.

Lemma line_spans_nth (base : list ascii) (lines : list (list ascii))
      (pos i : nat) (span : nat * nat) :
  pos <= length base ->
  skipn pos base = concat (map (fun l => l ++ [NL]) lines) ->
  nth_error (line_spans pos lines) i = Some span ->
  exists l, nth_error lines i = Some l
            /\ fst span <= snd span <= length base
            /\ segment base (fst span) (snd span) = l.
Proof.
  revert pos i. induction lines as [|l ls IH]; intros pos i Hpos Hs Hn.
  - destruct i; discriminate Hn.
  - cbn [map concat] in Hs. rewrite <- app_assoc in Hs. cbn [app] in Hs.
    rewrite <- segment_to_end in Hs.
    destruct (segment_drop base pos (length base) _ _ (Nat.le_refl _)
                           Hpos Hs) as [Hafter Hk].
    apply segment_head in Hafter as (Hlt & _ & Hafter); [|lia].
    destruct i as [|i].
    + cbn in Hn. injection Hn as <-. exists l. cbn [fst snd nth_error].
      split; [reflexivity|]. split; [lia|].
      unfold segment in *.
      replace (pos + length l - pos) with (length l) by lia.
      apply (f_equal (firstn (length l))) in Hs.
      rewrite firstn_firstn, firstn_app, Nat.sub_diag, firstn_all in Hs.
      cbn [firstn] in Hs. rewrite app_nil_r in Hs.
      rewrite Nat.min_l in Hs by lia. exact Hs.
    + cbn [line_spans nth_error] in Hn.
      rewrite segment_to_end in Hafter.
      replace (S (pos + length l)) with (pos + length l + 1) in Hafter
        by lia.
      destruct (IH (pos + length l + 1) i ltac:(lia) Hafter Hn)
        as (l' & Hl' & Hb & Hseg).
      exists l'. auto.
Qed.

Lemma parse_headers (r : CsvReader) (d : ascii) :
  headers_ (parse r d) = headers_ (fst (parse_header (clear r) d))
  /\ ncols_ (parse r d) = ncols_ (fst (parse_header (clear r) d)).
Proof.
  unfold parse. destruct (parse_header (clear r) d) as [r' pos].
  cbn [fst]. destruct (ncols_ r' =? 0); auto.
Qed.

Lemma parse_header_whole_line (hl body : list ascii) (d : ascii) :
  whole_line hl ->
  let file := hl ++ NL :: body in
  parse_header (clear (open file)) d
  = (mkReader file (parse_line_fields file 0 (length hl) d) []
              (length (parse_line_fields file 0 (length hl) d)) 0 0,
     length hl + 1).
Proof.
  intros (Hne & Hq & Hn & Hcr) file.
  assert (Hl : 0 < length hl) by (destruct hl; [contradiction|cbn; lia]).
  assert (Htot : length file = length hl + S (length body)).
  { unfold file. rewrite length_app. reflexivity. }
  unfold parse_header, clear, open, file_size_. cbn [addr fields_
    parsed_rows_ total_rows_].
  destruct (Nat.eqb_spec (length file) 0); [lia|].
  assert (Hseg : segment file 0 (length file) = hl ++ NL :: body).
  { rewrite segment_to_end. reflexivity. }
  rewrite (find_line_end_whole_line file (length file) 0 hl body
             (Nat.le_refl _) ltac:(lia) Hseg Hq Hn).
  cbn [Nat.add].
  assert (Hlast : at_ file (length hl - 1) = last hl zero).
  { apply (segment_last file 0 (length hl) hl); [lia| |assumption].
    exact (segment_middle [] hl (NL :: body)). }
  destruct (Nat.ltb_spec 0 (length hl)); [|lia]. cbn [andb].
  rewrite Hlast. apply Ascii.eqb_neq in Hcr. rewrite Hcr.
  unfold next_pos. destruct (Nat.ltb_spec (length hl) (length file)); [|lia].
  reflexivity.
Qed.

Lemma cut_and_pad_exact (ncols : nat) (raw : list (list ascii)) :
  length raw = ncols -> cut_and_pad ncols raw = raw.
Proof.
  intros <-. unfold cut_and_pad.
  now rewrite firstn_all, Nat.sub_diag, app_nil_r.
Qed.

Lemma csv_lines_unfold (rows : list (list (list ascii))) (d : ascii) :
  csv_lines rows d
  = concat (map (fun l => l ++ [NL])
                (map (fun vals => render_fields vals d true) rows)).
Proof. unfold csv_lines, render_line. now rewrite map_map. Qed.

(** The table [parse] builds from lines of at least two values each,
    written the way [render_csv] writes them. *)
Lemma csv_lines_read_back (hdr : list (list ascii))
      (rows : list (list (list ascii))) (d : ascii) :
  d <> DQUOTE -> d <> NL -> d <> CR -> 2 <= length hdr ->
  Forall (fun vals => length vals = length hdr) rows ->
  let file := csv_lines (hdr :: rows) d in
  let t := parse (open file) d in
  map (fun f => unquote (sv_text file f)) (headers t) = hdr
  /\ column_count t = length hdr
  /\ row_count t = length rows
  /\ forall i, i < length rows ->
               map (fun f => unquote (sv_text file f)) (row t i)
               = nth i rows [].
Proof.
  intros Hq Hn Hc Hlen Hrows file t.
  set (hl := render_fields hdr d true).
  set (rls := map (fun vals => render_fields vals d true) rows).
  set (body := concat (map (fun l => l ++ [NL]) rls)).
  assert (Hfile : file = hl ++ NL :: body).
  { unfold file. rewrite csv_lines_unfold. cbn [map concat].
    now rewrite <- app_assoc. }
  assert (Hhl : whole_line hl) by now apply rendered_whole_line.
  assert (Hrls : Forall whole_line rls).
  { unfold rls. apply Forall_map. eapply Forall_impl; [|exact Hrows].
    intros vals Hv. cbv beta in Hv. apply rendered_whole_line; auto. lia. }
  pose proof (parse_header_whole_line hl body d Hhl) as Hph.
  cbv zeta in Hph. rewrite <- Hfile in Hph.
  assert (Hhead : map (fun f => unquote (sv_text file f))
                      (parse_line_fields file 0 (length hl) d) = hdr).
  { apply parse_line_fields_rendered; try assumption.
    - intros E. rewrite E in Hlen. cbn in Hlen. lia.
    - rewrite Hfile, length_app. lia.
    - lia.
    - rewrite Hfile. exact (segment_middle [] hl (NL :: body)). }
  assert (Hncols : length (parse_line_fields file 0 (length hl) d)
                   = length hdr).
  { apply (f_equal (@length _)) in Hhead. now rewrite length_map in Hhead. }
  destruct (parse_headers (open file) d) as [Hh Hnc].
  rewrite Hph in Hh, Hnc. cbn [fst headers_ ncols_] in Hh, Hnc.
  rewrite Hncols in Hnc.
  assert (Hlines : data_lines (open file) d
                   = line_spans (length hl + 1) rls).
  { unfold data_lines. rewrite Hph. cbn [snd addr open file_size_].
    apply body_lines_whole_lines; try assumption.
    - rewrite Hfile, length_app. cbn [length]. lia.
    - unfold file_size_, open. cbn [addr]. lia.
    - rewrite Hfile. replace (length hl + 1) with (length (hl ++ [NL]))
        by (rewrite length_app; reflexivity).
      change (hl ++ NL :: body) with (hl ++ [NL] ++ body).
      rewrite app_assoc, skipn_app, Nat.sub_diag, skipn_all. reflexivity. }
  destruct (parse_table (open file) d) as [Haddr Htab].
  fold t in Haddr, Htab, Hh, Hnc. cbn [addr open] in Haddr, Htab.
  destruct Htab as [Hfields Hcount]; [rewrite Hnc; lia|].
  rewrite Hlines in Hfields, Hcount. rewrite line_spans_length in Hcount.
  unfold headers, column_count, row_count.
  split; [now rewrite Hh|]. split; [exact Hnc|].
  split; [rewrite Hcount; unfold rls; apply length_map|].
  intros i Hi.
  destruct (table_row_of_line file d (ncols_ t)
              (line_spans (length hl + 1) rls) (fields_ t) i Hfields)
    as (span & Hspan & Hrow).
  { rewrite line_spans_length. unfold rls. now rewrite length_map. }
  destruct (line_spans_nth file rls (length hl + 1) i span) as
    (l & Hl & Hb & Hseg); try assumption.
  { rewrite Hfile, length_app. cbn [length]. lia. }
  { rewrite Hfile. replace (length hl + 1) with (length (hl ++ [NL]))
      by (rewrite length_app; reflexivity).
    change (hl ++ NL :: body) with (hl ++ [NL] ++ body).
    rewrite app_assoc, skipn_app, Nat.sub_diag, skipn_all. reflexivity. }
  unfold rls in Hl. rewrite nth_error_map in Hl.
  destruct (nth_error rows i) as [vals|] eqn:Hvals; [|discriminate].
  cbn [option_map] in Hl. injection Hl as <-.
  assert (Hvlen : length vals = length hdr).
  { rewrite Forall_forall in Hrows. apply Hrows.
    eapply nth_error_In; eassumption. }
  assert (Hread : map (fun f => unquote (sv_text file f))
                      (parse_line_fields file (fst span) (snd span) d)
                  = vals).
  { apply parse_line_fields_rendered; try assumption; try lia.
    intros E. rewrite E in Hvlen. cbn in Hvlen. lia. }
  rewrite (nth_error_nth _ _ _ Hvals).
  unfold row.
  rewrite <- (map_map (sv_text file) unquote), Hrow.
  rewrite cut_and_pad_exact.
  - now rewrite map_map.
  - rewrite length_map. apply (f_equal (@length _)) in Hread.
    rewrite length_map in Hread. lia.
Qed.

(** ** Reading back what [render_csv] writes: the table *)

Lemma render_csv_table (reader : CsvReader) (ri ci : option (list nat))
      (max_rows : nat) (d : ascii) :
  render_csv reader ri ci max_rows d
  = csv_lines
      (csv_header reader (csv_columns reader ci)
       :: map (csv_row reader ri (csv_columns reader ci))
              (seq 0 (csv_row_count reader ri max_rows)))
      d.
Proof.
  unfold render_csv, csv_lines. cbn [map concat]. now rewrite map_map.
Qed.

(** X22. What [render_csv] writes, [parse] reads back.  For a selection
    of at least two columns and a delimiter that is not a quote, a
    newline or a carriage return, parsing the output with that delimiter
    gives the header values that were written, as many rows as were
    written, and in every row the values that were written, whatever
    delimiters, quotes and line breaks they hold. *)
Theorem render_csv_reads_back
        (reader : CsvReader) (row_indices col_indices : option (list nat))
        (max_rows : nat) (d : ascii) :
  d <> DQUOTE -> d <> NL -> d <> CR ->
  2 <= length (csv_columns reader col_indices) ->
  let cols := csv_columns reader col_indices in
  let out := render_csv reader row_indices col_indices max_rows d in
  let t := parse (open out) d in
  texts out (headers t) = csv_header reader cols
  /\ column_count t = length cols
  /\ row_count t = csv_row_count reader row_indices max_rows
  /\ forall r, r < row_count t ->
               texts out (row t r) = csv_row reader row_indices cols r.
Proof.
  intros Hq Hn Hc Hcols cols out t. subst out t.
  rewrite render_csv_table. fold cols.
  set (n := csv_row_count reader row_indices max_rows).
  destruct (csv_lines_read_back
              (csv_header reader cols)
              (map (csv_row reader row_indices cols) (seq 0 n)) d
              Hq Hn Hc) as (Hh & Hnc & Hrc & Hrows).
  - unfold csv_header. now rewrite length_map.
  - apply Forall_map, Forall_forall. intros r _.
    unfold csv_row, csv_header. now rewrite !length_map.
  - rewrite length_map, length_seq in Hrc, Hrows.
    unfold csv_header in Hnc. rewrite length_map in Hnc.
    split; [exact Hh|]. split; [exact Hnc|]. split; [exact Hrc|].
    intros r Hr. rewrite Hrc in Hr. unfold texts. rewrite (Hrows r Hr).
    rewrite (nth_indep _ [] (csv_row reader row_indices cols 0))
      by (now rewrite length_map, length_seq).
    rewrite map_nth, seq_nth by assumption. reflexivity.
Qed.

Lemma csv_header_all (t : CsvReader) :
  column_count t = length (headers t) ->
  csv_header t (csv_columns t None) = header_names t.
Proof.
  intros Hn. unfold csv_header, csv_columns, header_names. rewrite Hn.
  apply (map_seq_nth (fun h => unquote (text_of t h))).
Qed.

Lemma csv_row_all (t : CsvReader) (r : nat) :
  length (row t r) = ncols_ t ->
  csv_row t None (csv_columns t None) r = texts (addr t) (row t r).
Proof.
  intros Hl. unfold csv_row, csv_columns, texts, column_count.
  rewrite (map_ext_in _ (fun ac => unquote (text_of t
                                     (nth ac (row t r) NullView)))).
  - rewrite <- Hl. apply (map_seq_nth (fun h => unquote (text_of t h))).
  - intros ac Hac. apply in_seq in Hac.
    destruct (Nat.ltb_spec ac (ncols_ t)); [reflexivity|lia].
Qed.

(** X23. Writing a parsed table out and parsing the output gives the
    table back.  For the table [parse] builds from any bytes under any
    delimiter, if it has at least two columns, then [render_csv] of all
    its columns and rows under a delimiter that is not a quote, a newline
    or a carriage return, parsed with that delimiter, has the same header
    names, the same number of columns, the rows up to [max_rows], and in
    each of them the same unquoted cells. *)
Theorem parse_of_render_csv_is_the_table
        (r : CsvReader) (d0 d : ascii) (max_rows : nat) :
  d <> DQUOTE -> d <> NL -> d <> CR ->
  let t0 := parse r d0 in
  2 <= column_count t0 ->
  let out := render_csv t0 None None max_rows d in
  let t := parse (open out) d in
  header_names t = header_names t0
  /\ column_count t = column_count t0
  /\ row_count t = Nat.min (row_count t0) max_rows
  /\ forall i, i < row_count t ->
               texts (addr t) (row t i) = texts (addr t0) (row t0 i).
Proof.
  intros Hq Hn Hc t0 Hcols out t. subst out t.
  rewrite render_csv_table.
  set (n := csv_row_count t0 None max_rows).
  assert (Hlen : length (csv_columns t0 None) = column_count t0).
  { unfold csv_columns. apply length_seq. }
  destruct (csv_lines_read_back
              (csv_header t0 (csv_columns t0 None))
              (map (csv_row t0 None (csv_columns t0 None)) (seq 0 n)) d
              Hq Hn Hc) as (Hh & Hnc & Hrc & Hrows).
  - unfold csv_header. rewrite length_map. lia.
  - apply Forall_map, Forall_forall. intros i _.
    unfold csv_row, csv_header. now rewrite !length_map.
  - rewrite length_map, length_seq in Hrc, Hrows.
    unfold csv_header in Hnc. rewrite length_map, Hlen in Hnc.
    set (file := csv_lines _ d) in *.
    destruct (parse_table (open file) d) as [Haddr _].
    cbn [addr open] in Haddr.
    split.
    { unfold header_names at 1, text_of. rewrite Haddr, Hh.
      apply csv_header_all. unfold t0, column_count, headers.
      apply parse_ncols_headers. }
    split; [exact Hnc|]. split; [exact Hrc|].
    intros i Hi. rewrite Hrc in Hi. rewrite Haddr.
    unfold texts at 1. rewrite (Hrows i Hi).
    rewrite (nth_indep _ [] (csv_row t0 None (csv_columns t0 None) 0))
      by (now rewrite length_map, length_seq).
    rewrite map_nth, seq_nth by assumption. cbn [Nat.add].
    apply csv_row_all. apply row_length; [apply parse_stride|].
    unfold n, csv_row_count, row_count in Hi. lia.
Qed.

Lemma render_csv_reads_back_witness :
  let reader := parse (open people_csv) "," in
  let out := render_csv reader (Some [1]) (Some [1; 0]) 5 TAB in
  2 <= length (csv_columns reader (Some [1; 0]))
  /\ texts out (headers (parse (open out) TAB)) = [str "age"; str "name"]
  /\ row_count (parse (open out) TAB) = 1.
Proof.
  cbv zeta.
  assert (H : 2 <= length (csv_columns (parse (open people_csv) ",")
                                       (Some [1; 0]))) by (cbn; lia).
  split; [exact H|].
  pose proof (render_csv_reads_back (parse (open people_csv) ",") (Some [1])
                (Some [1; 0]) 5 TAB ltac:(discriminate) ltac:(discriminate)
                ltac:(discriminate) H) as (Hh & _ & Hr & _).
  split; [exact Hh|exact Hr].
Defined.

Lemma parse_of_render_csv_is_the_table_witness :
  let t0 := parse (open quoted_pipes_csv) "|" in
  let out := render_csv t0 None None 10 "," in
  2 <= column_count t0
  /\ header_names (parse (open out) ",") = header_names t0
  /\ row_count (parse (open out) ",") = 2.
Proof.
  cbv zeta.
  assert (H : 2 <= column_count (parse (open quoted_pipes_csv) "|"))
    by (vm_compute; lia).
  split; [exact H|].
  pose proof (parse_of_render_csv_is_the_table (open quoted_pipes_csv)
                "|"%char ","%char 10 ltac:(discriminate) ltac:(discriminate)
                ltac:(discriminate) H) as (Hh & _ & Hr & _).
  split; [exact Hh|exact Hr].
Defined.

(** ** What a head parse reports as the total *)

Lemma line_step_progress (base : list ascii) (total pos : nat) :
  pos < total ->
  pos < next_pos (find_line_end base total pos) total <= total.
Proof.
  intros Hp. apply next_pos_progress; [assumption|].
  apply find_line_end_bounds. lia.
Qed.

Lemma body_lines_fuel (base : list ascii) (total f1 f2 pos : nat) :
  total - pos <= f1 -> total - pos <= f2 ->
  body_lines base total f1 pos = body_lines base total f2 pos.
Proof.
  revert f2 pos. induction f1 as [|f1 IH]; intros [|f2] pos H1 H2;
    cbn [body_lines]; try reflexivity;
    destruct (Nat.ltb_spec pos total) as [Hp|Hp]; try reflexivity; try lia.
  pose proof (line_step_progress base total pos Hp) as Hn.
  rewrite (IH f2 (next_pos (find_line_end base total pos) total)) by lia.
  reflexivity.
Qed.

Lemma blank_lines_fuel (base : list ascii) (total f1 f2 pos : nat) :
  total - pos <= f1 -> total - pos <= f2 ->
  blank_lines base total f1 pos = blank_lines base total f2 pos.
Proof.
  revert f2 pos. induction f1 as [|f1 IH]; intros [|f2] pos H1 H2;
    cbn [blank_lines]; try reflexivity;
    destruct (Nat.ltb_spec pos total) as [Hp|Hp]; try reflexivity; try lia.
  pose proof (line_step_progress base total pos Hp) as Hn.
  rewrite (IH f2 (next_pos (find_line_end base total pos) total)) by lia.
  reflexivity.
Qed.

(** Rows parsed so far and rows still ahead: what the body loop keeps. *)
Lemma body_step_rows_ahead (base : list ascii) (total : nat) (d : ascii)
      (ncols : nat) (s : body_state) :
  b_pos s < total ->
  let s' := body_step base total d ncols s in
  b_rows s' + length (body_lines base total (total - b_pos s') (b_pos s'))
  = b_rows s + length (body_lines base total (total - b_pos s) (b_pos s))
  /\ blank_lines base total (total - b_pos s) (b_pos s)
     = blank_lines base total (total - b_pos s') (b_pos s')
       + (b_rows s + 1 - b_rows s').
Proof.
  intros Hp. cbv zeta.
  pose proof (line_step_progress base total (b_pos s) Hp) as Hn.
  replace (total - b_pos s) with (S (total - S (b_pos s))) by lia.
  cbn [body_lines blank_lines]. unfold body_step.
  destruct (Nat.ltb_spec (b_pos s) total); [|lia].
  set (next := next_pos (find_line_end base total (b_pos s)) total) in *.
  rewrite (body_lines_fuel base total (total - S (b_pos s)) (total - next))
    by lia.
  rewrite (blank_lines_fuel base total (total - S (b_pos s)) (total - next))
    by lia.
  destruct (_ =? b_pos s); cbn [b_pos b_rows length]; split; lia.
Qed.

Lemma parse_head_loop_rows_ahead (base : list ascii) (total : nat)
      (d : ascii) (ncols max_rows fuel : nat) (s : body_state) :
  total - b_pos s <= fuel ->
  let s' := parse_head_loop base total d ncols max_rows fuel s in
  b_rows s' + length (body_lines base total (total - b_pos s') (b_pos s'))
  = b_rows s + length (body_lines base total (total - b_pos s) (b_pos s))
  /\ b_pos s' <= Nat.max total (b_pos s).
Proof.
  revert s. induction fuel as [|fuel IH]; intros s Hf; cbn [parse_head_loop].
  - split; [reflexivity|lia].
  - destruct (Nat.ltb_spec (b_pos s) total) as [Hp|Hp]; cbn [andb];
      [|split; [reflexivity|lia]].
    destruct (b_rows s <? max_rows); [|split; [reflexivity|lia]].
    pose proof (body_step_progress base total d ncols s Hp) as Hn.
    destruct (IH (body_step base total d ncols s) ltac:(lia)) as [H1 H2].
    destruct (body_step_rows_ahead base total d ncols s Hp) as [H3 _].
    cbv zeta in *. split; lia.
Qed.

Lemma memchr_absent (base : list ascii) (c : ascii) (n start : nat) :
  (forall j, start <= j < start + n -> at_ base j <> c) ->
  memchr base c start n = None.
Proof.
  revert start. induction n as [|n IH]; intros start Hno; [reflexivity|].
  cbn [memchr].
  destruct (Ascii.eqb_spec (at_ base start) c) as [Hc|_].
  - exfalso. apply (Hno start); [lia|assumption].
  - apply IH. intros j Hj. apply Hno. lia.
Qed.

Lemma find_line_end_plain (base : list ascii) (total pos : nat) :
  (forall j, pos <= j < total -> at_ base j <> DQUOTE) ->
  find_line_end base total pos
  = match memchr base NL pos (total - pos) with
    | Some p => p
    | None => total
    end.
Proof.
  intros Hq. unfold find_line_end.
  destruct (memchr base NL pos (total - pos)) as [p|] eqn:E.
  - apply memchr_bounds in E.
    rewrite memchr_absent; [reflexivity|]. intros j Hj. apply Hq. lia.
  - rewrite memchr_absent; [reflexivity|]. intros j Hj. apply Hq. lia.
Qed.

Lemma count_nl_none (base : list ascii) (i n : nat) :
  (forall j, i <= j < i + n -> at_ base j <> NL) -> count_nl base i n = 0.
Proof.
  revert i. induction n as [|n IH]; intros i Hno; [reflexivity|].
  cbn [count_nl].
  destruct (Ascii.eqb_spec (at_ base i) NL) as [Hc|_].
  - exfalso. apply (Hno i); [lia|assumption].
  - rewrite IH; [reflexivity|]. intros j Hj. apply Hno. lia.
Qed.

Lemma count_nl_first (base : list ascii) (pos n p : nat) :
  memchr base NL pos n = Some p ->
  count_nl base pos n = S (count_nl base (S p) (pos + n - S p)).
Proof.
  intros Hm. pose proof (memchr_bounds _ _ _ _ _ Hm) as Hb.
  destruct (memchr_first _ _ _ _ _ Hm) as [Hp Hbefore].
  replace n with ((p - pos) + S (pos + n - S p)) at 1 by lia.
  rewrite count_nl_app, (count_nl_none base pos (p - pos)).
  - replace (pos + (p - pos)) with p by lia. cbn [count_nl Nat.add].
    now rewrite Hp, Ascii.eqb_refl.
  - intros j Hj. apply Hbefore. lia.
Qed.

(** The lines of a stretch without quotes, blank ones included, are as
    many as its newlines, and one more when it does not end in one. *)
Lemma plain_lines_count (base : list ascii) (total fuel pos : nat) :
  (forall j, pos <= j < total -> at_ base j <> DQUOTE) ->
  total - pos <= fuel ->
  length (body_lines base total fuel pos) + blank_lines base total fuel pos
  = if pos <? total
    then count_nl base pos (total - pos)
         + (if (at_ base (total - 1) =? NL)%char then 0 else 1)
    else 0.
Proof.
  revert pos. induction fuel as [|fuel IH]; intros pos Hq Hf;
    cbn [body_lines blank_lines].
  - destruct (Nat.ltb_spec pos total); [lia|reflexivity].
  - destruct (Nat.ltb_spec pos total) as [Hp|Hp]; [|reflexivity].
    pose proof (line_step_progress base total pos Hp) as Hn.
    rewrite find_line_end_plain in * by assumption.
    set (e := match memchr base NL pos (total - pos) with
              | Some p => p
              | None => total
              end) in *.
    assert (Hrest : length (body_lines base total fuel (next_pos e total))
                    + blank_lines base total fuel (next_pos e total) + 1
                    = count_nl base pos (total - pos)
                      + (if (at_ base (total - 1) =? NL)%char then 0 else 1)).
    { rewrite IH; [|intros j Hj; apply Hq; lia|lia].
      unfold e, next_pos in *.
      destruct (memchr base NL pos (total - pos)) as [p|] eqn:E.
      - pose proof (memchr_bounds _ _ _ _ _ E) as Hb.
        destruct (memchr_first _ _ _ _ _ E) as [Hnl _].
        rewrite (count_nl_first base pos (total - pos) p E).
        replace (pos + (total - pos) - S p) with (total - S p) by lia.
        destruct (Nat.ltb_spec p total); [|lia].
        replace (p + 1) with (S p) by lia.
        destruct (Nat.ltb_spec (S p) total) as [Hlt|Hge]; [lia|].
        replace (total - S p) with 0 by lia.
        replace (total - 1) with p by lia.
        rewrite Hnl, Ascii.eqb_refl. cbn. lia.
      - rewrite !Nat.ltb_irrefl.
        rewrite count_nl_none by (apply (memchr_none _ _ _ _ E)).
        destruct (Ascii.eqb_spec (at_ base (total - 1)) NL) as [Hc|_];
          [|reflexivity].
        exfalso. apply (memchr_none _ _ _ _ E (total - 1)); [lia|assumption]. }
    destruct (_ =? pos); cbn [length]; lia.
Qed.

Lemma count_nl_skipn (base : list ascii) (o i n : nat) :
  count_nl (skipn o base) i n = count_nl base (o + i) n.
Proof.
  revert i. induction n as [|n IH]; intros i; [reflexivity|].
  cbn [count_nl]. rewrite at_skipn, IH.
  now replace (o + S i) with (S (o + i)) by lia.
Qed.

Lemma count_rows_from_plain (arm_neon : bool) (r : CsvReader)
      (offset : nat) :
  (forall j, at_ (addr r) j <> DQUOTE) ->
  (arm_neon = true -> count_nl (addr r) 0 (file_size_ r) <= 255) ->
  count_rows_from arm_neon r offset
  = if offset <? file_size_ r
    then count_nl (addr r) offset (file_size_ r - offset)
         + (if (at_ (addr r) (file_size_ r - 1) =? NL)%char then 0 else 1)
    else 0.
Proof.
  intros Hq Hneon. unfold count_rows_from.
  destruct (Nat.leb_spec (file_size_ r) offset) as [Hle|Hlt];
    destruct (Nat.ltb_spec offset (file_size_ r)); try lia.
  destruct (Nat.eqb_spec (file_size_ r - offset) 0); [lia|].
  rewrite memchr_absent by (intros j _; rewrite at_skipn; apply Hq).
  assert (Hcount : count_newlines arm_neon (skipn offset (addr r))
                                  (file_size_ r - offset)
                   = count_nl (addr r) offset (file_size_ r - offset)).
  { assert (Hs : count_newlines false (skipn offset (addr r))
                                (file_size_ r - offset)
                 = count_nl (addr r) offset (file_size_ r - offset)).
    { rewrite count_newlines_scalar, count_nl_skipn.
      now rewrite Nat.add_0_r. }
    destruct arm_neon; [|exact Hs].
    rewrite count_newlines_neon_small; [exact Hs|].
    rewrite Hs. specialize (Hneon eq_refl).
    replace (file_size_ r) with (offset + (file_size_ r - offset)) in Hneon
      at 1 by lia.
    rewrite count_nl_app in Hneon. cbn [Nat.add] in Hneon. lia. }
  rewrite Hcount, at_skipn.
  replace (offset + (file_size_ r - offset - 1)) with (file_size_ r - 1)
    by lia.
  destruct (at_ (addr r) (file_size_ r - 1) =? NL)%char; cbn [negb]; lia.
Qed.

(** X24. What [total_rows] is after a head parse of a file without
    quotes: the number of rows a full parse finds, plus the number of
    blank lines after the place where the head parse stopped.  So on such
    a file the total is never too small, and it is the true row count
    exactly when no blank line follows the parsed head.  (With the
    vectorized counter compiled in, for files of at most 255 newlines.) *)
Theorem head_total_counts_blank_lines
        (arm_neon : bool) (r : CsvReader) (d : ascii) (max_rows : nat) :
  ~ In DQUOTE (addr r) ->
  (arm_neon = true -> count_nl (addr r) 0 (file_size_ r) <= 255) ->
  column_count (parse r d) <> 0 ->
  total_rows (parse_head arm_neon r d max_rows)
  = row_count (parse r d)
    + blank_lines (addr r) (file_size_ r) (file_size_ r)
                  (head_stop r d max_rows).
Proof.
  intros Hq Hneon Hcols.
  assert (Hat : forall j, at_ (addr r) j <> DQUOTE)
    by (intros j; apply at_absent; [discriminate|exact Hq]).
  destruct (parse_table r d) as [_ Htab].
  destruct (Htab Hcols) as [_ Hrows]. clear Htab.
  unfold column_count, row_count, total_rows in *.
  unfold data_lines in Hrows. revert Hcols Hrows.
  unfold parse_head, parse, head_stop.
  pose proof (parse_header_clear r d) as (Hf & Hr & Ha).
  destruct (parse_header (clear r) d) as [r' pos]. cbn [fst snd] in *.
  destruct (Nat.eqb_spec (ncols_ r') 0) as [E|E]; [contradiction|].
  cbn [ncols_ parsed_rows_ total_rows_]. intros _ Hrows.
  unfold file_size_ in *. rewrite Ha in *.
  set (total := length (addr r)) in *.
  set (s0 := mkBody pos (fields_ r') (parsed_rows_ r')) in *.
  destruct (parse_head_loop_rows_ahead (addr r) total d (ncols_ r') max_rows
              (total - pos) s0 ltac:(cbn; lia)) as [Hahead Hstop].
  cbv zeta in Hahead.
  set (s := parse_head_loop (addr r) total d (ncols_ r') max_rows
                            (total - pos) s0) in *.
  assert (H0 : b_rows s0 = 0) by exact Hr.
  change (b_pos s0) with pos in Hahead.
  rewrite H0 in Hahead. cbn [Nat.add] in Hahead.
  rewrite Hrows, <- Hahead.
  assert (Hcount : count_rows_from arm_neon r' (b_pos s)
                   = length (body_lines (addr r) total (total - b_pos s)
                                        (b_pos s))
                     + blank_lines (addr r) total (total - b_pos s)
                                   (b_pos s)).
  { rewrite plain_lines_count by (auto; lia).
    rewrite count_rows_from_plain.
    - unfold file_size_. rewrite Ha. reflexivity.
    - rewrite Ha. exact Hat.
    - unfold file_size_. rewrite Ha. exact Hneon. }
  rewrite Hcount.
  rewrite (blank_lines_fuel (addr r) total total (total - b_pos s)) by lia.
  lia.
Qed.

Lemma head_total_counts_blank_lines_witness :
  total_rows (parse_head true (open blank_line_csv) "," 1)
  = row_count (parse (open blank_line_csv) ",") + 1.
Proof.
  apply (head_total_counts_blank_lines true (open blank_line_csv) ","%char 1).
  - vm_compute. intuition discriminate.
  - intros _. vm_compute. lia.
  - vm_compute. discriminate.
Defined.

(** ** Counting newlines, without wrap-around *)

(** X25. [count_newlines] returns the number of newline bytes in its
    range: always when compiled without the vector unit, and with it
    whenever the range holds at most 255 of them. *)
Theorem count_newlines_exact (arm_neon : bool) (data : list ascii)
        (len : nat) :
  (arm_neon = true -> count_nl data 0 len <= 255) ->
  count_newlines arm_neon data len = count_nl data 0 len.
Proof.
  intros Hsmall. destruct arm_neon; [|apply count_newlines_scalar].
  rewrite count_newlines_neon_small; rewrite count_newlines_scalar;
    [reflexivity|]. now apply Hsmall.
Qed.

Lemma count_newlines_exact_witness :
  count_newlines true ten_rows_csv (length ten_rows_csv) = 11.
Proof.
  apply (count_newlines_exact true ten_rows_csv (length ten_rows_csv)).
  intros _. vm_compute. lia.
Defined.

(** ** Output: truncation and JSON strings *)

(** X26. [truncate] (and [truncate_str] of the pager, which has the same
    body) never returns more than [max_w] characters: the result has
    [min (size, max_w)] of them, a text that fits is returned as it is,
    and truncating twice is truncating once. *)
Theorem truncate_fits (s : list ascii) (max_w : nat) :
  length (truncate s max_w) = Nat.min (length s) max_w
  /\ (length s <= max_w -> truncate s max_w = s)
  /\ truncate (truncate s max_w) max_w = truncate s max_w.
Proof.
  assert (Hlen : length (truncate s max_w) = Nat.min (length s) max_w).
  { unfold truncate. destruct (Nat.leb_spec (length s) max_w); [lia|].
    destruct (Nat.leb_spec max_w 3).
    - rewrite repeat_length. lia.
    - rewrite length_app, length_firstn. cbn [length str
        list_ascii_of_string]. lia. }
  assert (Hid : forall x, length x <= max_w -> truncate x max_w = x).
  { intros x Hx. unfold truncate.
    destruct (Nat.leb_spec (length x) max_w); [reflexivity|lia]. }
  split; [exact Hlen|]. split; [apply Hid|]. apply Hid. lia.
Qed.

Lemma truncate_fits_witness :
  truncate (str "Al") 5 = str "Al".
Proof.
  apply (proj1 (proj2 (truncate_fits (str "Al") 5))). cbn. lia.
Defined.

Lemma hex_digit_is_hex (k : nat) : is_hex (hex_digit k) = true.
Proof.
  unfold hex_digit.
  do 16 (destruct k as [|k]; [reflexivity|]).
  cbn. destruct k; reflexivity.
Qed.

Lemma json_escape_app (c : ascii) (r : list ascii) :
  json_escape (c :: r) = json_escape_char c ++ json_escape r.
Proof. reflexivity. Qed.

Lemma unicode_escape_value (n : nat) :
  n < 32 ->
  ascii_of_nat (16 * hex_value (hex_digit (n / 16 mod 16))
                + hex_value (hex_digit (n mod 16)))
  = ascii_of_nat n.
Proof.
  intros Hn. do 32 (destruct n as [|n]; [reflexivity|]). lia.
Qed.

Lemma json_unescape_escape (val : list ascii) :
  json_unescape (json_escape val) = val.
Proof.
  induction val as [|c r IH]; [reflexivity|].
  rewrite json_escape_app. unfold json_escape_char.
  destruct (Ascii.eqb_spec c DQUOTE) as [->|Hq].
  { cbn. now rewrite IH. }
  destruct (Ascii.eqb_spec c BACKSLASH) as [->|Hb].
  { cbn. now rewrite IH. }
  destruct (Ascii.eqb_spec c NL) as [->|Hn].
  { cbn. now rewrite IH. }
  destruct (Ascii.eqb_spec c CR) as [->|Hc].
  { cbn. now rewrite IH. }
  destruct (Ascii.eqb_spec c TAB) as [->|Ht].
  { cbn. now rewrite IH. }
  destruct (Nat.ltb_spec (code c) 32) as [Hlt|Hge].
  - unfold unicode_escape. cbn [app json_unescape].
    change (BACKSLASH =? BACKSLASH)%char with true.
    change ("u" =? "u")%char with true. cbv iota.
    rewrite (unicode_escape_value (code c) Hlt), IH.
    unfold code. now rewrite ascii_nat_embedding.
  - cbn [app json_unescape]. apply Ascii.eqb_neq in Hb. rewrite Hb.
    now rewrite IH.
Qed.

(** X27. What [json_escape] returns can stand between the quotes of a
    JSON string: it holds no raw control character, no quote and no
    backslash outside an escape, and every escape is one JSON knows
    (bytes from [0x80] on pass through unchanged).  And nothing is lost:
    two texts with the same escaped form are the same text. *)
Theorem json_escape_is_string_body (val : list ascii) :
  json_string_body (json_escape val)
  /\ forall val', json_escape val = json_escape val' -> val = val'.
Proof.
  split.
  2:{ intros val' E. rewrite <- (json_unescape_escape val), E.
      apply json_unescape_escape. }
  induction val as [|c r IH]; [constructor|].
  rewrite json_escape_app. unfold json_escape_char.
  destruct (Ascii.eqb_spec c DQUOTE) as [->|Hq].
  { apply body_escape; [cbn; auto|exact IH]. }
  destruct (Ascii.eqb_spec c BACKSLASH) as [->|Hb].
  { apply body_escape; [cbn; auto|exact IH]. }
  destruct (Ascii.eqb_spec c NL) as [->|Hn].
  { apply body_escape; [cbn; auto 10|exact IH]. }
  destruct (Ascii.eqb_spec c CR) as [->|Hc].
  { apply body_escape; [cbn; auto 10|exact IH]. }
  destruct (Ascii.eqb_spec c TAB) as [->|Ht].
  { apply body_escape; [cbn; auto 10|exact IH]. }
  destruct (Nat.ltb_spec (code c) 32) as [Hlt|Hge].
  - unfold unicode_escape. cbn [app].
    apply body_unicode; try apply hex_digit_is_hex. exact IH.
  - cbn [app]. now apply body_char.
Qed.

Lemma json_escape_is_string_body_witness :
  json_string_body (json_escape [TAB; DQUOTE; "a"%char])
  /\ str "a" = str "a".
Proof.
  split.
  - exact (proj1 (json_escape_is_string_body [TAB; DQUOTE; "a"%char])).
  - exact (proj2 (json_escape_is_string_body (str "a")) (str "a") eq_refl).
Defined.

(** ** Witnesses of the shapes and of the text operators *)

Lemma is_int64_signed_digits_witness : is_int64 (str "-42") = true.
Proof.
  apply (proj2 (is_int64_signed_digits (str "-42"))).
  exists ["-"%char], (str "42"). split; [reflexivity|].
  split; [right; right; reflexivity|]. split; [discriminate|].
  repeat constructor.
Defined.

Lemma is_date_shapes_witness : is_date (str "2024-01-31") = true.
Proof.
  apply (proj2 (is_date_shapes (str "2024-01-31"))). left.
  exists "2"%char, "0"%char, "2"%char, "4"%char, "-"%char,
         "0"%char, "1"%char, "-"%char, "3"%char, "1"%char.
  split; [reflexivity|]. split; [repeat constructor|].
  split; left; reflexivity.
Defined.

Lemma is_currency_dollar_amount_witness :
  is_currency (str "$1,234.50") = true.
Proof.
  apply (proj2 (is_currency_dollar_amount (str "$1,234.50"))).
  exists [], [], (str "1,234.50"). split; [reflexivity|].
  split; [left; reflexivity|]. split; [left; reflexivity|].
  split; [|split]; [|vm_compute; lia|constructor; reflexivity].
  cbv [str list_ascii_of_string].
  repeat (apply Forall_cons;
          [first [left; reflexivity|right; left; reflexivity
                 |right; right; reflexivity]|]).
  apply Forall_nil.
Defined.

Lemma one_value_one_type_witness :
  is_bool (str "1") && is_int64 (str "1") = true.
Proof.
  apply (proj2 (proj2 (proj2 (proj2 (proj2 (proj2 (proj2 (proj2 (proj2
           (one_value_one_type (str "1"))))))))))).
  right. reflexivity.
Defined.

Lemma text_operators_match_substrings_witness :
  compare_strings (str "Alice") StartsWith (str "al") true = true.
Proof.
  apply (proj1 (text_operators_match_substrings (str "Alice") (str "al")
                  true)).
  exists (str "ice"). reflexivity.
Defined.

(** ** A head parse is enough for what is shown *)

Lemma parse_head_same_head (arm_neon : bool) (r : CsvReader) (d : ascii)
      (k m : nat) :
  m <= k -> same_head (parse_head arm_neon r d k) (parse r d) m.
Proof.
  intros Hm.
  destruct (parse_head_table arm_neon r d k) as [Ha _].
  destruct (parse_table r d) as [Ha' _].
  destruct (parse_head_rows_prefix arm_neon r d k) as [Hn _].
  pose proof (parse_head_row_count arm_neon r d k) as Hc.
  repeat split.
  - congruence.
  - apply parse_head_headers.
  - exact Hn.
  - rewrite Hc. lia.
  - intros i Hi. apply parse_head_row. rewrite Hc. lia.
Qed.

Lemma sample_loop_same_head (h t : CsvReader) (col n r : nat)
      (values : list string_view) (uniq : list (list ascii)) :
  addr h = addr t -> ncols_ h = ncols_ t ->
  (forall i, r <= i < r + n -> row h i = row t i) ->
  sample_loop h col n r values uniq = sample_loop t col n r values uniq.
Proof.
  intros Ha Hn. revert r values uniq.
  induction n as [|n IH]; intros r values uniq Hrows; [reflexivity|].
  cbn [sample_loop]. unfold text_of. rewrite Ha, Hn, (Hrows r) by lia.
  destruct (col <? ncols_ t); [|apply IH; intros i Hi; apply Hrows; lia].
  destruct (negb (is_empty _)); apply IH; intros i Hi; apply Hrows; lia.
Qed.

Lemma infer_schema_same_head (h t : CsvReader) (n : nat) :
  same_head h t n -> infer_schema h n = infer_schema t n.
Proof.
  intros (Ha & Hh & Hn & Hc & Hrows). unfold infer_schema, column_count.
  rewrite Hn, Hc. apply map_ext. intros col. unfold infer_column.
  unfold headers, text_of. rewrite Ha, Hh.
  destruct (Nat.min (row_count t) n =? 0); [reflexivity|].
  rewrite (sample_loop_same_head h t col (Nat.min (row_count t) n) 0 [] []
             Ha Hn) by (intros i Hi; apply Hrows; lia).
  destruct (sample_loop t col (Nat.min (row_count t) n) 0 [] [])
    as [[|v values] uniq]; [reflexivity|].
  f_equal. unfold detect_type, all_match, text_of. now rewrite Ha.
Qed.

Lemma render_csv_same_head (h t : CsvReader) (ci : option (list nat))
      (m : nat) (dl : ascii) :
  same_head h t m -> render_csv h None ci m dl = render_csv t None ci m dl.
Proof.
  intros (Ha & Hh & Hn & Hc & Hrows). unfold render_csv.
  assert (Hcols : csv_columns h ci = csv_columns t ci).
  { unfold csv_columns, column_count. now rewrite Hn. }
  rewrite Hcols. f_equal.
  - unfold csv_header, headers, text_of. now rewrite Ha, Hh.
  - unfold csv_row_count. rewrite Hc. f_equal. apply map_ext_in.
    intros r Hr. apply in_seq in Hr. f_equal.
    unfold csv_row, text_of. rewrite Ha, Hn, (Hrows r) by lia. reflexivity.
Qed.

(** X28. Head mode shows the table of the file.  [main] parses only
    [max (limit, 100)] rows when it needs no more; the schema inferred
    from that head with the default sample of 100 rows, and the CSV written
    from it for the first [limit] rows of any selection of columns, are
    those a full parse of the same bytes gives. *)
Theorem head_mode_shows_the_table
        (arm_neon : bool) (r : CsvReader) (d : ascii) (limit : nat)
        (col_indices : option (list nat)) (delimiter : ascii) :
  let h := parse_head arm_neon r d (Nat.max limit 100) in
  let t := parse r d in
  infer_schema h 100 = infer_schema t 100
  /\ render_csv h None col_indices limit delimiter
     = render_csv t None col_indices limit delimiter.
Proof.
  cbv zeta. split.
  - apply infer_schema_same_head, parse_head_same_head. lia.
  - apply render_csv_same_head, parse_head_same_head. lia.
Qed.

(** ** Views stay inside the file *)

Lemma In_firstn {A : Type} (n : nat) (l : list A) (x : A) :
  In x (firstn n l) -> In x l.
Proof.
  revert l. induction n as [|n IH]; intros [|y l]; cbn [firstn]; auto.
  - intros [].
  - intros [->|H]; [now left|right; now apply IH].
Qed.

Lemma view_below_le (a b : nat) (v : string_view) :
  a <= b -> view_below a v -> view_below b v.
Proof. destruct v; cbn; [lia|auto]. Qed.

Lemma scan_field_below (base : list ascii) (end_ : nat) (d : ascii)
      (i : nat) :
  i < end_ -> view_below end_ (fst (scan_field base end_ d i)).
Proof.
  intros Hi. unfold scan_field.
  destruct (at_ base i =? DQUOTE)%char; cbn [fst view_below].
  - pose proof (skip_quoted_bounds base end_ (end_ - (i + 1)) (i + 1)
                  ltac:(lia)) as Hb.
    destruct (Nat.ltb_spec (skip_quoted base end_ (end_ - (i + 1)) (i + 1))
                           end_); lia.
  - pose proof (skip_unquoted_bounds base end_ d (end_ - i) i ltac:(lia)).
    lia.
Qed.

Lemma line_fields_loop_below (base : list ascii) (end_ : nat) (d : ascii)
      (fuel i : nat) (acc : list string_view) :
  Forall (view_below end_) acc ->
  Forall (view_below end_) (line_fields_loop base end_ d fuel i acc).
Proof.
  revert i acc. induction fuel as [|fuel IH]; intros i acc Hacc;
    cbn [line_fields_loop]; [assumption|].
  destruct (Nat.ltb_spec i end_) as [Hi|]; [|assumption].
  pose proof (scan_field_below base end_ d i Hi) as Hf.
  destruct (scan_field base end_ d i) as [fld i']. cbn [fst] in Hf.
  apply IH. apply Forall_app. split; [assumption|]. now constructor.
Qed.

Lemma parse_line_fields_below (base : list ascii) (start end_ : nat)
      (d : ascii) :
  Forall (view_below end_) (parse_line_fields base start end_ d).
Proof.
  unfold parse_line_fields. destruct (start =? end_); [constructor|].
  pose proof (line_fields_loop_below base end_ d (end_ - start) start []
                (Forall_nil _)) as Hl.
  destruct (_ && _); [|assumption].
  apply Forall_app. split; [assumption|].
  constructor; [cbn; lia|constructor].
Qed.

Lemma row_cells_below (base : list ascii) (d : ascii) (ncols : nat)
      (line : nat * nat) :
  Forall (view_below (snd line)) (row_cells base d ncols line).
Proof.
  unfold row_cells, append_row_fields.
  rewrite append_loop_spec by lia. rewrite Nat.sub_0_r. cbn [app Nat.add].
  set (raw := line_fields_loop base (snd line) d (snd line - fst line)
                               (fst line) []).
  assert (Hraw : Forall (view_below (snd line)) (firstn ncols raw)).
  { apply Forall_forall. intros v Hv. apply In_firstn in Hv.
    revert v Hv. apply Forall_forall.
    apply line_fields_loop_below. constructor. }
  destruct (_ && _ && _); rewrite pad_loop_spec;
    repeat (apply Forall_app; split); try assumption;
    try (apply Forall_forall; intros v Hv; apply repeat_spec in Hv;
         subst v; exact I).
  constructor; [exact I|constructor].
Qed.

Lemma body_lines_below (base : list ascii) (total fuel pos : nat) :
  pos <= total ->
  Forall (fun line => snd line <= total) (body_lines base total fuel pos).
Proof.
  revert pos. induction fuel as [|fuel IH]; intros pos Hp;
    cbn [body_lines]; [constructor|].
  destruct (Nat.ltb_spec pos total) as [Hlt|]; [|constructor].
  pose proof (find_line_end_bounds base total pos Hp) as Hb.
  pose proof (line_step_progress base total pos Hlt) as Hn.
  set (e := find_line_end base total pos) in *.
  assert (Ha : (if (pos <? e) && (at_ base (e - 1) =? CR)%char
                then e - 1 else e) <= total).
  { destruct (_ && _); lia. }
  destruct (_ =? pos); [apply IH; lia|].
  constructor; [exact Ha|apply IH; lia].
Qed.

Lemma table_cells_below (base : list ascii) (d : ascii) (ncols total : nat)
      (lines : list (nat * nat)) :
  Forall (fun line => snd line <= total) lines ->
  Forall (view_below total) (concat (map (row_cells base d ncols) lines)).
Proof.
  induction lines as [|line lines IH]; intros Hl; [constructor|].
  inversion Hl; subst. cbn [map concat]. apply Forall_app. split.
  - eapply Forall_impl; [|apply row_cells_below].
    intros v. now apply view_below_le.
  - now apply IH.
Qed.

Lemma parse_header_below (r : CsvReader) (d : ascii) :
  Forall (view_below (file_size_ r))
         (headers_ (fst (parse_header (clear r) d)))
  /\ snd (parse_header (clear r) d) <= file_size_ r.
Proof.
  unfold parse_header, clear, file_size_. cbn [addr].
  destruct (length (addr r) =? 0); cbn [fst snd headers_];
    [split; [constructor|lia]|].
  pose proof (find_line_end_bounds (addr r) (length (addr r)) 0
                ltac:(lia)) as Hb.
  set (e := find_line_end (addr r) (length (addr r)) 0) in *.
  split.
  - eapply Forall_impl; [|apply parse_line_fields_below].
    intros v. apply view_below_le. destruct (_ && _); lia.
  - unfold next_pos. destruct (Nat.ltb_spec e (length (addr r))); lia.
Qed.

Lemma row_sublist (r : CsvReader) (i : nat) (v : string_view) :
  In v (row r i) -> In v (fields_ r).
Proof.
  unfold row. intros Hv. apply In_firstn in Hv.
  revert Hv. generalize (i * ncols_ r). intros n. revert n.
  induction (fields_ r) as [|x l IH]; intros [|n]; cbn [skipn]; auto.
  - intros Hv. right. now apply (IH n).
Qed.

(** X29. No view leaves the file.  After a full parse or a head parse of
    any bytes, every header view and every cell view of every row is the
    null view or lies inside the bytes of the file: its offset plus its
    length is at most the file size. *)
Theorem views_stay_inside_the_file
        (arm_neon : bool) (r : CsvReader) (d : ascii) (max_rows : nat) :
  let inside := view_below (file_size_ r) in
  let t := parse r d in
  let h := parse_head arm_neon r d max_rows in
  Forall inside (headers t) /\ (forall i, Forall inside (row t i))
  /\ Forall inside (headers h) /\ (forall i, Forall inside (row h i)).
Proof.
  cbv zeta.
  destruct (parse_header_below r d) as [Hh Hpos].
  destruct (parse_headers r d) as [Hht _].
  pose proof (parse_head_headers arm_neon r d max_rows) as Hhh.
  assert (Hlines : Forall (fun line => snd line <= file_size_ r)
                          (data_lines r d)).
  { unfold data_lines. now apply body_lines_below. }
  assert (Hft : Forall (view_below (file_size_ r)) (fields_ (parse r d))).
  { destruct (parse_table r d) as [_ Ht].
    destruct (Nat.eq_dec (ncols_ (parse r d)) 0) as [E|E].
    - pose proof (parse_stride r d) as Hs. rewrite E, Nat.mul_0_r in Hs.
      apply length_zero_iff_nil in Hs. rewrite Hs. constructor.
    - destruct (Ht E) as [-> _]. now apply table_cells_below. }
  assert (Hfh : Forall (view_below (file_size_ r))
                       (fields_ (parse_head arm_neon r d max_rows))).
  { destruct (parse_head_rows_prefix arm_neon r d max_rows) as [_ ->].
    apply Forall_forall. intros v Hv. apply In_firstn in Hv.
    revert v Hv. now apply Forall_forall. }
  unfold headers. rewrite Hhh, Hht.
  repeat split; try assumption;
    intros i; apply Forall_forall; intros v Hv; apply row_sublist in Hv;
    revert v Hv; now apply Forall_forall.
Qed.

(** ** What the filters select *)









Lemma first_named_unique (names : list (list ascii)) (wanted : list ascii)
      (i j : nat) :
  first_named names wanted i -> first_named names wanted j -> i = j.
Proof.
  intros (_ & Hi & Hfi) (_ & Hj & Hfj).
  destruct (Nat.lt_trichotomy i j) as [Hlt|[Heq|Hgt]]; [|assumption|].
  - elim (Hfj i Hlt Hi).
  - elim (Hfi j Hgt Hj).
Qed.

Lemma find_header_first_named (names : list (list ascii))
      (wanted : list ascii) (i : nat) :
  find_header names wanted 0 = Some i <-> first_named names wanted i.
Proof.
  split.
  - intros Hf. destruct (find_header_first names wanted 0 i Hf)
      as (Hb & Hn & Hfirst).
    rewrite Nat.sub_0_r in *. repeat split; [lia|assumption|assumption].
  - intros Hi. destruct (find_header names wanted 0) as [j|] eqn:Hf.
    + f_equal. apply (first_named_unique names wanted); [|assumption].
      destruct (find_header_first names wanted 0 j Hf) as (Hb & Hn & Hfirst).
      rewrite Nat.sub_0_r in *. repeat split; [lia|assumption|assumption].
    + apply find_header_none in Hf. destruct Hi as (Hl & Hn & _).
      elim Hf. rewrite <- Hn. now apply nth_In.
Qed.

Section FilterFacts.
Context {D : DoubleOps}.
Variable stod : list ascii -> option double.



Lemma any_matches_existsb (reader : CsvReader) (rw : list string_view)
      (ci : bool) (resolved : list ResolvedFilter) :
  any_matches stod reader rw ci resolved
  = existsb (fun rf => row_matches stod (addr reader) rw (ncols_ reader)
                                   (rf_filter rf) (col_idx rf) (col_type rf)
                                   ci) resolved.
Proof.
  induction resolved as [|rf rest IH]; cbn [any_matches existsb];
    [reflexivity|].
  rewrite IH. now destruct (row_matches _ _ _ _ _ _ _ _).
Qed.

Lemma all_matches_forallb (reader : CsvReader) (rw : list string_view)
      (ci : bool) (resolved : list ResolvedFilter) :
  all_matches stod reader rw ci resolved
  = forallb (fun rf => row_matches stod (addr reader) rw (ncols_ reader)
                                   (rf_filter rf) (col_idx rf) (col_type rf)
                                   ci) resolved.
Proof.
  induction resolved as [|rf rest IH]; cbn [all_matches forallb];
    [reflexivity|].
  rewrite IH. now destruct (row_matches _ _ _ _ _ _ _ _).
Qed.

(** Each resolved filter is its filter with the first header of its name
    and the type the schema gives that column. *)
Lemma resolve_filters_resolved (reader : CsvReader)
      (schema : list ColumnSchema) (ci : bool) (filters : list Filter) :
  forall resolved,
    resolve_filters reader schema ci filters [] = inr resolved ->
    Forall2 (fun f rf =>
               rf_filter rf = f
               /\ first_named (lookup_names ci reader) (lookup_key ci f)
                              (col_idx rf)
               /\ col_type rf = type_at schema (col_idx rf))
            filters resolved.
Proof.
  induction filters as [|f rest IH]; intros resolved; cbn [resolve_filters].
  - intros [= <-]. constructor.
  - fold (lookup_key ci f). fold (lookup_names ci reader).
    destruct (find_header (lookup_names ci reader) (lookup_key ci f) 0)
      as [i|] eqn:Hf; [|discriminate].
    rewrite resolve_filters_app.
    destruct (resolve_filters reader schema ci rest []) as [e|out];
      [discriminate|].
    intros [= <-]. cbn [app]. constructor; [|now apply IH].
    cbn [rf_filter col_idx col_type]. split; [reflexivity|].
    split; [now apply find_header_first_named|reflexivity].
Qed.

(** C7. Whenever [apply_filters] returns, its list is strictly ascending
    and holds exactly the indices of the parsed rows that match: under OR
    the rows that [row_matches] accepts for at least one of the resolved
    filters, under AND the rows it accepts for every one of them.  With no
    filter it returns every row index under AND and none under OR, and
    raises nothing in either case. *)
Theorem apply_filters_ascending :
  (forall (filters : list Filter) (reader : CsvReader)
          (schema : list ColumnSchema) (ci or_logic : bool)
          (indices : list nat),
      apply_filters stod filters reader schema ci or_logic = inr indices ->
      StronglySorted lt indices
      /\ exists resolved,
           resolve_filters reader schema ci filters [] = inr resolved
           /\ map rf_filter resolved = filters
           /\ forall r,
                In r indices <->
                r < row_count reader
                /\ let matches rf :=
                     row_matches stod (addr reader) (row reader r)
                                 (ncols_ reader) (rf_filter rf) (col_idx rf)
                                 (col_type rf) ci in
                   (if or_logic then existsb matches resolved
                    else forallb matches resolved) = true) /\
  (forall (reader : CsvReader) (schema : list ColumnSchema) (ci : bool),
      apply_filters stod [] reader schema ci false
      = inr (seq 0 (row_count reader))) /\
  (forall (reader : CsvReader) (schema : list ColumnSchema) (ci : bool),
      apply_filters stod [] reader schema ci true = inr []).
Proof.
  split; [|split].
  - intros filters reader schema ci or_logic indices. unfold apply_filters.
    destruct (resolve_filters reader schema ci filters []) as [e|resolved]
      eqn:Hres; [discriminate|].
    intros [= <-].
    destruct (filter_rows_spec stod reader resolved ci or_logic
                               (row_count reader) 0 [])
      as (H1 & _ & H3); [constructor|constructor|].
    split; [exact H1|]. exists resolved. split; [reflexivity|]. split.
    { apply resolve_filters_resolved in Hres. clear H1 H3.
      induction Hres as [|f rf l m (Hf & _) _ IH]; [reflexivity|].
      cbn [map]. now rewrite Hf, IH. }
    intros r. rewrite H3. cbn [In]. cbv zeta. unfold row_passes.
    rewrite any_matches_existsb, all_matches_forallb. split.
    + intros [[]|[Hr Hp]]. split; [lia|exact Hp].
    + intros [Hr Hp]. right. split; [lia|exact Hp].
  - intros. unfold apply_filters. cbn [resolve_filters].
    now rewrite filter_rows_no_filters_and.
  - intros. unfold apply_filters. cbn [resolve_filters].
    now rewrite filter_rows_no_filters_or.
Qed.


End FilterFacts.

(** On the exact rationals the relation of an operator is the order of
    the numbers themselves. *)
Lemma number_relation_exact (o : FilterOp) (x y : Q) :
  @number_relation ExactOps o x y <->
  match o with
  | Eq => (x == y)%Q
  | Neq => ~ (x == y)%Q
  | Gt => (y < x)%Q
  | Lt => (x < y)%Q
  | Gte => (y <= x)%Q
  | Lte => (x <= y)%Q
  | Contains | StartsWith | EndsWith => False
  end.
Proof.
  destruct o; cbn [number_relation]; try reflexivity.
  - apply Qeq_bool_iff.
  - change (@deqb ExactOps x y) with (Qeq_bool x y).
    rewrite <- Qeq_bool_iff. destruct (Qeq_bool x y); split; congruence.
  - apply exact_ltb.
  - apply exact_ltb.
  - apply Qle_bool_iff.
  - apply Qle_bool_iff.
Qed.

Lemma apply_filters_ascending_witness :
  (@apply_filters ExactOps stod_integral [age_under_31; name_is_bob]
                  (parse (open ages_csv) ",") ages_schema false true
   = inr [0; 1]
   /\ StronglySorted lt [0; 1])
  /\ (@apply_filters ExactOps stod_integral [age_over_30; name_is_bob]
                     (parse (open ages_csv) ",") ages_schema false false
      = inr [1]
      /\ StronglySorted lt [1]).
Proof.
  split.
  - assert (H : @apply_filters ExactOps stod_integral
                  [age_under_31; name_is_bob] (parse (open ages_csv) ",")
                  ages_schema false true = inr [0; 1])
      by (vm_compute; reflexivity).
    split; [exact H|].
    exact (proj1 (proj1 (@apply_filters_ascending ExactOps stod_integral)
                        _ _ _ _ _ _ H)).
  - assert (H : @apply_filters ExactOps stod_integral
                  [age_over_30; name_is_bob] (parse (open ages_csv) ",")
                  ages_schema false false = inr [1])
      by (vm_compute; reflexivity).
    split; [exact H|].
    exact (proj1 (proj1 (@apply_filters_ascending ExactOps stod_integral)
                        _ _ _ _ _ _ H)).
Defined.


(** ** The scenarios of the specification and the tests of the repository *)

Example scenario_basic_parse :
  let t := parse (open people_csv) "," in
  texts people_csv (headers t) = [str "name"; str "age"]
  /\ row_count t = 2
  /\ texts people_csv (row t 0) = [str "Alice"; str "30"]
  /\ texts people_csv (row t 1) = [str "Bob"; str "25"].
Proof. vm_compute. repeat split; reflexivity. Qed.

Example scenario_quoted_pipes :
  @detect_delimiter Binary64Ops quoted_pipes_csv (length quoted_pipes_csv) 10
  = PIPE
  /\ let t := parse (open quoted_pipes_csv) "|" in
     sv_text quoted_pipes_csv (nth 0 (row t 0) NullView)
     = [DQUOTE] ++ str "x,y" ++ [DQUOTE]
     /\ unquote (sv_text quoted_pipes_csv (nth 0 (row t 0) NullView))
        = str "x,y".
Proof. vm_compute. repeat split; reflexivity. Qed.

Example scenario_head_of_ten (arm_neon : bool) :
  let t := parse_head arm_neon (open ten_rows_csv) "," 3 in
  row_count t = 3 /\ total_rows t = 10.
Proof. destruct arm_neon; vm_compute; split; reflexivity. Qed.

Example scenario_age_filter :
  @apply_filters Binary64Ops (@stod_integral Binary64Ops)
                 [mkFilter (str "age") Gt (str "30")]
                 (parse (open three_ages_csv) ",")
                 (infer_schema (parse (open three_ages_csv) ",") 100)
                 false false
  = inr [2].
Proof. vm_compute. reflexivity. Qed.

Example scenario_bool_column :
  map type (infer_schema (parse (open bools_csv) ",") 100) = [Bool].
Proof. vm_compute. reflexivity. Qed.

Example test_detect_sample_lines :
  @detect_delimiter Binary64Ops tabs_then_commas_csv
                    (length tabs_then_commas_csv) 3 = TAB.
Proof. vm_compute. reflexivity. Qed.

Example test_detect_empty :
  @detect_delimiter Binary64Ops [] 0 10 = COMMA.
Proof. reflexivity. Qed.

Example test_enum_column :
  map type (infer_schema (parse (open two_values_csv) ",") 100) = [Enum].
Proof. vm_compute. reflexivity. Qed.

Example test_column_types :
  map (fun lines => map type (infer_schema (parse (open (file_of lines)) ",")
                                           100))
      [["val"; "1"; "-2"; "+3"; "42"; "0"; "100"];
       ["val"; "1.5"; "-2.3"; "0.0"; "3.14"];
       ["val"; "2024-01-15"; "2023-12-31"; "2020-06-01"];
       ["val"; "$12.99"; "$0.50"];
       ["val"; "123"; "hello"; "2024-01-01"]]%string
  = [[Int64]; [Float64]; [Date]; [Currency]; [Text]].
Proof. vm_compute. reflexivity. Qed.

Example test_unquote :
  unquote (DQUOTE :: str "a" ++ [DQUOTE; DQUOTE] ++ str "b" ++ [DQUOTE])
  = str "a" ++ [DQUOTE] ++ str "b"
  /\ unquote [DQUOTE; DQUOTE; DQUOTE; DQUOTE] = [DQUOTE]
  /\ unquote [DQUOTE; DQUOTE] = []
  /\ unquote [] = [].
Proof. vm_compute. repeat split; reflexivity. Qed.

(** Binary64 at the edge of the range the laws speak of: sums of integers
    below [2^53] are exact and the quotient just below 2 compares below 2;
    one past the range a sum is rounded. *)
Example binary64_at_the_edge :
  @dadd Binary64Ops (d_of_Z (2 ^ 53 - 2)) (d_of_Z 1) = d_of_Z (2 ^ 53 - 1)
  /\ @dltb Binary64Ops (ddiv (d_of_Z (2 ^ 53 - 1)) (d_of_Z (2 ^ 52)))
           (d_of_Z 2) = true
  /\ @dltb Binary64Ops (ddiv (d_of_Z (2 ^ 53)) (d_of_Z (2 ^ 52)))
           (d_of_Z 2) = false
  /\ @dadd Binary64Ops (d_of_Z (2 ^ 53)) (d_of_Z 1) = d_of_Z (2 ^ 53)
  /\ @dltb Binary64Ops (d_of_Z (-1)) (d_of_Z 0) = true.
Proof. vm_compute. repeat split; reflexivity. Qed.
